(** * Maze (Labyrinth): board, game state and winner computation

    A shallow embedding of [Common/utils.py], [Common/tile.py],
    [Common/board.py], [Common/state.py] and of the winner computation of
    [Referee/referee.py], with the properties of the rules engine proved
    about it.

    Conventions of the embedding:
    - Python [int] is [Z]; [%] and [//] are [Z.modulo] and [Z.div], which
      round like Python's (towards minus infinity, sign of the divisor).
    - A [dict] or [set] whose iteration order is never observed is a [gmap]
      or a [gset]; the [OrderedDict] of players, whose order is the turn
      order, is an association list.
    - A method that may raise returns a [result]: [Ok v] or [Raise e]. *)

From Stdlib Require Import ZArith Lia.
From stdpp Require Import base option list gmap sets strings relations.

Local Open Scope Z_scope.

(** ** Exceptions and the [result] monad *)

Inductive Exception : Type :=
  | IndexError
  | ValueError
  | KeyError
  | ShiftNotAllowedError
  | NoMorePlayersError
  | UndoNotAllowedError
  | OffroadingError
  | ZeroMovementError
  | TurnContractViolation
  | SecretAccessError
  | PlayerListModificationError
  | StopIteration
  | LoopBudgetExhausted.
(* [LoopBudgetExhausted] is not a Python exception: it is what the bounded
   model of the [while] loop of [reachable_destinations] answers when its
   step budget runs out; [reachable_destinations_returns] shows that this
   never happens. *)

#[global] Instance Exception_eq_dec : EqDecision Exception.
Proof. solve_decision. Defined.

Inductive result (A : Type) : Type :=
  | Ok (a : A)
  | Raise (e : Exception).
Arguments Ok {A} a.
Arguments Raise {A} e.

#[global] Instance result_eq_dec `{EqDecision A} : EqDecision (result A).
Proof. solve_decision. Defined.

#[global] Instance result_ret : MRet result := λ A a, Ok a.
#[global] Instance result_bind : MBind result := λ A B f r,
  match r with
  | Ok a => f a
  | Raise e => Raise e
  end.

(** [check c e]: go on when [c] holds, raise [e] otherwise
    ([if not c: raise e]). *)
Definition check (c : bool) (e : Exception) : result unit :=
  if c then Ok tt else Raise e.

(** [d[k]] on a dict: [KeyError] when the key is absent. *)
Definition getitem `{Countable K} {V} (d : gmap K V) (k : K) : result V :=
  match d !! k with
  | Some v => Ok v
  | None => Raise KeyError
  end.

(** ** Common/utils.py *)

Record Coord : Type := mkCoord { col : Z; row : Z }.

#[global] Instance Coord_eq_dec : EqDecision Coord.
Proof. solve_decision. Defined.

#[global] Instance Coord_countable : Countable Coord.
Proof.
  refine (inj_countable' (λ c, (col c, row c)) (λ p, mkCoord p.1 p.2) _).
  by intros [].
Defined.

Definition squared_euclidean_distance (coord1 coord2 : Coord) : Z :=
  (row coord1 - row coord2) ^ 2 + (col coord1 - col coord2) ^ 2.

(** ** Common/tile.py *)

Inductive Direction : Type := UP | RIGHT | DOWN | LEFT.

#[global] Instance Direction_eq_dec : EqDecision Direction.
Proof. solve_decision. Defined.

Definition all_directions : list Direction := [UP; RIGHT; DOWN; LEFT].

(** [all_directions.index(self)] *)
Definition direction_index (d : Direction) : Z :=
  match d with UP => 0 | RIGHT => 1 | DOWN => 2 | LEFT => 3 end.

#[global] Instance Direction_countable : Countable Direction.
Proof.
  refine (inj_countable' (λ d, Z.to_nat (direction_index d))
            (λ n, match n with
                  | O => UP | S O => RIGHT | S (S O) => DOWN | _ => LEFT
                  end) _).
  by intros [].
Defined.

(** [Direction.rotated]: [rotation] clockwise quarter turns. *)
Definition rotated (d : Direction) (rotation : Z) : Direction :=
  match (direction_index d + rotation) mod 4 with
  | 0 => UP
  | 1 => RIGHT
  | 2 => DOWN
  | _ => LEFT
  end.

Definition flip (d : Direction) : Direction := rotated d 2.

Definition dx (d : Direction) : Z :=
  match d with UP => 0 | RIGHT => 1 | DOWN => 0 | LEFT => -1 end.

Definition dy (d : Direction) : Z :=
  match d with UP => -1 | RIGHT => 0 | DOWN => 1 | LEFT => 0 end.

Definition is_vertical (d : Direction) : bool :=
  match d with UP | DOWN => true | _ => false end.

Definition is_horizontal (d : Direction) : bool :=
  match d with LEFT | RIGHT => true | _ => false end.

Inductive TileShape : Type := LINE | CORNER | TEE | CROSS.

#[global] Instance TileShape_eq_dec : EqDecision TileShape.
Proof. solve_decision. Defined.

(** [TileShape.connected_directions] *)
Definition shape_connected_directions (s : TileShape) : gset Direction :=
  match s with
  | LINE => {[UP; DOWN]}
  | CORNER => {[UP; RIGHT]}
  | TEE => {[RIGHT; DOWN; LEFT]}
  | CROSS => {[UP; RIGHT; DOWN; LEFT]}
  end.

(** A gem is the value string of its [Gem] member; [Gem.__lt__] compares
    these strings. *)
Definition Gem : Type := string.

Definition gem_ltb (g1 g2 : Gem) : bool := String.ltb g1 g2.

(** [>] as [functools.total_ordering] derives it from [__lt__]:
    [not (g1 < g2) and g1 != g2]. *)
Definition gem_gtb (g1 g2 : Gem) : bool :=
  negb (gem_ltb g1 g2) && negb (bool_decide (g1 = g2)).

(** The builtins [min] and [max] on two arguments keep the first unless
    the second is strictly smaller, respectively strictly greater. *)
Definition gem_min (g1 g2 : Gem) : Gem := if gem_ltb g2 g1 then g2 else g1.
Definition gem_max (g1 g2 : Gem) : Gem := if gem_gtb g2 g1 then g2 else g1.

Definition Treasure : Type := Gem * Gem.

Record Tile : Type := mkTile {
  shape : TileShape;
  rotation : Z;
  gems : Treasure
}.

#[global] Instance Tile_eq_dec : EqDecision Tile.
Proof. solve_decision. Defined.

(** [Tile.__init__] *)
Definition Tile_init (shape : TileShape) (rotation : Z) (gems : Treasure)
  : result Tile :=
  if bool_decide (rotation < 0 ∨ rotation > 3) then Raise ValueError
  else Ok (mkTile shape rotation (gem_min gems.1 gems.2, gem_max gems.1 gems.2)).

(** The entry of [Tile._connected_direction_map] at [(shape, rotation)].
    The table has an entry for each rotation in [range(4)], which are the
    only rotations [Tile_init] lets a tile have. *)
Definition connected_direction_map (sr : TileShape * Z) : gset Direction :=
  set_map (λ d, rotated d sr.2) (shape_connected_directions sr.1).

Definition connected_directions (t : Tile) : gset Direction :=
  connected_direction_map (shape t, rotation t).

(** [Tile.rotate] *)
Definition rotate (t : Tile) (new_rotation : Z) : result Tile :=
  Tile_init (shape t) new_rotation (gems t).

(** [TileShape.unique_rotations] *)
Definition unique_rotations (s : TileShape) : list Z :=
  match s with
  | LINE => [0; 1]
  | CORNER => [0; 1; 2; 3]
  | TEE => [0; 1; 2; 3]
  | CROSS => [0]
  end.

(** [Tile.__eq__], on two tiles. *)
Definition Tile_eqb (t other : Tile) : bool :=
  bool_decide (shape t = shape other)
  && bool_decide (connected_directions t = connected_directions other)
  && bool_decide (gems t = gems other).

(** ** Common/board.py *)

Record BoardEdit : Type := mkBoardEdit {
  replacements : gmap Coord Coord;
  deletions : gset Coord
}.

Record Board : Type := mkBoard {
  tiles : gmap Coord Tile;
  width : Z;
  height : Z
}.

(** The coordinates visited by [for x in range(width): for y in
    range(height)]. *)
Definition rectangle (width height : Z) : list Coord :=
  x ← seqZ 0 width; (λ y, mkCoord x y) <$> seqZ 0 height.

Definition _count_missing_keys (tiles : gmap Coord Tile) (width height : Z) : Z :=
  Z.of_nat (length (filter (λ c, tiles !! c = None) (rectangle width height))).

(** [Board.validate_tile_gems] *)
Definition validate_tile_gems (tiles : list Tile) : result unit :=
  let gem_set : gset Treasure := list_to_set (gems <$> tiles) in
  check (bool_decide (size gem_set = length tiles)) ValueError.

(** [list(tiles.values())] *)
Definition values (tiles : gmap Coord Tile) : list Tile :=
  (map_to_list tiles).*2.

(** [Board.__init__] *)
Definition Board_init (tiles : gmap Coord Tile) (width height : Z) : result Board :=
  check (negb (bool_decide (width ≤ 0 ∨ height ≤ 0))) ValueError;;
  let missing_keys := _count_missing_keys tiles width height in
  check (negb (bool_decide (missing_keys > 0))) ValueError;;
  check (negb (bool_decide (Z.of_nat (size tiles) + missing_keys > width * height)))
    ValueError;;
  validate_tile_gems (values tiles);;
  Ok (mkBoard tiles width height).

Definition with_tiles (b : Board) (new_tiles : gmap Coord Tile) : result Board :=
  Board_init new_tiles (width b) (height b).

Definition is_moveable_row_or_column (which_index : Z) : bool :=
  bool_decide (which_index mod 2 = 0).

Definition get_valid_insert_locations (b : Board) (direction : Direction)
  : gset Coord :=
  if is_vertical direction then
    let row := if decide (direction = DOWN) then 0 else height b - 1 in
    if negb (is_moveable_row_or_column row) then ∅
    else list_to_set ((λ col, mkCoord col row) <$>
           filter (λ col, is_moveable_row_or_column col) (seqZ 0 (width b)))
  else
    let col := if decide (direction = RIGHT) then 0 else width b - 1 in
    if negb (is_moveable_row_or_column col) then ∅
    else list_to_set ((λ row, mkCoord col row) <$>
           filter (λ row, is_moveable_row_or_column row) (seqZ 0 (height b))).

Definition assert_in_bounds (b : Board) (which_coord : Coord) : result unit :=
  check (bool_decide (0 ≤ col which_coord < width b)) IndexError;;
  check (bool_decide (0 ≤ row which_coord < height b)) IndexError.

Definition assert_valid_shift_and_insert (b : Board) (which_coord : Coord)
    (direction : Direction) : result unit :=
  assert_in_bounds b which_coord;;
  check (is_moveable_row_or_column (col which_coord)
         && is_moveable_row_or_column (row which_coord)) ShiftNotAllowedError;;
  check (bool_decide (which_coord ∈ get_valid_insert_locations b direction))
    ValueError.

(** The dict comprehension
    [{coord_replacements.get(coord, coord): tile
      for (coord, tile) in self.tiles.items() if coord != dropped_coord}].
    The map forgets the insertion order of the dict, which decides the
    entry that survives when two coordinates are sent to the same key; on
    a board built by [Board_init] no two are (see [moved_tiles_lookup]). *)
Definition moved_tiles (tiles : gmap Coord Tile)
    (coord_replacements : gmap Coord Coord) (dropped_coord : Coord)
  : gmap Coord Tile :=
  list_to_map
    ((λ ct, (default ct.1 (coord_replacements !! ct.1), ct.2)) <$>
       filter (λ ct, ct.1 ≠ dropped_coord) (map_to_list tiles)).

Definition _slide_row (b : Board) (which_row : Z) (direction : Direction)
  : result (gmap Coord Tile * Tile * BoardEdit) :=
  let dropped_coord :=
    if decide (direction = LEFT) then mkCoord 0 which_row
    else mkCoord (width b - 1) which_row in
  let dx := dx direction in
  let coord_replacements : gmap Coord Coord :=
    list_to_map ((λ x, (mkCoord x which_row, mkCoord (x + dx) which_row)) <$>
      filter (λ x, 0 ≤ x + dx < width b) (seqZ 0 (width b))) in
  let new_tiles := moved_tiles (tiles b) coord_replacements dropped_coord in
  let board_edit := mkBoardEdit coord_replacements {[dropped_coord]} in
  dropped ← getitem (tiles b) dropped_coord;
  Ok (new_tiles, dropped, board_edit).

Definition _slide_column (b : Board) (which_col : Z) (direction : Direction)
  : result (gmap Coord Tile * Tile * BoardEdit) :=
  let dropped_coord :=
    if decide (direction = UP) then mkCoord which_col 0
    else mkCoord which_col (height b - 1) in
  let dy := dy direction in
  let coord_replacements : gmap Coord Coord :=
    list_to_map ((λ y, (mkCoord which_col y, mkCoord which_col (y + dy))) <$>
      filter (λ y, 0 ≤ y + dy < height b) (seqZ 0 (height b))) in
  let new_tiles := moved_tiles (tiles b) coord_replacements dropped_coord in
  let board_edit := mkBoardEdit coord_replacements {[dropped_coord]} in
  dropped ← getitem (tiles b) dropped_coord;
  Ok (new_tiles, dropped, board_edit).

Definition slide_and_insert_tile (b : Board) (which_coord : Coord)
    (direction : Direction) (tile : Tile) : result (Board * Tile * BoardEdit) :=
  assert_valid_shift_and_insert b which_coord direction;;
  '(new_tiles, new_spare, edit) ←
    (if is_vertical direction then _slide_column b (col which_coord) direction
     else _slide_row b (row which_coord) direction);
  new_board ← with_tiles b (<[which_coord := tile]> new_tiles);
  Ok (new_board, new_spare, edit).

(** [Board._adjacent_tiles] *)
Definition _adjacent_tiles (b : Board) (which_coord : Coord)
  : list (Direction * Coord) :=
  match tiles b !! which_coord with
  | None => []
  | Some current_tile =>
      filter (λ dc, is_Some (tiles b !! dc.2))
        ((λ direction,
            (direction, mkCoord (col which_coord + dx direction)
                                (row which_coord + dy direction))) <$>
           elements (connected_directions current_tile))
  end.

(** [Board._neighbors] *)
Definition _neighbors (b : Board) (which_coord : Coord) : list Coord :=
  omap (λ dc,
          match tiles b !! dc.2 with
          | Some other_tile =>
              if decide (flip dc.1 ∈ connected_directions other_tile)
              then Some dc.2 else None
          | None => None
          end)
       (_adjacent_tiles b which_coord).

(** The [for neighbor in self._neighbors(current)] loop of
    [reachable_destinations]. The stack [frontier] has its top (the end of
    the Python list) at the head. *)
Definition visit_neighbors (reachable : gset Coord) (neighbors : list Coord)
    (frontier : list Coord) (seen : gset Coord) : list Coord * gset Coord :=
  foldl (λ fs neighbor,
           if decide ((neighbor ∉ reachable) ∧ (neighbor ∉ fs.2))
           then (neighbor :: fs.1, {[neighbor]} ∪ fs.2)
           else fs)
        (frontier, seen) neighbors.

(** The [while len(frontier) > 0] loop, run for at most [budget] tests of
    its condition. *)
Fixpoint search_loop (budget : nat) (b : Board) (frontier : list Coord)
    (reachable seen : gset Coord) : result (gset Coord) :=
  match budget with
  | O => Raise LoopBudgetExhausted
  | S budget =>
      match frontier with
      | [] => Ok reachable
      | current :: frontier =>
          let reachable := {[current]} ∪ reachable in
          let fs := visit_neighbors reachable (_neighbors b current) frontier seen in
          search_loop budget b fs.1 reachable fs.2
      end
  end.

Definition reachable_destinations (b : Board) (start_coord : Coord)
  : result (gset Coord) :=
  assert_in_bounds b start_coord;;
  search_loop (2 * size (tiles b) + 2) b [start_coord] ∅ ∅.

(** [Board.get_tile] *)
Definition get_tile (b : Board) (which_coord : Coord) : result Tile :=
  assert_in_bounds b which_coord;;
  getitem (tiles b) which_coord.


(** [Board.get_all_fixed_tiles] *)
Definition get_all_fixed_tiles (b : Board) : list Coord :=
  row ← filter (λ row, ¬ is_moveable_row_or_column row) (seqZ 0 (height b));
  (λ col, mkCoord col row) <$>
    filter (λ col, ¬ is_moveable_row_or_column col) (seqZ 0 (width b)).

(** [==] on two dicts of tiles: as many keys, and each key of the first
    is a key of the second with an equal tile. *)
Definition tiles_eqb (tiles other : gmap Coord Tile) : bool :=
  bool_decide (size tiles = size other)
  && bool_decide (map_Forall (λ c t,
       Is_true (match other !! c with
                | Some t' => Tile_eqb t t'
                | None => false
                end)) tiles).

(** [Board.__eq__], on two boards. *)
Definition Board_eqb (b other : Board) : bool :=
  tiles_eqb (tiles b) (tiles other)
  && bool_decide (width b = width other)
  && bool_decide (height b = height other).

(** ** Common/state.py *)

Record ShiftOp : Type := mkShiftOp {
  insert_location : Coord;
  direction : Direction
}.

#[global] Instance ShiftOp_eq_dec : EqDecision ShiftOp.
Proof. solve_decision. Defined.

#[global] Instance ShiftOp_countable : Countable ShiftOp.
Proof.
  refine (inj_countable' (λ op, (insert_location op, direction op))
            (λ p, mkShiftOp p.1 p.2) _).
  by intros [].
Defined.

(** [ShiftOp.reverse] *)
Definition reverse (op : ShiftOp) (b : Board) : ShiftOp :=
  if is_vertical (direction op) then
    let col := col (insert_location op) in
    let row := if decide (row (insert_location op) = 0) then height b - 1 else 0 in
    mkShiftOp (mkCoord col row) (flip (direction op))
  else
    let col := if decide (col (insert_location op) = 0) then width b - 1 else 0 in
    let row := row (insert_location op) in
    mkShiftOp (mkCoord col row) (flip (direction op)).

Inductive PrevActionKind : Type := EMPTY | PARTIAL_TURN | COMPLETE_TURN.

#[global] Instance PrevActionKind_eq_dec : EqDecision PrevActionKind.
Proof. solve_decision. Defined.

Inductive PrevAction : Type :=
  | EmptyPrevAction
  | PartialTurnPrevAction (shift : ShiftOp)
  | CompleteTurnPrevAction (shift : ShiftOp).

#[global] Instance PrevAction_eq_dec : EqDecision PrevAction.
Proof. solve_decision. Defined.

Definition kind (a : PrevAction) : PrevActionKind :=
  match a with
  | EmptyPrevAction => EMPTY
  | PartialTurnPrevAction _ => PARTIAL_TURN
  | CompleteTurnPrevAction _ => COMPLETE_TURN
  end.

Record PlayerSecret : Type := mkPlayerSecret {
  treasure_location : Coord;
  is_going_home : bool;
  treasure_count : Z
}.

Definition set_is_going_home (self : PlayerSecret) : PlayerSecret :=
  mkPlayerSecret (treasure_location self) true (treasure_count self + 1).

Definition set_new_goal (self : PlayerSecret) (new_goal : Coord) : PlayerSecret :=
  mkPlayerSecret new_goal false (treasure_count self + 1).

Definition Color : Type := Z * Z * Z.

Record PlayerState : Type := mkPlayerState {
  home_location : Coord;
  location : Coord;
  color : Color;
  name : string
}.

Definition with_location (self : PlayerState) (new_location : Coord) : PlayerState :=
  mkPlayerState (home_location self) new_location (color self) (name self).

Definition move_with_board (self : PlayerState) (edit : BoardEdit)
    (position_if_deleted : Coord) : PlayerState :=
  if decide (location self ∈ deletions edit) then
    with_location self position_if_deleted
  else
    match replacements edit !! location self with
    | Some new_location => with_location self new_location
    | None => self
    end.

(** The two concrete classes; [GameState] itself is abstract. *)
Inductive StateClass : Type := RestrictedGameState | RefereeGameState.

(** The players are kept as the [OrderedDict] has them: in turn order,
    keyed by the colour string. *)
Record GameState : Type := mkGameState {
  subclass : StateClass;
  player_states : list (string * PlayerState);
  player_secrets : gmap string PlayerSecret;
  spare_tile : Tile;
  board : Board;
  prev_action : PrevAction;
  current_player_index : Z
}.

(** [self.num_players] and [self.player_colors], which [__init__] computes
    from [player_states]. *)
Definition num_players (s : GameState) : Z := Z.of_nat (length (player_states s)).
Definition player_colors (s : GameState) : list string := (player_states s).*1.

(** Operations of the ordered dict and of lists. *)
Definition od_getitem {V} (d : list (string * V)) (k : string) : result V :=
  match list_find (λ kv, kv.1 = k) d with
  | Some (_, kv) => Ok kv.2
  | None => Raise KeyError
  end.

Definition od_pop {V} (d : list (string * V)) (k : string)
  : result (list (string * V)) :=
  if decide (k ∈ d.*1) then Ok (filter (λ kv, kv.1 ≠ k) d) else Raise KeyError.

Definition dict_pop {V} (d : gmap string V) (k : string) : result (gmap string V) :=
  if decide (is_Some (d !! k)) then Ok (delete k d) else Raise KeyError.

(** [l[i]], where a negative index counts from the end. *)
Definition list_getitem {A} (l : list A) (i : Z) : result A :=
  let i := if decide (i < 0) then i + Z.of_nat (length l) else i in
  if decide (0 ≤ i) then
    match l !! Z.to_nat i with
    | Some a => Ok a
    | None => Raise IndexError
    end
  else Raise IndexError.

(** [l.index(x)] *)
Definition list_index (l : list string) (x : string) : result Z :=
  match list_find (λ y, y = x) l with
  | Some (i, _) => Ok (Z.of_nat i)
  | None => Raise ValueError
  end.

Fixpoint for_each {A} (f : A → result unit) (l : list A) : result unit :=
  match l with
  | [] => Ok tt
  | a :: l => f a;; for_each f l
  end.

Definition validate_spare_tile_gems (board : Board) (spare_tile : Tile)
  : result unit :=
  validate_tile_gems (values (tiles board) ++ [spare_tile]).

Definition _validate_player_states (board : Board)
    (player_states : list (string * PlayerState)) : result unit :=
  check (negb (bool_decide (Z.of_nat (length player_states) < 1))) ValueError;;
  for_each (λ player_state,
      assert_in_bounds board (location player_state);;
      assert_in_bounds board (home_location player_state);;
      check (negb (is_moveable_row_or_column (col (home_location player_state))
                   || is_moveable_row_or_column (row (home_location player_state))))
        ValueError)
    player_states.*2.

Definition _validate_player_secrets (board : Board)
    (player_secrets : gmap string PlayerSecret) : result unit :=
  for_each (λ player_secret, assert_in_bounds board (treasure_location player_secret))
    (map_to_list player_secrets).*2.

(** The checks that [RestrictedGameState.__init__] and
    [RefereeGameState.__init__] run after those of the base class. *)
Definition subclass_init (cls : StateClass)
    (player_states : list (string * PlayerState))
    (player_secrets : gmap string PlayerSecret) (board : Board) : result unit :=
  match cls with
  | RestrictedGameState =>
      check (negb (bool_decide (size player_secrets ≠ 1%nat))) ValueError;;
      _validate_player_secrets board player_secrets;;
      match head (map_to_list player_secrets) with
      | Some (player_color, _) =>
          check (bool_decide (player_color ∈ player_states.*1)) KeyError
      | None => Raise StopIteration
      end
  | RefereeGameState =>
      check (negb (bool_decide (dom player_secrets ≠ list_to_set player_states.*1)))
        ValueError;;
      _validate_player_secrets board player_secrets
  end.

(** [GameState.__init__], as the two subclasses run it: the checks of the
    base class and then those of the subclass. *)
Definition GameState_init (cls : StateClass)
    (player_states : list (string * PlayerState))
    (player_secrets : gmap string PlayerSecret)
    (spare_tile : Tile) (board : Board) (prev_action : PrevAction)
    (starting_player_index : Z) : result GameState :=
  validate_spare_tile_gems board spare_tile;;
  _validate_player_states board player_states;;
  check (bool_decide (0 ≤ starting_player_index < Z.of_nat (length player_states)))
    IndexError;;
  subclass_init cls player_states player_secrets board;;
  Ok (mkGameState cls player_states player_secrets spare_tile board prev_action
        starting_player_index).

(** [self.player_color] of a [RestrictedGameState]: the single key of
    [player_secrets], as [__init__] sets it. *)
Definition player_color (s : GameState) : option string :=
  fst <$> head (map_to_list (player_secrets s)).

Definition current_player_color (s : GameState) : result string :=
  list_getitem (player_colors s) (current_player_index s).

Definition current_player_state (s : GameState) : result PlayerState :=
  player_color ← current_player_color s;
  od_getitem (player_states s) player_color.

Definition can_get_player_secret (s : GameState) (color : string) : bool :=
  match subclass s with
  | RestrictedGameState => bool_decide (Some color = player_color s)
  | RefereeGameState => bool_decide (color ∈ dom (player_secrets s))
  end.

(** In the restricted class the secret read is
    [self.player_secrets[self.player_color]], and [color] is that colour
    once the check has passed. *)
Definition get_player_secret (s : GameState) (color : string) : result PlayerSecret :=
  match subclass s with
  | RestrictedGameState =>
      check (can_get_player_secret s color) SecretAccessError;;
      getitem (player_secrets s) color
  | RefereeGameState => getitem (player_secrets s) color
  end.

Definition get_current_player_secret (s : GameState) : result PlayerSecret :=
  player_color ← current_player_color s;
  get_player_secret s player_color.

Definition get_current_player_treasure_location (s : GameState) : result Coord :=
  secret ← get_current_player_secret s;
  Ok (treasure_location secret).

Definition is_reachable_by_current_player (s : GameState) (which_coord : Coord)
  : result bool :=
  player_state ← current_player_state s;
  reachable ← reachable_destinations (board s) (location player_state);
  Ok (bool_decide (which_coord ∈ reachable)).

Definition is_current_player_at_treasure (s : GameState) : result bool :=
  player_state ← current_player_state s;
  treasure ← get_current_player_treasure_location s;
  Ok (bool_decide (location player_state = treasure)).

Definition is_current_player_at_home (s : GameState) : result bool :=
  player_state ← current_player_state s;
  Ok (bool_decide (location player_state = home_location player_state)).

(** [GameState.current_player_name] *)
Definition current_player_name (s : GameState) : result string :=
  player_state ← current_player_state s;
  Ok (name player_state).

(** [GameState.can_get_current_player_secret] *)
Definition can_get_current_player_secret (s : GameState) : result bool :=
  player_color ← current_player_color s;
  Ok (can_get_player_secret s player_color).

(** [self._copy_builder. ... .build()]: the constructor of the state's own
    class, applied to the fields the builder holds. *)
Definition build (s : GameState) : result GameState :=
  GameState_init (subclass s) (player_states s) (player_secrets s) (spare_tile s)
    (board s) (prev_action s) (current_player_index s).

Definition set_player_states (v : list (string * PlayerState)) (s : GameState) :=
  mkGameState (subclass s) v (player_secrets s) (spare_tile s) (board s)
    (prev_action s) (current_player_index s).
Definition set_player_secrets (v : gmap string PlayerSecret) (s : GameState) :=
  mkGameState (subclass s) (player_states s) v (spare_tile s) (board s)
    (prev_action s) (current_player_index s).
Definition set_spare_tile (v : Tile) (s : GameState) :=
  mkGameState (subclass s) (player_states s) (player_secrets s) v (board s)
    (prev_action s) (current_player_index s).
Definition set_board (v : Board) (s : GameState) :=
  mkGameState (subclass s) (player_states s) (player_secrets s) (spare_tile s) v
    (prev_action s) (current_player_index s).
Definition set_prev_action (v : PrevAction) (s : GameState) :=
  mkGameState (subclass s) (player_states s) (player_secrets s) (spare_tile s)
    (board s) v (current_player_index s).
Definition set_starting_player_index (v : Z) (s : GameState) :=
  mkGameState (subclass s) (player_states s) (player_secrets s) (spare_tile s)
    (board s) (prev_action s) v.

Definition rotate_spare_tile (s : GameState) (degrees : Z) : result GameState :=
  check (negb (bool_decide (degrees mod 90 ≠ 0))) ValueError;;
  check (negb (bool_decide (kind (prev_action s) = PARTIAL_TURN)))
    TurnContractViolation;;
  let relative_rotation := degrees / 90 in
  let new_rotation := (relative_rotation + rotation (spare_tile s)) mod 4 in
  new_spare ← rotate (spare_tile s) new_rotation;
  build (set_spare_tile new_spare s).

(** The test [self.prev_action.kind is not PrevActionKind.EMPTY and
    operation.reverse(self.board) == self.prev_action.shift]. *)
Definition undoes_prev_action (s : GameState) (operation : ShiftOp) : bool :=
  match prev_action s with
  | EmptyPrevAction => false
  | PartialTurnPrevAction shift | CompleteTurnPrevAction shift =>
      bool_decide (reverse operation (board s) = shift)
  end.

Definition shift_tiles (s : GameState) (operation : ShiftOp) : result GameState :=
  check (negb (bool_decide (kind (prev_action s) = PARTIAL_TURN)))
    TurnContractViolation;;
  check (negb (undoes_prev_action s operation)) UndoNotAllowedError;;
  '(new_board, new_spare, edit) ←
    slide_and_insert_tile (board s) (insert_location operation)
      (direction operation) (spare_tile s);
  let new_players :=
    (λ cs, (cs.1, move_with_board cs.2 edit (insert_location operation))) <$>
      player_states s in
  build (set_prev_action (PartialTurnPrevAction operation)
           (set_board new_board (set_spare_tile new_spare
              (set_player_states new_players s)))).

Definition move_current_player (s : GameState) (dest_coord : Coord)
  : result GameState :=
  assert_in_bounds (board s) dest_coord;;
  match prev_action s with
  | PartialTurnPrevAction shift =>
      player_state ← current_player_state s;
      check (negb (bool_decide (dest_coord = location player_state)))
        ZeroMovementError;;
      reachable ← is_reachable_by_current_player s dest_coord;
      check reachable OffroadingError;;
      player_color ← current_player_color s;
      let new_players :=
        (λ cs, if decide (cs.1 = player_color)
               then (cs.1, with_location cs.2 dest_coord) else cs) <$>
          player_states s in
      (* [self.prev_action.complete()] *)
      build (set_prev_action (CompleteTurnPrevAction shift)
               (set_player_states new_players s))
  | _ => Raise TurnContractViolation
  end.

Definition get_legal_shift_ops (s : GameState) : gset ShiftOp :=
  if bool_decide (kind (prev_action s) = PARTIAL_TURN) then ∅
  else
    let legal_shift_ops : gset ShiftOp :=
      ⋃ ((λ direction,
            set_map (λ coord, mkShiftOp coord direction)
              (get_valid_insert_locations (board s) direction)) <$>
           all_directions) in
    match prev_action s with
    | EmptyPrevAction => legal_shift_ops
    | PartialTurnPrevAction shift | CompleteTurnPrevAction shift =>
        legal_shift_ops ∖ {[reverse shift (board s)]}
    end.

Definition get_legal_move_destinations (s : GameState) : result (gset Coord) :=
  player_state ← current_player_state s;
  let current_player_location := location player_state in
  if negb (bool_decide (kind (prev_action s) = PARTIAL_TURN)) then Ok ∅
  else
    result ← reachable_destinations (board s) current_player_location;
    Ok (result ∖ {[current_player_location]}).

Definition get_last_shift_op (s : GameState) : option ShiftOp :=
  match prev_action s with
  | EmptyPrevAction => None
  | PartialTurnPrevAction shift | CompleteTurnPrevAction shift => Some shift
  end.

Definition end_current_turn (s : GameState) : result GameState :=
  let new_player_index := current_player_index s + 1 in
  let new_player_index :=
    if bool_decide (new_player_index >= Z.of_nat (length (player_states s)))
    then 0 else new_player_index in
  build (set_starting_player_index new_player_index s).

Definition eject_current_player (s : GameState) : result GameState :=
  match subclass s with
  | RestrictedGameState => Raise PlayerListModificationError
  | RefereeGameState =>
      check (negb (bool_decide (num_players s = 1))) NoMorePlayersError;;
      current_player_color ← current_player_color s;
      new_player_states ← od_pop (player_states s) current_player_color;
      new_player_secrets ← dict_pop (player_secrets s) current_player_color;
      let new_player_index := current_player_index s in
      let new_player_index :=
        if bool_decide (new_player_index >= Z.of_nat (length new_player_states))
        then 0 else new_player_index in
      build (set_starting_player_index new_player_index
               (set_player_secrets new_player_secrets
                  (set_player_states new_player_states s)))
  end.

Definition eject_player (s : GameState) (color : string) : result GameState :=
  match subclass s with
  | RestrictedGameState => Raise PlayerListModificationError
  | RefereeGameState =>
      if negb (bool_decide (color ∈ player_colors s)) then Ok s
      else
        check (negb (bool_decide (num_players s = 1))) NoMorePlayersError;;
        new_player_states ← od_pop (player_states s) color;
        new_player_secrets ← dict_pop (player_secrets s) color;
        ejected_player_index ← list_index (player_colors s) color;
        let new_player_index :=
          if bool_decide (ejected_player_index < current_player_index s) then
            current_player_index s - 1
          else if bool_decide (ejected_player_index = current_player_index s)
                  && bool_decide (current_player_index s
                                  >= Z.of_nat (length new_player_states))
          then 0
          else current_player_index s in
        build (set_starting_player_index new_player_index
                 (set_player_secrets new_player_secrets
                    (set_player_states new_player_states s)))
  end.

Definition set_current_player_new_goal (s : GameState) (new_goal : Coord)
  : result GameState :=
  player_color ← current_player_color s;
  if negb (can_get_player_secret s player_color) then Ok s
  else
    at_treasure ← is_current_player_at_treasure s;
    if negb at_treasure then Ok s
    else
      player_state ← od_getitem (player_states s) player_color;
      secret ← getitem (player_secrets s) player_color;
      let new_secrets :=
        if bool_decide (new_goal = home_location player_state) then
          <[player_color := set_is_going_home secret]> (player_secrets s)
        else
          <[player_color := set_new_goal secret new_goal]> (player_secrets s) in
      build (set_player_secrets new_secrets s).

(** ** Referee/referee.py: the winners of a game *)

Definition order_by_game_progress (player_info : PlayerState * PlayerSecret)
  : Z * Z :=
  let '(player_state, player_secret) := player_info in
  let goal_location :=
    if is_going_home player_secret then home_location player_state
    else treasure_location player_secret in
  (treasure_count player_secret,
   - squared_euclidean_distance (location player_state) goal_location).

(** [>] on pairs of integers: lexicographic. *)
Definition progress_gtb (a b : Z * Z) : bool :=
  bool_decide (a.1 > b.1) || (bool_decide (a.1 = b.1) && bool_decide (a.2 > b.2)).

(** The builtin [max] on a sequence of pairs: the first of the greatest
    elements, [ValueError] on an empty sequence. *)
Definition max_progress (l : list (Z * Z)) : result (Z * Z) :=
  match l with
  | [] => Raise ValueError
  | x :: l => Ok (foldl (λ m y, if progress_gtb y m then y else m) x l)
  end.

Record GameOutcome (Player : Type) : Type := mkGameOutcome {
  winners : list Player;
  ejected : list Player
}.
Arguments mkGameOutcome {Player} winners ejected.
Arguments winners {Player} g.
Arguments ejected {Player} g.

(** The list [players_with_progress] of [_check_winners]. *)
Definition players_with_progress (state : GameState)
  : result (list (string * (Z * Z))) :=
  mapM (λ color,
          player_state ← od_getitem (player_states state) color;
          player_secret ← get_player_secret state color;
          Ok (color, order_by_game_progress (player_state, player_secret)))
       (player_colors state).

(** The value of the local [winners] of [_check_winners] when it is handed
    to [_outcome_with_winners]. *)
Definition winning_colors (state : GameState) (player_trigger_color : option string)
  : result (list string) :=
  players_with_progress ← players_with_progress state;
  max_game_progress ← max_progress players_with_progress.*2;
  let winners :=
    (filter (λ cp, cp.2 = max_game_progress) players_with_progress).*1 in
  match player_trigger_color with
  | Some trigger =>
      if bool_decide (Z.of_nat (length winners) > 1) && bool_decide (trigger ∈ winners)
      then Ok [trigger] else Ok winners
  | None => Ok winners
  end.

Section Referee.
Context {Player : Type}.

(** The order of [ejected] is that of a Python set of strings, which is
    not fixed; the model lists it in the order of [elements]. *)
Definition _outcome_with_winners (winners : list string) (state : GameState)
    (players : gmap string Player) : result (GameOutcome Player) :=
  let ejected_names : gset string :=
    dom players ∖ list_to_set (player_colors state) in
  winners ← mapM (getitem players) winners;
  ejected ← mapM (getitem players) (elements ejected_names);
  Ok (mkGameOutcome winners ejected).

Definition _check_winners (state : GameState) (players : gmap string Player)
    (player_trigger_color : option string) : result (GameOutcome Player) :=
  winners ← winning_colors state player_trigger_color;
  _outcome_with_winners winners state players.
End Referee.

(** ** Players/strategy.py *)

Inductive TurnAction : Type :=
  | TurnPass
  | TurnWithMove (degrees : Z) (shift : ShiftOp) (movement : Coord).

#[global] Instance TurnAction_eq_dec : EqDecision TurnAction.
Proof. solve_decision. Defined.

(** The sort keys are tuples of integers, which [<] compares
    lexicographically. *)
Definition key_ltb (a b : Z * Z * Z) : bool :=
  bool_decide (a.1.1 < b.1.1)
  || (bool_decide (a.1.1 = b.1.1)
      && (bool_decide (a.1.2 < b.1.2)
          || (bool_decide (a.1.2 = b.1.2) && bool_decide (a.2 < b.2)))).

(** [sorted(l, key=key)], and [l.sort(key=key)]: the sort is stable, so
    its result is the one of insertion sort, each element going behind the
    elements before it that are not greater. *)
Fixpoint insert_by_key {A} (key : A → Z * Z * Z) (x : A) (l : list A) : list A :=
  match l with
  | [] => [x]
  | y :: l' =>
      if key_ltb (key x) (key y) then x :: y :: l'
      else y :: insert_by_key key x l'
  end.

Definition sorted {A} (key : A → Z * Z * Z) (l : list A) : list A :=
  foldl (λ acc x, insert_by_key key x acc) [] l.

Definition order_shift_by_row_first (shift : ShiftOp) : Z * Z * Z :=
  let is_horizontal := is_horizontal (direction shift) in
  (if is_horizontal then 0 else 1,
   if is_horizontal then row (insert_location shift)
   else col (insert_location shift),
   dy (direction shift) + dx (direction shift)).

Definition order_coords_by_row_column (coord : Coord) : Z * Z :=
  let '(column, row) := (col coord, row coord) in
  (row, column).

(** The methods that a [FirstViableMoveStrategy] overrides. *)
Class FirstViableMoveStrategy : Type := {
  movement_exploration_order : GameState → result (list Coord);
  shift_exploration_order : GameState → result (list ShiftOp);
  rotation_exploration_order : GameState → result (list Z)
}.

(** The expression [state.rotate_spare_tile(degrees).shift_tiles(shift)
    .get_legal_move_destinations()] of [get_action]. *)
Definition destinations_after (state : GameState) (shift : ShiftOp) (degrees : Z)
  : result (gset Coord) :=
  rotated ← rotate_spare_tile state degrees;
  shifted ← shift_tiles rotated shift;
  get_legal_move_destinations shifted.

Section get_action.
Context `{FirstViableMoveStrategy}.

(** The three nested loops of [FirstViableMoveStrategy.get_action]; each
    returns the action found, if any, and the cache. *)
Fixpoint get_action_rotations (state : GameState) (dest : Coord) (shift : ShiftOp)
    (rotations : list Z) (cache : gmap (ShiftOp * Z) (gset Coord))
  : result (option TurnAction * gmap (ShiftOp * Z) (gset Coord)) :=
  match rotations with
  | [] => Ok (None, cache)
  | degrees :: rotations =>
      let cache_key := (shift, degrees) in
      '(reachable_destinations, cache) ←
        match cache !! cache_key with
        | Some reachable_destinations => Ok (reachable_destinations, cache)
        | None =>
            reachable_destinations ← destinations_after state shift degrees;
            Ok (reachable_destinations,
                <[cache_key := reachable_destinations]> cache)
        end;
      if decide (dest ∈ reachable_destinations)
      then Ok (Some (TurnWithMove degrees shift dest), cache)
      else get_action_rotations state dest shift rotations cache
  end.

Fixpoint get_action_shifts (state : GameState) (dest : Coord)
    (shifts : list ShiftOp) (cache : gmap (ShiftOp * Z) (gset Coord))
  : result (option TurnAction * gmap (ShiftOp * Z) (gset Coord)) :=
  match shifts with
  | [] => Ok (None, cache)
  | shift :: shifts =>
      rotations ← rotation_exploration_order state;
      '(found, cache) ← get_action_rotations state dest shift rotations cache;
      match found with
      | Some action => Ok (Some action, cache)
      | None => get_action_shifts state dest shifts cache
      end
  end.

Fixpoint get_action_dests (state : GameState) (dests : list Coord)
    (cache : gmap (ShiftOp * Z) (gset Coord))
  : result (option TurnAction * gmap (ShiftOp * Z) (gset Coord)) :=
  match dests with
  | [] => Ok (None, cache)
  | dest :: dests =>
      shifts ← shift_exploration_order state;
      '(found, cache) ← get_action_shifts state dest shifts cache;
      match found with
      | Some action => Ok (Some action, cache)
      | None => get_action_dests state dests cache
      end
  end.

Definition get_action (state : GameState) : result TurnAction :=
  dests ← movement_exploration_order state;
  '(found, _) ← get_action_dests state dests ∅;
  Ok (default TurnPass found).
End get_action.

(** The goal of the current player, as both strategies compute it. *)
Definition strategy_goal_location (state : GameState) : result Coord :=
  secret ← get_current_player_secret state;
  let has_treasure := is_going_home secret in
  if has_treasure then
    player_state ← current_player_state state;
    Ok (home_location player_state)
  else get_current_player_treasure_location state.

(** The cells visited by [itertools.product(range(height), range(width))]
    that are not the goal. *)
Definition non_goal_coords (state : GameState) (goal_location : Coord)
  : list Coord :=
  filter (λ c, c ≠ goal_location)
    (row ← seqZ 0 (height (board state));
     (λ col, mkCoord col row) <$> seqZ 0 (width (board state))).

(** [RiemannStrategy.movement_exploration_order] *)
Definition riemann_movement_exploration_order (state : GameState)
  : result (list Coord) :=
  goal_location ← strategy_goal_location state;
  Ok (goal_location :: non_goal_coords state goal_location).

(** [EuclidStrategy.movement_exploration_order] *)
Definition euclid_movement_exploration_order (state : GameState)
  : result (list Coord) :=
  goal_location ← strategy_goal_location state;
  Ok (goal_location ::
      sorted (λ coord,
                (squared_euclidean_distance goal_location coord,
                 (order_coords_by_row_column coord).1,
                 (order_coords_by_row_column coord).2))
        (non_goal_coords state goal_location)).

(** [shift_exploration_order], which [RiemannStrategy] and [EuclidStrategy]
    define alike. *)
Definition sorted_legal_shift_ops (state : GameState) : result (list ShiftOp) :=
  let legal_shifts := get_legal_shift_ops state in
  Ok (sorted order_shift_by_row_first (elements legal_shifts)).

(** The two strategies; [rotation_exploration_order] is [[0, 270, 180, 90]]
    in both. *)
Definition RiemannStrategy : FirstViableMoveStrategy := {|
  movement_exploration_order := riemann_movement_exploration_order;
  shift_exploration_order := sorted_legal_shift_ops;
  rotation_exploration_order := λ _, Ok [0; 270; 180; 90]
|}.

Definition EuclidStrategy : FirstViableMoveStrategy := {|
  movement_exploration_order := euclid_movement_exploration_order;
  shift_exploration_order := sorted_legal_shift_ops;
  rotation_exploration_order := λ _, Ok [0; 270; 180; 90]
|}.

(** The order of the sort keys, and lists in ascending order of their keys. *)
Definition key_lt (a b : Z * Z * Z) : Prop :=
  a.1.1 < b.1.1
  ∨ (a.1.1 = b.1.1 ∧ (a.1.2 < b.1.2 ∨ (a.1.2 = b.1.2 ∧ a.2 < b.2))).

(** [l] is in ascending order of its keys. *)
Definition ascending {A} (key : A → Z * Z * Z) (l : list A) : Prop :=
  ∀ (i j : nat) x y, (i < j)%nat → l !! i = Some x → l !! j = Some y →
    ¬ key_lt (key y) (key x).

(** The search that [get_action] is documented to make, without its
    cache: the candidates in the order of the three loops, and the first
    of them whose destination can be reached after its rotation and
    shift. *)
Definition candidates (dests : list Coord) (shifts : list ShiftOp)
    (rotations : list Z) : list (Coord * ShiftOp * Z) :=
  dest ← dests; shift ← shifts; degrees ← rotations; [(dest, shift, degrees)].

Definition viable (state : GameState) (candidate : Coord * ShiftOp * Z) : bool :=
  match destinations_after state candidate.1.2 candidate.2 with
  | Ok reachable => bool_decide (candidate.1.1 ∈ reachable)
  | Raise _ => false
  end.

Definition first_viable (state : GameState) (dests : list Coord)
    (shifts : list ShiftOp) (rotations : list Z) : TurnAction :=
  match List.find (viable state) (candidates dests shifts rotations) with
  | Some (dest, shift, degrees) => TurnWithMove degrees shift dest
  | None => TurnPass
  end.

(** Each entry of the cache is what the expression it stands for returns. *)
Definition cache_ok (state : GameState)
    (cache : gmap (ShiftOp * Z) (gset Coord)) : Prop :=
  ∀ shift degrees reachable,
    cache !! (shift, degrees) = Some reachable →
    destinations_after state shift degrees = Ok reachable.

(** ** Referee/referee.py: the state a player is shown *)

(** One round of the loop of [_restrict_game_state] over
    [state.player_states.items()]. The locals are
    [before_this_player_states], [after_this_player_states] and the pair of
    [player_color_str] and [player_state], which is bound from the first
    player of the colour on: [player_found] is true exactly when the pair
    is bound. *)
Definition _restrict_game_state_step (player_color : Color)
    (locals : list (string * PlayerState) * list (string * PlayerState)
              * option (string * PlayerState))
    (item : string * PlayerState)
  : list (string * PlayerState) * list (string * PlayerState)
    * option (string * PlayerState) :=
  let '(before_this_player_states, after_this_player_states, found) := locals in
  if decide (color item.2 = player_color) then
    (before_this_player_states, after_this_player_states, Some item)
  else
    match found with
    | Some _ =>
        (before_this_player_states, after_this_player_states ++ [item], found)
    | None =>
        (before_this_player_states ++ [item], after_this_player_states, found)
    end.

(** [Referee._restrict_game_state]. When no player has the colour,
    [player_color_str] is read while it is unbound and Python raises
    [UnboundLocalError]: this is the result [None]. *)
Definition _restrict_game_state (state : GameState) (player_color : Color)
  : option (result GameState) :=
  let '(before_this_player_states, after_this_player_states, found) :=
    foldl (_restrict_game_state_step player_color) ([], [], None)
      (player_states state) in
  match found with
  | None => None
  | Some (player_color_str, player_state) =>
      Some (secret ← get_player_secret state player_color_str;
            GameState_init RestrictedGameState
              ((player_color_str, player_state)
                 :: after_this_player_states ++ before_this_player_states)
              {[ player_color_str := secret ]}
              (spare_tile state) (board state) (prev_action state) 0)
  end.

(** ** Players/player.py *)

(** [PlayerSetupImpl.setup]: the player takes the first player of
    [state0] for itself. *)
Definition PlayerSetupImpl_setup (state0 : GameState) (goal : Coord)
  : result (PlayerState * PlayerSecret) :=
  player_state ← list_getitem (player_states state0).*2 0;
  Ok (player_state, mkPlayerSecret goal false 0).

(** [PlayerGameplayImpl.take_turn], of a player that holds the secret
    [_player_secret] and whose strategy is a [FirstViableMoveStrategy]. *)
Definition take_turn `{FirstViableMoveStrategy} (_player_secret : PlayerSecret)
    (s : GameState) : result TurnAction :=
  player_color ← current_player_color s;
  new_state ← GameState_init RestrictedGameState (player_states s)
                {[ player_color := _player_secret ]}
                (spare_tile s) (board s) (prev_action s) (current_player_index s);
  get_action new_state.

(** ** Common/JSON: serializers.py, deserializers.py, utils.py

    The JSON values are modelled at the types definitions.py gives them:
    an [ActionJson] is the list of an integer and a string, a
    [ChoiceWithMoveJson] the list of an integer, a string, an integer and a
    [CoordinateJson], and a [CoordinateJson] a dict with the two keys
    "row#" and "column#". On these, the assertion of
    [get_turn_action_from_json] on the length of the list holds and
    [int(choice_json[0])] is the integer itself. *)

(** The outcome of a function that returns a value or reaches
    [assert_never], which raises [AssertionError]. *)
Inductive asserting (A : Type) : Type :=
  | Returns (a : A)
  | AssertionError.
Arguments Returns {A} a.
Arguments AssertionError {A}.

Module JSON.


Definition ActionJson : Type := Z * string.



(** [direction.name] *)
Definition direction_to_json (direction : Direction) : string :=
  match direction with
  | UP => "UP"
  | RIGHT => "RIGHT"
  | DOWN => "DOWN"
  | LEFT => "LEFT"
  end.

Definition shift_op_to_json (shift_op : ShiftOp) : ActionJson :=
  let is_vertical := is_vertical (direction shift_op) in
  let col := col (insert_location shift_op) in
  let row := row (insert_location shift_op) in
  let index := if is_vertical then col else row in
  (index, direction_to_json (direction shift_op)).


(** [table[tile.shape, tile.rotation]] *)
Definition _get_tile_connector (tile : Tile) : result string :=
  match shape tile, rotation tile with
  | LINE, 0 => Ok "│"
  | LINE, 1 => Ok "─"
  | LINE, 2 => Ok "│"
  | LINE, 3 => Ok "─"
  | CORNER, 0 => Ok "└"
  | CORNER, 1 => Ok "┌"
  | CORNER, 2 => Ok "┐"
  | CORNER, 3 => Ok "┘"
  | TEE, 0 => Ok "┬"
  | TEE, 1 => Ok "┤"
  | TEE, 2 => Ok "┴"
  | TEE, 3 => Ok "├"
  | CROSS, 0 => Ok "┼"
  | CROSS, 1 => Ok "┼"
  | CROSS, 2 => Ok "┼"
  | CROSS, 3 => Ok "┼"
  | _, _ => Raise KeyError
  end.

(** The last shift as [game_state_to_json] writes it under "last". *)
Definition last_shift_json (state : GameState) : option ActionJson :=
  match get_last_shift_op state with
  | Some last_shift => Some (shift_op_to_json last_shift)
  | None => None
  end.

(** [table[connector]] *)
Definition get_connector (connector : string) : result (TileShape * Z) :=
  od_getitem
    [ ("│", (LINE, 0)); ("─", (LINE, 1));
      ("└", (CORNER, 0)); ("┌", (CORNER, 1)); ("┐", (CORNER, 2));
      ("┘", (CORNER, 3));
      ("┬", (TEE, 0)); ("┤", (TEE, 1)); ("┴", (TEE, 2)); ("├", (TEE, 3));
      ("┼", (CROSS, 0)) ]
    connector.


Definition get_direction (dir_json : string) : asserting Direction :=
  if decide (dir_json = "LEFT") then Returns LEFT
  else if decide (dir_json = "RIGHT") then Returns RIGHT
  else if decide (dir_json = "UP") then Returns UP
  else if decide (dir_json = "DOWN") then Returns DOWN
  else AssertionError.

Definition calculate_insert_location (index : Z) (direction : Direction)
    (board_width board_height : Z) : Coord :=
  match direction with
  | LEFT => mkCoord (board_width - 1) index
  | RIGHT => mkCoord 0 index
  | UP => mkCoord index (board_height - 1)
  | DOWN => mkCoord index 0
  end.

Definition get_action (action_json : option ActionJson) (board : Board)
  : asserting (option ShiftOp) :=
  match action_json with
  | None => Returns None
  | Some (index, dir_json) =>
      match get_direction dir_json with
      | Returns direction =>
          let insert_location :=
            calculate_insert_location index direction (width board) (height board) in
          Returns (Some (mkShiftOp insert_location direction))
      | AssertionError => AssertionError
      end
  end.



Definition _convert_state_last_to_prev_action (last : option ActionJson)
    (board : Board) : asserting PrevAction :=
  match get_action last board with
  | Returns None => Returns EmptyPrevAction
  | Returns (Some prev_shiftop) => Returns (CompleteTurnPrevAction prev_shiftop)
  | AssertionError => AssertionError
  end.

End JSON.

(** ** Common/gem.py: the pairs of gems *)

(** [Gem.unordered_pairs], where [all_gems] is the list [sorted(Gem)]. *)
Definition unordered_pairs (all_gems : list Gem) : list Treasure :=
  '(idx1, gem1) ← zip (seq 0 (length all_gems)) all_gems;
  omap (λ idx2, (λ gem2, (gem1, gem2)) <$> all_gems !! idx2)
    (seq (idx1 + 1) (length all_gems - (idx1 + 1))).

(** ** Players/player.py: the board a player proposes *)

(** The list [tile_choices] of [propose_board0]. *)
Definition tile_choices : list (TileShape * Z) :=
  shape ← [LINE; CORNER; TEE; CROSS];
  (λ rotation, (shape, rotation)) <$> unique_rotations shape.

Section propose_board0.
(** What the generator [self._random] gives: [drawn] is the list that
    [sample] returns, and [choice n] is what the call number [n] of
    [choice(tile_choices)] returns. [all_gems] is [sorted(Gem)]. *)
Context (all_gems : list Gem) (drawn : list Treasure)
  (choice : nat → TileShape * Z).

(** The tile of one round of the loops:
    [Tile(shape, rotation, treasures[col * columns + row])] for the pair
    that the call number [calls] of [choice] returns. *)
Definition propose_board0_tile (columns : Z) (calls : nat) (cell : Coord)
  : result Tile :=
  let '(shape, rotation) := choice calls in
  gems ← list_getitem drawn (col cell * columns + row cell);
  Tile_init shape rotation gems.

(** The two loops over [range(columns)] and [range(rows)], on the cells
    that are left; [calls] counts the calls of [choice]. *)
Fixpoint propose_board0_loop (columns : Z) (calls : nat)
    (tiles : gmap Coord Tile) (cells : list Coord) : result (gmap Coord Tile) :=
  match cells with
  | [] => Ok tiles
  | cell :: cells =>
      tile ← propose_board0_tile columns calls cell;
      propose_board0_loop columns (S calls) (<[cell := tile]> tiles) cells
  end.

(** [PlayerSetupImpl.propose_board0]. [random.sample] raises [ValueError]
    for a sample larger than the population. *)
Definition propose_board0 (rows columns : Z) : result Board :=
  check (negb (bool_decide (rows < 1) || bool_decide (columns < 1))) ValueError;;
  let total_tiles := rows * columns in
  check (bool_decide (0 ≤ total_tiles
                      ≤ Z.of_nat (length (unordered_pairs all_gems))))
    ValueError;;
  tiles ← propose_board0_loop columns 0 ∅ (rectangle columns rows);
  Board_init tiles columns rows.
End propose_board0.

(** [drawn] is a value [random.sample(population, k)] can return: [k]
    elements of the population, taken at distinct positions. *)
Definition is_sample {A} (population drawn : list A) (k : Z) : Prop :=
  Z.of_nat (length drawn) = k
  ∧ ∃ positions : list nat,
      NoDup positions
      ∧ Forall2 (λ i x, population !! i = Some x) positions drawn.

(** [all_gems] is in strictly ascending order, as [sorted(Gem)] is. *)
Definition ascending_gems (all_gems : list Gem) : Prop :=
  ∀ (i j : nat) g1 g2, (i < j)%nat →
    all_gems !! i = Some g1 → all_gems !! j = Some g2 → gem_ltb g1 g2 = true.

(** ** Well-formed values

    A Python object exists only if its constructor accepted it. The
    predicates below say so for the values of the model: the constructor,
    run on the fields of the value, returns that value. *)

Definition Tile_ok (t : Tile) : Prop :=
  Tile_init (shape t) (rotation t) (gems t) = Ok t.

#[global] Instance Tile_ok_dec (t : Tile) : Decision (Tile_ok t).
Proof. unfold Tile_ok. apply _. Defined.

Definition Board_ok (b : Board) : Prop :=
  Board_init (tiles b) (width b) (height b) = Ok b.

(** A game state: its constructor accepts it, its board, its spare tile and
    the tiles of its board are well formed, and the keys of the ordered
    dict of players are distinct (it is a dict). *)
Record GameState_ok (s : GameState) : Prop := mkGameState_ok {
  state_built : build s = Ok s;
  state_board_ok : Board_ok (board s);
  state_spare_ok : Tile_ok (spare_tile s);
  state_keys_nodup : NoDup (player_colors s);
  state_tiles_ok : map_Forall (λ _ t, Tile_ok t) (tiles (board s))
}.

(** Settle [GameState_ok] of a concrete state by evaluation. *)
Ltac state_ok_by_evaluation :=
  split;
  [ vm_compute; reflexivity | vm_compute; reflexivity | vm_compute; reflexivity
  | apply (bool_decide_unpack _); vm_compute; exact I
  | apply (bool_decide_unpack _); vm_compute; exact I ].

(** ** Concrete values used by the examples *)

Module Examples.

Definition tile (s : TileShape) (r : Z) (g1 g2 : Gem) : Tile := mkTile s r (g1, g2).

(** A 3x3 board:
<<
    ┼ │ ─
    ┼ │ ─
    ┼ │ ─
>>  *)
Definition tiles3 : gmap Coord Tile :=
  list_to_map
    [ (mkCoord 0 0, tile CROSS 0 "a" "b"); (mkCoord 1 0, tile LINE 0 "a" "c");
      (mkCoord 2 0, tile LINE 1 "a" "d");
      (mkCoord 0 1, tile CROSS 0 "a" "e"); (mkCoord 1 1, tile LINE 0 "a" "f");
      (mkCoord 2 1, tile LINE 1 "a" "g");
      (mkCoord 0 2, tile CROSS 0 "a" "h"); (mkCoord 1 2, tile LINE 0 "a" "i");
      (mkCoord 2 2, tile LINE 1 "a" "j") ].

Definition board3 : Board := mkBoard tiles3 3 3.

Definition red : string := "red".
Definition blue : string := "blue".
Definition green : string := "green".

Definition players2 : list (string * PlayerState) :=
  [ (red, mkPlayerState (mkCoord 1 1) (mkCoord 0 0) (255, 0, 0) "ann");
    (blue, mkPlayerState (mkCoord 1 1) (mkCoord 2 0) (0, 0, 255) "bob") ].

Definition secrets2 : gmap string PlayerSecret :=
  list_to_map
    [ (red, mkPlayerSecret (mkCoord 0 1) false 0);
      (blue, mkPlayerSecret (mkCoord 1 1) false 0) ].

Definition spare : Tile := tile TEE 0 "x" "y".

(** The referee's state at the start of a game, and red's view of it. *)
Definition referee0 : GameState :=
  mkGameState RefereeGameState players2 secrets2 spare board3 EmptyPrevAction 0.

Definition restricted0 : GameState :=
  mkGameState RestrictedGameState players2
    {[ red := mkPlayerSecret (mkCoord 0 1) false 0 ]} spare board3
    EmptyPrevAction 0.

(** States of a first turn of [referee0]: red shifts the top row to the
    right and walks to (1, 1). *)
Definition after (r : result GameState) : GameState :=
  match r with Ok s => s | Raise _ => referee0 end.

Definition shift0 : ShiftOp := mkShiftOp (mkCoord 0 0) RIGHT.
Definition referee1 : GameState := after (shift_tiles referee0 shift0).
Definition referee2 : GameState :=
  after (move_current_player referee1 (mkCoord 1 1)).

(** A second turn after [referee2]: the bottom row is shifted to the
    right and red walks to (1, 2). *)
Definition shift_other : ShiftOp := mkShiftOp (mkCoord 0 2) RIGHT.
Definition referee3 : GameState := after (shift_tiles referee2 shift_other).
Definition referee4 : GameState :=
  after (move_current_player referee3 (mkCoord 1 2)).


(** [referee0] when it is blue's turn. *)
Definition referee0_blue : GameState := set_starting_player_index 1 referee0.

(** Two players with the same progress: no treasure yet, each one step
    from its goal. *)
Definition referee_tie : GameState :=
  mkGameState RefereeGameState players2
    (list_to_map
       [ (red, mkPlayerSecret (mkCoord 0 1) false 0);
         (blue, mkPlayerSecret (mkCoord 2 1) false 0) ])
    spare board3 EmptyPrevAction 0.

(** Red stands on its treasure, (0, 1). *)
Definition players_at_treasure : list (string * PlayerState) :=
  [ (red, mkPlayerState (mkCoord 1 1) (mkCoord 0 1) (255, 0, 0) "ann");
    (blue, mkPlayerState (mkCoord 1 1) (mkCoord 2 0) (0, 0, 255) "bob") ].

Definition referee_at_treasure : GameState :=
  mkGameState RefereeGameState players_at_treasure secrets2 spare board3
    (CompleteTurnPrevAction shift0) 0.

Definition restricted_at_treasure : GameState :=
  mkGameState RestrictedGameState players_at_treasure
    {[ red := mkPlayerSecret (mkCoord 0 1) false 0 ]} spare board3
    (CompleteTurnPrevAction shift0) 0.

(** A game with a single player left. *)
Definition solo : GameState :=
  mkGameState RefereeGameState
    [ (red, mkPlayerState (mkCoord 1 1) (mkCoord 0 0) (255, 0, 0) "ann") ]
    {[ red := mkPlayerSecret (mkCoord 0 1) false 0 ]} spare board3
    EmptyPrevAction 0.

End Examples.

(** * Vocabulary of the specification

    The notions that the statements below are written with: positions on
    the board, the line that a shift moves, the progress of a player and
    the edges of the board's graph. *)


(** ** Players *)

(** The index of the current player after the player at position [i] of
    the turn order has been ejected, as the spec words it. *)
Definition index_after_ejection (n current i : Z) : Z :=
  if decide (i < current) then current - 1
  else if decide (i = current ∧ current = n - 1) then 0
  else current.

(** The ranking of players by progress, in the words of the spec: more
    treasures first, then the smaller squared distance from the current
    location to the active goal. *)
Definition active_goal (p : PlayerState * PlayerSecret) : Coord :=
  if is_going_home p.2 then home_location p.1 else treasure_location p.2.

Definition goal_distance (p : PlayerState * PlayerSecret) : Z :=
  squared_euclidean_distance (location p.1) (active_goal p).

(** [ranks_no_lower p q]: [p] is ranked at least as high as [q]. *)
Definition ranks_no_lower (p q : PlayerState * PlayerSecret) : Prop :=
  treasure_count q.2 < treasure_count p.2
  ∨ (treasure_count q.2 = treasure_count p.2 ∧ goal_distance p ≤ goal_distance q).

(** What [players_with_progress] holds: for each colour, in turn order,
    the progress of that player. *)
Definition progress_entry (s : GameState) (c : string) (cp : string * (Z * Z))
  : Prop :=
  cp.1 = c
  ∧ ∃ ps sec, (c, ps) ∈ player_states s ∧ player_secrets s !! c = Some sec
              ∧ cp.2 = order_by_game_progress (ps, sec).


(** ** Boards and lines *)

(** [c] is on the board: what [assert_in_bounds] checks. *)
Definition in_bounds (b : Board) (c : Coord) : Prop :=
  0 ≤ col c < width b ∧ 0 ≤ row c < height b.

(** No two tiles of a map carry the same pair of gems. *)
Definition distinct_gems (tiles : gmap Coord Tile) : Prop :=
  ∀ c1 c2 t1 t2,
    tiles !! c1 = Some t1 → tiles !! c2 = Some t2 → gems t1 = gems t2 → c1 = c2.

(** The cell at the far edge of the line through [coord], in the direction
    of travel [d]: the tile there is pushed off the board. *)
Definition far_edge (b : Board) (coord : Coord) (d : Direction) : Coord :=
  match d with
  | UP => mkCoord (col coord) 0
  | DOWN => mkCoord (col coord) (height b - 1)
  | LEFT => mkCoord 0 (row coord)
  | RIGHT => mkCoord (width b - 1) (row coord)
  end.

(** [c] is on the row (for a horizontal [d]) or the column (for a vertical
    [d]) through [coord]. *)
Definition on_line (coord : Coord) (d : Direction) (c : Coord) : Prop :=
  if is_vertical d then col c = col coord else row c = row coord.

(** One cell further in direction [d]. *)
Definition step (d : Direction) (c : Coord) : Coord :=
  mkCoord (col c + dx d) (row c + dy d).

(** The replacements of a line that slides: [g x] is the coordinate at
    position [x] of the line, [d] the step and [n] the length. *)
Definition line_replacements (g : Z → Coord) (d n : Z) : gmap Coord Coord :=
  list_to_map ((λ x, (g x, g (x + d))) <$>
    filter (λ x, 0 ≤ x + d < n) (seqZ 0 n)).

(** Positions of the tile that drops off and of the tile that comes in. *)
Definition line_last (d n : Z) : Z := if decide (d = 1) then n - 1 else 0.

Definition line_first (d n : Z) : Z := if decide (d = 1) then 0 else n - 1.

(** Where a tile of the board goes. *)
Definition line_move (g : Z → Coord) (d n : Z) (c : Coord) : Coord :=
  default c (line_replacements g d n !! c).

(** The tiles of the board after the line has slid and [tile] has come in. *)
Definition slid_tiles (b : Board) (g : Z → Coord) (d n : Z) (tile : Tile) : gmap Coord Tile :=
  <[g (line_first d n) := tile]>
    (moved_tiles (tiles b) (line_replacements g d n) (g (line_last d n))).

(** The line that slides when a tile is inserted at [coord] in direction
    [d]: its coordinates by position, the position of a coordinate, the step
    and the length. *)
Definition line_of (coord : Coord) (d : Direction) : Z → Coord :=
  if is_vertical d then mkCoord (col coord) else λ x, mkCoord x (row coord).

Definition line_pos (d : Direction) : Coord → Z :=
  if is_vertical d then row else col.

Definition line_step (d : Direction) : Z :=
  if is_vertical d then dy d else dx d.

Definition line_length (b : Board) (d : Direction) : Z :=
  if is_vertical d then height b else width b.

(** [op] inserts at a valid location of [b] for its direction. *)
Definition valid_op (b : Board) (op : ShiftOp) : Prop :=
  insert_location op ∈ get_valid_insert_locations b (direction op).


(** ** The graph of a board *)

(** The edge of the spec: [y] is the cell next to [x] in a direction [d]
    that the tile of [x] is connected in, and the tile of [y] is connected
    in the opposite direction. *)
Definition connected (b : Board) (x y : Coord) : Prop :=
  ∃ tx ty d,
    tiles b !! x = Some tx ∧ tiles b !! y = Some ty
    ∧ y = step d x
    ∧ d ∈ connected_directions tx ∧ flip d ∈ connected_directions ty.

(** What the loop maintains, for a search that started at [c]. *)
Record search_inv (b : Board) (c : Coord) (F : list Coord) (R S : gset Coord)
  : Prop := mkSearchInv {
  inv_reached : ∀ x, x ∈ F ∨ x ∈ R → rtc (connected b) c x;
  inv_closed : ∀ x y, x ∈ R → connected b x y → y ∈ R ∨ y ∈ F;
  inv_seen : ∀ x, x ∈ S → x ∈ R ∨ x ∈ F;
  inv_start : c ∈ R ∨ c ∈ F
}.


(** ** The [result] monad *)

Lemma bind_Ok {A B} (r : result A) (f : A → result B) (b : B) :
  r ≫= f = Ok b ↔ ∃ a, r = Ok a ∧ f a = Ok b.
Proof.
  destruct r as [a|e]; simpl; split.
  - intros Hf. by exists a.
  - by intros (a' & [= ->] & Hf).
  - discriminate.
  - by intros (a' & [=] & _).
Qed.

Lemma bind_Raise {A B} (r : result A) (f : A → result B) (e : Exception) :
  r ≫= f = Raise e ↔ r = Raise e ∨ ∃ a, r = Ok a ∧ f a = Raise e.
Proof.
  destruct r as [a|e']; simpl; split.
  - intros Hf. right. by exists a.
  - intros [[=]|(a' & [= ->] & Hf)]. done.
  - intros [= ->]. by left.
  - intros [[= ->]|(a' & [=] & _)]. done.
Qed.

Lemma check_Ok (c : bool) (e : Exception) (u : unit) : check c e = Ok u ↔ c = true.
Proof. destruct c, u; simpl; split; done. Qed.

Lemma check_Raise (c : bool) (e e' : Exception) :
  check c e = Raise e' ↔ c = false ∧ e' = e.
Proof.
  destruct c; simpl; split.
  - discriminate.
  - by intros [[=] _].
  - by intros [= ->].
  - by intros [_ ->].
Qed.

Lemma for_each_Ok {A} (f : A → result unit) (l : list A) :
  for_each f l = Ok tt ↔ Forall (λ a, f a = Ok tt) l.
Proof.
  induction l as [|a l IH]; simpl.
  - split; [constructor | done].
  - rewrite bind_Ok, Forall_cons. split.
    + intros ([] & Ha & Hl). split; [done | by apply IH].
    + intros [Ha Hl]. exists tt. split; [done | by apply IH].
Qed.

(** Invert hypotheses that say a computation in the monad returned. *)
Ltac inv_ok :=
  repeat match goal with
    | H : (_ ≫= _) = Ok _ |- _ =>
        let a := fresh "a" in
        apply bind_Ok in H as (a & ? & H)
    | H : check _ _ = Ok _ |- _ => apply check_Ok in H
    | H : Ok _ = Ok _ |- _ => injection H as H
    | H : Raise _ = Ok _ |- _ => discriminate H
    | u : unit |- _ => destruct u
    end.

(** ** The constructor of game states *)

Lemma GameState_init_Ok cls pss secs spare b prev idx s :
  GameState_init cls pss secs spare b prev idx = Ok s ↔
    validate_spare_tile_gems b spare = Ok tt
    ∧ _validate_player_states b pss = Ok tt
    ∧ 0 ≤ idx < Z.of_nat (length pss)
    ∧ subclass_init cls pss secs b = Ok tt
    ∧ s = mkGameState cls pss secs spare b prev idx.
Proof.
  unfold GameState_init. split.
  - intros H. inv_ok. apply bool_decide_eq_true in H2. by subst.
  - intros (H1 & H2 & H3 & H4 & ->).
    rewrite H1, H2, H4. simpl. by rewrite bool_decide_eq_true_2.
Qed.

Lemma build_Ok s s' :
  build s = Ok s' ↔
    validate_spare_tile_gems (board s) (spare_tile s) = Ok tt
    ∧ _validate_player_states (board s) (player_states s) = Ok tt
    ∧ 0 ≤ current_player_index s < Z.of_nat (length (player_states s))
    ∧ subclass_init (subclass s) (player_states s) (player_secrets s) (board s) = Ok tt
    ∧ s' = s.
Proof.
  unfold build. rewrite GameState_init_Ok. by destruct s.
Qed.

Lemma od_getitem_elem {V} (d : list (string * V)) k v :
  od_getitem d k = Ok v → (k, v) ∈ d.
Proof.
  unfold od_getitem. destruct (list_find _ d) as [[i [k' v']]|] eqn:Hf; [|done].
  intros [= <-]. apply list_find_Some in Hf as (Hi & Hk & _). simpl in *. subst.
  by eapply list_elem_of_lookup_2.
Qed.

Lemma od_getitem_Ok {V} (d : list (string * V)) k :
  k ∈ d.*1 → ∃ v, od_getitem d k = Ok v.
Proof.
  intros Hk. apply list_elem_of_fmap in Hk as ([k' v] & -> & Hin).
  unfold od_getitem. simpl.
  destruct (list_find (λ kv, kv.1 = k') d) as [[i kv]|] eqn:Hf; [by eexists|].
  eapply list_find_None, Forall_forall in Hf; [|done]. done.
Qed.

Lemma list_getitem_Ok {A} (l : list A) (i : Z) :
  0 ≤ i < Z.of_nat (length l) →
  ∃ a, list_getitem l i = Ok a ∧ l !! Z.to_nat i = Some a.
Proof.
  intros Hi. unfold list_getitem.
  destruct (decide (i < 0)) as [|_]; [lia|].
  destruct (decide (0 ≤ i)) as [_|]; [|lia].
  destruct (lookup_lt_is_Some_2 l (Z.to_nat i)) as [a Ha]; [lia|].
  rewrite Ha. by exists a.
Qed.

(** In a constructed state the current player exists. *)
Lemma current_player_Ok s :
  build s = Ok s →
  ∃ c ps, current_player_color s = Ok c
          ∧ player_colors s !! Z.to_nat (current_player_index s) = Some c
          ∧ od_getitem (player_states s) c = Ok ps
          ∧ current_player_state s = Ok ps.
Proof.
  intros H. apply build_Ok in H as (_ & _ & Hidx & _).
  destruct (list_getitem_Ok (player_colors s) (current_player_index s))
    as (c & Hc & Hl).
  { unfold player_colors. by rewrite length_fmap. }
  destruct (od_getitem_Ok (player_states s) c) as [ps Hps].
  { by eapply list_elem_of_lookup_2. }
  exists c, ps. unfold current_player_state, current_player_color in *.
  by rewrite Hc.
Qed.

Lemma map_size_1_singleton {V} (m : gmap string V) :
  size m = 1%nat → ∃ k v, m = {[k := v]} ∧ map_to_list m = [(k, v)].
Proof.
  intros Hsize. rewrite <- length_map_to_list in Hsize.
  destruct (map_to_list m) as [|[k v] [|? ?]] eqn:Hl; try done.
  exists k, v. split; [|done].
  rewrite <- (list_to_map_to_list m), Hl. simpl. by rewrite insert_empty.
Qed.

(** A restricted state holds the secret of exactly one player, its owner. *)
Lemma restricted_owner s :
  build s = Ok s → subclass s = RestrictedGameState →
  ∃ owner secret,
    player_secrets s = {[owner := secret]}
    ∧ player_color s = Some owner
    ∧ owner ∈ player_colors s.
Proof.
  intros H Hcls. apply build_Ok in H as (_ & _ & _ & H & _).
  rewrite Hcls in H. simpl in H. inv_ok.
  apply negb_true_iff, bool_decide_eq_false in H0.
  destruct (map_size_1_singleton (player_secrets s)) as (k & v & Hm & Hl).
  { by destruct (decide (size (player_secrets s) = 1%nat)). }
  exists k, v. unfold player_color. rewrite Hl in *. simpl in *.
  apply check_Ok, bool_decide_eq_true in H. done.
Qed.

(** ** Access to secrets *)

(** C7. Secret-access asymmetry: in a restricted state, asking for the
    secret of any colour other than the owner's fails with
    [SecretAccessError], whether or not the colour is a player; in a
    referee state, asking for a colour of the secret mapping returns its
    secret and asking for any other colour fails with [KeyError]. *)
Theorem secret_access_asymmetry (s : GameState) (color : string) :
  (subclass s = RestrictedGameState → player_color s ≠ Some color →
     can_get_player_secret s color = false
     ∧ get_player_secret s color = Raise SecretAccessError)
  ∧ (subclass s = RefereeGameState →
       (∀ secret, player_secrets s !! color = Some secret →
          can_get_player_secret s color = true
          ∧ get_player_secret s color = Ok secret)
       ∧ (player_secrets s !! color = None →
            can_get_player_secret s color = false
            ∧ get_player_secret s color = Raise KeyError)).
Proof.
  unfold get_player_secret, can_get_player_secret, getitem. split.
  - intros -> Hne. simpl.
    rewrite bool_decide_eq_false_2 by congruence. done.
  - intros ->. simpl. split.
    + intros secret Hs. rewrite Hs. split; [|done].
      apply bool_decide_eq_true, elem_of_dom. by exists secret.
    + intros Hs. rewrite Hs. split; [|done].
      apply bool_decide_eq_false. rewrite elem_of_dom, Hs.
      by intros [? [=]].
Qed.

Lemma secret_access_asymmetry_witness :
  get_player_secret Examples.restricted0 Examples.blue = Raise SecretAccessError
  ∧ get_player_secret Examples.restricted0 Examples.green = Raise SecretAccessError
  ∧ get_player_secret Examples.referee0 Examples.blue
    = Ok (mkPlayerSecret (mkCoord 1 1) false 0)
  ∧ get_player_secret Examples.referee0 Examples.green = Raise KeyError.
Proof.
  split; [|split; [|split]].
  - apply (secret_access_asymmetry Examples.restricted0 Examples.blue);
      [reflexivity | vm_compute; discriminate].
  - apply (secret_access_asymmetry Examples.restricted0 Examples.green);
      [reflexivity | vm_compute; discriminate].
  - apply (secret_access_asymmetry Examples.referee0 Examples.blue);
      [reflexivity | vm_compute; reflexivity].
  - apply (secret_access_asymmetry Examples.referee0 Examples.green);
      [reflexivity | vm_compute; reflexivity].
Defined.

(** ** The two phases of a turn *)

(** C1. A shift succeeds only when the previous action is not a partial
    turn, and leaves [PARTIAL(op)]; a move succeeds only when it is a
    partial turn, and leaves [COMPLETE] with the same shift; there is no
    legal move destination unless the previous action is a partial turn,
    and no legal shift when it is one. *)
Theorem turn_state_machine (s : GameState) :
  (∀ op s', shift_tiles s op = Ok s' →
     kind (prev_action s) ≠ PARTIAL_TURN
     ∧ prev_action s' = PartialTurnPrevAction op)
  ∧ (∀ dest s', move_current_player s dest = Ok s' →
       ∃ op, prev_action s = PartialTurnPrevAction op
             ∧ prev_action s' = CompleteTurnPrevAction op)
  ∧ (GameState_ok s → kind (prev_action s) ≠ PARTIAL_TURN →
       get_legal_move_destinations s = Ok ∅)
  ∧ (kind (prev_action s) = PARTIAL_TURN → get_legal_shift_ops s = ∅).
Proof.
  split; [|split; [|split]].
  - intros op s' H. unfold shift_tiles in H. inv_ok.
    destruct a1 as [[new_board new_spare] edit].
    apply build_Ok in H as (_ & _ & _ & _ & ->). split; [|done].
    by apply negb_true_iff, bool_decide_eq_false in H0.
  - intros dest s' H. unfold move_current_player in H. inv_ok.
    destruct (prev_action s) as [|op|op] eqn:Hprev; try done.
    exists op. split; [done|]. inv_ok.
    apply build_Ok in H as (_ & _ & _ & _ & ->). done.
  - intros Hok Hkind. unfold get_legal_move_destinations.
    destruct (current_player_Ok s (state_built s Hok)) as (c & ps & _ & _ & _ & ->).
    simpl. by rewrite bool_decide_eq_false_2.
  - intros Hkind. unfold get_legal_shift_ops. by rewrite bool_decide_eq_true_2.
Qed.

Lemma referee0_ok : GameState_ok Examples.referee0.
Proof.
  state_ok_by_evaluation.
Qed.

Lemma turn_state_machine_witness :
  (kind (prev_action Examples.referee0) ≠ PARTIAL_TURN
   ∧ prev_action Examples.referee1 = PartialTurnPrevAction Examples.shift0)
  ∧ (∃ op, prev_action Examples.referee1 = PartialTurnPrevAction op
           ∧ prev_action Examples.referee2 = CompleteTurnPrevAction op)
  ∧ get_legal_move_destinations Examples.referee0 = Ok ∅
  ∧ get_legal_shift_ops Examples.referee1 = ∅.
Proof.
  destruct (turn_state_machine Examples.referee0) as (Hshift & _ & Hmoves & _).
  destruct (turn_state_machine Examples.referee1) as (_ & Hmove & _ & Hshifts).
  split; [|split; [|split]].
  - apply (Hshift Examples.shift0 Examples.referee1). by vm_compute.
  - apply (Hmove (mkCoord 1 1) Examples.referee2). by vm_compute.
  - apply Hmoves; [exact referee0_ok | by vm_compute].
  - apply Hshifts. by vm_compute.
Defined.

(** ** Ejection *)

Lemma validate_player_secrets_Ok b (m : gmap string PlayerSecret) :
  _validate_player_secrets b m = Ok tt ↔
    ∀ k v, m !! k = Some v → assert_in_bounds b (treasure_location v) = Ok tt.
Proof.
  unfold _validate_player_secrets. rewrite for_each_Ok, Forall_forall. split.
  - intros H k v Hkv. apply H, list_elem_of_fmap. exists (k, v).
    split; [done|]. by apply elem_of_map_to_list.
  - intros H v Hv. apply list_elem_of_fmap in Hv as ([k v'] & -> & Hkv).
    apply elem_of_map_to_list in Hkv. by eapply H.
Qed.

Lemma validate_player_states_filter b (P : string * PlayerState → Prop)
    `{∀ x, Decision (P x)} pss :
  _validate_player_states b pss = Ok tt →
  (1 ≤ length (filter P pss))%nat →
  _validate_player_states b (filter P pss) = Ok tt.
Proof.
  unfold _validate_player_states. intros Hv Hlen. inv_ok.
  apply bind_Ok. exists tt. split.
  - apply check_Ok, negb_true_iff, bool_decide_eq_false. lia.
  - apply for_each_Ok, Forall_forall. intros ps Hps.
    rewrite for_each_Ok, Forall_forall in Hv. apply Hv.
    apply list_elem_of_fmap in Hps as (kv & -> & Hkv).
    apply list_elem_of_filter in Hkv as [_ Hkv].
    apply list_elem_of_fmap. by exists kv.
Qed.

Lemma fmap_fst_filter_key {V} (d : list (string * V)) (k : string) :
  (filter (λ kv, kv.1 ≠ k) d).*1 = filter (λ c, c ≠ k) d.*1.
Proof.
  induction d as [|[k' v] d IH]; [done|].
  rewrite fmap_cons, !filter_cons. cbn [fst].
  destruct (decide (k' ≠ k)); rewrite ?fmap_cons, IH; done.
Qed.

Lemma filter_ne_notin (l : list string) (k : string) :
  k ∉ l → filter (λ c, c ≠ k) l = l.
Proof.
  induction l as [|c l IH]; [done|].
  intros [Hc Hl]%not_elem_of_cons. rewrite filter_cons.
  destruct (decide (c ≠ k)) as [|Hn]; [|exfalso; apply Hn; congruence].
  by rewrite IH.
Qed.

Lemma length_filter_key (l : list string) (k : string) i :
  NoDup l → l !! i = Some k →
  S (length (filter (λ c, c ≠ k) l)) = length l.
Proof.
  intros Hnd. revert i. induction Hnd as [|c l Hc Hnd IH]; intros i Hi; [done|].
  rewrite filter_cons. destruct i as [|i]; simpl in *.
  - injection Hi as ->. destruct (decide (k ≠ k)); [done|].
    by rewrite filter_ne_notin.
  - destruct (decide (c ≠ k)) as [|Heq].
    + simpl. f_equal. by eapply IH.
    + apply dec_stable in Heq as ->. apply list_elem_of_lookup_2 in Hi. done.
Qed.

Lemma list_index_lookup (l : list string) (k : string) i :
  NoDup l → l !! i = Some k → list_index l k = Ok (Z.of_nat i).
Proof.
  intros Hnd Hi. unfold list_index.
  destruct (list_find (λ y, y = k) l) as [[j y]|] eqn:Hf.
  - apply list_find_Some in Hf as (Hj & -> & _).
    by rewrite (NoDup_lookup l i j k Hnd Hi Hj).
  - eapply list_find_None, Forall_forall in Hf; [|by eapply list_elem_of_lookup_2].
    done.
Qed.

Lemma od_pop_Ok {V} (d : list (string * V)) (k : string) :
  k ∈ d.*1 → od_pop d k = Ok (filter (λ kv, kv.1 ≠ k) d).
Proof. intros Hk. unfold od_pop. by destruct (decide (k ∈ d.*1)). Qed.

Lemma subclass_init_referee pss secs b :
  subclass_init RefereeGameState pss secs b = Ok tt ↔
    dom secs = list_to_set pss.*1 ∧ _validate_player_secrets b secs = Ok tt.
Proof.
  simpl. rewrite bind_Ok. split.
  - intros ([] & Hc & Hv). split; [|done].
    apply check_Ok, negb_true_iff, bool_decide_eq_false in Hc.
    by apply dec_stable in Hc.
  - intros [Hd Hv]. exists tt. split; [|done].
    apply check_Ok, negb_true_iff, bool_decide_eq_false. by intros Hne.
Qed.

Lemma subclass_init_restricted pss secs b :
  subclass_init RestrictedGameState pss secs b = Ok tt ↔
    ∃ owner secret,
      secs = {[owner := secret]}
      ∧ assert_in_bounds b (treasure_location secret) = Ok tt
      ∧ owner ∈ pss.*1.
Proof.
  simpl. rewrite bind_Ok. split.
  - intros ([] & Hc & H). apply bind_Ok in H as ([] & Hv & H).
    apply check_Ok, negb_true_iff, bool_decide_eq_false, dec_stable in Hc.
    destruct (map_size_1_singleton secs Hc) as (k & v & Hm & Hl).
    rewrite Hl in H. simpl in H. apply check_Ok, bool_decide_eq_true in H.
    exists k, v. repeat split; [done| |done].
    rewrite validate_player_secrets_Ok in Hv. apply (Hv k). subst secs.
    apply lookup_singleton_eq.
  - intros (k & v & -> & Hv & Hk). exists tt. split.
    { apply check_Ok, negb_true_iff, bool_decide_eq_false.
      rewrite map_size_singleton. by intros Hne. }
    apply bind_Ok. exists tt. split.
    { apply validate_player_secrets_Ok. intros k' v' Hkv.
      by apply lookup_singleton_Some in Hkv as [_ <-]. }
    rewrite map_to_list_singleton. simpl.
    by apply check_Ok, bool_decide_eq_true.
Qed.

(** In a referee state every player has a secret. *)
Lemma referee_secret s c :
  build s = Ok s → subclass s = RefereeGameState →
  c ∈ player_colors s → is_Some (player_secrets s !! c).
Proof.
  intros H Hcls Hc. apply build_Ok in H as (_ & _ & _ & H & _).
  rewrite Hcls in H. apply subclass_init_referee in H as [Hd _].
  apply elem_of_dom. rewrite Hd. by apply elem_of_list_to_set.
Qed.

(** Removing a player and its secret from a referee state with at least
    two players, with any index into the remaining players, is accepted
    by the constructor. *)
Lemma build_without_player s (color : string) (i : nat) (index : Z) :
  GameState_ok s → subclass s = RefereeGameState →
  player_colors s !! i = Some color →
  num_players s ≠ 1 →
  0 ≤ index < num_players s - 1 →
  let s' := set_starting_player_index index
              (set_player_secrets (delete color (player_secrets s))
                 (set_player_states
                    (filter (λ kv, kv.1 ≠ color) (player_states s)) s)) in
  build s' = Ok s'.
Proof.
  intros [Hb _ _ Hnd _] Hcls Hi Hn Hidx s'.
  apply build_Ok in Hb as (Hg & Hp & Hcur & Hsub & _).
  assert (Hlen : S (length (filter (λ kv, kv.1 ≠ color) (player_states s)))
                 = length (player_states s)).
  { pose proof (length_filter_key _ _ _ Hnd Hi) as Hl. unfold player_colors in Hl.
    by rewrite <- fmap_fst_filter_key, !length_fmap in Hl. }
  unfold num_players in *.
  apply build_Ok. subst s'. simpl. repeat split; try done; try lia.
  - apply validate_player_states_filter; [done | lia].
  - rewrite Hcls in *. apply subclass_init_referee in Hsub as [Hd Hv].
    apply subclass_init_referee. split.
    + rewrite dom_delete_L, Hd, fmap_fst_filter_key. apply set_eq. intros c.
      rewrite elem_of_difference, !elem_of_list_to_set, list_elem_of_filter.
      rewrite elem_of_singleton. tauto.
    + apply validate_player_secrets_Ok. intros k v Hkv.
      rewrite validate_player_secrets_Ok in Hv. apply (Hv k).
      by apply lookup_delete_Some in Hkv as [_ Hkv].
Qed.

(** C10. Ejecting a colour that is not in the player list of a referee
    state returns the state unchanged, whatever the number of players. *)
Theorem eject_absent_player (s : GameState) (color : string) :
  subclass s = RefereeGameState → color ∉ player_colors s →
  eject_player s color = Ok s.
Proof.
  intros Hcls Hc. unfold eject_player. rewrite Hcls.
  by rewrite bool_decide_eq_false_2.
Qed.

Lemma eject_absent_player_witness :
  num_players Examples.solo = 1
  ∧ eject_player Examples.solo Examples.blue = Ok Examples.solo.
Proof.
  split; [reflexivity|].
  apply (eject_absent_player Examples.solo Examples.blue); [reflexivity|].
  apply (bool_decide_unpack _). by vm_compute.
Defined.

(** C5. Ejection: a restricted state refuses both operations with
    [PlayerListModificationError]; a referee state refuses to eject its only
    player with [NoMorePlayersError], and otherwise removes the player's
    state and secret and keeps the index of the current player valid: one
    less when an earlier player is removed, 0 when the removed player was
    current and last in turn order. *)
Theorem ejection_semantics (s : GameState) :
  (subclass s = RestrictedGameState →
     eject_current_player s = Raise PlayerListModificationError
     ∧ ∀ color, eject_player s color = Raise PlayerListModificationError)
  ∧ (subclass s = RefereeGameState → GameState_ok s →
     ∀ (i : nat) color, player_colors s !! i = Some color →
       (num_players s = 1 → eject_player s color = Raise NoMorePlayersError)
       ∧ (num_players s ≠ 1 →
            ∃ s', eject_player s color = Ok s'
              ∧ player_states s' = filter (λ kv, kv.1 ≠ color) (player_states s)
              ∧ player_secrets s' = delete color (player_secrets s)
              ∧ (color ∉ player_colors s')
              ∧ num_players s' = num_players s - 1
              ∧ 0 ≤ current_player_index s' < num_players s'
              ∧ current_player_index s'
                = index_after_ejection (num_players s) (current_player_index s)
                    (Z.of_nat i)
              ∧ (subclass s', spare_tile s', board s', prev_action s')
                = (subclass s, spare_tile s, board s, prev_action s))
       ∧ (Z.of_nat i = current_player_index s →
            eject_current_player s = eject_player s color)).
Proof.
  split.
  - intros Hcls. unfold eject_current_player, eject_player. by rewrite Hcls.
  - intros Hcls Hok i color Hi.
    pose proof (state_keys_nodup s Hok) as Hnd.
    assert (Hin : color ∈ player_colors s) by by eapply list_elem_of_lookup_2.
    assert (Hlt : Z.of_nat i < num_players s).
    { apply lookup_lt_Some in Hi. unfold player_colors, num_players in *.
      rewrite length_fmap in Hi. lia. }
    pose proof (state_built s Hok) as Hcur. apply build_Ok in Hcur as (_ & _ & Hcur & _).
    destruct (referee_secret s color (state_built s Hok) Hcls Hin) as [sec Hsec].
    assert (Hlen : Z.of_nat (length (filter (λ kv, kv.1 ≠ color) (player_states s)))
                   = num_players s - 1).
    { pose proof (length_filter_key _ _ _ Hnd Hi) as Hl. unfold player_colors in Hl.
      rewrite <- fmap_fst_filter_key, !length_fmap in Hl. unfold num_players. lia. }
    assert (Heject : num_players s ≠ 1 →
      eject_player s color =
        Ok (set_starting_player_index
              (index_after_ejection (num_players s) (current_player_index s)
                 (Z.of_nat i))
              (set_player_secrets (delete color (player_secrets s))
                 (set_player_states
                    (filter (λ kv, kv.1 ≠ color) (player_states s)) s)))).
    { intros Hn. unfold eject_player. rewrite Hcls.
      rewrite bool_decide_eq_true_2 by done. simpl.
      rewrite bool_decide_eq_false_2 by done. simpl.
      rewrite od_pop_Ok by done. simpl.
      unfold dict_pop. rewrite Hsec. simpl.
      rewrite (list_index_lookup _ _ i Hnd Hi). simpl.
      rewrite Hlen.
      assert (Hidx : (if bool_decide (Z.of_nat i < current_player_index s)
          then current_player_index s - 1
          else if bool_decide (Z.of_nat i = current_player_index s)
                  && bool_decide (current_player_index s >= num_players s - 1)
               then 0 else current_player_index s)
          = index_after_ejection (num_players s) (current_player_index s)
              (Z.of_nat i)).
      { unfold index_after_ejection, num_players in *.
        repeat case_bool_decide; repeat case_decide; simpl; lia. }
      rewrite Hidx. apply (build_without_player s color i); try done.
      unfold index_after_ejection, num_players in *. repeat case_decide; lia. }
    split; [|split].
    + intros Hn. unfold eject_player. rewrite Hcls.
      rewrite (bool_decide_eq_true_2 (color ∈ player_colors s)) by done.
      by rewrite (bool_decide_eq_true_2 (num_players s = 1)).
    + intros Hn. eexists. split; [by apply Heject|]. simpl.
      split_and!; try done.
      * unfold player_colors. simpl. rewrite fmap_fst_filter_key.
        rewrite list_elem_of_filter. tauto.
      * unfold index_after_ejection, num_players in *. repeat case_decide; lia.
      * unfold index_after_ejection, num_players in *. simpl.
        repeat case_decide; lia.
    + intros Hcurr.
      assert (Hcolor : current_player_color s = Ok color).
      { destruct (list_getitem_Ok (player_colors s) (current_player_index s))
          as (c & Hc & Hl).
        { unfold player_colors. by rewrite length_fmap. }
        unfold current_player_color. rewrite Hc. f_equal.
        rewrite <- Hcurr, Nat2Z.id in Hl. congruence. }
      destruct (decide (num_players s = 1)) as [Hn|Hn].
      * unfold eject_current_player, eject_player. rewrite Hcls.
        rewrite (bool_decide_eq_true_2 (color ∈ player_colors s)) by done.
        by rewrite !(bool_decide_eq_true_2 (num_players s = 1)).
      * rewrite (Heject Hn). unfold eject_current_player. rewrite Hcls.
        rewrite bool_decide_eq_false_2 by done. simpl.
        rewrite Hcolor. simpl. rewrite od_pop_Ok by done. simpl.
        unfold dict_pop. rewrite Hsec. simpl. rewrite Hlen.
        assert (Hidx : (if bool_decide (current_player_index s >= num_players s - 1)
                        then 0 else current_player_index s)
          = index_after_ejection (num_players s) (current_player_index s)
              (Z.of_nat i)).
        { unfold index_after_ejection, num_players in *.
          repeat case_bool_decide; repeat case_decide; simpl; lia. }
        rewrite Hidx. apply (build_without_player s color i); try done.
        unfold index_after_ejection, num_players in *. repeat case_decide; lia.
Qed.

Lemma referee0_blue_ok : GameState_ok Examples.referee0_blue.
Proof.
  state_ok_by_evaluation.
Qed.

Lemma solo_ok : GameState_ok Examples.solo.
Proof.
  state_ok_by_evaluation.
Qed.

Lemma ejection_semantics_witness :
  eject_current_player Examples.restricted0 = Raise PlayerListModificationError
  ∧ eject_player Examples.solo Examples.red = Raise NoMorePlayersError
  ∧ (∃ s', eject_player Examples.referee0_blue Examples.red = Ok s'
           ∧ player_colors s' = [Examples.blue]
           ∧ current_player_index s' = 0)
  ∧ eject_current_player Examples.referee0_blue
    = eject_player Examples.referee0_blue Examples.blue.
Proof.
  split; [|split; [|split]].
  - by apply (ejection_semantics Examples.restricted0).
  - destruct (ejection_semantics Examples.solo) as [_ H].
    destruct (H eq_refl solo_ok 0%nat Examples.red eq_refl) as (Hone & _ & _).
    by apply Hone.
  - destruct (ejection_semantics Examples.referee0_blue) as [_ H].
    destruct (H eq_refl referee0_blue_ok 0%nat Examples.red eq_refl)
      as (_ & Hmore & _).
    destruct Hmore as (s' & Hs' & Hstates & _ & _ & _ & _ & Hindex & _);
      [by vm_compute|].
    exists s'. split; [done|]. split.
    + unfold player_colors. rewrite Hstates. by vm_compute.
    + rewrite Hindex. by vm_compute.
  - destruct (ejection_semantics Examples.referee0_blue) as [_ H].
    destruct (H eq_refl referee0_blue_ok 1%nat Examples.blue eq_refl)
      as (_ & _ & Hcurrent).
    by apply Hcurrent.
Defined.

(** ** Rotating the spare tile *)

Lemma rotated_mod d r : rotated d (r mod 4) = rotated d r.
Proof. unfold rotated. by rewrite Z.add_mod_idemp_r. Qed.

Lemma rotated_add_mod d q r : rotated d ((4 * q + r) mod 4) = rotated d r.
Proof.
  rewrite rotated_mod. unfold rotated.
  replace (direction_index d + (4 * q + r)) with (direction_index d + r + q * 4) by lia.
  by rewrite Z.mod_add.
Qed.

Lemma connected_direction_map_ext shape r1 r2 :
  (∀ d, rotated d r1 = rotated d r2) →
  connected_direction_map (shape, r1) = connected_direction_map (shape, r2).
Proof.
  intros H. unfold connected_direction_map. simpl. apply set_eq. intros d.
  rewrite !elem_of_map. by setoid_rewrite H.
Qed.

Lemma rotate_Ok t r :
  Tile_ok t → 0 ≤ r ≤ 3 → rotate t r = Ok (mkTile (shape t) r (gems t)).
Proof.
  unfold Tile_ok, rotate, Tile_init. intros Ht Hr.
  rewrite bool_decide_eq_false_2 by lia.
  destruct (bool_decide (rotation t < 0 ∨ rotation t > 3)); [done|].
  injection Ht as Ht. destruct t. simpl in *. congruence.
Qed.

Lemma validate_spare_tile_gems_ext b t t' :
  gems t = gems t' → validate_spare_tile_gems b t = validate_spare_tile_gems b t'.
Proof.
  intros Hg. unfold validate_spare_tile_gems, validate_tile_gems.
  rewrite !fmap_app, !length_app. simpl. by rewrite Hg.
Qed.

Lemma build_set_spare_tile s t :
  build s = Ok s → gems t = gems (spare_tile s) →
  build (set_spare_tile t s) = Ok (set_spare_tile t s).
Proof.
  intros Hb Hg. apply build_Ok in Hb as (Hv & Hp & Hi & Hc & _).
  apply build_Ok. simpl. split_and!; try done; try lia.
  rewrite <- Hv. by apply validate_spare_tile_gems_ext.
Qed.

Lemma rotate_spare_tile_Ok s degrees :
  GameState_ok s → kind (prev_action s) ≠ PARTIAL_TURN → degrees mod 90 = 0 →
  rotate_spare_tile s degrees
  = Ok (set_spare_tile
          (mkTile (shape (spare_tile s))
             ((degrees / 90 + rotation (spare_tile s)) mod 4)
             (gems (spare_tile s))) s).
Proof.
  intros [Hb _ Ht _ _] Hkind Hdeg. unfold rotate_spare_tile.
  rewrite (bool_decide_eq_false_2 (degrees mod 90 ≠ 0)) by (intros ?; done).
  rewrite (bool_decide_eq_false_2 _ Hkind). simpl.
  rewrite (rotate_Ok _ _ Ht)
    by (pose proof (Z.mod_pos_bound (degrees / 90 + rotation (spare_tile s)) 4);
        lia).
  simpl. by apply build_set_spare_tile.
Qed.

Lemma rotate_spare_tile_ok s degrees s' :
  GameState_ok s → rotate_spare_tile s degrees = Ok s' → GameState_ok s'.
Proof.
  intros Hok H.
  assert (kind (prev_action s) ≠ PARTIAL_TURN ∧ degrees mod 90 = 0)
    as [Hkind Hdeg].
  { unfold rotate_spare_tile in H. inv_ok.
    apply negb_true_iff, bool_decide_eq_false in H0, H1.
    split; [done|]. by apply dec_stable in H0. }
  rewrite rotate_spare_tile_Ok in H by done.
  injection H as <-. destruct Hok as [Hb Hbo Ht Hn Hts].
  split; simpl; try done.
  - by apply build_set_spare_tile.
  - unfold Tile_ok, Tile_init in *. simpl.
    rewrite bool_decide_eq_false_2
      by (pose proof (Z.mod_pos_bound (degrees / 90 + rotation (spare_tile s)) 4);
          lia).
    destruct (bool_decide (rotation (spare_tile s) < 0 ∨ rotation (spare_tile s) > 3));
      [done|].
    injection Ht as Ht. destruct (spare_tile s). simpl in *. congruence.
Qed.

(** C8. Rotation algebra: a number of degrees that is not a multiple of 90
    is refused with [ValueError]; rotating by 0, 4x90 or -4x90 degrees
    leaves the connected directions of the tile unchanged; rotating by
    360k+90 degrees is rotating by 90; two rotations in a row add their
    quarter turns modulo 4. *)
Theorem rotation_algebra (s : GameState) :
  (∀ degrees, degrees mod 90 ≠ 0 → rotate_spare_tile s degrees = Raise ValueError)
  ∧ (GameState_ok s → kind (prev_action s) ≠ PARTIAL_TURN →
     (∀ degrees, degrees ∈ [0; 4 * 90; - (4 * 90)] →
        ∃ s', rotate_spare_tile s degrees = Ok s'
              ∧ connected_directions (spare_tile s')
                = connected_directions (spare_tile s))
     ∧ (∀ k, ∃ s', rotate_spare_tile s (360 * k + 90) = Ok s'
                   ∧ rotate_spare_tile s 90 = Ok s')
     ∧ (∀ d1 d2, d1 mod 90 = 0 → d2 mod 90 = 0 →
          ∃ s1 s2, rotate_spare_tile s d1 = Ok s1
                   ∧ rotate_spare_tile s1 d2 = Ok s2
                   ∧ rotation (spare_tile s2)
                     = (d1 / 90 + d2 / 90 + rotation (spare_tile s)) mod 4
                   ∧ rotate_spare_tile s (d1 + d2) = Ok s2)).
Proof.
  split.
  - intros degrees Hdeg. unfold rotate_spare_tile.
    by rewrite (bool_decide_eq_true_2 _ Hdeg).
  - intros Hok Hkind. split; [|split].
    + intros degrees Hin. eexists. split.
      * apply rotate_spare_tile_Ok; [done..|].
        set_unfold in Hin. by destruct Hin as [->|[->|[->|[]]]].
      * simpl. unfold connected_directions. simpl.
        apply connected_direction_map_ext. intros d.
        set_unfold in Hin. destruct Hin as [->|[->|[->|[]]]].
        -- apply (rotated_add_mod d 0).
        -- apply (rotated_add_mod d 1).
        -- apply (rotated_add_mod d (-1)).
    + intros k. eexists. split.
      * apply rotate_spare_tile_Ok; [done..|].
        replace (360 * k + 90) with (90 + (4 * k) * 90) by lia.
        by rewrite Z.mod_add.
      * rewrite rotate_spare_tile_Ok by done. do 3 f_equal.
        replace (360 * k + 90) with (90 + (4 * k) * 90) by lia.
        rewrite Z.div_add by lia. change (90 / 90) with 1.
        replace (1 + 4 * k + rotation (spare_tile s))
          with (1 + rotation (spare_tile s) + k * 4) by lia.
        by rewrite Z.mod_add.
    + intros d1 d2 Hd1 Hd2.
      pose proof (rotate_spare_tile_Ok s d1 Hok Hkind Hd1) as H1.
      pose proof (rotate_spare_tile_ok _ _ _ Hok H1) as Hok1.
      eexists. eexists. split; [exact H1|]. split; [|split].
      * by apply rotate_spare_tile_Ok.
      * simpl. rewrite Z.add_mod_idemp_r by lia. f_equal. lia.
      * rewrite rotate_spare_tile_Ok; [|done..|].
        2: { rewrite Z.add_mod, Hd1, Hd2 by lia. done. }
        unfold set_spare_tile. simpl. do 3 f_equal.
        rewrite Z.add_mod_idemp_r by lia.
        apply Z.mod_divide in Hd1 as [q1 ->]; [|lia].
        apply Z.mod_divide in Hd2 as [q2 ->]; [|lia].
        rewrite <- Z.mul_add_distr_r, !Z.div_mul by lia. f_equal. lia.
Qed.

Lemma rotation_algebra_witness :
  (∃ s', rotate_spare_tile Examples.referee0 (- (4 * 90)) = Ok s'
         ∧ connected_directions (spare_tile s')
           = connected_directions (spare_tile Examples.referee0))
  ∧ (∃ s', rotate_spare_tile Examples.referee0 (360 * (-2) + 90) = Ok s'
           ∧ rotate_spare_tile Examples.referee0 90 = Ok s')
  ∧ (∃ s1 s2, rotate_spare_tile Examples.referee0 270 = Ok s1
              ∧ rotate_spare_tile s1 180 = Ok s2
              ∧ rotation (spare_tile s2) = 1
              ∧ rotate_spare_tile Examples.referee0 450 = Ok s2).
Proof.
  destruct (rotation_algebra Examples.referee0) as [_ H].
  destruct H as (Hnoop & Hfull & Hadd); [exact referee0_ok | by vm_compute |].
  split; [|split].
  - apply Hnoop. apply (bool_decide_unpack _). by vm_compute.
  - apply Hfull.
  - destruct (Hadd 270 180) as (s1 & s2 & H1 & H2 & Hr & H12);
      [reflexivity | reflexivity |].
    exists s1, s2. split_and!; [done | done | by rewrite Hr | done].
Defined.

(** ** The winners *)

Lemma mapM_result_Ok {A B} (f : A → result B) (l : list A) (R : A → B → Prop) :
  (∀ a, a ∈ l → ∃ b, f a = Ok b ∧ R a b) →
  ∃ bs, mapM f l = Ok bs ∧ Forall2 R l bs.
Proof.
  induction l as [|a l IH]; intros Hl.
  - exists []. split; [done | constructor].
  - destruct (Hl a) as (b & Hb & HR); [by left|].
    destruct IH as (bs & Hbs & HF); [intros a' Ha'; apply Hl; by right|].
    exists (b :: bs). simpl. rewrite Hb. simpl. rewrite Hbs. simpl.
    split; [done | by constructor].
Qed.

Lemma mapM_result_inv {A B} (f : A → result B) (l : list A) (bs : list B) :
  mapM f l = Ok bs → Forall2 (λ a b, f a = Ok b) l bs.
Proof.
  revert bs. induction l as [|a l IH]; intros bs H; simpl in H.
  - injection H as <-. constructor.
  - apply bind_Ok in H as (b & Hb & H). apply bind_Ok in H as (bs' & Hbs & H).
    injection H as <-. constructor; [done | by apply IH].
Qed.

Lemma progress_gtb_spec (a b : Z * Z) :
  progress_gtb a b = true ↔ a.1 > b.1 ∨ (a.1 = b.1 ∧ a.2 > b.2).
Proof.
  unfold progress_gtb.
  rewrite orb_true_iff, andb_true_iff, !bool_decide_eq_true. done.
Qed.

Lemma max_progress_spec (l : list (Z * Z)) :
  l ≠ [] →
  ∃ m, max_progress l = Ok m ∧ m ∈ l ∧ ∀ x, x ∈ l → progress_gtb x m = false.
Proof.
  destruct l as [|x l]; [done|]. intros _. simpl. eexists. split; [done|].
  revert x. induction l as [|y l IH]; intros x; simpl.
  - split; [by left|]. intros z ->%list_elem_of_singleton.
    apply not_true_iff_false. rewrite progress_gtb_spec. lia.
  - destruct (IH (if progress_gtb y x then y else x)) as [Hin Hmax].
    split.
    + apply elem_of_cons in Hin as [->|Hin]; [|by do 2 right].
      destruct (progress_gtb y x); [right; by left | by left].
    + intros z Hz.
      assert (Hstep : progress_gtb z (if progress_gtb y x then y else x) = false
                      ∨ z ∈ l).
      { apply elem_of_cons in Hz as [->|Hz].
        - left. destruct (progress_gtb y x) eqn:Hyx;
            apply not_true_iff_false; rewrite progress_gtb_spec; [|lia].
          apply progress_gtb_spec in Hyx. lia.
        - apply elem_of_cons in Hz as [->|Hz]; [|by right].
          left. destruct (progress_gtb y x) eqn:Hyx; [|done].
          apply not_true_iff_false. rewrite progress_gtb_spec. lia. }
      destruct Hstep as [Hstep|Hstep]; [|apply Hmax; by right].
      pose proof (Hmax _ (ltac:(by left))) as Hm.
      apply not_true_iff_false in Hstep, Hm. apply not_true_iff_false.
      rewrite progress_gtb_spec in *. lia.
Qed.

Lemma od_unique {V} (d : list (string * V)) k v1 v2 :
  NoDup d.*1 → (k, v1) ∈ d → (k, v2) ∈ d → v1 = v2.
Proof.
  induction d as [|[k' v'] d IH]; simpl; intros Hnd H1 H2.
  - by apply elem_of_nil in H1.
  - apply NoDup_cons in Hnd as [Hk' Hnd].
    apply elem_of_cons in H1 as [[= -> ->]|H1], H2 as [[= <-]|H2]; try done.
    + destruct Hk'. apply list_elem_of_fmap. by exists (k', v2).
    + destruct Hk'. apply list_elem_of_fmap. by exists (k, v1).
    + by apply IH.
Qed.

Lemma players_with_progress_Ok s :
  subclass s = RefereeGameState → build s = Ok s →
  ∃ pwp, players_with_progress s = Ok pwp
         ∧ Forall2 (progress_entry s) (player_colors s) pwp.
Proof.
  intros Hcls Hb. apply mapM_result_Ok. intros c Hc.
  destruct (od_getitem_Ok _ _ Hc) as [ps Hps].
  destruct (referee_secret s c Hb Hcls Hc) as [sec Hsec].
  exists (c, order_by_game_progress (ps, sec)). split.
  - rewrite Hps. simpl. unfold get_player_secret, getitem.
    by rewrite Hcls, Hsec.
  - split; [done|]. exists ps, sec. split_and!; try done.
    by apply od_getitem_elem.
Qed.

Lemma order_by_game_progress_le (p q : PlayerState * PlayerSecret) :
  progress_gtb (order_by_game_progress q) (order_by_game_progress p) = false
  ↔ ranks_no_lower p q.
Proof.
  rewrite <- not_true_iff_false, progress_gtb_spec.
  unfold ranks_no_lower, goal_distance, active_goal.
  destruct p as [ps sec], q as [ps' sec']. simpl. lia.
Qed.

Lemma mapM_getitem_Ok {V} (d : gmap string V) (l : list string) :
  (∀ c, c ∈ l → is_Some (d !! c)) →
  ∃ vs, mapM (getitem d) l = Ok vs ∧ Forall2 (λ c v, d !! c = Some v) l vs.
Proof.
  intros H. apply mapM_result_Ok. intros c Hc. destruct (H c Hc) as [v Hv].
  exists v. unfold getitem. by rewrite Hv.
Qed.

Lemma mapM_getitem_Raise {V} (d : gmap string V) (l : list string) :
  (∃ c, c ∈ l ∧ d !! c = None) → mapM (getitem d) l = Raise KeyError.
Proof.
  intros (c & Hc & Hnone). revert Hc.
  induction l as [|a l IH]; intros Hc; [by apply elem_of_nil in Hc|].
  simpl. destruct (d !! a) as [v|] eqn:Ha.
  - assert (getitem d a = Ok v) as -> by (unfold getitem; by rewrite Ha).
    apply elem_of_cons in Hc as [->|Hc]; [congruence|].
    simpl. by rewrite IH.
  - assert (getitem d a = Raise KeyError) as ->
      by (unfold getitem; by rewrite Ha).
    done.
Qed.

(** [_check_winners] returns the players of the winning colours when each
    of them has a player, and raises [KeyError] otherwise. *)
Lemma check_winners_outcome {Player} s (players : gmap string Player) trigger
    colors :
  winning_colors s trigger = Ok colors →
  ((∀ c, c ∈ colors → is_Some (players !! c)) →
     ∃ outcome,
       _check_winners s players trigger = Ok outcome
       ∧ Forall2 (λ c p, players !! c = Some p) colors (winners outcome)
       ∧ Forall2 (λ c p, players !! c = Some p)
           (elements (dom players ∖ list_to_set (player_colors s) : gset string))
           (ejected outcome))
  ∧ ((∃ c, c ∈ colors ∧ players !! c = None) →
     _check_winners s players trigger = Raise KeyError).
Proof.
  intros Hcolors. unfold _check_winners, _outcome_with_winners. rewrite Hcolors.
  simpl. split.
  - intros Hall. destruct (mapM_getitem_Ok players colors Hall) as (ws & -> & Hws).
    simpl.
    destruct (mapM_getitem_Ok players
                (elements (dom players ∖ list_to_set (player_colors s) : gset string)))
      as (es & -> & Hes).
    { intros c Hc. apply elem_of_elements, elem_of_difference in Hc as [Hc _].
      by apply elem_of_dom in Hc. }
    simpl. by eexists.
  - intros Hex. by rewrite (mapM_getitem_Raise players colors Hex).
Qed.

(** C6. Winner computation: the colours tied for the best progress are the
    players that no player outranks, where a player ranks higher with more
    treasures and, among equals, with the smaller squared distance to its
    active goal; they are the winners, in turn order, unless a triggering
    player is given, is one of several tied players, and then wins alone.
    [_check_winners] returns the outcome whose winners are the players of
    these colours, in this order, whenever each of these colours has a
    player, and raises [KeyError] when one of them has none; the ejected
    players of the outcome are those whose colour is not in the state. *)
Theorem winners_by_progress (s : GameState) :
  subclass s = RefereeGameState → GameState_ok s →
  ∃ tied : list string,
    sublist tied (player_colors s)
    ∧ (∀ c, c ∈ tied ↔
         ∃ ps sec, (c, ps) ∈ player_states s ∧ player_secrets s !! c = Some sec
           ∧ ∀ c' ps' sec', (c', ps') ∈ player_states s →
               player_secrets s !! c' = Some sec' →
               ranks_no_lower (ps, sec) (ps', sec'))
    ∧ winning_colors s None = Ok tied
    ∧ (∀ trigger,
         winning_colors s (Some trigger)
         = Ok (if decide ((1 < length tied)%nat ∧ trigger ∈ tied)
               then [trigger] else tied))
    ∧ (∀ Player (players : gmap string Player) trigger outcome,
         _check_winners s players trigger = Ok outcome →
         ∃ colors, winning_colors s trigger = Ok colors
                   ∧ Forall2 (λ c p, players !! c = Some p) colors (winners outcome))
    ∧ (∀ Player (players : gmap string Player) trigger,
         let colors :=
           match trigger with
           | Some t =>
               if decide ((1 < length tied)%nat ∧ t ∈ tied) then [t] else tied
           | None => tied
           end in
         ((∀ c, c ∈ colors → is_Some (players !! c)) →
          ∃ outcome,
            _check_winners s players trigger = Ok outcome
            ∧ Forall2 (λ c p, players !! c = Some p) colors (winners outcome)
            ∧ Forall2 (λ c p, players !! c = Some p)
                (elements (dom players ∖ list_to_set (player_colors s)
                           : gset string))
                (ejected outcome))
         ∧ ((∃ c, c ∈ colors ∧ players !! c = None) →
            _check_winners s players trigger = Raise KeyError)).
Proof.
  intros Hcls [Hb _ _ Hnd _].
  destruct (players_with_progress_Ok s Hcls Hb) as (pwp & Hpwp & HF).
  assert (Hkeys : pwp.*1 = player_colors s).
  { clear -HF. induction HF as [|c cp l k [Hc _] _ IH]; [done|].
    rewrite fmap_cons. by rewrite Hc, IH. }
  assert (Hne : pwp.*2 ≠ []).
  { apply build_Ok in Hb as (_ & _ & Hi & _).
    intros Hnil. apply (f_equal length) in Hnil, Hkeys.
    unfold player_colors in Hkeys. rewrite !length_fmap in *. simpl in *. lia. }
  destruct (max_progress_spec _ Hne) as (m & Hm & Hmin & Hmax).
  assert (Hentry : ∀ c ps sec, (c, ps) ∈ player_states s →
            player_secrets s !! c = Some sec →
            (c, order_by_game_progress (ps, sec)) ∈ pwp).
  { intros c ps sec Hps Hsec.
    assert (Hc : c ∈ player_colors s).
    { apply list_elem_of_fmap. by exists (c, ps). }
    apply list_elem_of_lookup in Hc as [i Hi].
    destruct (Forall2_lookup_l _ _ _ _ _ HF Hi)
      as ([c' p] & Hcp & Hc' & ps' & sec' & Hps' & Hsec' & Hp).
    simpl in *. subst c'. rewrite (od_unique _ _ _ _ Hnd Hps Hps').
    replace sec with sec' by congruence. rewrite <- Hp.
    by eapply list_elem_of_lookup_2. }
  assert (Hinv : ∀ cp, cp ∈ pwp → progress_entry s cp.1 cp).
  { intros cp [i Hi]%list_elem_of_lookup.
    destruct (Forall2_lookup_r _ _ _ _ _ HF Hi) as (c & _ & Hc).
    by destruct Hc as [<- Hc]. }
  set (tied := (filter (λ cp : string * (Z * Z), cp.2 = m) pwp).*1).
  assert (Hnone : winning_colors s None = Ok tied).
  { unfold winning_colors. rewrite Hpwp. simpl. by rewrite Hm. }
  assert (Htrigger : ∀ trigger,
            winning_colors s (Some trigger)
            = Ok (if decide ((1 < length tied)%nat ∧ trigger ∈ tied)
                  then [trigger] else tied)).
  { intros trigger. unfold winning_colors. rewrite Hpwp. simpl. rewrite Hm. simpl.
    fold tied. destruct (decide ((1 < length tied)%nat ∧ trigger ∈ tied)) as [[? ?]|Hn].
    + rewrite !bool_decide_eq_true_2; [done..|lia].
    + destruct (bool_decide (Z.of_nat (length tied) > 1)) eqn:H1;
        destruct (bool_decide (trigger ∈ tied)) eqn:H2; try done.
      apply bool_decide_eq_true in H1, H2. destruct Hn. split; [lia|done]. }
  exists tied. split_and!.
  - rewrite <- Hkeys. apply fmap_sublist, sublist_filter.
  - intros c. unfold tied. rewrite list_elem_of_fmap. split.
    + intros ([c' p] & -> & [Hp Hin]%list_elem_of_filter). cbn [fst snd] in *.
      destruct (Hinv _ Hin) as (_ & ps & sec & Hps & Hsec & Hprog).
      cbn [fst snd] in *. exists ps, sec. split_and!; [done..|].
      intros c'' ps' sec' Hps' Hsec'. apply order_by_game_progress_le.
      rewrite <- Hprog, Hp. apply Hmax, list_elem_of_fmap.
      exists (c'', order_by_game_progress (ps', sec')). split; [done|].
      by apply Hentry.
    + intros (ps & sec & Hps & Hsec & Hbest).
      exists (c, order_by_game_progress (ps, sec)). split; [done|].
      apply list_elem_of_filter. split; [|by apply Hentry]. cbn [snd].
      apply list_elem_of_fmap in Hmin as (cpm & -> & Hcpm).
      destruct (Hinv _ Hcpm) as (_ & psm & secm & Hpsm & Hsecm & Hprogm).
      specialize (Hbest _ _ _ Hpsm Hsecm).
      apply order_by_game_progress_le in Hbest. rewrite <- Hprogm in Hbest.
      pose proof (Hmax (order_by_game_progress (ps, sec))) as Hle.
      rewrite list_elem_of_fmap in Hle.
      specialize (Hle (ex_intro _ (c, order_by_game_progress (ps, sec))
                         (conj eq_refl (Hentry _ _ _ Hps Hsec)))).
      apply not_true_iff_false in Hbest, Hle.
      rewrite progress_gtb_spec in Hbest, Hle.
      clear -Hbest Hle. destruct (order_by_game_progress (ps, sec)), (cpm.2).
      simpl in *. f_equal; lia.
  - done.
  - exact Htrigger.
  - intros Player players trigger outcome H. unfold _check_winners in H.
    apply bind_Ok in H as (colors & Hcolors & H). exists colors. split; [done|].
    unfold _outcome_with_winners in H.
    apply bind_Ok in H as (ws & Hws & H). apply bind_Ok in H as (es & Hes & H).
    injection H as <-. simpl. apply mapM_result_inv in Hws.
    eapply Forall2_impl; [exact Hws|]. intros c p. unfold getitem.
    by destruct (players !! c); intros [= ->].
  - intros Player players trigger colors. apply check_winners_outcome.
    subst colors. destruct trigger as [t|]; [apply Htrigger|exact Hnone].
Qed.

Lemma referee_tie_ok : GameState_ok Examples.referee_tie.
Proof.
  state_ok_by_evaluation.
Qed.

Example winners_tie :
  winning_colors Examples.referee_tie None = Ok [Examples.red; Examples.blue]
  ∧ winning_colors Examples.referee_tie (Some Examples.blue) = Ok [Examples.blue]
  ∧ winning_colors Examples.referee0 (Some Examples.blue) = Ok [Examples.red].
Proof. by vm_compute. Qed.

Lemma winners_by_progress_witness :
  ∃ tied outcome,
    winning_colors Examples.referee_tie None = Ok tied
    ∧ winning_colors Examples.referee_tie (Some Examples.blue)
      = Ok (if decide ((1 < length tied)%nat ∧ Examples.blue ∈ tied)
            then [Examples.blue] else tied)
    ∧ _check_winners Examples.referee_tie
        ({[ Examples.red := "ann"; Examples.blue := "bob" ]} : gmap string string)
        (Some Examples.blue)
      = Ok outcome
    ∧ winners outcome = ["bob"] ∧ ejected outcome = [].
Proof.
  destruct (winners_by_progress Examples.referee_tie eq_refl referee_tie_ok)
    as (tied & _ & _ & Hnone & Htrigger & _ & Hcheck).
  assert (Htied : tied = [Examples.red; Examples.blue]).
  { vm_compute in Hnone. injection Hnone as <-. reflexivity. }
  destruct (Hcheck string
              ({[ Examples.red := "ann"; Examples.blue := "bob" ]}
               : gmap string string)
              (Some Examples.blue)) as [Hreturns _].
  destruct Hreturns as (outcome & Houtcome & _).
  - intros c Hc. subst tied.
    assert (Hcase : c = Examples.red ∨ c = Examples.blue).
    { destruct (decide _) as [_|_] in Hc.
      - apply elem_of_cons in Hc as [->|Hc]; [right; reflexivity|].
        apply elem_of_nil in Hc. destruct Hc.
      - apply elem_of_cons in Hc as [->|Hc]; [left; reflexivity|].
        apply elem_of_cons in Hc as [->|Hc]; [right; reflexivity|].
        apply elem_of_nil in Hc. destruct Hc. }
    destruct Hcase as [-> | ->].
    + exists "ann". vm_compute. reflexivity.
    + exists "bob". vm_compute. reflexivity.
  - exists tied, outcome. split; [exact Hnone|]. split; [apply Htrigger|].
    split; [exact Houtcome|].
    vm_compute in Houtcome. injection Houtcome as <-.
    split; reflexivity.
Defined.

(** ** A new goal for the current player *)

Lemma build_set_secret s c secret :
  build s = Ok s → is_Some (player_secrets s !! c) →
  assert_in_bounds (board s) (treasure_location secret) = Ok tt →
  build (set_player_secrets (<[c := secret]> (player_secrets s)) s)
  = Ok (set_player_secrets (<[c := secret]> (player_secrets s)) s).
Proof.
  intros Hb [old Hold] Hin. apply build_Ok in Hb as (Hv & Hp & Hi & Hc & _).
  apply build_Ok. simpl. split_and!; try done; try lia.
  destruct (subclass s).
  - apply subclass_init_restricted in Hc as (owner & sec & Hsecs & Hsec & Howner).
    apply subclass_init_restricted. exists owner, secret.
    rewrite Hsecs in *. apply lookup_singleton_Some in Hold as [-> _].
    by rewrite insert_singleton_eq.
  - apply subclass_init_referee in Hc as [Hd Hs].
    apply subclass_init_referee. split.
    + rewrite dom_insert_L, <- Hd. apply elem_of_dom_2 in Hold.
      apply set_eq. intros k. rewrite elem_of_union, elem_of_singleton.
      split; [by intros [->|]|by right].
    + rewrite validate_player_secrets_Ok in *. intros k v.
      rewrite lookup_insert_Some. intros [[_ <-]|[_ Hk]]; [done | by eapply Hs].
Qed.

Lemma assert_in_bounds_cases b c :
  assert_in_bounds b c = Ok tt ∨ assert_in_bounds b c = Raise IndexError.
Proof.
  unfold assert_in_bounds, check.
  destruct (bool_decide (0 ≤ col c < width b)); simpl; [|by right].
  destruct (bool_decide (0 ≤ row c < height b)); simpl; [by left | by right].
Qed.

Lemma can_get_player_secret_Some s c :
  build s = Ok s → can_get_player_secret s c = true →
  is_Some (player_secrets s !! c).
Proof.
  intros Hb. unfold can_get_player_secret. destruct (subclass s) eqn:Hcls.
  - destruct (restricted_owner s Hb Hcls) as (owner & sec & Hsecs & Howner & _).
    rewrite Howner, Hsecs. intros [= ->]%bool_decide_eq_true.
    rewrite lookup_singleton_eq. by eexists.
  - intros H%bool_decide_eq_true. by apply elem_of_dom.
Qed.

Lemma for_each_Raise {A} (f : A → result unit) (l : list A) (e : Exception) a :
  (∀ x, x ∈ l → f x = Ok tt ∨ f x = Raise e) →
  a ∈ l → f a = Raise e → for_each f l = Raise e.
Proof.
  induction l as [|x l IH]; intros Hall Ha Hfa; [by apply elem_of_nil in Ha|].
  simpl. destruct (Hall x) as [Hx|Hx]; [by left| |by rewrite Hx].
  rewrite Hx. simpl. apply elem_of_cons in Ha as [->|Ha]; [congruence|].
  apply IH; [|done..]. intros y Hy. apply Hall. by right.
Qed.

Lemma validate_player_secrets_Raise b (m : gmap string PlayerSecret) k v :
  m !! k = Some v → assert_in_bounds b (treasure_location v) = Raise IndexError →
  _validate_player_secrets b m = Raise IndexError.
Proof.
  intros Hk Hv. unfold _validate_player_secrets.
  apply (for_each_Raise _ _ _ v); [| |done].
  - intros x _. apply assert_in_bounds_cases.
  - apply list_elem_of_fmap. exists (k, v). split; [done|].
    by apply elem_of_map_to_list.
Qed.

(** C9 (amended). [set_current_player_new_goal] returns the state as it is
    unless the state can see the current player's secret and the player
    stands on its treasure; then a goal that is the player's home makes
    [is_going_home] true, a goal on the board becomes the new treasure
    location, both with one more treasure counted and nothing else
    changed; a goal off the board that is not the home is refused with
    [IndexError]. *)
Theorem new_goal_semantics (s : GameState) (new_goal : Coord) :
  GameState_ok s →
  ∃ c ps,
    current_player_color s = Ok c ∧ (c, ps) ∈ player_states s
    ∧ (can_get_player_secret s c = false →
         set_current_player_new_goal s new_goal = Ok s)
    ∧ (can_get_player_secret s c = true →
       ∃ secret, player_secrets s !! c = Some secret
         ∧ (location ps ≠ treasure_location secret →
              set_current_player_new_goal s new_goal = Ok s)
         ∧ (location ps = treasure_location secret →
            (new_goal = home_location ps →
               set_current_player_new_goal s new_goal
               = Ok (set_player_secrets
                       (<[c := mkPlayerSecret (treasure_location secret) true
                                 (treasure_count secret + 1)]> (player_secrets s))
                       s))
            ∧ (new_goal ≠ home_location ps →
               assert_in_bounds (board s) new_goal = Ok tt →
               set_current_player_new_goal s new_goal
               = Ok (set_player_secrets
                       (<[c := mkPlayerSecret new_goal false
                                 (treasure_count secret + 1)]> (player_secrets s))
                       s))
            ∧ (new_goal ≠ home_location ps →
               assert_in_bounds (board s) new_goal ≠ Ok tt →
               set_current_player_new_goal s new_goal = Raise IndexError))).
Proof.
  intros [Hb _ _ Hnd _].
  destruct (current_player_Ok s Hb) as (c & ps & Hc & _ & Hps & Hcps).
  exists c, ps. split; [done|]. split; [by apply od_getitem_elem|].
  unfold set_current_player_new_goal. rewrite Hc. simpl. split.
  - by intros ->.
  - intros Hcan. rewrite Hcan. simpl.
    destruct (can_get_player_secret_Some s c Hb Hcan) as [secret Hsecret].
    exists secret. split; [done|].
    assert (Hget : get_player_secret s c = Ok secret).
    { unfold get_player_secret, getitem. rewrite Hcan, Hsecret.
      by destruct (subclass s). }
    unfold is_current_player_at_treasure, get_current_player_treasure_location,
      get_current_player_secret.
    rewrite Hcps, Hc. simpl. rewrite Hget. simpl. split.
    + intros Hloc. by rewrite bool_decide_eq_false_2.
    + intros Hloc. rewrite (bool_decide_eq_true_2 _ Hloc). simpl.
      rewrite Hps. simpl. unfold getitem. rewrite Hsecret. simpl.
      assert (Hold : assert_in_bounds (board s) (treasure_location secret) = Ok tt).
      { apply build_Ok in Hb as (_ & _ & _ & Hsub & _).
        destruct (subclass s).
        - apply subclass_init_restricted in Hsub as (o & v & Hs & Hv & _).
          rewrite Hs in Hsecret. by apply lookup_singleton_Some in Hsecret as [_ <-].
        - apply subclass_init_referee in Hsub as [_ Hv].
          rewrite validate_player_secrets_Ok in Hv. by eapply Hv. }
      split_and!.
      * intros Hhome. rewrite (bool_decide_eq_true_2 _ Hhome).
        by apply build_set_secret.
      * intros Hhome Hin. rewrite (bool_decide_eq_false_2 _ Hhome).
        by apply build_set_secret.
      * intros Hhome Hout. rewrite (bool_decide_eq_false_2 _ Hhome).
        destruct (assert_in_bounds_cases (board s) new_goal) as [|Hraise]; [done|].
        unfold build, GameState_init. simpl.
        apply build_Ok in Hb as (Hv & Hp & Hi & Hsub & _).
        rewrite Hv, Hp. simpl. rewrite bool_decide_eq_true_2 by done. simpl.
        assert (Hsubr : subclass_init (subclass s) (player_states s)
                  (<[c := set_new_goal secret new_goal]> (player_secrets s)) (board s)
                = Raise IndexError); [|by rewrite Hsubr].
        pose proof (lookup_insert_eq (player_secrets s) c
                      (set_new_goal secret new_goal)) as Hnew.
        destruct (subclass s).
        -- apply subclass_init_restricted in Hsub as (o & v & Hs & _ & _).
           rewrite Hs in *. apply lookup_singleton_Some in Hsecret as [-> _].
           rewrite insert_singleton_eq in *. simpl.
           rewrite map_size_singleton. simpl.
           by rewrite (validate_player_secrets_Raise _ _ _ _ Hnew Hraise).
        -- apply subclass_init_referee in Hsub as [Hd _]. simpl.
           rewrite bool_decide_eq_false_2; simpl.
           ++ by rewrite (validate_player_secrets_Raise _ _ _ _ Hnew Hraise).
           ++ intros Hne. apply Hne. rewrite dom_insert_L, <- Hd.
              apply elem_of_dom_2 in Hsecret.
              apply set_eq. intros k. rewrite elem_of_union, elem_of_singleton.
              split; [by intros [->|]|by right].
Qed.

Lemma referee_at_treasure_ok : GameState_ok Examples.referee_at_treasure.
Proof.
  state_ok_by_evaluation.
Qed.

Lemma restricted_at_treasure_ok : GameState_ok Examples.restricted_at_treasure.
Proof.
  state_ok_by_evaluation.
Qed.

(** The claim as it was stated fails for a goal off the board: the
    constructor refuses the new secret. *)
Lemma new_goal_off_board_raises :
  can_get_player_secret Examples.referee_at_treasure Examples.red = true
  ∧ is_current_player_at_treasure Examples.referee_at_treasure = Ok true
  ∧ set_current_player_new_goal Examples.referee_at_treasure (mkCoord 5 5)
    = Raise IndexError.
Proof. by vm_compute. Qed.

Lemma new_goal_semantics_witness :
  set_current_player_new_goal Examples.referee0 (mkCoord 1 1) = Ok Examples.referee0
  ∧ set_current_player_new_goal Examples.restricted_at_treasure (mkCoord 1 1)
    = Ok (set_player_secrets {[ Examples.red := mkPlayerSecret (mkCoord 0 1) true 1 ]}
            Examples.restricted_at_treasure)
  ∧ set_current_player_new_goal Examples.referee_at_treasure (mkCoord 2 2)
    = Ok (set_player_secrets
            (<[ Examples.red := mkPlayerSecret (mkCoord 2 2) false 1 ]>
               Examples.secrets2)
            Examples.referee_at_treasure).
Proof.
  split; [|split].
  - destruct (new_goal_semantics Examples.referee0 (mkCoord 1 1) referee0_ok)
      as (c & ps & Hc & Hps & _ & Hcan).
    injection Hc as <-.
    destruct Hcan as (secret & Hsecret & Hstay & _); [by vm_compute|].
    apply Hstay. injection Hsecret as <-.
    apply (od_unique _ _ _ _ (state_keys_nodup _ referee0_ok)
             (ltac:(by left))) in Hps as <-. by vm_compute.
  - destruct (new_goal_semantics Examples.restricted_at_treasure (mkCoord 1 1)
                restricted_at_treasure_ok)
      as (c & ps & Hc & Hps & _ & Hcan).
    injection Hc as <-.
    destruct Hcan as (secret & Hsecret & _ & Hat); [by vm_compute|].
    injection Hsecret as <-.
    apply (od_unique _ _ _ _ (state_keys_nodup _ restricted_at_treasure_ok)
             (ltac:(by left))) in Hps as <-.
    destruct Hat as (Hhome & _); [by vm_compute|].
    rewrite Hhome by by vm_compute. by vm_compute.
  - destruct (new_goal_semantics Examples.referee_at_treasure (mkCoord 2 2)
                referee_at_treasure_ok)
      as (c & ps & Hc & Hps & _ & Hcan).
    injection Hc as <-.
    destruct Hcan as (secret & Hsecret & _ & Hat); [by vm_compute|].
    injection Hsecret as <-.
    apply (od_unique _ _ _ _ (state_keys_nodup _ referee_at_treasure_ok)
             (ltac:(by left))) in Hps as <-.
    destruct Hat as (_ & Hgoal & _); [by vm_compute|].
    rewrite Hgoal; [done | by vm_compute | by vm_compute].
Defined.

(** ** The constructor of boards *)

Lemma elem_of_rectangle w h c :
  c ∈ rectangle w h ↔ 0 ≤ col c < w ∧ 0 ≤ row c < h.
Proof.
  unfold rectangle. rewrite list_elem_of_bind. split.
  - intros (x & Hc & Hx). apply list_elem_of_fmap in Hc as (y & -> & Hy).
    apply elem_of_seqZ in Hx, Hy. simpl. lia.
  - intros [Hc Hr]. exists (col c). split.
    + apply list_elem_of_fmap. exists (row c). split; [by destruct c|].
      apply elem_of_seqZ. lia.
    + apply elem_of_seqZ. lia.
Qed.

Lemma NoDup_rectangle w h : NoDup (rectangle w h).
Proof.
  unfold rectangle. apply NoDup_bind.
  - intros x1 x2 c _ _ (y1 & -> & _)%list_elem_of_fmap (y2 & [= ? ?] & _)%list_elem_of_fmap.
    done.
  - intros x _. apply NoDup_fmap_2; [|apply NoDup_seqZ]. by intros y1 y2 [=].
  - apply NoDup_seqZ.
Qed.

Lemma length_rectangle w h : 0 ≤ w → 0 ≤ h →
  Z.of_nat (length (rectangle w h)) = w * h.
Proof.
  intros Hw Hh. unfold rectangle.
  assert (Hlen : ∀ xs : list Z,
            length (xs ≫= λ x, (λ y, mkCoord x y) <$> seqZ 0 h)
            = (length xs * Z.to_nat h)%nat).
  { induction xs as [|x xs IH]; [done|].
    rewrite bind_cons, length_app, IH, length_fmap, length_seqZ. simpl. lia. }
  rewrite Hlen, length_seqZ. lia.
Qed.

Lemma size_list_to_set_le (l : list Treasure) :
  (size (list_to_set l : gset Treasure) ≤ length l)%nat.
Proof.
  induction l as [|x l IH]; [by rewrite list_to_set_nil, size_empty|].
  rewrite list_to_set_cons. simpl.
  pose proof (size_union_alt {[x]} (list_to_set l : gset Treasure)) as Hs.
  rewrite size_singleton in Hs.
  pose proof (subseteq_size (list_to_set l ∖ {[x]}) (list_to_set l : gset Treasure)
                ltac:(set_solver)).
  lia.
Qed.

Lemma size_list_to_set_NoDup (l : list Treasure) :
  size (list_to_set l : gset Treasure) = length l ↔ NoDup l.
Proof.
  split; [|apply size_list_to_set].
  induction l as [|x l IH]; [constructor|].
  rewrite list_to_set_cons. simpl. intros Hsize.
  pose proof (size_list_to_set_le l) as Hle.
  destruct (decide (x ∈ l)) as [Hx|Hx].
  - replace ({[x]} ∪ list_to_set l : gset Treasure) with (list_to_set l : gset Treasure)
      in Hsize by set_solver.
    lia.
  - rewrite size_union, size_singleton in Hsize by set_solver.
    constructor; [done|]. apply IH. lia.
Qed.

Lemma validate_tile_gems_Ok (l : list Tile) :
  validate_tile_gems l = Ok tt ↔ NoDup (gems <$> l).
Proof.
  unfold validate_tile_gems. rewrite check_Ok, bool_decide_eq_true.
  rewrite <- size_list_to_set_NoDup, length_fmap. done.
Qed.

Lemma NoDup_fmap_inj_on {A B} (f : A → B) (l : list A) x y :
  NoDup (f <$> l) → x ∈ l → y ∈ l → f x = f y → x = y.
Proof.
  induction l as [|a l IH]; simpl; intros Hnd Hx Hy Hf.
  - by apply elem_of_nil in Hx.
  - apply NoDup_cons in Hnd as [Ha Hnd].
    apply elem_of_cons in Hx as [->|Hx], Hy as [->|Hy]; try done.
    + destruct Ha. rewrite Hf. apply list_elem_of_fmap. by exists y.
    + destruct Ha. rewrite <- Hf. apply list_elem_of_fmap. by exists x.
    + by apply IH.
Qed.

Lemma NoDup_gems_values (m : gmap Coord Tile) :
  NoDup (gems <$> values m) ↔ distinct_gems m.
Proof.
  unfold values. rewrite <- list_fmap_compose. split.
  - intros Hnd c1 c2 t1 t2 H1 H2 Hg.
    apply elem_of_map_to_list in H1, H2.
    by pose proof (NoDup_fmap_inj_on _ _ _ _ Hnd H1 H2 Hg) as [= -> _].
  - intros Hd. apply NoDup_fmap_2_strong; [|apply NoDup_map_to_list].
    intros [c1 t1] [c2 t2] H1%elem_of_map_to_list H2%elem_of_map_to_list Hg.
    simpl in Hg. pose proof (Hd _ _ _ _ H1 H2 Hg) as ->. congruence.
Qed.

Lemma Board_init_Ok tiles w h b :
  Board_init tiles w h = Ok b ↔
    b = mkBoard tiles w h
    ∧ 0 < w ∧ 0 < h
    ∧ (∀ c, is_Some (tiles !! c) ↔ 0 ≤ col c < w ∧ 0 ≤ row c < h)
    ∧ distinct_gems tiles.
Proof.
  unfold Board_init. rewrite <- NoDup_gems_values, <- validate_tile_gems_Ok.
  assert (Hmissing : _count_missing_keys tiles w h ≤ 0 ↔
            ∀ c, 0 ≤ col c < w ∧ 0 ≤ row c < h → is_Some (tiles !! c)).
  { unfold _count_missing_keys. split.
    - intros Hlen c Hc%elem_of_rectangle.
      destruct (tiles !! c) eqn:Ht; [by eexists|].
      assert (Hf : c ∈ filter (λ c, tiles !! c = None) (rectangle w h))
        by by apply list_elem_of_filter.
      destruct (filter _ _); [by apply elem_of_nil in Hf | simpl in Hlen; lia].
    - intros Hall.
      destruct (filter (λ c, tiles !! c = None) (rectangle w h)) as [|c0 l0] eqn:Hf;
        [done|].
      assert (Hc0 : c0 ∈ filter (λ c, tiles !! c = None) (rectangle w h))
        by (rewrite Hf; by left).
      apply list_elem_of_filter in Hc0 as [Hnone Hc0%elem_of_rectangle].
      apply Hall in Hc0 as [? ?]. congruence. }
  assert (Hsize : 0 < w → 0 < h →
            (∀ c, 0 ≤ col c < w ∧ 0 ≤ row c < h → is_Some (tiles !! c)) →
            (Z.of_nat (size tiles) ≤ w * h ↔
               ∀ c, is_Some (tiles !! c) → 0 ≤ col c < w ∧ 0 ≤ row c < h)).
  { intros Hw Hh Hall.
    assert (Hsub : (list_to_set (rectangle w h) : gset Coord) ⊆ dom tiles).
    { intros c Hc%elem_of_list_to_set%elem_of_rectangle.
      by apply elem_of_dom, Hall. }
    assert (Hrect : Z.of_nat (size (list_to_set (rectangle w h) : gset Coord)) = w * h).
    { rewrite size_list_to_set by apply NoDup_rectangle.
      apply length_rectangle; lia. }
    rewrite <- size_dom. split.
    - intros Hle c Hc%elem_of_dom.
      rewrite <- (set_subseteq_size_eq _ _ Hsub) in Hc by lia.
      by apply elem_of_list_to_set, elem_of_rectangle in Hc.
    - intros Hin. rewrite <- Hrect. apply inj_le, subseteq_size.
      intros c Hc%elem_of_dom%Hin. by apply elem_of_list_to_set, elem_of_rectangle. }
  split.
  - intros H.
    apply bind_Ok in H as ([] & H0 & H). apply bind_Ok in H as ([] & H1 & H).
    apply bind_Ok in H as ([] & H2 & H). apply bind_Ok in H as ([] & H3 & H).
    injection H as <-.
    apply check_Ok, negb_true_iff, bool_decide_eq_false in H0, H1, H2.
    assert (Hall : ∀ c, 0 ≤ col c < w ∧ 0 ≤ row c < h → is_Some (tiles !! c))
      by (apply Hmissing; lia).
    split; [done|]. split; [lia|]. split; [lia|]. split; [|done].
    intros c. split; [|apply Hall]. revert c. apply Hsize; [lia..|done|].
    apply Hmissing in Hall. unfold _count_missing_keys in *. lia.
  - intros (-> & Hw & Hh & Hkeys & Hgems).
    assert (Hall : ∀ c, 0 ≤ col c < w ∧ 0 ≤ row c < h → is_Some (tiles !! c))
      by (intros c; apply Hkeys).
    pose proof (proj2 Hmissing Hall) as Hm.
    assert (Hs : Z.of_nat (size tiles) ≤ w * h)
      by (apply Hsize; try done; intros c; apply Hkeys).
    rewrite (bool_decide_eq_false_2 (w ≤ 0 ∨ h ≤ 0)) by lia. simpl.
    rewrite (bool_decide_eq_false_2 (_count_missing_keys tiles w h > 0)) by lia.
    simpl.
    rewrite (bool_decide_eq_false_2
               (Z.of_nat (size tiles) + _count_missing_keys tiles w h > w * h))
      by lia.
    simpl. by rewrite Hgems.
Qed.

Lemma Board_ok_spec b :
  Board_ok b ↔
    0 < width b ∧ 0 < height b
    ∧ (∀ c, is_Some (tiles b !! c) ↔ in_bounds b c)
    ∧ distinct_gems (tiles b).
Proof.
  unfold Board_ok. rewrite Board_init_Ok. destruct b. simpl. unfold in_bounds.
  simpl. tauto.
Qed.

Lemma assert_in_bounds_Ok b c : assert_in_bounds b c = Ok tt ↔ in_bounds b c.
Proof.
  unfold assert_in_bounds, in_bounds. rewrite bind_Ok. split.
  - intros ([] & H1 & H2). apply check_Ok, bool_decide_eq_true in H1, H2. done.
  - intros [H1 H2]. exists tt. rewrite !check_Ok, !bool_decide_eq_true. done.
Qed.

(** ** Sliding a row or a column *)

(** The rows and the columns are slid by the same comprehensions; [g x]
    is the coordinate at position [x] of the line that slides, [d] the
    step and [n] the length of the line. *)
Section line.
Context (g : Z → Coord) (d n : Z).
Context (g_inj : ∀ x y, g x = g y → x = y).
Context (d_unit : d = 1 ∨ d = -1) (n_pos : 0 < n).

Lemma line_replacements_lookup c c' :
  line_replacements g d n !! c = Some c'
  ↔ ∃ x, 0 ≤ x < n ∧ 0 ≤ x + d < n ∧ c = g x ∧ c' = g (x + d).
Proof.
  unfold line_replacements. rewrite <- elem_of_list_to_map.
  - rewrite list_elem_of_fmap. split.
    + intros (x & [= -> ->] & [Hx Hin%elem_of_seqZ]%list_elem_of_filter).
      exists x. split_and!; try done; lia.
    + intros (x & Hx & Hxd & -> & ->). exists x. split; [done|].
      apply list_elem_of_filter. split; [done|]. apply elem_of_seqZ. lia.
  - rewrite <- list_fmap_compose. apply NoDup_fmap_2_strong.
    + intros x y _ _ Hxy. simpl in Hxy. by apply g_inj.
    + apply NoDup_filter, NoDup_seqZ.
Qed.

Lemma line_move_on x :
  0 ≤ x < n → x ≠ (line_last d n) → line_move g d n (g x) = g (x + d).
Proof.
  intros Hx Hlast. unfold line_move.
  assert (H : line_replacements g d n !! g x = Some (g (x + d))); [|by rewrite H].
  apply line_replacements_lookup. exists x.
  unfold line_last in Hlast. split_and!; try done; case_decide; lia.
Qed.

Lemma line_move_off c :
  (∀ x, 0 ≤ x < n → 0 ≤ x + d < n → c ≠ g x) → line_move g d n c = c.
Proof.
  intros Hc. unfold line_move.
  destruct (line_replacements g d n !! c) as [c'|] eqn:Hl; [|done].
  apply line_replacements_lookup in Hl as (x & Hx & Hxd & -> & _).
  by destruct (Hc x).
Qed.

Lemma line_move_cases c :
  (∃ x, 0 ≤ x < n ∧ 0 ≤ x + d < n ∧ c = g x ∧ line_move g d n c = g (x + d))
  ∨ ((∀ x, 0 ≤ x < n → 0 ≤ x + d < n → c ≠ g x) ∧ line_move g d n c = c).
Proof.
  unfold line_move. destruct (line_replacements g d n !! c) as [c'|] eqn:Hl.
  - left. apply line_replacements_lookup in Hl as (x & Hx & Hxd & -> & ->).
    by exists x.
  - right. split; [|done]. intros x Hx Hxd ->.
    assert (H : line_replacements g d n !! g x = Some (g (x + d)));
      [|by rewrite H in Hl].
    apply line_replacements_lookup. by exists x.
Qed.

Lemma line_move_inj c1 c2 :
  c1 ≠ g (line_last d n) → c2 ≠ g (line_last d n) →
  line_move g d n c1 = line_move g d n c2 → c1 = c2.
Proof.
  intros H1 H2 Heq. unfold line_last in *.
  destruct (line_move_cases c1) as [(x1 & Hx1 & Hd1 & -> & E1)|[Hoff1 E1]],
    (line_move_cases c2) as [(x2 & Hx2 & Hd2 & -> & E2)|[Hoff2 E2]];
    rewrite E1, E2 in Heq.
  - apply g_inj in Heq. f_equal. lia.
  - subst c2. destruct (Hoff2 (x1 + d)); try done; try lia.
    destruct (decide (0 ≤ x1 + d + d < n)) as [|Hout]; [done|].
    destruct H2. f_equal. case_decide; lia.
  - subst c1. destruct (Hoff1 (x2 + d)); try done; try lia.
    destruct (decide (0 ≤ x2 + d + d < n)) as [|Hout]; [done|].
    destruct H1. f_equal. case_decide; lia.
  - done.
Qed.
End line.

Section moved_tiles.
Context (tiles : gmap Coord Tile) (repl : gmap Coord Coord) (dropped : Coord).
Context (move_inj : ∀ c1 c2, c1 ≠ dropped → c2 ≠ dropped →
           default c1 (repl !! c1) = default c2 (repl !! c2) → c1 = c2).

(** On a board no two coordinates other than the dropped one are sent
    to the same place, so the comprehension loses no tile. *)
Lemma moved_tiles_lookup k t :
  moved_tiles tiles repl dropped !! k = Some t
  ↔ ∃ c, c ≠ dropped ∧ tiles !! c = Some t ∧ default c (repl !! c) = k.
Proof.
  unfold moved_tiles. rewrite <- elem_of_list_to_map.
  - rewrite list_elem_of_fmap. split.
    + intros ([c t'] & [= -> ->] & [Hc Hin%elem_of_map_to_list]%list_elem_of_filter).
      by exists c.
    + intros (c & Hc & Ht & <-). exists (c, t). split; [done|].
      apply list_elem_of_filter. split; [done|]. by apply elem_of_map_to_list.
  - rewrite <- list_fmap_compose. apply NoDup_fmap_2_strong.
    + intros [c1 t1] [c2 t2]
        [Hc1 H1%elem_of_map_to_list]%list_elem_of_filter
        [Hc2 H2%elem_of_map_to_list]%list_elem_of_filter Heq.
      simpl in *. pose proof (move_inj _ _ Hc1 Hc2 Heq) as ->. congruence.
    + apply NoDup_filter, NoDup_map_to_list.
Qed.

Lemma moved_tiles_image c :
  c ≠ dropped →
  moved_tiles tiles repl dropped !! default c (repl !! c) = tiles !! c.
Proof.
  intros Hc. destruct (tiles !! c) as [t|] eqn:Ht.
  - apply moved_tiles_lookup. by exists c.
  - destruct (moved_tiles _ _ _ !! _) as [t|] eqn:Hm; [|done].
    apply moved_tiles_lookup in Hm as (c' & Hc' & Ht' & Heq).
    pose proof (move_inj _ _ Hc' Hc Heq) as ->. congruence.
Qed.
End moved_tiles.

(** The tiles of the board after a line has slid and [tile] has come in. *)
Section slide.
Context (b : Board) (g : Z → Coord) (pos : Coord → Z) (d n : Z) (tile : Tile).
Context (b_ok : Board_ok b).
Context (pos_g : ∀ x, pos (g x) = x).
Context (line_in_bounds : ∀ x, in_bounds b (g x) ↔ 0 ≤ x < n).
Context (d_unit : d = 1 ∨ d = -1) (n_pos : 0 < n).
Context (tile_fresh : ∀ c t, tiles b !! c = Some t → c ≠ g (line_last d n) →
           gems t ≠ gems tile).

Local Lemma g_inj x y : g x = g y → x = y.
Proof. intros H. by rewrite <- (pos_g x), <- (pos_g y), H. Qed.

Local Lemma move_inj c1 c2 :
  c1 ≠ g (line_last d n) → c2 ≠ g (line_last d n) →
  default c1 (line_replacements g d n !! c1)
  = default c2 (line_replacements g d n !! c2) → c1 = c2.
Proof. apply (line_move_inj g d n g_inj d_unit). Qed.

Local Lemma board_keys c : is_Some (tiles b !! c) ↔ in_bounds b c.
Proof. by apply Board_ok_spec in b_ok as (_ & _ & Hkeys & _). Qed.

Lemma slid_tiles_first : slid_tiles b g d n tile !! g (line_first d n) = Some tile.
Proof. apply lookup_insert_eq. Qed.

Lemma slid_tiles_on x :
  0 ≤ x < n → x ≠ line_last d n → slid_tiles b g d n tile !! g (x + d) = tiles b !! g x.
Proof.
  intros Hx Hlast. unfold slid_tiles. rewrite lookup_insert_ne.
  - rewrite <- (line_move_on g d n g_inj d_unit x Hx Hlast).
    apply (moved_tiles_image _ _ _ move_inj). intros Heq%g_inj. done.
  - intros Heq%g_inj. unfold line_first, line_last in *. case_decide; lia.
Qed.

Lemma slid_tiles_off c : g (pos c) ≠ c → slid_tiles b g d n tile !! c = tiles b !! c.
Proof.
  intros Hc. unfold slid_tiles.
  assert (Hoff : ∀ x, c ≠ g x).
  { intros x ->. by rewrite pos_g in Hc. }
  rewrite lookup_insert_ne by done.
  rewrite <- (line_move_off g d n g_inj c) at 1 by (intros x _ _; apply Hoff).
  by apply (moved_tiles_image _ _ _ move_inj).
Qed.

Lemma slid_tiles_keys c : is_Some (slid_tiles b g d n tile !! c) ↔ in_bounds b c.
Proof.
  split.
  - unfold slid_tiles. rewrite lookup_insert_is_Some.
    intros [<-|[_ [t Ht]]].
    + apply line_in_bounds. unfold line_first. case_decide; lia.
    + apply (moved_tiles_lookup _ _ _ move_inj) in Ht as (c' & Hc' & Ht & Heq).
      assert (Hin : in_bounds b c') by (apply board_keys; by eexists).
      destruct (line_move_cases g d n g_inj c')
        as [(x & Hx & Hd & -> & E)|[Hoff E]]; unfold line_move in E;
        rewrite E in Heq; subst c; [by apply line_in_bounds | done].
  - intros Hin. destruct (decide (g (pos c) = c)) as [Hon|Hoff].
    + rewrite <- Hon in Hin |- *. apply line_in_bounds in Hin.
      destruct (decide (pos c = line_first d n)) as [->|Hfirst].
      { rewrite slid_tiles_first. by eexists. }
      replace (pos c) with (pos c - d + d) by lia.
      unfold line_first, line_last in *.
      rewrite slid_tiles_on by (unfold line_last; case_decide; lia).
      apply board_keys, line_in_bounds. case_decide; lia.
    + rewrite slid_tiles_off by done. by apply board_keys.
Qed.

Lemma slid_tiles_distinct_gems : distinct_gems (slid_tiles b g d n tile).
Proof.
  pose proof b_ok as (_ & _ & _ & Hgems)%Board_ok_spec.
  intros c1 c2 t1 t2. unfold slid_tiles. rewrite !lookup_insert_Some.
  intros [[<- <-]|[Hc1 H1]] [[<- <-]|[Hc2 H2]] Hg; try done.
  - apply (moved_tiles_lookup _ _ _ move_inj) in H2 as (c & Hc & Ht & _).
    by destruct (tile_fresh _ _ Ht Hc).
  - apply (moved_tiles_lookup _ _ _ move_inj) in H1 as (c & Hc & Ht & _).
    by destruct (tile_fresh _ _ Ht Hc).
  - apply (moved_tiles_lookup _ _ _ move_inj) in H1 as (c & Hc & Ht & <-).
    apply (moved_tiles_lookup _ _ _ move_inj) in H2 as (c' & Hc' & Ht' & <-).
    by rewrite (Hgems _ _ _ _ Ht Ht' Hg).
Qed.

Lemma slid_tiles_board :
  Board_init (slid_tiles b g d n tile) (width b) (height b)
  = Ok (mkBoard (slid_tiles b g d n tile) (width b) (height b)).
Proof.
  pose proof b_ok as (Hw & Hh & _ & _)%Board_ok_spec.
  apply Board_init_Ok. split_and!; try done.
  - apply slid_tiles_keys.
  - apply slid_tiles_distinct_gems.
Qed.
End slide.

Lemma elem_of_get_valid_insert_locations b d c :
  c ∈ get_valid_insert_locations b d ↔
    if is_vertical d then
      row c = (if decide (d = DOWN) then 0 else height b - 1)
      ∧ row c mod 2 = 0 ∧ 0 ≤ col c < width b ∧ col c mod 2 = 0
    else
      col c = (if decide (d = RIGHT) then 0 else width b - 1)
      ∧ col c mod 2 = 0 ∧ 0 ≤ row c < height b ∧ row c mod 2 = 0.
Proof.
  unfold get_valid_insert_locations, is_moveable_row_or_column.
  destruct (is_vertical d).
  - set (r := if decide (d = DOWN) then 0 else height b - 1).
    case_bool_decide as Hr; simpl.
    + rewrite elem_of_list_to_set, list_elem_of_fmap. split.
      * intros (x & -> & [Hx Hin%elem_of_seqZ]%list_elem_of_filter).
        apply bool_decide_unpack in Hx. simpl. split_and!; try done; lia.
      * intros (Hrow & _ & Hcol & Hmod). exists (col c). split.
        { destruct c. simpl in *. by subst. }
        apply list_elem_of_filter. split; [by apply bool_decide_pack|].
        apply elem_of_seqZ. lia.
    + rewrite elem_of_empty. split; [done|]. intros (Hrow & Hmod & _).
      by rewrite Hrow in Hmod.
  - set (r := if decide (d = RIGHT) then 0 else width b - 1).
    case_bool_decide as Hr; simpl.
    + rewrite elem_of_list_to_set, list_elem_of_fmap. split.
      * intros (x & -> & [Hx Hin%elem_of_seqZ]%list_elem_of_filter).
        apply bool_decide_unpack in Hx. simpl. split_and!; try done; lia.
      * intros (Hrow & _ & Hcol & Hmod). exists (row c). split.
        { destruct c. simpl in *. by subst. }
        apply list_elem_of_filter. split; [by apply bool_decide_pack|].
        apply elem_of_seqZ. lia.
    + rewrite elem_of_empty. split; [done|]. intros (Hrow & Hmod & _).
      by rewrite Hrow in Hmod.
Qed.

Lemma assert_valid_shift_and_insert_Ok b coord d :
  0 < width b → 0 < height b →
  coord ∈ get_valid_insert_locations b d →
  assert_valid_shift_and_insert b coord d = Ok tt.
Proof.
  intros Hw Hh Hin. unfold assert_valid_shift_and_insert.
  pose proof Hin as Hc. apply elem_of_get_valid_insert_locations in Hc.
  assert (in_bounds b coord ∧ col coord mod 2 = 0 ∧ row coord mod 2 = 0)
    as (Hb & Hcm & Hrm).
  { unfold in_bounds. destruct d; simpl in Hc; repeat case_decide; try done; lia. }
  apply assert_in_bounds_Ok in Hb. rewrite Hb. simpl.
  unfold is_moveable_row_or_column.
  by rewrite !bool_decide_eq_true_2 by done.
Qed.

Ltac unfold_line :=
  unfold line_of, line_pos, line_step, line_length, line_first, line_last in *.

Lemma slide_and_insert_tile_Ok b coord d t :
  Board_ok b → coord ∈ get_valid_insert_locations b d →
  (∀ c t', tiles b !! c = Some t' → c ≠ far_edge b coord d → gems t' ≠ gems t) →
  ∃ ejected,
    tiles b !! far_edge b coord d = Some ejected
    ∧ coord = line_of coord d (line_first (line_step d) (line_length b d))
    ∧ far_edge b coord d = line_of coord d (line_last (line_step d) (line_length b d))
    ∧ (∀ x, in_bounds b (line_of coord d x) ↔ 0 ≤ x < line_length b d)
    ∧ slide_and_insert_tile b coord d t
      = Ok (mkBoard (slid_tiles b (line_of coord d) (line_step d) (line_length b d) t)
              (width b) (height b),
            ejected,
            mkBoardEdit
              (line_replacements (line_of coord d) (line_step d) (line_length b d))
              {[far_edge b coord d]}).
Proof.
  intros Hok Hin Hfresh.
  pose proof Hok as (Hw & Hh & Hkeys & Hgems)%Board_ok_spec.
  pose proof (assert_valid_shift_and_insert_Ok b coord d Hw Hh Hin) as Hvalid.
  apply elem_of_get_valid_insert_locations in Hin.
  assert (Hfirst : coord = line_of coord d (line_first (line_step d) (line_length b d))).
  { unfold_line.
    destruct coord as [x y], d; simpl in *; destruct Hin as (-> & _); done. }
  assert (Hlast : far_edge b coord d
                  = line_of coord d (line_last (line_step d) (line_length b d))).
  { unfold_line. by destruct d. }
  assert (Hline : ∀ x, in_bounds b (line_of coord d x) ↔ 0 ≤ x < line_length b d).
  { intros x. unfold in_bounds. unfold_line.
    destruct d; simpl in *; destruct Hin as (? & _ & ? & _); lia. }
  assert (Hedge : in_bounds b (far_edge b coord d)).
  { rewrite Hlast. apply Hline. unfold_line. destruct d; simpl; lia. }
  apply Hkeys in Hedge as [ejected Hej]. exists ejected.
  split_and!; try done.
  unfold slide_and_insert_tile. rewrite Hvalid. simpl.
  assert (Hslide :
    (if is_vertical d then _slide_column b (col coord) d
     else _slide_row b (row coord) d)
    = Ok (moved_tiles (tiles b)
            (line_replacements (line_of coord d) (line_step d) (line_length b d))
            (far_edge b coord d),
          ejected,
          mkBoardEdit
            (line_replacements (line_of coord d) (line_step d) (line_length b d))
            {[far_edge b coord d]})).
  { destruct d; simpl; unfold _slide_column, _slide_row, getitem; simpl;
      simpl in Hej; by rewrite Hej. }
  rewrite Hslide. simpl. unfold with_tiles.
  rewrite Hfirst at 1. rewrite Hlast at 1.
  change (<[?k := t]> (moved_tiles (tiles b) ?r ?l))
    with (slid_tiles b (line_of coord d) (line_step d) (line_length b d) t).
  rewrite (slid_tiles_board b (line_of coord d) (line_pos d)); try done.
  - unfold_line. by destruct d.
  - unfold_line. destruct d; simpl; lia.
  - unfold_line. destruct d; simpl; lia.
  - intros c t' Ht Hc. apply (Hfresh c t' Ht). by rewrite Hlast.
Qed.

Lemma line_pos_of coord d x : line_pos d (line_of coord d x) = x.
Proof. by destruct d. Qed.

Lemma line_of_inj coord d x y : line_of coord d x = line_of coord d y → x = y.
Proof. intros H. by rewrite <- (line_pos_of coord d x), H, line_pos_of. Qed.

Lemma line_step_unit d : line_step d = 1 ∨ line_step d = -1.
Proof. destruct d; auto. Qed.

Lemma on_line_iff coord d c :
  on_line coord d c ↔ line_of coord d (line_pos d c) = c.
Proof.
  destruct c, d; unfold on_line, line_of, line_pos; simpl; split; congruence.
Qed.

Lemma step_line_of coord d x :
  step d (line_of coord d x) = line_of coord d (x + line_step d).
Proof. destruct d; unfold step, line_of, line_step; simpl; f_equal; lia. Qed.

Lemma line_last_step s n x :
  s = 1 ∨ s = -1 → 0 ≤ x < n → (x ≠ line_last s n ↔ 0 ≤ x + s < n).
Proof. intros Hs Hx. unfold line_last. case_decide; lia. Qed.

(** C3 (amended). On a board built by the constructor, inserting a tile
    whose pair of gems is on no tile that stays on the board, at a valid
    insert location for the direction, succeeds: the row or column through
    the location moves one cell in the direction, the tile at the far edge
    is returned, the new tile lies at the location, the rest of the board
    is as before, the edit maps each remaining cell of the line to its
    neighbour and deletes the far edge alone, and the new board has the
    dimensions of the old one, a tile on each of its cells and no other. *)
Theorem slide_and_insert_tile_spec (b : Board) (coord : Coord) (d : Direction)
    (t : Tile) :
  Board_ok b → coord ∈ get_valid_insert_locations b d →
  (∀ c t', tiles b !! c = Some t' → c ≠ far_edge b coord d → gems t' ≠ gems t) →
  ∃ b' ejected edit,
    slide_and_insert_tile b coord d t = Ok (b', ejected, edit)
    ∧ tiles b !! far_edge b coord d = Some ejected
    ∧ tiles b' !! coord = Some t
    ∧ (∀ c, on_line coord d c → in_bounds b c → c ≠ far_edge b coord d →
         tiles b' !! step d c = tiles b !! c)
    ∧ (∀ c, ¬ on_line coord d c → tiles b' !! c = tiles b !! c)
    ∧ (∀ c c', replacements edit !! c = Some c' ↔
         on_line coord d c ∧ in_bounds b c ∧ c ≠ far_edge b coord d
         ∧ c' = step d c)
    ∧ deletions edit = {[far_edge b coord d]}
    ∧ width b' = width b ∧ height b' = height b
    ∧ (∀ c, is_Some (tiles b' !! c) ↔ in_bounds b' c)
    ∧ Board_ok b'.
Proof.
  intros Hok Hin Hfresh.
  destruct (slide_and_insert_tile_Ok b coord d t Hok Hin Hfresh)
    as (ejected & Hej & Hfirst & Hlast & Hline & Hslide).
  pose proof Hok as (Hw & Hh & Hkeys & Hgems)%Board_ok_spec.
  pose proof (line_pos_of coord d) as Hpos.
  pose proof (line_of_inj coord d) as Hg.
  pose proof (line_step_unit d) as Hs.
  pose proof (on_line_iff coord d) as Hon.
  pose proof (step_line_of coord d) as Hstep.
  assert (Hn : 0 < line_length b d).
  { pose proof Hok as (? & ? & _)%Board_ok_spec. by destruct d. }
  set (g := line_of coord d) in *. set (s := line_step d) in *.
  set (n := line_length b d) in *.
  assert (Hfresh' : ∀ c t', tiles b !! c = Some t' → c ≠ g (line_last s n) →
                     gems t' ≠ gems t).
  { intros c t' Ht Hc. apply (Hfresh c t' Ht). by rewrite Hlast. }
  eexists _, ejected, _. split; [exact Hslide|]. simpl. split_and!; try done.
  - rewrite Hfirst at 1. apply slid_tiles_first.
  - intros c Hc%Hon Hb Hne. rewrite <- Hc in Hb |- *. rewrite Hstep.
    apply (slid_tiles_on b g (line_pos d)); try done.
    + by apply Hline.
    + intros Heq. apply Hne. by rewrite Hlast, <- Heq.
  - intros c Hc. apply (slid_tiles_off b g (line_pos d)); try done.
    by rewrite <- Hon.
  - intros c c'. rewrite (line_replacements_lookup g s n Hg). split.
    + intros (x & Hx & Hxs & -> & ->). split_and!.
      * apply Hon. by rewrite Hpos.
      * by apply Hline.
      * rewrite Hlast. intros Heq%Hg. by apply (line_last_step s n x Hs Hx).
      * by rewrite Hstep.
    + intros (Hc%Hon & Hb & Hne & ->). exists (line_pos d c).
      rewrite <- Hc in Hb, Hne |- *. apply Hline in Hb. rewrite Hpos, Hstep.
      split_and!; try done; try lia;
        apply (line_last_step s n _ Hs Hb); intros Heq;
        by rewrite Heq, <- Hlast in Hne.
  - intros c. apply (slid_tiles_keys b g (line_pos d)); done.
  - unfold Board_ok. simpl. apply (slid_tiles_board b g (line_pos d)); done.
Qed.

(** The claim as it was stated fails for a tile that carries the gems of a
    tile that stays on the board: the constructor refuses the new board. *)
Lemma slide_and_insert_duplicate_gems_raises :
  Board_ok Examples.board3
  ∧ mkCoord 0 0 ∈ get_valid_insert_locations Examples.board3 RIGHT
  ∧ slide_and_insert_tile Examples.board3 (mkCoord 0 0) RIGHT
      (Examples.tile TEE 2 "a" "f")
    = Raise ValueError.
Proof.
  split; [by vm_compute|]. split; [|by vm_compute].
  apply (bool_decide_unpack _). by vm_compute.
Qed.

Lemma fresh_spare :
  ∀ c t', tiles Examples.board3 !! c = Some t' →
          c ≠ far_edge Examples.board3 (mkCoord 0 0) RIGHT →
          gems t' ≠ gems Examples.spare.
Proof.
  intros c t' Ht _. revert c t' Ht.
  apply (bool_decide_unpack
             (map_Forall (λ _ t', gems t' ≠ gems Examples.spare)
                (tiles Examples.board3))).
  by vm_compute.
Qed.

Lemma board3_ok : Board_ok Examples.board3.
Proof. by vm_compute. Qed.

Lemma slide_and_insert_tile_spec_witness :
  ∃ b' edit,
    slide_and_insert_tile Examples.board3 (mkCoord 0 0) RIGHT Examples.spare
    = Ok (b', Examples.tile LINE 1 "a" "d", edit)
    ∧ tiles b' !! mkCoord 0 0 = Some Examples.spare
    ∧ tiles b' !! mkCoord 1 0 = Some (Examples.tile CROSS 0 "a" "b")
    ∧ deletions edit = {[mkCoord 2 0]}
    ∧ Board_ok b'.
Proof.
  destruct (slide_and_insert_tile_spec Examples.board3 (mkCoord 0 0) RIGHT
              Examples.spare board3_ok)
    as (b' & ejected & edit & Hslide & Hej & Hnew & Hmoved & _ & _ & Hdel & _ & _
        & _ & Hok).
  - (apply (bool_decide_unpack _); by vm_compute).
  - exact fresh_spare.
  - exists b', edit.
    assert (ejected = Examples.tile LINE 1 "a" "d") as ->.
    { vm_compute in Hej. injection Hej as <-. reflexivity. }
    split; [exact Hslide|]. split; [exact Hnew|].
    split.
    { change (mkCoord 1 0) with (step RIGHT (mkCoord 0 0)).
      rewrite (Hmoved (mkCoord 0 0)).
      - vm_compute. reflexivity.
      - reflexivity.
      - unfold in_bounds. simpl. lia.
      - intros [=]. }
    split; [|exact Hok].
    rewrite Hdel. vm_compute. reflexivity.
Defined.

(** ** Reachability *)

Lemma elem_of_neighbors b x y : y ∈ _neighbors b x ↔ connected b x y.
Proof.
  unfold _neighbors, _adjacent_tiles, connected. rewrite list_elem_of_omap.
  split.
  - intros ([d y'] & Hin & Hy). simpl in Hy.
    destruct (tiles b !! x) as [tx|] eqn:Hx; [|by apply elem_of_nil in Hin].
    apply list_elem_of_filter in Hin as [_ Hin].
    apply list_elem_of_fmap in Hin as (d' & [= -> ->] & Hd%elem_of_elements).
    destruct (tiles b !! mkCoord (col x + dx d') (row x + dy d')) as [ty|] eqn:Hty;
      [|done].
    destruct (decide (flip d' ∈ connected_directions ty)) as [Hf|]; [|done].
    injection Hy as <-. by exists tx, ty, d'.
  - intros (tx & ty & d & Hx & Hy & -> & Hd & Hf). exists (d, step d x).
    rewrite Hx. simpl. rewrite Hy. split.
    + apply list_elem_of_filter. split; [by simpl; rewrite Hy|].
      apply list_elem_of_fmap. exists d. split; [done|]. by apply elem_of_elements.
    + by rewrite decide_True.
Qed.

Lemma flip_flip d : flip (flip d) = d.
Proof. by destruct d. Qed.

Lemma step_flip d x : step (flip d) (step d x) = x.
Proof. destruct x, d; unfold step; simpl; f_equal; lia. Qed.

Lemma connected_sym b x y : connected b x y → connected b y x.
Proof.
  intros (tx & ty & d & Hx & Hy & -> & Hd & Hf).
  exists ty, tx, (flip d). rewrite flip_flip, step_flip. done.
Qed.

Lemma reachable_sym b x y : rtc (connected b) x y → rtc (connected b) y x.
Proof.
  induction 1 as [|x y z Hxy _ IH]; [done|].
  eapply rtc_r; [exact IH|]. by apply connected_sym.
Qed.

Lemma visit_neighbors_spec (R : gset Coord) ns F (S : gset Coord) :
  (∀ x, x ∈ (visit_neighbors R ns F S).1 ↔ x ∈ F ∨ (x ∈ ns ∧ (x ∉ R) ∧ (x ∉ S)))
  ∧ (∀ x, x ∈ (visit_neighbors R ns F S).2 ↔ x ∈ S ∨ (x ∈ ns ∧ (x ∉ R))).
Proof.
  unfold visit_neighbors. revert F S.
  induction ns as [|n ns IH]; intros F S; simpl.
  - split; intros x; rewrite elem_of_nil; tauto.
  - destruct (decide ((n ∉ R) ∧ (n ∉ S))) as [[HR HS]|Hn]; simpl.
    + destruct (IH (n :: F) ({[n]} ∪ S)) as [IHF IHS].
      split; intros x; rewrite ?IHF, ?IHS, !elem_of_cons, ?elem_of_union,
        ?elem_of_singleton.
      * destruct (decide (x = n)) as [->|]; tauto.
      * destruct (decide (x = n)) as [->|]; tauto.
    + destruct (IH F S) as [IHF IHS].
      split; intros x; rewrite ?IHF, ?IHS, !elem_of_cons.
      * destruct (decide (x = n)) as [->|]; [|tauto].
        destruct (decide (n ∈ R)), (decide (n ∈ S)); tauto.
      * destruct (decide (x = n)) as [->|]; [|tauto].
        destruct (decide (n ∈ R)), (decide (n ∈ S)); tauto.
Qed.

(** The loop ends: each turn of it takes one cell off the stack, and each
    cell put on the stack is a cell with a tile that was not seen before. *)
Lemma visit_neighbors_measure (K R : gset Coord) ns F (S : gset Coord) :
  (∀ x, x ∈ ns → x ∈ K) →
  (2 * size (K ∖ ((visit_neighbors R ns F S).2 ∪ R))
   + length (visit_neighbors R ns F S).1
   ≤ 2 * size (K ∖ (S ∪ R)) + length F)%nat.
Proof.
  unfold visit_neighbors. revert F S.
  induction ns as [|n ns IH]; intros F S Hns; simpl; [lia|].
  assert (Hns' : ∀ x, x ∈ ns → x ∈ K) by (intros x Hx; apply Hns; by right).
  destruct (decide ((n ∉ R) ∧ (n ∉ S))) as [[HR HS]|Hn]; simpl; [|by apply IH].
  etrans; [by apply IH|]. simpl.
  assert (Hn : n ∈ K) by (apply Hns; by left).
  assert (Hsplit : K ∖ (S ∪ R) = {[n]} ∪ K ∖ ({[n]} ∪ S ∪ R)).
  { apply set_eq. intros x.
    rewrite !elem_of_union, !elem_of_difference, !elem_of_union, elem_of_singleton.
    destruct (decide (x = n)) as [->|]; tauto. }
  rewrite Hsplit.
  rewrite (size_union ({[n]} : gset Coord) (K ∖ ({[n]} ∪ S ∪ R))).
  - rewrite (size_singleton (C:=gset Coord)). lia.
  - intros x. rewrite elem_of_singleton, elem_of_difference, !elem_of_union,
      elem_of_singleton. tauto.
Qed.

Lemma neighbors_in_tiles b x y : y ∈ _neighbors b x → y ∈ dom (tiles b).
Proof.
  intros (tx & ty & d & _ & Hy & _)%elem_of_neighbors. by apply elem_of_dom.
Qed.

Lemma search_loop_returns b budget F (R S : gset Coord) :
  (2 * size (dom (tiles b) ∖ (S ∪ R)) + length F < budget)%nat →
  ∃ r, search_loop budget b F R S = Ok r.
Proof.
  revert F R S. induction budget as [|budget IH]; intros F R S Hlt; [lia|].
  destruct F as [|current F]; simpl; [by eexists|].
  apply IH.
  pose proof (visit_neighbors_measure (dom (tiles b)) ({[current]} ∪ R)
                (_neighbors b current) F S (neighbors_in_tiles b current)) as Hm.
  assert (Hsub : (size (dom (tiles b) ∖ (S ∪ ({[current]} ∪ R)))
                  ≤ size (dom (tiles b) ∖ (S ∪ R)))%nat).
  { apply subseteq_size. intros x.
    rewrite !elem_of_difference, !elem_of_union. tauto. }
  simpl in Hlt. lia.
Qed.

Lemma search_loop_spec b c budget F (R S : gset Coord) r :
  search_inv b c F R S → search_loop budget b F R S = Ok r →
  ∀ x, x ∈ r ↔ rtc (connected b) c x.
Proof.
  revert F R S. induction budget as [|budget IH]; intros F R S Hinv Hr; [done|].
  destruct F as [|current F]; simpl in Hr.
  - injection Hr as <-. destruct Hinv as [Hreach Hclosed _ Hstart].
    intros x. split; [intros Hx; apply Hreach; by right|].
    destruct Hstart as [Hc|Hc]; [|by apply elem_of_nil in Hc].
    intros Hrtc. revert Hc. clear IH Hreach.
    induction Hrtc as [|y z w Hyz _ IHrtc]; intros Hy; [done|].
    apply IHrtc. destruct (Hclosed _ _ Hy Hyz) as [|Hnil]; [done|].
    by apply elem_of_nil in Hnil.
  - eapply IH; [|exact Hr].
    destruct Hinv as [Hreach Hclosed Hseen Hstart].
    destruct (visit_neighbors_spec ({[current]} ∪ R) (_neighbors b current) F S)
      as [HF HS].
    split.
    + intros x. rewrite HF, elem_of_union, elem_of_singleton.
      intros [[Hx|(Hx%elem_of_neighbors & _)]|[->|Hx]].
      * apply Hreach. left. by right.
      * eapply rtc_r; [|exact Hx]. apply Hreach. left. by left.
      * apply Hreach. left. by left.
      * apply Hreach. by right.
    + intros x y. rewrite HF, !elem_of_union, !elem_of_singleton.
      intros [->|Hx] Hxy.
      * destruct (decide (y = current)) as [->|Hne]; [by left; left|].
        destruct (decide (y ∈ R)) as [|HR]; [by left; right|].
        destruct (decide (y ∈ S)) as [Hs|Hs].
        -- destruct (Hseen _ Hs) as [|[->|Hy]%elem_of_cons]; [done|done|].
           right. by left.
        -- right. right. apply elem_of_neighbors in Hxy.
           split_and!; [done|tauto|done].
      * destruct (Hclosed _ _ Hx Hxy) as [|[->|Hy]%elem_of_cons].
        -- left. by right.
        -- left. by left.
        -- right. by left.
    + intros x. rewrite HS, HF, !elem_of_union, !elem_of_singleton.
      intros [Hx|[Hx Hn]].
      * destruct (Hseen _ Hx) as [|[->|Hy]%elem_of_cons]; [tauto|tauto|].
        right. by left.
      * destruct (decide (x ∈ S)) as [Hs|Hs]; [|tauto].
        destruct (Hseen _ Hs) as [|[->|Hy]%elem_of_cons]; [tauto|tauto|].
        right. by left.
    + rewrite HF, elem_of_union, elem_of_singleton.
      destruct Hstart as [|[->|Hc]%elem_of_cons]; tauto.
Qed.

(** [reachable_destinations] always returns for a start on the board, and
    returns the cells connected to the start by a path of edges. *)
Lemma reachable_destinations_returns b start :
  in_bounds b start →
  ∃ r, reachable_destinations b start = Ok r
       ∧ ∀ x, x ∈ r ↔ rtc (connected b) start x.
Proof.
  intros Hin%assert_in_bounds_Ok. unfold reachable_destinations.
  rewrite Hin. simpl.
  destruct (search_loop_returns b (2 * size (tiles b) + 2) [start] ∅ ∅) as [r Hr].
  { rewrite <- size_dom.
    assert (Hs : (size (dom (tiles b) ∖ (∅ ∪ ∅)) ≤ size (dom (tiles b)))%nat).
    { apply subseteq_size. intros x. rewrite elem_of_difference. tauto. }
    simpl. lia. }
  exists r. split; [done|]. eapply search_loop_spec; [|exact Hr].
  split.
  - intros x [->%list_elem_of_singleton|Hx]; [done | by apply elem_of_empty in Hx].
  - intros x y Hx. by apply elem_of_empty in Hx.
  - intros x Hx. by apply elem_of_empty in Hx.
  - right. by left.
Qed.

(** C4. For a start on the board [reachable_destinations] contains the
    start, and reachability is symmetric, since so is every edge: a cell is
    a neighbour of another exactly when their tiles are connected towards
    each other. *)
Theorem reachability_symmetric (b : Board) (c d : Coord) :
  in_bounds b c → in_bounds b d →
  ∃ rc rd,
    reachable_destinations b c = Ok rc
    ∧ reachable_destinations b d = Ok rd
    ∧ c ∈ rc
    ∧ (d ∈ rc → c ∈ rd)
    ∧ (d ∈ _neighbors b c ↔ connected b c d)
    ∧ (d ∈ _neighbors b c ↔ c ∈ _neighbors b d).
Proof.
  intros Hc Hd.
  destruct (reachable_destinations_returns b c Hc) as (rc & Hrc & Hc').
  destruct (reachable_destinations_returns b d Hd) as (rd & Hrd & Hd').
  exists rc, rd. split_and!; try done.
  - by apply Hc'.
  - intros Hin%Hc'. by apply Hd', reachable_sym.
  - apply elem_of_neighbors.
  - rewrite !elem_of_neighbors. split; apply connected_sym.
Qed.

Lemma reachability_symmetric_witness :
  ∃ rc rd,
    reachable_destinations Examples.board3 (mkCoord 0 0) = Ok rc
    ∧ reachable_destinations Examples.board3 (mkCoord 0 2) = Ok rd
    ∧ mkCoord 0 0 ∈ rc ∧ mkCoord 0 2 ∈ rc ∧ mkCoord 0 0 ∈ rd.
Proof.
  destruct (reachability_symmetric Examples.board3 (mkCoord 0 0) (mkCoord 0 2))
    as (rc & rd & Hrc & Hrd & Hc & Hsym & _).
  - unfold in_bounds. simpl. lia.
  - unfold in_bounds. simpl. lia.
  - assert (Hd : mkCoord 0 2 ∈ rc).
    { assert (Hval : reachable_destinations Examples.board3 (mkCoord 0 0)
                     = Ok (list_to_set [mkCoord 0 0; mkCoord 0 1; mkCoord 0 2]))
        by (vm_compute; reflexivity).
      rewrite Hval in Hrc. injection Hrc as <-.
      apply elem_of_union_r, elem_of_union_r, elem_of_union_l, elem_of_singleton.
      reflexivity. }
    exists rc, rd.
    split; [exact Hrc|]. split; [exact Hrd|]. split; [exact Hc|].
    split; [exact Hd|]. exact (Hsym Hd).
Defined.

(** ** No undoing of the previous shift *)

Lemma for_each_Raise_inv {A} (f : A → result unit) (l : list A) e :
  for_each f l = Raise e → ∃ a, a ∈ l ∧ f a = Raise e.
Proof.
  induction l as [|a l IH]; simpl; [done|].
  intros [H|([] & _ & H)]%bind_Raise.
  - exists a. split; [by left | done].
  - destruct (IH H) as (a' & Ha' & Hf). exists a'. split; [by right | done].
Qed.

(** Invert hypotheses that say a computation in the monad raised. *)
Ltac inv_raise :=
  repeat match goal with
    | H : (_ ≫= _) = Raise _ |- _ =>
        let a := fresh "a" in
        apply bind_Raise in H as [H|(a & ? & H)]
    | H : check _ _ = Raise _ |- _ => apply check_Raise in H as [_ ->]
    | H : Raise _ = Raise _ |- _ => injection H as <-
    | H : Ok _ = Raise _ |- _ => discriminate H
    | H : for_each _ _ = Raise _ |- _ =>
        let a := fresh "a" in
        apply for_each_Raise_inv in H as (a & _ & H); simpl in H
    end.

Lemma assert_in_bounds_Raise b c e : assert_in_bounds b c = Raise e → e = IndexError.
Proof. unfold assert_in_bounds. intros H. by inv_raise. Qed.

Lemma Board_init_Raise tiles w h e : Board_init tiles w h = Raise e → e = ValueError.
Proof. unfold Board_init, validate_tile_gems. intros H. by inv_raise. Qed.

Lemma slide_and_insert_tile_Raise b c d t e :
  slide_and_insert_tile b c d t = Raise e → e ≠ UndoNotAllowedError.
Proof.
  unfold slide_and_insert_tile, assert_valid_shift_and_insert, with_tiles.
  intros H. inv_raise; try done.
  - pose proof (assert_in_bounds_Raise _ _ _ H). by subst.
  - destruct (is_vertical d); unfold _slide_column, _slide_row, getitem in H;
      inv_raise; destruct (tiles b !! _); inv_raise; done.
  - destruct a0 as [[? ?] ?]. inv_raise.
    pose proof (Board_init_Raise _ _ _ _ H). by subst.
Qed.

Lemma build_Raise s e : build s = Raise e → e ≠ UndoNotAllowedError.
Proof.
  unfold build, GameState_init, validate_spare_tile_gems, validate_tile_gems,
    _validate_player_states, subclass_init, _validate_player_secrets.
  assert (Hbounds : ∀ b c, assert_in_bounds b c = Raise e → e ≠ UndoNotAllowedError).
  { intros b c H. pose proof (assert_in_bounds_Raise _ _ _ H). by subst. }
  intros H. inv_raise; try done; try by eapply Hbounds.
  destruct (subclass s); inv_raise; try done; try by eapply Hbounds.
  destruct (head (map_to_list (player_secrets s))) as [[? ?]|]; inv_raise; done.
Qed.

Lemma shift_tiles_undo s op :
  kind (prev_action s) ≠ PARTIAL_TURN →
  shift_tiles s op = Raise UndoNotAllowedError ↔ undoes_prev_action s op = true.
Proof.
  intros Hkind. unfold shift_tiles.
  rewrite (bool_decide_eq_false_2 _ Hkind). simpl.
  destruct (undoes_prev_action s op); simpl; [done|]. split; [|done].
  intros [H|([[b' spare'] edit] & _ & H)]%bind_Raise.
  - by apply slide_and_insert_tile_Raise in H.
  - by apply build_Raise in H.
Qed.



Lemma reverse_reverse b op : valid_op b op → reverse (reverse op b) b = op.
Proof.
  unfold valid_op. rewrite elem_of_get_valid_insert_locations.
  destruct op as [[c r] d]. destruct d; unfold reverse; simpl;
    intros (H1 & _); repeat case_decide; f_equal; f_equal; lia.
Qed.

Lemma slide_and_insert_tile_Ok_inv b coord d t b' ejected edit :
  slide_and_insert_tile b coord d t = Ok (b', ejected, edit) →
  coord ∈ get_valid_insert_locations b d
  ∧ width b' = width b ∧ height b' = height b.
Proof.
  unfold slide_and_insert_tile, assert_valid_shift_and_insert, with_tiles.
  intros H. apply bind_Ok in H as ([] & Hvalid & H).
  apply bind_Ok in H as ([[new_tiles new_spare] edit'] & _ & H).
  apply bind_Ok in H as (new_board & Hboard & H). injection H as <- <- <-.
  apply Board_init_Ok in Hboard as (-> & _). split; [|done].
  apply bind_Ok in Hvalid as ([] & _ & Hvalid).
  apply bind_Ok in Hvalid as ([] & _ & Hvalid).
  by apply check_Ok, bool_decide_eq_true in Hvalid.
Qed.

Lemma shift_tiles_Ok_inv s op s1 :
  shift_tiles s op = Ok s1 →
  kind (prev_action s) ≠ PARTIAL_TURN
  ∧ prev_action s1 = PartialTurnPrevAction op
  ∧ width (board s1) = width (board s) ∧ height (board s1) = height (board s)
  ∧ valid_op (board s) op.
Proof.
  unfold shift_tiles. intros H.
  apply bind_Ok in H as ([] & Hkind & H). apply bind_Ok in H as ([] & _ & H).
  apply bind_Ok in H as ([[new_board new_spare] edit] & Hslide & H).
  apply build_Ok in H as (_ & _ & _ & _ & ->). simpl.
  apply check_Ok, negb_true_iff, bool_decide_eq_false in Hkind.
  apply slide_and_insert_tile_Ok_inv in Hslide as (Hvalid & Hw & Hh).
  done.
Qed.


Lemma elem_of_get_legal_shift_ops s op :
  op ∈ get_legal_shift_ops s ↔
    kind (prev_action s) ≠ PARTIAL_TURN
    ∧ valid_op (board s) op
    ∧ ∀ shift, get_last_shift_op s = Some shift → op ≠ reverse shift (board s).
Proof.
  unfold get_legal_shift_ops, get_last_shift_op, valid_op.
  assert (Hall : ∀ op,
    op ∈ (⋃ ((λ direction,
               set_map (λ coord, mkShiftOp coord direction)
                 (get_valid_insert_locations (board s) direction)) <$>
             all_directions) : gset ShiftOp)
    ↔ insert_location op ∈ get_valid_insert_locations (board s) (direction op)).
  { intros [c d]. rewrite elem_of_union_list. cbn [insert_location direction].
    split.
    - intros (X & (d' & -> & _)%list_elem_of_fmap & Hin).
      apply elem_of_map in Hin as (c' & [= -> ->] & Hc'). done.
    - intros Hc. eexists. split.
      + apply list_elem_of_fmap. exists d. split; [done|].
        unfold all_directions. rewrite !elem_of_cons. destruct d; tauto.
      + apply elem_of_map. by exists c. }
  destruct (prev_action s) as [|shift|shift]; simpl.
  - rewrite Hall. split; [intros Hop; split_and!; try done|tauto].
  - rewrite elem_of_empty. split; [done|]. by intros (Hk & _).
  - rewrite elem_of_difference, Hall, elem_of_singleton. split.
    + intros [Hv Hne]. split_and!; try done. by intros ? [= <-].
    + intros (_ & Hv & Hne). split; [done|]. by apply Hne.
Qed.

(** ** A shift on a well-formed state *)

Lemma moved_tiles_lookup_inv tiles repl dropped k t :
  moved_tiles tiles repl dropped !! k = Some t →
  ∃ c, c ≠ dropped ∧ tiles !! c = Some t.
Proof.
  unfold moved_tiles. intros H%elem_of_list_to_map_2.
  apply list_elem_of_fmap in H as ([c t'] & [= -> ->] & H).
  apply list_elem_of_filter in H as [Hc H%elem_of_map_to_list]. by exists c.
Qed.

Lemma assert_in_bounds_dims b b' c :
  width b = width b' → height b = height b' →
  assert_in_bounds b c = assert_in_bounds b' c.
Proof. intros Hw Hh. unfold assert_in_bounds. by rewrite Hw, Hh. Qed.

Lemma validate_player_states_Ok b pss :
  _validate_player_states b pss = Ok tt ↔
    (1 ≤ length pss)%nat
    ∧ ∀ c ps, (c, ps) ∈ pss →
        in_bounds b (location ps) ∧ in_bounds b (home_location ps)
        ∧ (is_moveable_row_or_column (col (home_location ps))
           || is_moveable_row_or_column (row (home_location ps))) = false.
Proof.
  unfold _validate_player_states. rewrite bind_Ok. split.
  - intros ([] & Hlen & Hall).
    apply check_Ok, negb_true_iff, bool_decide_eq_false in Hlen.
    split; [lia|]. intros c ps Hps.
    rewrite for_each_Ok, Forall_forall in Hall.
    specialize (Hall ps). rewrite list_elem_of_fmap in Hall.
    specialize (Hall (ex_intro _ (c, ps) (conj eq_refl Hps))).
    apply bind_Ok in Hall as ([] & H1 & Hall).
    apply bind_Ok in Hall as ([] & H2 & H3).
    apply assert_in_bounds_Ok in H1, H2. by apply check_Ok, negb_true_iff in H3.
  - intros [Hlen Hall]. exists tt. split.
    + apply check_Ok, negb_true_iff, bool_decide_eq_false. lia.
    + apply for_each_Ok, Forall_forall. intros ps ([c ps'] & -> & Hps)%list_elem_of_fmap.
      destruct (Hall _ _ Hps) as (H1 & H2 & H3). simpl.
      apply assert_in_bounds_Ok in H1, H2. rewrite H1, H2. simpl.
      by rewrite H3.
Qed.

Lemma subclass_init_dims cls pss pss' secs b b' :
  width b = width b' → height b = height b' → pss.*1 = pss'.*1 →
  subclass_init cls pss secs b = Ok tt → subclass_init cls pss' secs b' = Ok tt.
Proof.
  intros Hw Hh Hkeys. destruct cls.
  - rewrite !subclass_init_restricted. intros (o & v & ? & Hv & Ho).
    exists o, v. rewrite <- Hkeys, <- (assert_in_bounds_dims b b') by done. done.
  - rewrite !subclass_init_referee, !validate_player_secrets_Ok.
    intros [Hd Hv]. rewrite <- Hkeys. split; [done|]. intros k v Hk.
    rewrite <- (assert_in_bounds_dims b b') by done. by eapply Hv.
Qed.

Lemma move_with_board_home ps edit c :
  home_location (move_with_board ps edit c) = home_location ps.
Proof.
  unfold move_with_board. destruct (decide _); [done|].
  by destruct (replacements edit !! location ps).
Qed.

(** A shift that the turn order allows, that does not undo the previous
    one and that inserts at a valid location is carried out. *)
Lemma shift_tiles_Ok s op :
  GameState_ok s → kind (prev_action s) ≠ PARTIAL_TURN →
  undoes_prev_action s op = false → valid_op (board s) op →
  ∃ s', shift_tiles s op = Ok s'.
Proof.
  intros [Hb Hbo _ _ _] Hkind Hundo Hvalid.
  apply build_Ok in Hb as (Hg & Hp & Hi & Hsub & _).
  pose proof Hbo as (Hw & Hh & Hkeys & Hgems)%Board_ok_spec.
  unfold validate_spare_tile_gems in Hg.
  rewrite validate_tile_gems_Ok, fmap_app in Hg.
  apply NoDup_app in Hg as (_ & Hfresh & _).
  assert (Hfresh' : ∀ c t', tiles (board s) !! c = Some t' →
                     gems t' ≠ gems (spare_tile s)).
  { intros c t' Ht Heq. apply (Hfresh (gems t')).
    - apply list_elem_of_fmap. exists t'. split; [done|].
      apply list_elem_of_fmap. exists (c, t'). split; [done|].
      by apply elem_of_map_to_list.
    - rewrite Heq. by left. }
  destruct (slide_and_insert_tile_Ok (board s) (insert_location op) (direction op)
              (spare_tile s) Hbo Hvalid)
    as (ejected & Hej & Hfirst & Hlast & Hline & Hslide).
  { intros c t' Ht _. by eapply Hfresh'. }
  unfold shift_tiles. rewrite (bool_decide_eq_false_2 _ Hkind), Hundo. simpl.
  rewrite Hslide. simpl. eexists. apply build_Ok. simpl.
  pose proof (line_of_inj (insert_location op) (direction op)) as Hinj.
  pose proof (line_step_unit (direction op)) as Hs.
  set (g := line_of (insert_location op) (direction op)) in *.
  set (d := line_step (direction op)) in *.
  set (n := line_length (board s) (direction op)) in *.
  split; [|split; [|split; [|split; [|done]]]].
  - unfold validate_spare_tile_gems. simpl.
    rewrite validate_tile_gems_Ok, fmap_app. apply NoDup_app. split_and!.
    + apply NoDup_gems_values.
      apply (slid_tiles_distinct_gems (board s) g (line_pos (direction op)));
        try done.
      * apply line_pos_of.
      * intros c t' Ht _. by eapply Hfresh'.
    + intros x (t' & -> & ([k t''] & -> & Hk%elem_of_map_to_list)%list_elem_of_fmap)%list_elem_of_fmap.
      simpl. intros Heq%list_elem_of_singleton. unfold slid_tiles in Hk.
      apply lookup_insert_Some in Hk as [[_ <-]|[_ Hk]].
      * by destruct (Hfresh' _ _ Hej).
      * apply moved_tiles_lookup_inv in Hk as (c & Hc & Ht).
        apply Hc. rewrite <- Hlast. by apply (Hgems _ _ _ _ Ht Hej).
    + apply NoDup_singleton.
  - apply validate_player_states_Ok. rewrite validate_player_states_Ok in Hp.
    destruct Hp as [Hlen Hall]. rewrite length_fmap. split; [done|].
    intros c ps ([c' ps'] & [= -> ->] & Hps)%list_elem_of_fmap.
    destruct (Hall _ _ Hps) as (Hloc & Hhome & Hfixed).
    assert (Hmove : ∀ b', in_bounds (board s) (location ps') →
              width b' = width (board s) → height b' = height (board s) →
              in_bounds b' (location (move_with_board ps'
                 (mkBoardEdit (line_replacements g d n)
                    {[far_edge (board s) (insert_location op) (direction op)]})
                 (insert_location op)))).
    { intros b' Hl Hw' Hh'. unfold in_bounds. rewrite Hw', Hh'.
      unfold move_with_board. simpl.
      destruct (decide (location ps' ∈ _)); simpl.
      - rewrite Hfirst. apply Hline. subst d n. unfold line_first.
        assert (0 < line_length (board s) (direction op))
          by (by destruct (direction op)).
        case_decide; lia.
      - destruct (line_replacements g d n !! location ps') as [c''|] eqn:Hr;
          simpl; [|done].
        apply (line_replacements_lookup g d n Hinj) in Hr
          as (x & _ & Hx & _ & ->). by apply Hline. }
    rewrite move_with_board_home.
    split; [by apply Hmove|]. split; [exact Hhome | exact Hfixed].
  - by rewrite length_fmap.
  - eapply subclass_init_dims; [| | |exact Hsub]; try done.
    simpl. rewrite <- list_fmap_compose. done.
Qed.

Lemma slide_line_inv b coord d new_tiles ejected edit :
  (if is_vertical d then _slide_column b (col coord) d
   else _slide_row b (row coord) d) = Ok (new_tiles, ejected, edit) →
  ∃ repl dropped,
    new_tiles = moved_tiles (tiles b) repl dropped
    ∧ tiles b !! dropped = Some ejected.
Proof.
  destruct (is_vertical d); unfold _slide_column, _slide_row, getitem;
    intros H; apply bind_Ok in H as (t & Ht & [= <- <- <-]);
    eexists _, _; (split; [reflexivity|]);
    by destruct (tiles b !! _) eqn:Hl; [injection Ht as ->|].
Qed.

(** The transitions of a turn keep a state well formed. *)
Lemma shift_tiles_ok s op s' :
  GameState_ok s → shift_tiles s op = Ok s' → GameState_ok s'.
Proof.
  intros [Hb Hbo Hsp Hnd Hts] H. unfold shift_tiles in H.
  apply bind_Ok in H as ([] & _ & H). apply bind_Ok in H as ([] & _ & H).
  apply bind_Ok in H as ([[new_board new_spare] edit] & Hslide & H).
  pose proof H as Hbuild. apply build_Ok in H as (_ & _ & _ & _ & ->).
  unfold slide_and_insert_tile, with_tiles in Hslide.
  apply bind_Ok in Hslide as ([] & _ & Hslide).
  apply bind_Ok in Hslide as ([[new_tiles spare'] edit'] & Hline & Hslide).
  apply bind_Ok in Hslide as (b' & Hboard & Hslide).
  injection Hslide as -> -> ->.
  apply slide_line_inv in Hline as (repl & dropped & -> & Hdropped).
  split; simpl.
  - exact Hbuild.
  - unfold Board_ok. by apply Board_init_Ok in Hboard as Hb'; destruct Hb' as [-> _].
  - by eapply Hts.
  - unfold player_colors in *. simpl. by rewrite <- list_fmap_compose.
  - apply Board_init_Ok in Hboard as [-> _]. simpl. intros k t.
    rewrite lookup_insert_Some. intros [[_ <-]|[_ Hk]]; [done|].
    apply moved_tiles_lookup_inv in Hk as (c & _ & Hc). by eapply Hts.
Qed.

Lemma move_current_player_ok s dest s' :
  GameState_ok s → move_current_player s dest = Ok s' → GameState_ok s'.
Proof.
  intros [Hb Hbo Hsp Hnd Hts] H. unfold move_current_player in H.
  apply bind_Ok in H as ([] & _ & H).
  destruct (prev_action s) as [|shift|shift]; try done.
  apply bind_Ok in H as (ps & _ & H). apply bind_Ok in H as ([] & _ & H).
  apply bind_Ok in H as (reach & _ & H). apply bind_Ok in H as ([] & _ & H).
  apply bind_Ok in H as (color & _ & H).
  pose proof H as Hbuild. apply build_Ok in H as (_ & _ & _ & _ & ->).
  split; simpl; try done.
  unfold player_colors in *. simpl. rewrite <- list_fmap_compose.
  erewrite list_fmap_ext; [exact Hnd|]. intros i [c p] _. simpl.
  by destruct (decide (c = color)).
Qed.




(** ** Directions and tiles *)

Lemma rotated_index d r :
  direction_index (rotated d r) = (direction_index d + r) mod 4.
Proof.
  unfold rotated.
  pose proof (Z.mod_pos_bound (direction_index d + r) 4 eq_refl) as H.
  destruct ((direction_index d + r) mod 4) as [|p|p] eqn:E; [done| |lia].
  destruct p as [[|[]|]|[|[]|]|]; try done; lia.
Qed.

Lemma direction_index_inj d1 d2 :
  direction_index d1 = direction_index d2 → d1 = d2.
Proof. by destruct d1, d2. Qed.

(** X1. [Direction.rotated] takes any integer number of quarter turns and
    never raises: turning by [a] and then by [b] is turning by [a + b],
    turning by [0] or by a multiple of four changes nothing, and a negative
    number turns the other way round. [flip] is its own inverse and negates
    the step [(dx, dy)]. *)
Theorem rotated_compose (d : Direction) (a b : Z) :
  rotated (rotated d a) b = rotated d (a + b)
  ∧ rotated d 0 = d
  ∧ rotated d (a + 4 * b) = rotated d a
  ∧ rotated (rotated d a) (- a) = d
  ∧ flip (flip d) = d
  ∧ dx (flip d) = - dx d ∧ dy (flip d) = - dy d.
Proof.
  assert (H0 : rotated d 0 = d) by by destruct d.
  assert (Hc : ∀ d a b, rotated (rotated d a) b = rotated d (a + b)).
  { intros d' a' b'. apply direction_index_inj.
    rewrite !rotated_index, Z.add_mod_idemp_l by done. f_equal. lia. }
  split; [apply Hc|]. split; [done|]. split.
  { apply direction_index_inj. rewrite !rotated_index.
    rewrite Z.add_assoc, (Z.mul_comm 4 b), Z.mod_add by done. done. }
  split; [by rewrite Hc, Z.add_opp_diag_r|].
  by destruct d.
Qed.

(** The strings are totally ordered by [<]. *)
Lemma gem_ltb_antisym g1 g2 : gem_ltb g1 g2 = true → gem_ltb g2 g1 = false.
Proof.
  unfold gem_ltb, String.ltb. rewrite (String.compare_antisym g1 g2).
  by destruct (String.compare g2 g1).
Qed.

Lemma gem_ltb_total g1 g2 :
  gem_ltb g1 g2 = false → gem_ltb g2 g1 = false → g1 = g2.
Proof.
  unfold gem_ltb, String.ltb. rewrite (String.compare_antisym g1 g2).
  destruct (String.compare g2 g1) eqn:E; try done.
  intros _ _. symmetry. by apply String.compare_eq_iff.
Qed.

Lemma gem_ltb_irrefl g : gem_ltb g g = false.
Proof.
  destruct (gem_ltb g g) eqn:E; [|done].
  by rewrite (gem_ltb_antisym _ _ E) in E.
Qed.

Lemma gem_min_max_cases g1 g2 :
  (gem_min g1 g2, gem_max g1 g2) = (g1, g2) ∧ gem_ltb g2 g1 = false
  ∨ (gem_min g1 g2, gem_max g1 g2) = (g2, g1) ∧ gem_ltb g2 g1 = true.
Proof.
  unfold gem_min, gem_max, gem_gtb.
  destruct (gem_ltb g2 g1) eqn:E21; simpl.
  - by right.
  - left. split; [|done]. case_bool_decide as Heq; simpl; [|done].
    by rewrite Heq.
Qed.

Lemma gem_min_max_comm g1 g2 :
  (gem_min g2 g1, gem_max g2 g1) = (gem_min g1 g2, gem_max g1 g2).
Proof.
  destruct (gem_min_max_cases g1 g2) as [[-> L1]|[-> L1]],
    (gem_min_max_cases g2 g1) as [[-> L2]|[-> L2]]; try done.
  - by rewrite (gem_ltb_total g1 g2).
  - by rewrite (gem_ltb_antisym _ _ L1) in L2.
Qed.

Lemma gem_min_max_sorted g1 g2 : gem_ltb (gem_max g1 g2) (gem_min g1 g2) = false.
Proof.
  destruct (gem_min_max_cases g1 g2) as [[E L]|[E L]];
    injection E as -> ->; [done|]. by apply gem_ltb_antisym.
Qed.

Lemma gem_min_max_idem g1 g2 :
  (gem_min (gem_min g1 g2) (gem_max g1 g2),
   gem_max (gem_min g1 g2) (gem_max g1 g2)) = (gem_min g1 g2, gem_max g1 g2).
Proof.
  destruct (gem_min_max_cases (gem_min g1 g2) (gem_max g1 g2)) as [[E L]|[E L]];
    [done|]. by rewrite gem_min_max_sorted in L.
Qed.

(** X2. [Tile.__init__] refuses a rotation outside 0..3 with [ValueError]
    and otherwise stores the two gems in ascending order: the tile built
    does not depend on the order in which the gems are given, its second
    gem is not smaller than its first, and building a tile again from its
    own fields gives the same tile. *)
Theorem Tile_init_gems (s : TileShape) (r : Z) (g1 g2 : Gem) :
  (r < 0 ∨ r > 3 →
     Tile_init s r (g1, g2) = Raise ValueError)
  ∧ (0 ≤ r ≤ 3 →
     ∃ t, Tile_init s r (g1, g2) = Ok t
          ∧ Tile_init s r (g2, g1) = Ok t
          ∧ shape t = s ∧ rotation t = r
          ∧ (gems t = (g1, g2) ∨ gems t = (g2, g1))
          ∧ gem_ltb (gems t).2 (gems t).1 = false
          ∧ Tile_ok t).
Proof.
  split.
  - intros H. unfold Tile_init. by rewrite bool_decide_eq_true_2.
  - intros H. unfold Tile_ok, Tile_init.
    rewrite bool_decide_eq_false_2 by lia. cbn [fst snd].
    eexists. split; [done|]. cbn [shape rotation gems].
    rewrite bool_decide_eq_false_2 by lia. cbn [fst snd].
    split; [by rewrite gem_min_max_comm|].
    split; [done|]. split; [done|]. split.
    { destruct (gem_min_max_cases g1 g2) as [[E _]|[E _]]; auto. }
    split; [apply gem_min_max_sorted|].
    by rewrite gem_min_max_idem.
Qed.

Lemma Tile_init_gems_witness :
  ∃ t, Tile_init CORNER 3 ("ruby", "beryl") = Ok t
       ∧ Tile_init CORNER 3 ("beryl", "ruby") = Ok t
       ∧ gems t = ("beryl", "ruby")
       ∧ Tile_init CORNER 4 ("ruby", "beryl") = Raise ValueError.
Proof.
  destruct (Tile_init_gems CORNER 3 "ruby" "beryl") as [_ H].
  destruct H as (t & H1 & H2 & _); [lia|].
  exists t. split; [exact H1|]. split; [exact H2|]. split.
  - vm_compute in H1. injection H1 as <-. reflexivity.
  - apply (Tile_init_gems CORNER 4 "ruby" "beryl"). lia.
Defined.

Lemma Tile_ok_inv t :
  Tile_ok t ↔
    0 ≤ rotation t ≤ 3
    ∧ (gem_min (gems t).1 (gems t).2, gem_max (gems t).1 (gems t).2) = gems t.
Proof.
  unfold Tile_ok, Tile_init. destruct t as [s r g]. simpl. case_bool_decide.
  - split; [done|]. intros [? _]. lia.
  - split.
    + intros [= E]. split; [lia|]. by rewrite E.
    + intros [_ ->]. done.
Qed.

Lemma Tile_eqb_rotation s r r' g :
  Tile_eqb (mkTile s r g) (mkTile s r' g)
  = bool_decide (connected_direction_map (s, r) = connected_direction_map (s, r')).
Proof.
  unfold Tile_eqb, connected_directions. simpl.
  rewrite (bool_decide_eq_true_2 (s = s)), (bool_decide_eq_true_2 (g = g)) by done.
  simpl. by rewrite andb_true_r.
Qed.

(** X3. [TileShape.unique_rotations] lists one rotation for each way a
    tile of the shape can look: every tile equals, in the sense of
    [Tile.__eq__], its copy rotated to exactly one of the rotations listed
    for its shape, and [Tile.rotate] accepts each of the listed rotations. *)
Theorem unique_rotations_represent (t : Tile) :
  Tile_ok t →
  (∀ r, r ∈ unique_rotations (shape t) → ∃ t', rotate t r = Ok t')
  ∧ ∃ r t',
      r ∈ unique_rotations (shape t) ∧ rotate t r = Ok t' ∧ Tile_eqb t t' = true
      ∧ ∀ r2 t2, r2 ∈ unique_rotations (shape t) → rotate t r2 = Ok t2 →
                 Tile_eqb t t2 = true → r2 = r.
Proof.
  intros Hok.
  assert (Hrot : ∀ r, r ∈ unique_rotations (shape t) →
            0 ≤ r ≤ 3
            ∧ rotate t r = Ok (mkTile (shape t) r (gems t))).
  { intros r Hr.
    assert (0 ≤ r ≤ 3) as H03.
    { destruct (shape t); simpl in Hr; set_unfold; lia. }
    split; [done|]. by apply rotate_Ok. }
  split.
  { intros r Hr. destruct (Hrot r Hr) as [_ ->]. by eexists. }
  pose proof Hok as [Hr _]%Tile_ok_inv.
  destruct t as [s r g]. simpl in *.
  exists (match s with LINE => r mod 2 | CROSS => 0 | _ => r end).
  eexists.
  assert (Hcases : r = 0 ∨ r = 1 ∨ r = 2 ∨ r = 3) by lia.
  split; [|split; [|split]].
  - destruct s; simpl; set_unfold;
      destruct Hcases as [->|[->|[->| ->]]]; vm_compute; tauto.
  - apply Hrot.
    destruct s; simpl; set_unfold;
      destruct Hcases as [->|[->|[->| ->]]]; vm_compute; tauto.
  - simpl. rewrite Tile_eqb_rotation. apply bool_decide_eq_true_2.
    destruct s; destruct Hcases as [->|[->|[->| ->]]];
      apply (bool_decide_unpack _); vm_compute; exact I.
  - intros r2 t2 Hr2 Hrot2.
    destruct (Hrot r2 Hr2) as [_ E]. rewrite E in Hrot2.
    injection Hrot2 as <-. simpl. rewrite Tile_eqb_rotation.
    destruct s; simpl in Hr2; set_unfold;
      destruct Hcases as [->|[->|[->| ->]]];
      repeat (destruct Hr2 as [->|Hr2]); try subst r2; try done;
      vm_compute; done.
Qed.

Lemma unique_rotations_represent_witness :
  ∃ r t', r ∈ unique_rotations LINE
          ∧ rotate (mkTile LINE 3 ("beryl", "ruby")) r = Ok t'
          ∧ Tile_eqb (mkTile LINE 3 ("beryl", "ruby")) t' = true.
Proof.
  destruct (unique_rotations_represent (mkTile LINE 3 ("beryl", "ruby")))
    as [_ (r & t' & H1 & H2 & H3 & _)].
  - vm_compute. reflexivity.
  - exists r, t'. split; [exact H1|]. split; [exact H2|exact H3].
Defined.

(** ** Boards *)

(** X4. [Board.__init__] accepts the tiles exactly when the width and the
    height are positive, the keys of the dict are the cells of the
    [width x height] rectangle and no two tiles carry the same pair of
    gems; it then returns the board of these tiles, and raises
    [ValueError] in every other case. *)
Theorem Board_init_accepts (tiles : gmap Coord Tile) (w h : Z) :
  (0 < w ∧ 0 < h
   ∧ (∀ c, is_Some (tiles !! c) ↔ 0 ≤ col c < w ∧ 0 ≤ row c < h)
   ∧ distinct_gems tiles
   → Board_init tiles w h = Ok (mkBoard tiles w h))
  ∧ (¬ (0 < w ∧ 0 < h
        ∧ (∀ c, is_Some (tiles !! c) ↔ 0 ≤ col c < w ∧ 0 ≤ row c < h)
        ∧ distinct_gems tiles)
     → Board_init tiles w h = Raise ValueError).
Proof.
  split.
  - intros H. by apply Board_init_Ok.
  - intros H. destruct (Board_init tiles w h) as [b|e] eqn:E.
    + destruct H. by apply Board_init_Ok in E as (_ & H).
    + by apply Board_init_Raise in E as ->.
Qed.

Lemma Board_init_accepts_witness :
  Board_init Examples.tiles3 3 3 = Ok Examples.board3
  ∧ Board_init Examples.tiles3 3 4 = Raise ValueError.
Proof.
  split.
  - apply (Board_init_accepts Examples.tiles3 3 3).
    apply (Board_init_Ok Examples.tiles3 3 3 Examples.board3).
    vm_compute. reflexivity.
  - apply (Board_init_accepts Examples.tiles3 3 4).
    intros (_ & _ & Hkeys & _).
    assert (H : is_Some (Examples.tiles3 !! mkCoord 0 3)) by (apply Hkeys; simpl; lia).
    vm_compute in H. by destruct H.
Defined.

(** *** What a slide does to each cell *)

(** The tile at each cell after a line has slid: the new tile at the cell
    where it comes in, on the rest of the line the tile of the cell before,
    elsewhere the tile that was there. *)
Lemma slid_tiles_lookup b (g : Z → Coord) (pos : Coord → Z) d n tile c :
  (∀ x, pos (g x) = x) → d = 1 ∨ d = -1 → 0 < n →
  slid_tiles b g d n tile !! c =
    if decide (c = g (line_first d n)) then Some tile
    else if decide (g (pos c) = c ∧ 0 ≤ pos c < n) then tiles b !! g (pos c - d)
    else tiles b !! c.
Proof.
  intros pos_g d_unit n_pos.
  assert (g_inj : ∀ x y, g x = g y → x = y).
  { intros x y H. by rewrite <- (pos_g x), <- (pos_g y), H. }
  assert (inj : ∀ c1 c2, c1 ≠ g (line_last d n) → c2 ≠ g (line_last d n) →
            default c1 (line_replacements g d n !! c1)
            = default c2 (line_replacements g d n !! c2) → c1 = c2).
  { apply (line_move_inj g d n g_inj d_unit). }
  unfold slid_tiles. case_decide as Hfirst.
  { subst c. apply lookup_insert_eq. }
  rewrite lookup_insert_ne by done.
  case_decide as Hline.
  - destruct Hline as [Hc Hpos].
    assert (Hx : 0 ≤ pos c - d < n ∧ pos c - d ≠ line_last d n).
    { unfold line_first, line_last in *.
      assert (pos c ≠ if decide (d = 1) then 0 else n - 1).
      { intros E. apply Hfirst. by rewrite <- Hc, E. }
      repeat case_decide; lia. }
    destruct Hx as [Hx Hlast].
    pose proof (line_move_on g d n g_inj d_unit (pos c - d) Hx Hlast) as Hmove.
    replace (pos c - d + d) with (pos c) in Hmove by lia. rewrite Hc in Hmove.
    rewrite <- Hmove at 1. unfold line_move.
    apply (moved_tiles_image _ _ _ inj).
    intros E%g_inj. done.
  - assert (Hoff : line_move g d n c = c).
    { apply (line_move_off g d n g_inj). intros x Hx Hxd ->.
      apply Hline. rewrite pos_g. done. }
    destruct (decide (c = g (line_last d n))) as [->|Hlast].
    { destruct Hline. rewrite pos_g. split; [done|].
      unfold line_last. case_decide; lia. }
    rewrite <- Hoff at 1. unfold line_move.
    by apply (moved_tiles_image _ _ _ inj).
Qed.

(** What a successful [slide_and_insert_tile] has returned. *)
Lemma slide_and_insert_tile_inv b coord d t b' ejected edit :
  slide_and_insert_tile b coord d t = Ok (b', ejected, edit) →
  coord ∈ get_valid_insert_locations b d
  ∧ tiles b !! far_edge b coord d = Some ejected
  ∧ b' = mkBoard (slid_tiles b (line_of coord d) (line_step d) (line_length b d) t)
           (width b) (height b)
  ∧ edit = mkBoardEdit
             (line_replacements (line_of coord d) (line_step d) (line_length b d))
             {[far_edge b coord d]}
  ∧ Board_ok b'.
Proof.
  intros H.
  pose proof (slide_and_insert_tile_Ok_inv _ _ _ _ _ _ _ H) as (Hin & _ & _).
  split; [done|].
  unfold slide_and_insert_tile in H.
  apply bind_Ok in H as ([] & _ & H).
  apply bind_Ok in H as ([[new_tiles new_spare] edit'] & Hslide & H).
  apply bind_Ok in H as (new_board & Hboard & [= <- <- <-]).
  assert (Hfirst : coord = line_of coord d (line_first (line_step d) (line_length b d))).
  { apply elem_of_get_valid_insert_locations in Hin. unfold_line.
    destruct coord as [x y], d; simpl in *; destruct Hin as (-> & _); done. }
  assert (Hs : new_tiles
               = moved_tiles (tiles b)
                   (line_replacements (line_of coord d) (line_step d) (line_length b d))
                   (far_edge b coord d)
               ∧ tiles b !! far_edge b coord d = Some new_spare
               ∧ edit' = mkBoardEdit
                   (line_replacements (line_of coord d) (line_step d) (line_length b d))
                   {[far_edge b coord d]}).
  { destruct d; simpl in Hslide; unfold _slide_column, _slide_row in Hslide;
      apply bind_Ok in Hslide as (dropped & Hget & [= <- <- <-]);
      unfold getitem in Hget;
      match type of Hget with
      | context [tiles b !! ?k] => destruct (tiles b !! k) eqn:Hk; [|done]
      end; simpl in Hk; simplify_eq;
      (split; [reflexivity|split; [assumption|reflexivity]]). }
  destruct Hs as (-> & Hej & ->). split; [done|].
  unfold with_tiles in Hboard.
  pose proof Hboard as Hb. apply Board_init_Ok in Hb as (-> & _).
  split; [|split; [done|]].
  - assert (Hlast : far_edge b coord d
                    = line_of coord d (line_last (line_step d) (line_length b d))).
    { unfold_line. by destruct d. }
    unfold slid_tiles. by rewrite <- Hfirst, <- Hlast.
  - unfold Board_ok. simpl. done.
Qed.

(** A slide that succeeds on a board built by the constructor has put in a
    tile whose gems are on no tile that stays. *)
Lemma slide_and_insert_tile_fresh b coord d t b' ejected edit :
  Board_ok b →
  slide_and_insert_tile b coord d t = Ok (b', ejected, edit) →
  ∀ c t', tiles b !! c = Some t' → c ≠ far_edge b coord d → gems t' ≠ gems t.
Proof.
  intros Hok H c t' Hc Hfar Hgems.
  pose proof Hok as (Hw & Hh & Hkeys & _)%Board_ok_spec.
  apply slide_and_insert_tile_inv in H as (Hin & Hej & -> & _ & Hok').
  apply Board_ok_spec in Hok' as (_ & _ & _ & Hdistinct). simpl in Hdistinct.
  set (g := line_of coord d) in *. set (s := line_step d) in *.
  set (n := line_length b d) in *.
  assert (Hn : 0 < n) by (subst n; unfold line_length; destruct d; simpl; lia).
  assert (Hlook := λ c, slid_tiles_lookup b g (line_pos d) s n t c
                          (line_pos_of coord d) (line_step_unit d) Hn).
  assert (Hlast : far_edge b coord d = g (line_last s n)).
  { subst g s n. unfold_line. by destruct d. }
  assert (Hs : s = 1 ∨ s = -1) by apply line_step_unit.
  assert (Hpg : ∀ x, line_pos d (g x) = x) by apply line_pos_of.
  assert (Hginj : ∀ x y, g x = g y → x = y) by apply line_of_inj.
  (* the cell to which the tile at [c] goes *)
  set (c' := if decide (g (line_pos d c) = c ∧ 0 ≤ line_pos d c < n)
             then g (line_pos d c + s) else c).
  assert (Hc' : slid_tiles b g s n t !! c' = Some t' ∧ c' ≠ g (line_first s n)).
  { subst c'. case_decide as Hline.
    - destruct Hline as [Hg Hpos].
      assert (line_pos d c ≠ line_last s n).
      { intros E. apply Hfar. by rewrite Hlast, <- E, Hg. }
      assert (0 ≤ line_pos d c + s < n).
      { unfold line_last in *. case_decide; lia. }
      assert (Hne : g (line_pos d c + s) ≠ g (line_first s n)).
      { intros E%Hginj. unfold line_first in E. case_decide; lia. }
      split; [|done]. rewrite Hlook, decide_False by done.
      rewrite Hpg, decide_True by done.
      replace (line_pos d c + s - s) with (line_pos d c) by lia.
      by rewrite Hg.
    - assert (Hne : c ≠ g (line_first s n)).
      { intros ->. apply Hline. rewrite Hpg. split; [done|].
        unfold line_first. case_decide; lia. }
      split; [|done]. by rewrite Hlook, !decide_False. }
  destruct Hc' as [Hc' Hne]. apply Hne.
  apply (Hdistinct _ _ _ _ Hc' (slid_tiles_first b g s n t) Hgems).
Qed.

Lemma not_moveable_odd x : ¬ is_moveable_row_or_column x ↔ x mod 2 = 1.
Proof.
  unfold is_moveable_row_or_column. rewrite bool_decide_spec.
  pose proof (Z.mod_pos_bound x 2 eq_refl). lia.
Qed.

Lemma elem_of_get_all_fixed_tiles b c :
  c ∈ get_all_fixed_tiles b ↔ in_bounds b c ∧ col c mod 2 = 1 ∧ row c mod 2 = 1.
Proof.
  unfold get_all_fixed_tiles, in_bounds. rewrite list_elem_of_bind. split.
  - intros (y & (x & -> & [Hx Hxin%elem_of_seqZ]%list_elem_of_filter)%list_elem_of_fmap
              & [Hy Hyin%elem_of_seqZ]%list_elem_of_filter).
    apply not_moveable_odd in Hx, Hy. simpl. lia.
  - intros ([Hc Hr] & Hcm & Hrm). exists (row c). split.
    + apply list_elem_of_fmap. exists (col c). split; [by destruct c|].
      apply list_elem_of_filter. split; [by apply not_moveable_odd|].
      apply elem_of_seqZ. lia.
    + apply list_elem_of_filter. split; [by apply not_moveable_odd|].
      apply elem_of_seqZ. lia.
Qed.

(** X5. [Board.get_all_fixed_tiles] lists, once each, the cells of the
    board whose column and row are both odd. No slide touches them: after
    a successful [slide_and_insert_tile] each of these cells holds the tile
    it held before, the edit neither deletes nor moves it, and the fixed
    cells of the new board are those of the old one. *)
Theorem fixed_tiles_stay (b : Board) :
  NoDup (get_all_fixed_tiles b)
  ∧ (∀ c, c ∈ get_all_fixed_tiles b
          ↔ in_bounds b c ∧ col c mod 2 = 1 ∧ row c mod 2 = 1)
  ∧ (∀ coord d t b' ejected edit,
       slide_and_insert_tile b coord d t = Ok (b', ejected, edit) →
       get_all_fixed_tiles b' = get_all_fixed_tiles b
       ∧ ∀ c, c ∈ get_all_fixed_tiles b →
           tiles b' !! c = tiles b !! c
           ∧ (c ∉ deletions edit) ∧ replacements edit !! c = None).
Proof.
  split; [|split; [apply elem_of_get_all_fixed_tiles|]].
  - unfold get_all_fixed_tiles. apply NoDup_bind.
    + intros y1 y2 c _ _ (x1 & -> & _)%list_elem_of_fmap
        (x2 & [= ? ?] & _)%list_elem_of_fmap. done.
    + intros y _. apply NoDup_fmap_2; [by intros x1 x2 [=]|].
      apply NoDup_filter, NoDup_seqZ.
    + apply NoDup_filter, NoDup_seqZ.
  - intros coord d t b' ejected edit H.
    apply slide_and_insert_tile_inv in H as (Hin & Hej & -> & -> & _).
    split; [done|]. intros c (Hb & Hcm & Hrm)%elem_of_get_all_fixed_tiles.
    apply elem_of_get_valid_insert_locations in Hin.
    assert (Heven : col coord mod 2 = 0 ∧ row coord mod 2 = 0).
    { destruct (is_vertical d); lia. }
    assert (Hoff : ∀ x, line_of coord d x ≠ c).
    { intros x <-. unfold line_of in *. destruct (is_vertical d); simpl in *; lia. }
    assert (Hn : 0 < line_length b d).
    { unfold in_bounds, line_length in *. destruct (is_vertical d); lia. }
    simpl. split; [|split].
    + rewrite (slid_tiles_lookup b _ (line_pos d) _ _ t c
                 (line_pos_of coord d) (line_step_unit d) Hn).
      rewrite decide_False by (intros E; symmetry in E; by apply Hoff in E).
      rewrite decide_False; [done|]. intros [E _]. by apply Hoff in E.
    + rewrite elem_of_singleton. intros ->.
      apply (Hoff (line_last (line_step d) (line_length b d))).
      unfold_line. by destruct d.
    + apply eq_None_not_Some. intros [c' Hc'].
      apply line_replacements_lookup in Hc' as (x & _ & _ & -> & _);
        [|apply line_of_inj]. by destruct (Hoff x).
Qed.

Lemma fixed_tiles_stay_witness :
  get_all_fixed_tiles Examples.board3 = [mkCoord 1 1]
  ∧ ∃ b' ejected edit,
      slide_and_insert_tile Examples.board3 (mkCoord 0 0) RIGHT Examples.spare
      = Ok (b', ejected, edit)
      ∧ tiles b' !! mkCoord 1 1 = tiles Examples.board3 !! mkCoord 1 1.
Proof.
  split; [vm_compute; reflexivity|].
  destruct (slide_and_insert_tile Examples.board3 (mkCoord 0 0) RIGHT Examples.spare)
    as [[[b' ejected] edit]|e] eqn:E; [|vm_compute in E; discriminate E].
  exists b', ejected, edit. split; [reflexivity|].
  destruct (fixed_tiles_stay Examples.board3) as (_ & _ & H).
  destruct (H _ _ _ _ _ _ E) as [_ H'].
  apply H'. vm_compute. left.
Defined.

(** *** The errors of a slide *)

Lemma assert_in_bounds_not b c :
  ¬ in_bounds b c → assert_in_bounds b c = Raise IndexError.
Proof.
  intros H. destruct (assert_in_bounds_cases b c) as [E|E]; [|done].
  by apply assert_in_bounds_Ok in E.
Qed.

(** The cell where a tile comes in when the line through [coord] slides in
    direction [d] is the far edge of the opposite direction; the valid
    insert locations are these cells, when both their indices are even. *)
Lemma valid_insert_location_edge b d coord :
  0 < width b → 0 < height b →
  coord ∈ get_valid_insert_locations b d ↔
    in_bounds b coord ∧ col coord mod 2 = 0 ∧ row coord mod 2 = 0
    ∧ coord = far_edge b coord (flip d).
Proof.
  intros Hw Hh. rewrite elem_of_get_valid_insert_locations. unfold in_bounds.
  destruct coord as [x y], d; simpl; split;
    try (intros (-> & ? & ? & ?); split_and!; try done; lia);
    intros (? & ? & ? & [= E]); split_and!; try done; lia.
Qed.

Lemma assert_valid_shift_and_insert_cases b coord d :
  assert_valid_shift_and_insert b coord d =
    if decide (in_bounds b coord) then
      if decide (col coord mod 2 = 0 ∧ row coord mod 2 = 0) then
        if decide (coord ∈ get_valid_insert_locations b d) then Ok tt
        else Raise ValueError
      else Raise ShiftNotAllowedError
    else Raise IndexError.
Proof.
  unfold assert_valid_shift_and_insert. case_decide as Hb.
  - apply assert_in_bounds_Ok in Hb. rewrite Hb. simpl.
    unfold is_moveable_row_or_column. case_decide as Heven.
    + destruct Heven as [Hc Hr].
      rewrite (bool_decide_eq_true_2 _ Hc), (bool_decide_eq_true_2 _ Hr). simpl.
      case_decide as Hin;
        [by rewrite (bool_decide_eq_true_2 _ Hin)
        |by rewrite (bool_decide_eq_false_2 _ Hin)].
    + destruct (decide (col coord mod 2 = 0)) as [Hc|Hc].
      * assert (Hr : row coord mod 2 ≠ 0) by tauto.
        by rewrite (bool_decide_eq_true_2 _ Hc), (bool_decide_eq_false_2 _ Hr).
      * by rewrite (bool_decide_eq_false_2 _ Hc).
  - by rewrite assert_in_bounds_not.
Qed.

Lemma slide_and_insert_tile_Raise_valid b coord d t e :
  Board_ok b → coord ∈ get_valid_insert_locations b d →
  slide_and_insert_tile b coord d t = Raise e → e = ValueError.
Proof.
  intros Hok Hin H.
  pose proof Hok as (Hw & Hh & Hkeys & _)%Board_ok_spec.
  unfold slide_and_insert_tile in H.
  rewrite (assert_valid_shift_and_insert_Ok b coord d Hw Hh Hin) in H. simpl in H.
  assert (Hedge : is_Some (tiles b !! far_edge b coord d)).
  { apply Hkeys. apply valid_insert_location_edge in Hin as (Hb & _); [|done..].
    unfold in_bounds, far_edge in *. destruct d; simpl; lia. }
  destruct Hedge as [ejected Hej].
  assert (Hslide : ∃ new_tiles edit,
    (if is_vertical d then _slide_column b (col coord) d
     else _slide_row b (row coord) d) = Ok (new_tiles, ejected, edit)).
  { destruct d; simpl; unfold _slide_column, _slide_row, getitem; simpl;
      simpl in Hej; rewrite Hej; simpl; by eexists _, _. }
  destruct Hslide as (new_tiles & edit & Hslide). rewrite Hslide in H. simpl in H.
  apply bind_Raise in H as [H|(b' & _ & H)]; [|done].
  by apply Board_init_Raise in H.
Qed.

(** X6. The errors of [slide_and_insert_tile] on a board built by the
    constructor, in the order the code checks them: [IndexError] for a
    location off the board; [ShiftNotAllowedError] for a location on the
    board with an odd column or row; [ValueError] for a location with even
    column and row that is not on the edge where tiles come in for the
    direction; [ValueError] again when the location is valid and the new
    tile carries the gems of a tile that stays on the board. In every other
    case the slide succeeds. *)
Theorem slide_and_insert_tile_errors (b : Board) (coord : Coord) (d : Direction)
    (t : Tile) :
  Board_ok b →
  (¬ in_bounds b coord → slide_and_insert_tile b coord d t = Raise IndexError)
  ∧ (in_bounds b coord → col coord mod 2 = 1 ∨ row coord mod 2 = 1 →
       slide_and_insert_tile b coord d t = Raise ShiftNotAllowedError)
  ∧ (in_bounds b coord → col coord mod 2 = 0 → row coord mod 2 = 0 →
       coord ≠ far_edge b coord (flip d) →
       slide_and_insert_tile b coord d t = Raise ValueError)
  ∧ (in_bounds b coord → col coord mod 2 = 0 → row coord mod 2 = 0 →
       coord = far_edge b coord (flip d) →
       (∃ c t', tiles b !! c = Some t' ∧ c ≠ far_edge b coord d
                ∧ gems t' = gems t) →
       slide_and_insert_tile b coord d t = Raise ValueError)
  ∧ (in_bounds b coord → col coord mod 2 = 0 → row coord mod 2 = 0 →
       coord = far_edge b coord (flip d) →
       (∀ c t', tiles b !! c = Some t' → c ≠ far_edge b coord d →
                gems t' ≠ gems t) →
       ∃ r, slide_and_insert_tile b coord d t = Ok r).
Proof.
  intros Hok.
  pose proof Hok as (Hw & Hh & _)%Board_ok_spec.
  assert (Hcases : ∀ e, assert_valid_shift_and_insert b coord d = Raise e →
            slide_and_insert_tile b coord d t = Raise e).
  { intros e E. unfold slide_and_insert_tile. by rewrite E. }
  split; [|split; [|split; [|split]]].
  - intros Hb. apply Hcases. rewrite assert_valid_shift_and_insert_cases.
    by rewrite decide_False.
  - intros Hb Hodd. apply Hcases. rewrite assert_valid_shift_and_insert_cases.
    rewrite decide_True by done. rewrite decide_False by lia. done.
  - intros Hb Hc Hr Hedge. apply Hcases.
    rewrite assert_valid_shift_and_insert_cases.
    rewrite decide_True by done. rewrite decide_True by done.
    rewrite decide_False; [done|].
    intros Hin. apply valid_insert_location_edge in Hin; [|done..]. tauto.
  - intros Hb Hc Hr Hedge (c & t' & Ht' & Hfar & Hgems).
    assert (Hin : coord ∈ get_valid_insert_locations b d).
    { by apply valid_insert_location_edge. }
    destruct (slide_and_insert_tile b coord d t) as [[[b' ej] edit]|e] eqn:E.
    + destruct (slide_and_insert_tile_fresh _ _ _ _ _ _ _ Hok E c t' Ht' Hfar Hgems).
    + by rewrite (slide_and_insert_tile_Raise_valid _ _ _ _ _ Hok Hin E).
  - intros Hb Hc Hr Hedge Hfresh.
    assert (Hin : coord ∈ get_valid_insert_locations b d).
    { by apply valid_insert_location_edge. }
    destruct (slide_and_insert_tile_Ok b coord d t Hok Hin Hfresh)
      as (ej & _ & _ & _ & _ & ->). by eexists.
Qed.

Lemma slide_and_insert_tile_errors_witness :
  slide_and_insert_tile Examples.board3 (mkCoord 3 0) RIGHT Examples.spare
  = Raise IndexError
  ∧ slide_and_insert_tile Examples.board3 (mkCoord 0 1) RIGHT Examples.spare
    = Raise ShiftNotAllowedError
  ∧ slide_and_insert_tile Examples.board3 (mkCoord 2 0) RIGHT Examples.spare
    = Raise ValueError.
Proof.
  destruct (slide_and_insert_tile_errors Examples.board3 (mkCoord 3 0) RIGHT
              Examples.spare) as (H1 & _); [vm_compute; reflexivity|].
  destruct (slide_and_insert_tile_errors Examples.board3 (mkCoord 0 1) RIGHT
              Examples.spare) as (_ & H2 & _); [vm_compute; reflexivity|].
  destruct (slide_and_insert_tile_errors Examples.board3 (mkCoord 2 0) RIGHT
              Examples.spare) as (_ & _ & H3 & _); [vm_compute; reflexivity|].
  split; [|split].
  - apply H1. unfold in_bounds. simpl. lia.
  - apply H2; [unfold in_bounds; simpl; lia|]. right. reflexivity.
  - apply H3; [unfold in_bounds; simpl; lia|reflexivity|reflexivity|].
    vm_compute. intros [=].
Defined.

(** *** Sliding back *)

Lemma line_first_opp s n : s = 1 ∨ s = -1 → line_first (- s) n = line_last s n.
Proof. intros Hs. unfold line_first, line_last. repeat case_decide; lia. Qed.

(** Sliding a line and then sliding it the other way, with the tile that
    fell off, gives the tiles back. *)
Lemma slid_tiles_back b (g : Z → Coord) (pos : Coord → Z) s n t ej w h :
  (∀ x, pos (g x) = x) → s = 1 ∨ s = -1 → 0 < n →
  tiles b !! g (line_last s n) = Some ej →
  slid_tiles (mkBoard (slid_tiles b g s n t) w h) g (- s) n ej = tiles b.
Proof.
  intros pos_g Hs Hn Hej.
  assert (g_inj : ∀ x y, g x = g y → x = y).
  { intros x y H. by rewrite <- (pos_g x), <- (pos_g y), H. }
  assert (Hs' : - s = 1 ∨ - s = -1) by lia.
  apply map_eq. intros c.
  rewrite (slid_tiles_lookup _ g pos (- s) n ej c pos_g Hs' Hn).
  rewrite line_first_opp by done. simpl.
  case_decide as Hlast; [by subst c|].
  case_decide as Hline.
  - destruct Hline as [Hc Hpos].
    assert (Hne : pos c ≠ line_last s n).
    { intros E. apply Hlast. by rewrite <- E, Hc. }
    assert (Hin : 0 ≤ pos c + s < n).
    { unfold line_last in Hne. case_decide; lia. }
    replace (pos c - - s) with (pos c + s) by lia.
    rewrite (slid_tiles_lookup b g pos s n t _ pos_g Hs Hn).
    rewrite decide_False.
    2: { intros E%g_inj. unfold line_first in E. case_decide; lia. }
    rewrite pos_g, decide_True by done.
    replace (pos c + s - s) with (pos c) by lia. by rewrite Hc.
  - rewrite (slid_tiles_lookup b g pos s n t _ pos_g Hs Hn).
    rewrite decide_False.
    2: { intros ->. apply Hline. rewrite pos_g. split; [done|].
         unfold line_first. case_decide; lia. }
    by rewrite decide_False.
Qed.

Lemma reverse_far_edge b op :
  valid_op b op →
  reverse op b
  = mkShiftOp (far_edge b (insert_location op) (direction op))
      (flip (direction op)).
Proof.
  unfold valid_op. rewrite elem_of_get_valid_insert_locations.
  destruct op as [[x y] d]. unfold reverse, far_edge. simpl.
  destruct d; simpl; intros (-> & _); repeat case_decide; try done;
    f_equal; f_equal; lia.
Qed.

(** X7. Undoing a slide: when [slide_and_insert_tile] has inserted a tile
    on a board built by the constructor, and the reverse of the operation
    (as [ShiftOp.reverse] computes it) inserts at a valid location, then
    carrying out that reverse with the tile that was pushed off gives the
    board back as it was and pushes off the tile that had been inserted;
    the edit of the second slide maps a cell to another exactly when the
    edit of the first maps the other to it. *)
Theorem slide_reverse_restores (b : Board) (op : ShiftOp) (t : Tile)
    (b' : Board) (ejected : Tile) (edit : BoardEdit) :
  Board_ok b →
  slide_and_insert_tile b (insert_location op) (direction op) t
  = Ok (b', ejected, edit) →
  valid_op b (reverse op b) →
  ∃ edit',
    slide_and_insert_tile b' (insert_location (reverse op b))
      (direction (reverse op b)) ejected
    = Ok (b, t, edit')
    ∧ deletions edit' = {[insert_location op]}
    ∧ ∀ c c', replacements edit' !! c' = Some c ↔ replacements edit !! c = Some c'.
Proof.
  intros Hok H Hrev. destruct op as [coord d]. simpl in *.
  pose proof Hok as (Hw & Hh & Hkeys & Hdistinct)%Board_ok_spec.
  pose proof (slide_and_insert_tile_fresh _ _ _ _ _ _ _ Hok H) as Hfresh.
  apply slide_and_insert_tile_inv in H as (Hin & Hej & -> & -> & Hok').
  rewrite (reverse_far_edge b (mkShiftOp coord d)) in * by done.
  unfold valid_op in Hrev. simpl in *.
  set (g := line_of coord d) in *. set (s := line_step d) in *.
  set (n := line_length b d) in *.
  assert (Hn : 0 < n) by (subst n; unfold line_length; destruct d; simpl; lia).
  assert (Hs : s = 1 ∨ s = -1) by apply line_step_unit.
  assert (Hpg : ∀ x, line_pos d (g x) = x) by apply line_pos_of.
  assert (Hginj : ∀ x y, g x = g y → x = y) by apply line_of_inj.
  assert (Hlast : far_edge b coord d = g (line_last s n)).
  { subst g s n. unfold_line. by destruct d. }
  assert (Hfirst : coord = g (line_first s n)).
  { apply elem_of_get_valid_insert_locations in Hin. subst g s n. unfold_line.
    destruct coord as [x y], d; simpl in *; destruct Hin as (-> & _); done. }
  set (b' := mkBoard (slid_tiles b g s n t) (width b) (height b)) in *.
  assert (Hg' : line_of (far_edge b coord d) (flip d) = g) by by destruct d.
  assert (Hs' : line_step (flip d) = - s) by by destruct d.
  assert (Hn' : line_length b' (flip d) = n) by by destruct d.
  assert (Hfar' : far_edge b' (far_edge b coord d) (flip d) = coord).
  { apply valid_insert_location_edge in Hin as (_ & _ & _ & E); [|done..].
    transitivity (far_edge b coord (flip d)); [by destruct d|done]. }
  assert (Hlook := λ c, slid_tiles_lookup b g (line_pos d) s n t c Hpg Hs Hn).
  destruct (slide_and_insert_tile_Ok b' (far_edge b coord d) (flip d) ejected)
    as (ej' & Hej' & _ & _ & _ & Hslide); [done|done| |].
  { rewrite Hfar'. intros c t' Ht' Hc Hgems. simpl in Ht'.
    rewrite Hlook, decide_False in Ht' by by rewrite <- Hfirst.
    assert (∃ c0, tiles b !! c0 = Some t' ∧ c0 ≠ far_edge b coord d)
      as (c0 & Hc0 & Hne).
    { case_decide as Hline.
      - eexists. split; [exact Ht'|]. rewrite Hlast. intros E%Hginj.
        unfold line_last in E. destruct Hline as [_ Hpos]. case_decide; lia.
      - exists c. split; [done|]. rewrite Hlast. intros ->. apply Hline.
        rewrite Hpg. split; [done|]. unfold line_last. case_decide; lia. }
    apply Hne. apply (Hdistinct _ _ _ _ Hc0 Hej Hgems). }
  rewrite Hfar' in Hej'. simpl in Hej'.
  rewrite Hfirst, slid_tiles_first in Hej'. injection Hej' as <-.
  rewrite Hg', Hs', Hn' in Hslide. eexists. split; [|split].
  - rewrite Hslide. f_equal. f_equal. f_equal.
    destruct b as [tiles0 w0 h0]. simpl. f_equal.
    apply (slid_tiles_back (mkBoard tiles0 w0 h0) g (line_pos d)); try done.
    by rewrite <- Hlast.
  - simpl. by rewrite Hfar'.
  - intros c c'. simpl.
    rewrite !line_replacements_lookup by done. split.
    + intros (x & Hx & Hxs & -> & ->). exists (x + - s).
      split_and!; try lia; f_equal; lia.
    + intros (x & Hx & Hxs & -> & ->). exists (x + s).
      split_and!; try lia; f_equal; lia.
Qed.

Lemma slide_reverse_restores_witness :
  ∃ b' ejected edit edit',
    slide_and_insert_tile Examples.board3 (mkCoord 0 0) RIGHT Examples.spare
    = Ok (b', ejected, edit)
    ∧ slide_and_insert_tile b' (mkCoord 2 0) LEFT ejected
      = Ok (Examples.board3, Examples.spare, edit').
Proof.
  destruct (slide_and_insert_tile Examples.board3 (mkCoord 0 0) RIGHT Examples.spare)
    as [[[b' ejected] edit]|e] eqn:E; [|vm_compute in E; discriminate E].
  destruct (slide_reverse_restores Examples.board3 Examples.shift0 Examples.spare
              b' ejected edit) as (edit' & H & _).
  - vm_compute. reflexivity.
  - exact E.
  - unfold valid_op. apply (bool_decide_unpack _). vm_compute. exact I.
  - exists b', ejected, edit, edit'. split; [reflexivity|exact H].
Defined.

(** X8. A slide loses no tile and makes none: the tiles of the new board
    together with the tile pushed off are the tiles of the old board
    together with the tile inserted, and the new board has as many tiles
    as the old one. *)
Theorem slide_and_insert_tile_conserves (b : Board) (coord : Coord)
    (d : Direction) (t : Tile) (b' : Board) (ejected : Tile) (edit : BoardEdit) :
  Board_ok b →
  slide_and_insert_tile b coord d t = Ok (b', ejected, edit) →
  size (tiles b') = size (tiles b)
  ∧ ∀ x, ((∃ c, tiles b' !! c = Some x) ∨ x = ejected)
         ↔ ((∃ c, tiles b !! c = Some x) ∨ x = t).
Proof.
  intros Hok H.
  pose proof Hok as (Hw & Hh & Hkeys & _)%Board_ok_spec.
  apply slide_and_insert_tile_inv in H as (Hin & Hej & -> & _ & Hok').
  apply Board_ok_spec in Hok' as (_ & _ & Hkeys' & _).
  set (g := line_of coord d) in *. set (s := line_step d) in *.
  set (n := line_length b d) in *.
  assert (Hn : 0 < n) by (subst n; unfold line_length; destruct d; simpl; lia).
  assert (Hs : s = 1 ∨ s = -1) by apply line_step_unit.
  assert (Hpg : ∀ x, line_pos d (g x) = x) by apply line_pos_of.
  assert (Hginj : ∀ x y, g x = g y → x = y) by apply line_of_inj.
  assert (Hlast : far_edge b coord d = g (line_last s n)).
  { subst g s n. unfold_line. by destruct d. }
  assert (Hlook := λ c, slid_tiles_lookup b g (line_pos d) s n t c Hpg Hs Hn).
  simpl in *. split.
  - rewrite <- !size_dom. f_equal. apply set_eq. intros c.
    rewrite !elem_of_dom, Hkeys, Hkeys'. done.
  - intros x. split.
    + intros [[c Hc]| ->].
      * rewrite Hlook in Hc. repeat case_decide.
        -- right. congruence.
        -- left. by eexists.
        -- left. by eexists.
      * left. by eexists.
    + intros [[c Hc]| ->].
      * destruct (decide (c = far_edge b coord d)) as [->|Hfar].
        { right. congruence. }
        left. destruct (decide (g (line_pos d c) = c ∧ 0 ≤ line_pos d c < n))
          as [[Hg Hpos]|Hline].
        -- assert (line_pos d c ≠ line_last s n).
           { intros E. apply Hfar. by rewrite Hlast, <- E, Hg. }
           assert (0 ≤ line_pos d c + s < n).
           { unfold line_last in *. case_decide; lia. }
           exists (g (line_pos d c + s)). rewrite Hlook, decide_False.
           2: { intros E%Hginj. unfold line_first in E. case_decide; lia. }
           rewrite Hpg, decide_True by done.
           replace (line_pos d c + s - s) with (line_pos d c) by lia.
           by rewrite Hg.
        -- exists c. rewrite Hlook, decide_False.
           2: { intros ->. apply Hline. rewrite Hpg. split; [done|].
                unfold line_first. case_decide; lia. }
           by rewrite decide_False.
      * left. exists (g (line_first s n)). apply slid_tiles_first.
Qed.

Lemma slide_and_insert_tile_conserves_witness :
  ∃ b' ejected edit,
    slide_and_insert_tile Examples.board3 (mkCoord 0 0) RIGHT Examples.spare
    = Ok (b', ejected, edit)
    ∧ size (tiles b') = size (tiles Examples.board3).
Proof.
  destruct (slide_and_insert_tile Examples.board3 (mkCoord 0 0) RIGHT Examples.spare)
    as [[[b' ejected] edit]|e] eqn:E; [|vm_compute in E; discriminate E].
  exists b', ejected, edit. split; [reflexivity|].
  apply (slide_and_insert_tile_conserves Examples.board3 (mkCoord 0 0) RIGHT
           Examples.spare b' ejected edit); [vm_compute; reflexivity|exact E].
Defined.

(** *** Reachability *)

Lemma connected_in_bounds b x y : Board_ok b → connected b x y → in_bounds b y.
Proof.
  intros (_ & _ & Hkeys & _)%Board_ok_spec (tx & ty & d & _ & Hy & _).
  apply Hkeys. by eexists.
Qed.

Lemma reachable_in_bounds b x y :
  Board_ok b → in_bounds b x → rtc (connected b) x y → in_bounds b y.
Proof.
  intros Hok Hx Hrtc. induction Hrtc as [|x y z Hxy _ IH]; [done|].
  apply IH. by eapply connected_in_bounds.
Qed.

(** X9. [reachable_destinations] raises [IndexError] for a start off the
    board. On a board built by the constructor the set it returns for a
    start on the board lies on the board and is closed: started from any
    cell of the set, the search returns the same set again. *)
Theorem reachable_destinations_classes (b : Board) (c : Coord) :
  Board_ok b →
  (¬ in_bounds b c → reachable_destinations b c = Raise IndexError)
  ∧ (in_bounds b c →
     ∃ rc, reachable_destinations b c = Ok rc
           ∧ ∀ d, d ∈ rc →
               in_bounds b d ∧ reachable_destinations b d = Ok rc).
Proof.
  intros Hok. split.
  - intros Hc. unfold reachable_destinations. by rewrite assert_in_bounds_not.
  - intros Hc.
    destruct (reachable_destinations_returns b c Hc) as (rc & Hrc & Hspec).
    exists rc. split; [done|]. intros d Hd%Hspec.
    assert (Hdb : in_bounds b d) by by eapply reachable_in_bounds.
    split; [done|].
    destruct (reachable_destinations_returns b d Hdb) as (rd & Hrd & Hspec').
    rewrite Hrd. f_equal. apply set_eq. intros x.
    rewrite Hspec, Hspec'. split; intros Hx.
    + by etrans.
    + etrans; [|exact Hx]. by apply reachable_sym.
Qed.

Lemma reachable_destinations_classes_witness :
  reachable_destinations Examples.board3 (mkCoord 0 3) = Raise IndexError
  ∧ ∃ rc, reachable_destinations Examples.board3 (mkCoord 0 0) = Ok rc
          ∧ reachable_destinations Examples.board3 (mkCoord 0 2) = Ok rc.
Proof.
  destruct (reachable_destinations_classes Examples.board3 (mkCoord 0 3))
    as [H1 _]; [vm_compute; reflexivity|].
  destruct (reachable_destinations_classes Examples.board3 (mkCoord 0 0))
    as [_ H2]; [vm_compute; reflexivity|].
  split.
  - apply H1. unfold in_bounds. simpl. lia.
  - destruct H2 as (rc & Hrc & Hclosed); [unfold in_bounds; simpl; lia|].
    exists rc. split; [exact Hrc|]. apply Hclosed.
    assert (E : rc = list_to_set [mkCoord 0 0; mkCoord 0 1; mkCoord 0 2]).
    { assert (E' : reachable_destinations Examples.board3 (mkCoord 0 0)
                   = Ok (list_to_set [mkCoord 0 0; mkCoord 0 1; mkCoord 0 2]))
        by (vm_compute; reflexivity).
      rewrite Hrc in E'. injection E' as ->. reflexivity. }
    rewrite E. vm_compute. tauto.
Defined.

(** *** Equality of boards *)

Lemma Tile_eqb_spec t1 t2 :
  Tile_eqb t1 t2 = true ↔
    shape t1 = shape t2
    ∧ connected_directions t1 = connected_directions t2
    ∧ gems t1 = gems t2.
Proof.
  unfold Tile_eqb. rewrite !andb_true_iff, !bool_decide_eq_true. tauto.
Qed.

Lemma tiles_eqb_spec (m1 m2 : gmap Coord Tile) :
  tiles_eqb m1 m2 = true ↔
    ∀ c, match m1 !! c, m2 !! c with
         | Some t1, Some t2 => Tile_eqb t1 t2 = true
         | None, None => True
         | _, _ => False
         end.
Proof.
  unfold tiles_eqb. rewrite andb_true_iff, !bool_decide_eq_true. split.
  - intros [Hsize Hall].
    assert (Hsub : dom m1 ⊆ dom m2).
    { intros c [t Hc]%elem_of_dom. specialize (Hall c t Hc). simpl in Hall.
      apply elem_of_dom. destruct (m2 !! c); [done|]. by destruct Hall. }
    assert (Hdom : dom m1 = dom m2).
    { apply set_subseteq_size_eq; [done|]. rewrite !size_dom. lia. }
    intros c. destruct (m1 !! c) as [t1|] eqn:E1.
    + specialize (Hall c t1 E1). simpl in Hall.
      destruct (m2 !! c); [by apply Is_true_eq_true|done].
    + destruct (m2 !! c) as [t2|] eqn:E2; [|done].
      apply not_elem_of_dom in E1. apply E1. rewrite Hdom. apply elem_of_dom.
      by eexists.
  - intros H.
    assert (Hdom : dom m1 = dom m2).
    { apply set_eq. intros c. rewrite !elem_of_dom. specialize (H c).
      destruct (m1 !! c), (m2 !! c); try done; split; intros []; done. }
    split.
    + by rewrite <- !size_dom, Hdom.
    + intros c t1 Hc. specialize (H c). rewrite Hc in H. simpl.
      destruct (m2 !! c); [by apply Is_true_eq_left|done].
Qed.

Lemma filter_ext_in {A} (P Q : A → Prop) `{∀ x, Decision (P x)}
    `{∀ x, Decision (Q x)} (l : list A) :
  (∀ x, x ∈ l → P x ↔ Q x) → filter P l = filter Q l.
Proof.
  induction l as [|a l IH]; intros Hext; [done|].
  rewrite !filter_cons. rewrite IH by (intros x Hx; apply Hext; by right).
  pose proof (Hext a (list_elem_of_here _ _)).
  repeat case_decide; tauto.
Qed.

Lemma omap_ext_in {A B} (f g : A → option B) (l : list A) :
  (∀ x, x ∈ l → f x = g x) → omap f l = omap g l.
Proof.
  induction l as [|a l IH]; intros Hext; [done|].
  assert (E : f a = g a) by (apply Hext; left).
  assert (IH' : omap f l = omap g l).
  { apply IH. intros x Hx. apply Hext. by right. }
  change (omap f (a :: l))
    with (match f a with Some y => y :: omap f l | None => omap f l end).
  change (omap g (a :: l))
    with (match g a with Some y => y :: omap g l | None => omap g l end).
  by rewrite E, IH'.
Qed.

Lemma neighbors_eqb b1 b2 x :
  tiles_eqb (tiles b1) (tiles b2) = true → _neighbors b1 x = _neighbors b2 x.
Proof.
  intros Heq. rewrite tiles_eqb_spec in Heq.
  assert (Hsome : ∀ c, is_Some (tiles b1 !! c) ↔ is_Some (tiles b2 !! c)).
  { intros c. specialize (Heq c).
    destruct (tiles b1 !! c), (tiles b2 !! c); try done; split; intros []; done. }
  assert (Hadj : _adjacent_tiles b1 x = _adjacent_tiles b2 x).
  { unfold _adjacent_tiles. pose proof (Heq x) as Hx.
    destruct (tiles b1 !! x) as [t1|], (tiles b2 !! x) as [t2|]; try done.
    apply Tile_eqb_spec in Hx as (_ & -> & _).
    apply filter_ext_in. intros dc _. apply Hsome. }
  unfold _neighbors. rewrite Hadj. apply omap_ext_in. intros dc _.
  specialize (Heq dc.2).
  destruct (tiles b1 !! dc.2) as [t1|], (tiles b2 !! dc.2) as [t2|]; try done.
  apply Tile_eqb_spec in Heq as (_ & -> & _). done.
Qed.

Lemma search_loop_ext b1 b2 budget F R S :
  (∀ x, _neighbors b1 x = _neighbors b2 x) →
  search_loop budget b1 F R S = search_loop budget b2 F R S.
Proof.
  intros Hn. revert F R S.
  induction budget as [|budget IH]; intros F R S; simpl; [done|].
  destruct F as [|c F]; [done|]. by rewrite Hn, IH.
Qed.

(** X10. [Board.__eq__], which compares the tiles with [Tile.__eq__] (so
    that a tile equals its copy turned by a symmetry of its shape), is an
    equivalence of boards, and boards that are equal in this sense answer
    alike: [reachable_destinations] returns the same set, or raises the
    same error, from every start, and the valid insert locations are the
    same. *)
Theorem Board_eqb_congruence (b1 b2 b3 : Board) :
  Board_eqb b1 b1 = true
  ∧ (Board_eqb b1 b2 = true → Board_eqb b2 b1 = true)
  ∧ (Board_eqb b1 b2 = true → Board_eqb b2 b3 = true → Board_eqb b1 b3 = true)
  ∧ (Board_eqb b1 b2 = true →
       (∀ c, reachable_destinations b1 c = reachable_destinations b2 c)
       ∧ (∀ d, get_valid_insert_locations b1 d = get_valid_insert_locations b2 d)
       ∧ get_all_fixed_tiles b1 = get_all_fixed_tiles b2).
Proof.
  assert (Hspec : ∀ b b', Board_eqb b b' = true ↔
            tiles_eqb (tiles b) (tiles b') = true
            ∧ width b = width b' ∧ height b = height b').
  { intros b b'. unfold Board_eqb.
    rewrite !andb_true_iff, !bool_decide_eq_true. tauto. }
  assert (Hrefl : ∀ t, Tile_eqb t t = true) by (intros t; by apply Tile_eqb_spec).
  split; [|split; [|split]].
  - apply Hspec. split; [|done]. apply tiles_eqb_spec. intros c.
    destruct (tiles b1 !! c); done.
  - rewrite !Hspec, !tiles_eqb_spec. intros (H & -> & ->). split; [|done].
    intros c. specialize (H c).
    destruct (tiles b1 !! c), (tiles b2 !! c); try done.
    apply Tile_eqb_spec in H as (? & ? & ?). by apply Tile_eqb_spec.
  - rewrite !Hspec, !tiles_eqb_spec. intros (H12 & -> & ->) (H23 & -> & ->).
    split; [|done]. intros c. specialize (H12 c). specialize (H23 c).
    destruct (tiles b1 !! c), (tiles b2 !! c), (tiles b3 !! c); try done.
    apply Tile_eqb_spec in H12 as (? & ? & ?), H23 as (? & ? & ?).
    apply Tile_eqb_spec. split_and!; congruence.
  - rewrite Hspec. intros (Htiles & Hw & Hh). split; [|split].
    + intros c. unfold reachable_destinations, assert_in_bounds.
      rewrite Hw, Hh.
      assert (Hsize : size (tiles b1) = size (tiles b2)).
      { unfold tiles_eqb in Htiles.
        by apply andb_true_iff in Htiles as [?%bool_decide_eq_true _]. }
      rewrite Hsize.
      by rewrite (search_loop_ext b1 b2) by (intros x; by apply neighbors_eqb).
    + intros d. unfold get_valid_insert_locations. by rewrite Hw, Hh.
    + unfold get_all_fixed_tiles. by rewrite Hw, Hh.
Qed.

Lemma Board_eqb_congruence_witness :
  let turned :=
    mkBoard (<[mkCoord 1 0 := Examples.tile LINE 2 "a" "c"]> Examples.tiles3) 3 3 in
  turned ≠ Examples.board3
  ∧ Board_eqb Examples.board3 turned = true
  ∧ reachable_destinations Examples.board3 (mkCoord 1 0)
    = reachable_destinations turned (mkCoord 1 0).
Proof.
  intros turned.
  assert (H : Board_eqb Examples.board3 turned = true) by (vm_compute; reflexivity).
  split; [|split; [exact H|]].
  - intros E. assert (E' : tiles turned !! mkCoord 1 0
                           = tiles Examples.board3 !! mkCoord 1 0) by by rewrite E.
    vm_compute in E'. discriminate E'.
  - apply (Board_eqb_congruence Examples.board3 turned turned). exact H.
Defined.

(** ** Game states *)

(** What a successful [shift_tiles] has done. *)
Lemma shift_tiles_inv s op s' :
  shift_tiles s op = Ok s' →
  kind (prev_action s) ≠ PARTIAL_TURN
  ∧ undoes_prev_action s op = false
  ∧ ∃ b' ejected edit,
      slide_and_insert_tile (board s) (insert_location op) (direction op)
        (spare_tile s) = Ok (b', ejected, edit)
      ∧ s' = mkGameState (subclass s)
               ((λ cs, (cs.1, move_with_board cs.2 edit (insert_location op)))
                  <$> player_states s)
               (player_secrets s) ejected b' (PartialTurnPrevAction op)
               (current_player_index s).
Proof.
  intros H. unfold shift_tiles in H.
  apply bind_Ok in H as ([] & Hkind%check_Ok & H).
  apply bind_Ok in H as ([] & Hundo%check_Ok & H).
  apply bind_Ok in H as ([[b' ejected] edit] & Hslide & H).
  apply build_Ok in H as (_ & _ & _ & _ & ->).
  split; [|split].
  - apply negb_true_iff in Hkind. by apply bool_decide_eq_false in Hkind.
  - by apply negb_true_iff in Hundo.
  - by exists b', ejected, edit.
Qed.

(** X11. On a well-formed state whose previous shift, if there is one,
    was made at a valid insert location, [get_legal_shift_ops] holds
    exactly the operations that [shift_tiles] carries out: no legal
    operation is refused and no other operation is accepted. *)
Theorem legal_shift_ops_are_accepted (s : GameState) (op : ShiftOp) :
  GameState_ok s →
  (∀ shift, get_last_shift_op s = Some shift → valid_op (board s) shift) →
  op ∈ get_legal_shift_ops s ↔ ∃ s', shift_tiles s op = Ok s'.
Proof.
  intros Hok Hprev. rewrite elem_of_get_legal_shift_ops. split.
  - intros (Hkind & Hvalid & Hne). apply shift_tiles_Ok; try done.
    unfold undoes_prev_action. unfold get_last_shift_op in Hne.
    destruct (prev_action s) as [|shift|shift]; try done;
      apply bool_decide_eq_false_2; intros E;
      apply (Hne shift eq_refl); by rewrite <- E, reverse_reverse.
  - intros [s' H].
    pose proof (shift_tiles_Ok_inv _ _ _ H) as (Hkind & _ & _ & _ & Hvalid).
    apply shift_tiles_inv in H as (_ & Hundo & _).
    split; [done|]. split; [done|]. intros shift Hshift ->.
    specialize (Hprev shift Hshift).
    unfold undoes_prev_action, get_last_shift_op in *.
    destruct (prev_action s) as [|shift'|shift']; try done;
      injection Hshift as ->; apply bool_decide_eq_false in Hundo;
      apply Hundo; by apply reverse_reverse.
Qed.

Lemma legal_shift_ops_are_accepted_witness :
  Examples.shift_other ∈ get_legal_shift_ops Examples.referee2
  ∧ ∃ s', shift_tiles Examples.referee2 Examples.shift_other = Ok s'.
Proof.
  assert (H : ∃ s', shift_tiles Examples.referee2 Examples.shift_other = Ok s').
  { eexists. vm_compute. reflexivity. }
  split; [|exact H].
  apply (legal_shift_ops_are_accepted Examples.referee2 Examples.shift_other).
  - state_ok_by_evaluation.
  - intros shift Hshift. vm_compute in Hshift. injection Hshift as <-.
    unfold valid_op. apply (bool_decide_unpack _). vm_compute. exact I.
  - exact H.
Defined.

Lemma current_player_elem s c ps :
  current_player_color s = Ok c → current_player_state s = Ok ps →
  (c, ps) ∈ player_states s.
Proof.
  intros Hc Hps. unfold current_player_state in Hps. rewrite Hc in Hps.
  simpl in Hps. by apply od_getitem_elem.
Qed.

Lemma player_in_bounds s c ps :
  build s = Ok s → (c, ps) ∈ player_states s →
  in_bounds (board s) (location ps) ∧ in_bounds (board s) (home_location ps).
Proof.
  intros (_ & Hp & _)%build_Ok Hin.
  apply validate_player_states_Ok in Hp as [_ Hall].
  destruct (Hall _ _ Hin) as (? & ? & _). done.
Qed.

(** The players after the current player, of colour [c], has walked to
    [dest]. *)
Lemma build_moved_player s c dest prev :
  build s = Ok s → in_bounds (board s) dest →
  let s' := set_prev_action prev
              (set_player_states
                 ((λ cs, if decide (cs.1 = c)
                         then (cs.1, with_location cs.2 dest) else cs)
                    <$> player_states s) s) in
  build s' = Ok s'.
Proof.
  intros Hb Hdest s'. apply build_Ok.
  apply build_Ok in Hb as (Hg & Hp & Hi & Hsub & _).
  assert (Hkeys : ((λ cs : string * PlayerState,
                      if decide (cs.1 = c)
                      then (cs.1, with_location cs.2 dest) else cs)
                     <$> player_states s).*1 = (player_states s).*1).
  { rewrite <- list_fmap_compose. apply list_fmap_ext. intros i [c' p] _. simpl.
    by destruct (decide (c' = c)). }
  subst s'. simpl. split; [done|]. split; [|split; [|split; [|done]]].
  - apply validate_player_states_Ok. rewrite validate_player_states_Ok in Hp.
    destruct Hp as [Hlen Hall]. rewrite length_fmap. split; [done|].
    intros c' ps ([c'' ps'] & E & Hps)%list_elem_of_fmap.
    destruct (Hall _ _ Hps) as (Hloc & Hhome & Hfixed). simpl in E.
    destruct (decide (c'' = c)); injection E as -> ->; done.
  - by rewrite length_fmap.
  - eapply subclass_init_dims; [| | |exact Hsub]; done.
Qed.

Lemma move_current_player_Ok s dest c ps shift :
  GameState_ok s → prev_action s = PartialTurnPrevAction shift →
  current_player_color s = Ok c → current_player_state s = Ok ps →
  dest ≠ location ps → rtc (connected (board s)) (location ps) dest →
  move_current_player s dest
  = Ok (set_prev_action (CompleteTurnPrevAction shift)
          (set_player_states
             ((λ cs, if decide (cs.1 = c)
                     then (cs.1, with_location cs.2 dest) else cs)
                <$> player_states s) s)).
Proof.
  intros [Hb Hbo _ _ _] Hprev Hc Hps Hne Hreach.
  pose proof (current_player_elem _ _ _ Hc Hps) as Hin.
  destruct (player_in_bounds _ _ _ Hb Hin) as [Hloc _].
  assert (Hdest : in_bounds (board s) dest) by by eapply reachable_in_bounds.
  unfold move_current_player.
  apply assert_in_bounds_Ok in Hdest as Hd. rewrite Hd, Hprev. simpl.
  rewrite Hps. simpl. rewrite (bool_decide_eq_false_2 _ Hne). simpl.
  unfold is_reachable_by_current_player. rewrite Hps. simpl.
  destruct (reachable_destinations_returns _ _ Hloc) as (r & -> & Hr). simpl.
  rewrite bool_decide_eq_true_2 by by apply Hr. simpl.
  rewrite Hc. simpl. by apply build_moved_player.
Qed.

(** What a successful [move_current_player] has done. *)
Lemma move_current_player_inv s dest s' :
  move_current_player s dest = Ok s' →
  ∃ shift c ps r,
    prev_action s = PartialTurnPrevAction shift
    ∧ current_player_color s = Ok c ∧ current_player_state s = Ok ps
    ∧ dest ≠ location ps
    ∧ reachable_destinations (board s) (location ps) = Ok r ∧ dest ∈ r
    ∧ s' = set_prev_action (CompleteTurnPrevAction shift)
             (set_player_states
                ((λ cs, if decide (cs.1 = c)
                        then (cs.1, with_location cs.2 dest) else cs)
                   <$> player_states s) s).
Proof.
  intros H. unfold move_current_player in H.
  apply bind_Ok in H as ([] & _ & H).
  destruct (prev_action s) as [|shift|shift] eqn:Hprev; try done.
  apply bind_Ok in H as (ps & Hps & H).
  apply bind_Ok in H as ([] & Hne%check_Ok & H).
  apply bind_Ok in H as (reach & Hreach & H).
  apply bind_Ok in H as ([] & ->%check_Ok & H).
  apply bind_Ok in H as (c & Hc & H).
  apply build_Ok in H as (_ & _ & _ & _ & ->).
  unfold is_reachable_by_current_player in Hreach. rewrite Hps in Hreach.
  simpl in Hreach. apply bind_Ok in Hreach as (r & Hr & [= Hin]).
  apply bool_decide_eq_true in Hin.
  apply negb_true_iff, bool_decide_eq_false in Hne.
  by exists shift, c, ps, r.
Qed.

Lemma od_getitem_moved (d : list (string * PlayerState)) c dest k :
  od_getitem ((λ cs, if decide (cs.1 = c)
                     then (cs.1, with_location cs.2 dest) else cs) <$> d) k
  = p ← od_getitem d k;
    Ok (if decide (k = c) then with_location p dest else p).
Proof.
  unfold od_getitem. induction d as [|[k' p] l IH]; [done|].
  rewrite fmap_cons. cbn [list_find fst snd].
  destruct (decide (k' = c)) as [->|Hk]; cbn [fst snd].
  - destruct (decide (c = k)) as [<-|Hck].
    + simpl. by rewrite decide_True.
    + destruct (list_find _ (_ <$> l)) as [[]|], (list_find _ l) as [[]|];
        simpl in *; congruence.
  - destruct (decide (k' = k)) as [<-|Hkk].
    + simpl. by rewrite decide_False.
    + destruct (list_find _ (_ <$> l)) as [[]|], (list_find _ l) as [[]|];
        simpl in *; congruence.
Qed.

(** X12. On a well-formed state [get_legal_move_destinations] returns
    exactly the destinations that [move_current_player] accepts. When the
    move is accepted, the current player stands at the destination and the
    previous action is the complete turn of the shift made before; the
    other players, the board, the spare tile, the secrets and the index of
    the current player are as they were. *)
Theorem legal_moves_are_accepted (s : GameState) (dest : Coord) :
  GameState_ok s →
  ∃ dests c ps,
    get_legal_move_destinations s = Ok dests
    ∧ current_player_color s = Ok c ∧ current_player_state s = Ok ps
    ∧ (location ps ∉ dests)
    ∧ (dest ∈ dests ↔ ∃ s', move_current_player s dest = Ok s')
    ∧ ∀ s', move_current_player s dest = Ok s' →
        current_player_state s' = Ok (with_location ps dest)
        ∧ (∀ c', c' ≠ c →
             od_getitem (player_states s') c' = od_getitem (player_states s) c')
        ∧ player_colors s' = player_colors s
        ∧ (∃ shift, prev_action s = PartialTurnPrevAction shift
                    ∧ prev_action s' = CompleteTurnPrevAction shift)
        ∧ (subclass s', player_secrets s', spare_tile s', board s',
           current_player_index s')
          = (subclass s, player_secrets s, spare_tile s, board s,
             current_player_index s).
Proof.
  intros Hok. pose proof Hok as [Hb Hbo _ Hnd _].
  destruct (current_player_Ok s Hb) as (c & ps & Hc & Hidx & Hget & Hps).
  pose proof (current_player_elem _ _ _ Hc Hps) as Hin.
  destruct (player_in_bounds _ _ _ Hb Hin) as [Hloc _].
  destruct (reachable_destinations_returns _ _ Hloc) as (r & Hr & Hspec).
  exists (if bool_decide (kind (prev_action s) = PARTIAL_TURN)
          then r ∖ {[location ps]} else ∅), c, ps.
  split; [|split; [done|split; [done|split; [|split]]]].
  - unfold get_legal_move_destinations. rewrite Hps. simpl.
    case_bool_decide; simpl; [|done]. by rewrite Hr.
  - case_bool_decide; set_solver.
  - split.
    + case_bool_decide as Hkind; [|set_solver].
      intros [Hd Hne]%elem_of_difference.
      destruct (prev_action s) as [|shift|shift] eqn:Hprev; try done.
      eexists. eapply move_current_player_Ok; try done.
      * rewrite elem_of_singleton in Hne. done.
      * by apply Hspec.
    + intros [s' H].
      apply move_current_player_inv in H
        as (shift & c' & ps' & r' & Hprev & _ & Hps' & Hne & Hr' & Hd & _).
      rewrite Hps in Hps'. injection Hps' as <-.
      rewrite Hr in Hr'. injection Hr' as <-.
      rewrite Hprev. cbn [kind]. rewrite bool_decide_eq_true_2 by done.
      apply elem_of_difference. split; [done|]. by rewrite elem_of_singleton.
  - intros s' H.
    apply move_current_player_inv in H
      as (shift & c' & ps' & r' & Hprev & Hc' & Hps' & Hne & Hr' & Hd & ->).
    rewrite Hc in Hc'. injection Hc' as <-.
    rewrite Hps in Hps'. injection Hps' as <-.
    assert (Hkeys : ((λ cs : string * PlayerState,
                        if decide (cs.1 = c)
                        then (cs.1, with_location cs.2 dest) else cs)
                       <$> player_states s).*1 = (player_states s).*1).
    { rewrite <- list_fmap_compose. apply list_fmap_ext. intros i [c' p] _.
      simpl. by destruct (decide (c' = c)). }
    pose proof (od_getitem_moved (player_states s) c dest) as Hlook.
    split; [|split; [|split; [|split]]].
    + unfold current_player_state, current_player_color, player_colors. simpl.
      rewrite Hkeys.
      unfold current_player_color, player_colors in Hc. rewrite Hc. simpl.
      rewrite Hlook, Hget. simpl. by rewrite decide_True.
    + intros c' Hc'. simpl. rewrite Hlook.
      destruct (od_getitem (player_states s) c'); simpl; [|done].
      by rewrite decide_False.
    + unfold player_colors. simpl. exact Hkeys.
    + by exists shift.
    + done.
Qed.

Lemma referee1_ok : GameState_ok Examples.referee1.
Proof. state_ok_by_evaluation. Qed.

Lemma legal_moves_are_accepted_witness :
  ∃ dests,
    get_legal_move_destinations Examples.referee1 = Ok dests
    ∧ mkCoord 1 1 ∈ dests
    ∧ ∃ s', move_current_player Examples.referee1 (mkCoord 1 1) = Ok s'.
Proof.
  destruct (legal_moves_are_accepted Examples.referee1 (mkCoord 1 1) referee1_ok)
    as (dests & c & ps & Hd & _ & _ & _ & Hiff & _).
  assert (H : ∃ s', move_current_player Examples.referee1 (mkCoord 1 1) = Ok s').
  { eexists. vm_compute. reflexivity. }
  exists dests. split; [exact Hd|]. split; [|exact H].
  apply Hiff. exact H.
Defined.

Lemma build_set_starting_player_index s j :
  build s = Ok s → 0 ≤ j < num_players s →
  build (set_starting_player_index j s) = Ok (set_starting_player_index j s).
Proof.
  intros (Hg & Hp & Hi & Hsub & _)%build_Ok Hj. apply build_Ok. simpl.
  unfold num_players in Hj. done.
Qed.

Lemma GameState_ok_set_starting_player_index s j :
  GameState_ok s → 0 ≤ j < num_players s →
  GameState_ok (set_starting_player_index j s).
Proof.
  intros [Hb Hbo Hsp Hnd Hts] Hj. split; try done.
  by apply build_set_starting_player_index.
Qed.

Lemma end_current_turn_Ok s :
  GameState_ok s →
  end_current_turn s
  = Ok (set_starting_player_index
          ((current_player_index s + 1) mod num_players s) s).
Proof.
  intros [Hb _ _ _ _]. unfold end_current_turn.
  pose proof Hb as (_ & _ & Hi & _)%build_Ok.
  fold (num_players s) in *.
  assert (E : (if bool_decide (current_player_index s + 1 >= num_players s)
               then 0 else current_player_index s + 1)
              = (current_player_index s + 1) mod num_players s).
  { case_bool_decide.
    - assert (current_player_index s + 1 = num_players s) as -> by lia.
      by rewrite Z.mod_same by lia.
    - by rewrite Z.mod_small by lia. }
  rewrite E. apply build_set_starting_player_index; [done|].
  apply Z.mod_pos_bound. lia.
Qed.

Lemma end_current_turn_iter s (k : nat) :
  GameState_ok s →
  Nat.iter k (λ r, r ≫= end_current_turn) (Ok s)
  = Ok (set_starting_player_index
          ((current_player_index s + Z.of_nat k) mod num_players s) s).
Proof.
  intros Hok. pose proof Hok as [Hb _ _ _ _].
  pose proof Hb as (_ & _ & Hi & _)%build_Ok. fold (num_players s) in Hi.
  induction k as [|k IH].
  - simpl. rewrite Z.add_0_r, Z.mod_small by done. by destruct s.
  - rewrite Nat.iter_succ, IH. simpl.
    rewrite end_current_turn_Ok.
    2: { apply GameState_ok_set_starting_player_index; [done|].
         apply Z.mod_pos_bound. lia. }
    f_equal. unfold set_starting_player_index, num_players. simpl.
    f_equal. fold (num_players s).
    rewrite Z.add_mod_idemp_l by lia. f_equal. lia.
Qed.

(** X13. [end_current_turn] on a well-formed state hands the turn to the
    next player in the order and to the first after the last; it changes
    nothing else, the state it returns is well formed, and after as many
    calls as there are players the state is the one at the start. *)
Theorem end_current_turn_cycles (s : GameState) :
  GameState_ok s →
  ∃ s', end_current_turn s = Ok s'
    ∧ s' = set_starting_player_index
             ((current_player_index s + 1) mod num_players s) s
    ∧ GameState_ok s'
    ∧ Nat.iter (length (player_states s)) (λ r, r ≫= end_current_turn) (Ok s)
      = Ok s.
Proof.
  intros Hok. pose proof Hok as [Hb _ _ _ _].
  pose proof Hb as (_ & _ & Hi & _)%build_Ok. fold (num_players s) in Hi.
  eexists. split; [by apply end_current_turn_Ok|]. split; [done|]. split.
  - apply GameState_ok_set_starting_player_index; [done|].
    apply Z.mod_pos_bound. lia.
  - rewrite end_current_turn_iter by done. fold (num_players s).
    rewrite <- (Z.mul_1_l (num_players s)) at 1.
    rewrite Z.mod_add, Z.mod_small by lia. by destruct s.
Qed.

Lemma end_current_turn_cycles_witness :
  end_current_turn Examples.referee0 = Ok Examples.referee0_blue
  ∧ end_current_turn Examples.referee0_blue = Ok Examples.referee0.
Proof.
  destruct (end_current_turn_cycles Examples.referee0 referee0_ok)
    as (s' & H1 & -> & _ & H2).
  split; [exact H1|].
  vm_compute. reflexivity.
Defined.

(** X14. A shift carries the players along with their tiles. After a
    successful [shift_tiles] on a well-formed state, the tile pushed off is
    the new spare tile and the old spare tile lies at the insert location;
    every player keeps its colour, name, home and place in the turn order;
    a player who stood on the tile pushed off stands at the insert
    location, a player elsewhere on the line has moved one cell with it,
    and every other player is where it was; and each player not pushed
    off stands on the same tile as before. The secrets and the current
    player are unchanged. *)
Theorem shift_tiles_moves_players (s : GameState) (op : ShiftOp) (s' : GameState) :
  GameState_ok s → shift_tiles s op = Ok s' →
  let far := far_edge (board s) (insert_location op) (direction op) in
  tiles (board s) !! far = Some (spare_tile s')
  ∧ tiles (board s') !! insert_location op = Some (spare_tile s)
  ∧ (subclass s', player_secrets s', current_player_index s')
    = (subclass s, player_secrets s, current_player_index s)
  ∧ Forall2 (λ p p',
       p'.1 = p.1
       ∧ home_location p'.2 = home_location p.2
       ∧ color p'.2 = color p.2 ∧ name p'.2 = name p.2
       ∧ (location p.2 = far → location p'.2 = insert_location op)
       ∧ (location p.2 ≠ far →
          on_line (insert_location op) (direction op) (location p.2) →
          location p'.2 = step (direction op) (location p.2))
       ∧ (¬ on_line (insert_location op) (direction op) (location p.2) →
          location p'.2 = location p.2)
       ∧ (location p.2 ≠ far →
          tiles (board s') !! location p'.2 = tiles (board s) !! location p.2))
      (player_states s) (player_states s').
Proof.
  intros Hok H far. pose proof Hok as [Hb Hbo _ _ _].
  pose proof Hbo as (Hw & Hh & Hkeys & _)%Board_ok_spec.
  apply shift_tiles_inv in H as (_ & _ & b' & ejected & edit & Hslide & ->).
  apply slide_and_insert_tile_inv in Hslide as (Hin & Hej & -> & -> & _).
  destruct op as [coord d]. simpl in *.
  set (g := line_of coord d) in *. set (st := line_step d) in *.
  set (n := line_length (board s) d) in *.
  assert (Hn : 0 < n) by (subst n; unfold line_length; destruct d; simpl; lia).
  assert (Hs : st = 1 ∨ st = -1) by apply line_step_unit.
  assert (Hpg : ∀ x, line_pos d (g x) = x) by apply line_pos_of.
  assert (Hginj : ∀ x y, g x = g y → x = y) by apply line_of_inj.
  assert (Hlast : far = g (line_last st n)).
  { subst far g st n. unfold_line. by destruct d. }
  assert (Hfirst : coord = g (line_first st n)).
  { apply elem_of_get_valid_insert_locations in Hin. subst g st n. unfold_line.
    destruct coord as [x y], d; simpl in *; destruct Hin as (-> & _); done. }
  assert (Hline : ∀ x, in_bounds (board s) (g x) ↔ 0 ≤ x < n).
  { intros x. apply elem_of_get_valid_insert_locations in Hin.
    unfold in_bounds. subst g n. unfold_line.
    destruct d; simpl in *; destruct Hin as (? & _ & ? & _); lia. }
  assert (Hlook := λ c, slid_tiles_lookup (board s) g (line_pos d) st n
                          (spare_tile s) c Hpg Hs Hn).
  split; [done|]. split; [rewrite Hfirst; apply slid_tiles_first|].
  split; [done|].
  apply Forall2_fmap_r, Forall_Forall2_diag, Forall_forall.
  intros [c p] Hp. unfold compose. cbn [fst snd].
  destruct (player_in_bounds _ _ _ Hb Hp) as [Hloc _].
  split; [done|]. rewrite move_with_board_home. split; [done|].
  unfold move_with_board. cbn [deletions replacements].
  destruct (decide (location p = far)) as [Hfar|Hfar].
  { rewrite decide_True by set_solver. simpl. split_and!; try done.
    intros Hoff. destruct Hoff. apply on_line_iff. fold g.
    by rewrite Hfar, Hlast, Hpg. }
  rewrite decide_False by set_solver.
  destruct (decide (g (line_pos d (location p)) = location p)) as [Hon|Hoff'].
  2: assert (Hoff : ¬ on_line coord d (location p))
       by (by rewrite on_line_iff).
  - 
    assert (Hpos : 0 ≤ line_pos d (location p) < n).
    { apply Hline. by rewrite Hon. }
    assert (Hne : line_pos d (location p) ≠ line_last st n).
    { intros E. apply Hfar. by rewrite Hlast, <- E. }
    assert (Hstep : 0 ≤ line_pos d (location p) + st < n).
    { unfold line_last in Hne. case_decide; lia. }
    assert (Hrepl : line_replacements g st n !! location p
                    = Some (g (line_pos d (location p) + st))).
    { apply line_replacements_lookup; [done|].
      exists (line_pos d (location p)). by rewrite Hon. }
    rewrite Hrepl. simpl. split_and!; try done.
    + intros _ _. subst g st. rewrite <- step_line_of. by rewrite Hon.
    + intros Hoff. destruct Hoff. by apply on_line_iff.
    + intros _. rewrite Hlook, decide_False.
      2: { intros E%Hginj. unfold line_first in E. case_decide; lia. }
      rewrite Hpg, decide_True by done.
      replace (line_pos d (location p) + st - st)
        with (line_pos d (location p)) by lia.
      by rewrite Hon.
  - assert (Hrepl : line_replacements g st n !! location p = None).
    { apply eq_None_not_Some. intros [c' Hc'].
      apply line_replacements_lookup in Hc' as (x & _ & _ & E & _); [|done].
      apply Hoff, on_line_iff. fold g. by rewrite E, Hpg. }
    rewrite Hrepl. split_and!; try done.
    intros _. rewrite Hlook, decide_False.
    2: { intros E. apply Hoff, on_line_iff. fold g. by rewrite E, Hpg. }
    rewrite decide_False; [done|]. intros [E _]. by apply Hoff, on_line_iff.
Qed.

Lemma shift_tiles_moves_players_witness :
  ∃ s', shift_tiles Examples.referee0 Examples.shift0 = Ok s'
        ∧ (location <$> (player_states s').*2) = [mkCoord 1 0; mkCoord 0 0]
        ∧ tiles (board s') !! mkCoord 0 0 = Some (spare_tile Examples.referee0).
Proof.
  destruct (shift_tiles Examples.referee0 Examples.shift0) as [s'|e] eqn:E;
    [|vm_compute in E; discriminate E].
  exists s'. split; [reflexivity|].
  destruct (shift_tiles_moves_players Examples.referee0 Examples.shift0 s'
              referee0_ok E) as (_ & H & _).
  split; [|exact H].
  vm_compute in E. injection E as <-. vm_compute. reflexivity.
Defined.

(** X15. The errors of [move_current_player] on a well-formed state, in
    the order the code checks them: [IndexError] for a destination off the
    board, whatever the previous action; [TurnContractViolation] when the
    previous action is not a shift; [ZeroMovementError] when the
    destination is where the current player stands; [OffroadingError] when
    no path of connected tiles leads from there to the destination. *)
Theorem move_current_player_errors (s : GameState) (dest : Coord) :
  GameState_ok s →
  ∃ ps, current_player_state s = Ok ps
    ∧ (¬ in_bounds (board s) dest →
         move_current_player s dest = Raise IndexError)
    ∧ (in_bounds (board s) dest → kind (prev_action s) ≠ PARTIAL_TURN →
         move_current_player s dest = Raise TurnContractViolation)
    ∧ (in_bounds (board s) dest → kind (prev_action s) = PARTIAL_TURN →
         dest = location ps →
         move_current_player s dest = Raise ZeroMovementError)
    ∧ (in_bounds (board s) dest → kind (prev_action s) = PARTIAL_TURN →
         dest ≠ location ps →
         ¬ rtc (connected (board s)) (location ps) dest →
         move_current_player s dest = Raise OffroadingError).
Proof.
  intros Hok. pose proof Hok as [Hb Hbo _ _ _].
  destruct (current_player_Ok s Hb) as (c & ps & Hc & _ & _ & Hps).
  pose proof (current_player_elem _ _ _ Hc Hps) as Hin.
  destruct (player_in_bounds _ _ _ Hb Hin) as [Hloc _].
  exists ps. split; [done|]. unfold move_current_player.
  split; [|split; [|split]].
  - intros Hd. by rewrite assert_in_bounds_not.
  - intros Hd%assert_in_bounds_Ok Hkind. rewrite Hd. simpl.
    by destruct (prev_action s).
  - intros Hd%assert_in_bounds_Ok Hkind ->. rewrite Hd. simpl.
    destruct (prev_action s); try done. rewrite Hps. simpl.
    by rewrite bool_decide_eq_true_2.
  - intros Hd%assert_in_bounds_Ok Hkind Hne Hreach. rewrite Hd. simpl.
    destruct (prev_action s); try done. rewrite Hps. simpl.
    rewrite (bool_decide_eq_false_2 _ Hne). simpl.
    unfold is_reachable_by_current_player. rewrite Hps. simpl.
    destruct (reachable_destinations_returns _ _ Hloc) as (r & -> & Hr). simpl.
    rewrite bool_decide_eq_false_2; [done|]. by rewrite Hr.
Qed.

Lemma move_current_player_errors_witness :
  move_current_player Examples.referee0 (mkCoord 9 9) = Raise IndexError
  ∧ move_current_player Examples.referee0 (mkCoord 1 1)
    = Raise TurnContractViolation
  ∧ move_current_player Examples.referee1 (mkCoord 1 0) = Raise ZeroMovementError
  ∧ move_current_player Examples.referee1 (mkCoord 2 2) = Raise OffroadingError.
Proof.
  destruct (move_current_player_errors Examples.referee0 (mkCoord 9 9) referee0_ok)
    as (ps0 & _ & H1 & _).
  destruct (move_current_player_errors Examples.referee0 (mkCoord 1 1) referee0_ok)
    as (ps1 & _ & _ & H2 & _).
  destruct (move_current_player_errors Examples.referee1 (mkCoord 1 0) referee1_ok)
    as (ps2 & Hps2 & _ & _ & H3 & _).
  split; [|split; [|split]].
  - apply H1. unfold in_bounds. simpl. lia.
  - apply H2; [unfold in_bounds; simpl; lia|]. vm_compute. intros [=].
  - vm_compute in Hps2. injection Hps2 as <-.
    apply H3; [apply assert_in_bounds_Ok; vm_compute; reflexivity
              |vm_compute; reflexivity|reflexivity].
  - vm_compute. reflexivity.
Defined.

Lemma undoes_prev_action_spec s op :
  undoes_prev_action s op = true
  ↔ ∃ shift, get_last_shift_op s = Some shift ∧ reverse op (board s) = shift.
Proof.
  unfold undoes_prev_action, get_last_shift_op.
  destruct (prev_action s) as [|shift|shift];
    rewrite ?bool_decide_eq_true; split; try done.
  - by intros (? & ? & _).
  - intros. by eexists.
  - by intros (? & [= <-] & ?).
  - intros. by eexists.
  - by intros (? & [= <-] & ?).
Qed.

Lemma shift_tiles_slide_Raise s op e :
  kind (prev_action s) ≠ PARTIAL_TURN → undoes_prev_action s op = false →
  assert_valid_shift_and_insert (board s) (insert_location op) (direction op)
  = Raise e →
  shift_tiles s op = Raise e.
Proof.
  intros Hkind Hundo H. unfold shift_tiles, slide_and_insert_tile.
  by rewrite (bool_decide_eq_false_2 _ Hkind), Hundo, H.
Qed.

(** X16. The outcome of [shift_tiles] on a well-formed state, in the order
    the code decides it: [TurnContractViolation] right after a shift;
    [UndoNotAllowedError] when the reverse of the operation is the previous
    shift, even for an operation that could not be carried out;
    [IndexError] for an insert location off the board;
    [ShiftNotAllowedError] for one with an odd column or row; [ValueError]
    for one with even column and row that is not on the edge where tiles
    come in for the direction; and success in every other case: the spare
    tile of a well-formed state is never refused for its gems. *)
Theorem shift_tiles_outcome (s : GameState) (op : ShiftOp) :
  GameState_ok s →
  let b := board s in
  let coord := insert_location op in
  let undo := ∃ shift, get_last_shift_op s = Some shift ∧ reverse op b = shift in
  (kind (prev_action s) = PARTIAL_TURN →
     shift_tiles s op = Raise TurnContractViolation)
  ∧ (kind (prev_action s) ≠ PARTIAL_TURN → undo →
       shift_tiles s op = Raise UndoNotAllowedError)
  ∧ (kind (prev_action s) ≠ PARTIAL_TURN → ¬ undo → ¬ in_bounds b coord →
       shift_tiles s op = Raise IndexError)
  ∧ (kind (prev_action s) ≠ PARTIAL_TURN → ¬ undo → in_bounds b coord →
       col coord mod 2 = 1 ∨ row coord mod 2 = 1 →
       shift_tiles s op = Raise ShiftNotAllowedError)
  ∧ (kind (prev_action s) ≠ PARTIAL_TURN → ¬ undo → in_bounds b coord →
       col coord mod 2 = 0 → row coord mod 2 = 0 →
       coord ≠ far_edge b coord (flip (direction op)) →
       shift_tiles s op = Raise ValueError)
  ∧ (kind (prev_action s) ≠ PARTIAL_TURN → ¬ undo → in_bounds b coord →
       col coord mod 2 = 0 → row coord mod 2 = 0 →
       coord = far_edge b coord (flip (direction op)) →
       ∃ s', shift_tiles s op = Ok s').
Proof.
  intros Hok b coord undo. pose proof Hok as [_ Hbo _ _ _].
  pose proof Hbo as (Hw & Hh & _)%Board_ok_spec.
  assert (Hundo : ¬ undo → undoes_prev_action s op = false).
  { intros H. apply not_true_is_false. by rewrite undoes_prev_action_spec. }
  split; [|split; [|split; [|split; [|split]]]].
  - intros Hkind. unfold shift_tiles. by rewrite bool_decide_eq_true_2.
  - intros Hkind Hu. apply shift_tiles_undo; [done|].
    by apply undoes_prev_action_spec.
  - intros Hkind Hu Hb. apply shift_tiles_slide_Raise; [done|by apply Hundo|].
    rewrite assert_valid_shift_and_insert_cases. by rewrite decide_False.
  - intros Hkind Hu Hb Hodd. apply shift_tiles_slide_Raise; [done|by apply Hundo|].
    rewrite assert_valid_shift_and_insert_cases.
    rewrite decide_True by done. rewrite decide_False by (fold coord; lia). done.
  - intros Hkind Hu Hb Hc Hr Hedge.
    apply shift_tiles_slide_Raise; [done|by apply Hundo|].
    rewrite assert_valid_shift_and_insert_cases.
    rewrite decide_True by done. rewrite decide_True by done.
    rewrite decide_False; [done|].
    intros Hin. apply valid_insert_location_edge in Hin; [|done..]. tauto.
  - intros Hkind Hu Hb Hc Hr Hedge. apply shift_tiles_Ok; try done.
    + by apply Hundo.
    + unfold valid_op. by apply valid_insert_location_edge.
Qed.

Lemma shift_tiles_outcome_witness :
  shift_tiles Examples.referee1 Examples.shift_other = Raise TurnContractViolation
  ∧ shift_tiles Examples.referee2 (mkShiftOp (mkCoord 2 0) LEFT)
    = Raise UndoNotAllowedError
  ∧ shift_tiles Examples.referee0 (mkShiftOp (mkCoord 0 1) RIGHT)
    = Raise ShiftNotAllowedError
  ∧ shift_tiles Examples.referee0 (mkShiftOp (mkCoord 2 2) RIGHT)
    = Raise ValueError.
Proof.
  destruct (shift_tiles_outcome Examples.referee1 Examples.shift_other referee1_ok)
    as (H1 & _).
  destruct (shift_tiles_outcome Examples.referee0 (mkShiftOp (mkCoord 0 1) RIGHT)
              referee0_ok) as (_ & _ & _ & H3 & _).
  destruct (shift_tiles_outcome Examples.referee0 (mkShiftOp (mkCoord 2 2) RIGHT)
              referee0_ok) as (_ & _ & _ & _ & H4 & _).
  split; [|split; [|split]].
  - apply H1. vm_compute. reflexivity.
  - vm_compute. reflexivity.
  - apply H3.
    + vm_compute. intros [=].
    + intros (shift & Hs & _). vm_compute in Hs. discriminate Hs.
    + apply assert_in_bounds_Ok. vm_compute. reflexivity.
    + right. reflexivity.
  - apply H4.
    + vm_compute. intros [=].
    + intros (shift & Hs & _). vm_compute in Hs. discriminate Hs.
    + apply assert_in_bounds_Ok. vm_compute. reflexivity.
    + reflexivity.
    + reflexivity.
    + vm_compute. intros [=].
Defined.

Lemma GameState_ok_built s s' :
  build s' = Ok s' → board s' = board s → spare_tile s' = spare_tile s →
  NoDup (player_colors s') → GameState_ok s → GameState_ok s'.
Proof.
  intros Hb Hbo Hsp Hnd [_ ? ? _ ?]. split; try done; by rewrite ?Hbo, ?Hsp.
Qed.

Lemma eject_player_ok s color s' :
  GameState_ok s → eject_player s color = Ok s' → GameState_ok s'.
Proof.
  intros Hok H. unfold eject_player in H.
  destruct (subclass s); [done|].
  destruct (negb _); [by injection H as <-|].
  apply bind_Ok in H as ([] & _ & H).
  apply bind_Ok in H as (pss & Hpss & H).
  apply bind_Ok in H as (secs & _ & H).
  apply bind_Ok in H as (i & _ & H).
  pose proof H as Hb. apply build_Ok in H as (_ & _ & _ & _ & ->).
  apply (GameState_ok_built s); try done.
  unfold od_pop in Hpss. case_decide; [|done]. injection Hpss as <-.
  unfold player_colors. simpl. rewrite fmap_fst_filter_key.
  apply NoDup_filter. by destruct Hok.
Qed.

Lemma eject_current_player_ok s s' :
  GameState_ok s → eject_current_player s = Ok s' → GameState_ok s'.
Proof.
  intros Hok H. unfold eject_current_player in H.
  destruct (subclass s); [done|].
  apply bind_Ok in H as ([] & _ & H).
  apply bind_Ok in H as (c & _ & H).
  apply bind_Ok in H as (pss & Hpss & H).
  apply bind_Ok in H as (secs & _ & H).
  pose proof H as Hb. apply build_Ok in H as (_ & _ & _ & _ & ->).
  apply (GameState_ok_built s); try done.
  unfold od_pop in Hpss. case_decide; [|done]. injection Hpss as <-.
  unfold player_colors. simpl. rewrite fmap_fst_filter_key.
  apply NoDup_filter. by destruct Hok.
Qed.

Lemma set_current_player_new_goal_ok s goal s' :
  GameState_ok s → set_current_player_new_goal s goal = Ok s' → GameState_ok s'.
Proof.
  intros Hok H. unfold set_current_player_new_goal in H.
  apply bind_Ok in H as (c & _ & H).
  destruct (negb _); [by injection H as <-|].
  apply bind_Ok in H as (at_treasure & _ & H).
  destruct (negb _); [by injection H as <-|].
  apply bind_Ok in H as (ps & _ & H).
  apply bind_Ok in H as (sec & _ & H).
  pose proof H as Hb. apply build_Ok in H as (_ & _ & _ & _ & ->).
  apply (GameState_ok_built s); try done. by destruct Hok.
Qed.

Lemma end_current_turn_ok s s' :
  GameState_ok s → end_current_turn s = Ok s' → GameState_ok s'.
Proof.
  intros Hok H. rewrite end_current_turn_Ok in H by done. injection H as <-.
  apply GameState_ok_set_starting_player_index; [done|].
  destruct Hok as [(_ & _ & Hi & _)%build_Ok _ _ _ _].
  fold (num_players s) in Hi. apply Z.mod_pos_bound. lia.
Qed.

(** X17. Every state that an operation of a well-formed state returns is
    well formed again: its constructor accepts it, its board and tiles are
    those of a board the constructor accepts, and its players have
    distinct colours. This holds for turning the spare tile, shifting,
    moving, ending the turn, ejecting a player and setting a new goal; and
    each of them returns a state of the class it was given. *)
Theorem operations_keep_states_well_formed (s s' : GameState) :
  GameState_ok s →
  ((∃ degrees, rotate_spare_tile s degrees = Ok s')
   ∨ (∃ op, shift_tiles s op = Ok s')
   ∨ (∃ dest, move_current_player s dest = Ok s')
   ∨ end_current_turn s = Ok s'
   ∨ (∃ color, eject_player s color = Ok s')
   ∨ eject_current_player s = Ok s'
   ∨ (∃ goal, set_current_player_new_goal s goal = Ok s')) →
  GameState_ok s' ∧ subclass s' = subclass s.
Proof.
  intros Hok H.
  assert (Hsub : ∀ x, build x = Ok s' → subclass x = subclass s →
            subclass s' = subclass s).
  { intros x (_ & _ & _ & _ & ->)%build_Ok. done. }
  destruct H as [[degrees H]|[[op H]|[[dest H]|[H|[[color H]|[H|[goal H]]]]]]].
  - split; [by eapply rotate_spare_tile_ok|].
    unfold rotate_spare_tile in H.
    apply bind_Ok in H as ([] & _ & H). apply bind_Ok in H as ([] & _ & H).
    apply bind_Ok in H as (t & _ & H). by apply (Hsub _ H).
  - split; [by eapply shift_tiles_ok|].
    by apply shift_tiles_inv in H as (_ & _ & ? & ? & ? & _ & ->).
  - split; [by eapply move_current_player_ok|].
    by apply move_current_player_inv
      in H as (? & ? & ? & ? & _ & _ & _ & _ & _ & _ & ->).
  - split; [by eapply end_current_turn_ok|].
    rewrite end_current_turn_Ok in H by done. by injection H as <-.
  - split; [by eapply eject_player_ok|].
    unfold eject_player in H. destruct (subclass s) eqn:E; [done|].
    destruct (negb _); [by injection H as <-|].
    apply bind_Ok in H as ([] & _ & H). apply bind_Ok in H as (? & _ & H).
    apply bind_Ok in H as (? & _ & H). apply bind_Ok in H as (? & _ & H).
    apply build_Ok in H as (_ & _ & _ & _ & ->). done.
  - split; [by eapply eject_current_player_ok|].
    unfold eject_current_player in H. destruct (subclass s) eqn:E; [done|].
    apply bind_Ok in H as ([] & _ & H). apply bind_Ok in H as (? & _ & H).
    apply bind_Ok in H as (? & _ & H). apply bind_Ok in H as (? & _ & H).
    apply build_Ok in H as (_ & _ & _ & _ & ->). done.
  - split; [by eapply set_current_player_new_goal_ok|].
    unfold set_current_player_new_goal in H.
    apply bind_Ok in H as (c & _ & H).
    destruct (negb _); [by injection H as <-|].
    apply bind_Ok in H as (? & _ & H).
    destruct (negb _); [by injection H as <-|].
    apply bind_Ok in H as (? & _ & H). apply bind_Ok in H as (? & _ & H).
    apply build_Ok in H as (_ & _ & _ & _ & ->). done.
Qed.

Lemma operations_keep_states_well_formed_witness :
  GameState_ok Examples.referee4
  ∧ subclass Examples.referee4 = subclass Examples.referee3.
Proof.
  apply (operations_keep_states_well_formed Examples.referee3 Examples.referee4).
  - state_ok_by_evaluation.
  - right. right. left. exists (mkCoord 1 2). vm_compute. reflexivity.
Defined.

(** X18. The secret of the current player in a well-formed state. The
    referee's state always has it: [can_get_current_player_secret] is
    true and neither [get_current_player_secret] nor
    [is_current_player_at_treasure] raises. A player's state has it exactly
    when the current player is the owner of the state; for any other
    current player [can_get_current_player_secret] is false and both
    [get_current_player_secret] and [is_current_player_at_treasure] raise
    [SecretAccessError]. *)
Theorem current_player_secret_access (s : GameState) :
  GameState_ok s →
  ∃ c ps,
    current_player_color s = Ok c ∧ (c, ps) ∈ player_states s
    ∧ current_player_name s = Ok (name ps)
    ∧ ((subclass s = RefereeGameState ∨ player_color s = Some c) →
       ∃ sec, player_secrets s !! c = Some sec
         ∧ can_get_current_player_secret s = Ok true
         ∧ get_current_player_secret s = Ok sec
         ∧ is_current_player_at_treasure s
           = Ok (bool_decide (location ps = treasure_location sec)))
    ∧ (subclass s = RestrictedGameState → player_color s ≠ Some c →
       can_get_current_player_secret s = Ok false
       ∧ get_current_player_secret s = Raise SecretAccessError
       ∧ is_current_player_at_treasure s = Raise SecretAccessError).
Proof.
  intros [Hb _ _ _ _].
  destruct (current_player_Ok s Hb) as (c & ps & Hc & Hidx & Hget & Hps).
  pose proof (current_player_elem _ _ _ Hc Hps) as Hin.
  exists c, ps. split; [done|]. split; [done|]. split.
  { unfold current_player_name. by rewrite Hps. }
  unfold can_get_current_player_secret, is_current_player_at_treasure,
    get_current_player_treasure_location, get_current_player_secret,
    get_player_secret, can_get_player_secret.
  rewrite Hc, Hps. simpl. split.
  - intros Hcase.
    assert (Hsec : ∃ sec, player_secrets s !! c = Some sec
                          ∧ (subclass s = RestrictedGameState →
                             player_color s = Some c)).
    { destruct (subclass s) eqn:Hsub.
      - destruct Hcase as [|Hown]; [done|].
        destruct (restricted_owner s Hb Hsub) as (o & sec & Hsecs & Ho & _).
        rewrite Ho in Hown. injection Hown as ->.
        exists sec. split; [|done]. rewrite Hsecs. apply lookup_singleton_eq.
      - destruct (referee_secret s c Hb Hsub) as [sec Hsec];
          [by eapply list_elem_of_lookup_2|].
        by exists sec. }
    destruct Hsec as (sec & Hsec & Hown). exists sec. split; [done|].
    unfold getitem. rewrite Hsec.
    destruct (subclass s); simpl.
    + rewrite bool_decide_eq_true_2 by by rewrite Hown. done.
    + rewrite bool_decide_eq_true_2; [done|]. apply elem_of_dom. by eexists.
  - intros -> Hne. rewrite bool_decide_eq_false_2 by congruence. done.
Qed.

Lemma current_player_secret_access_witness :
  get_current_player_secret Examples.restricted0
  = Ok (mkPlayerSecret (mkCoord 0 1) false 0)
  ∧ get_current_player_secret (set_starting_player_index 1 Examples.restricted0)
    = Raise SecretAccessError.
Proof.
  split; [vm_compute; reflexivity|].
  destruct (current_player_secret_access
              (set_starting_player_index 1 Examples.restricted0))
    as (c & ps & Hc & _ & _ & _ & H).
  - state_ok_by_evaluation.
  - vm_compute in Hc. injection Hc as <-.
    apply H; [reflexivity|]. vm_compute. intros [=].
Defined.

(** ** Strategies *)

(** *** Sorting *)

Lemma key_ltb_spec a b : key_ltb a b = true ↔ key_lt a b.
Proof.
  unfold key_ltb, key_lt.
  rewrite !orb_true_iff, !andb_true_iff, !orb_true_iff, !andb_true_iff,
    !bool_decide_eq_true. done.
Qed.

Lemma key_ltb_false a b : key_ltb a b = false ↔ ¬ key_lt a b.
Proof. rewrite <- key_ltb_spec. by destruct (key_ltb a b). Qed.

Lemma key_lt_trans a b c : key_lt a b → key_lt b c → key_lt a c.
Proof. unfold key_lt. lia. Qed.

Lemma key_lt_irrefl a : ¬ key_lt a a.
Proof. unfold key_lt. lia. Qed.

Lemma key_lt_total a b : key_lt a b ∨ a = b ∨ key_lt b a.
Proof.
  destruct a as [[a1 a2] a3], b as [[b1 b2] b3]. unfold key_lt. simpl.
  destruct (decide (a1 = b1)) as [->|]; [|lia].
  destruct (decide (a2 = b2)) as [->|]; [|lia].
  destruct (decide (a3 = b3)) as [->|]; [|lia].
  right. by left.
Qed.

Lemma ascending_cons {A} (key : A → Z * Z * Z) x l :
  ascending key (x :: l)
  ↔ (∀ y, y ∈ l → ¬ key_lt (key y) (key x)) ∧ ascending key l.
Proof.
  unfold ascending. split.
  - intros H. split.
    + intros y [j Hj]%list_elem_of_lookup. apply (H 0%nat (S j)); [lia|done..].
    + intros i j a b Hij Hi Hj. apply (H (S i) (S j)); [lia|done..].
  - intros [Hx Hl] i j a b Hij Hi Hj. destruct i as [|i], j as [|j]; try lia.
    + injection Hi as <-. apply Hx. by eapply list_elem_of_lookup_2.
    + simpl in *. apply (Hl i j); [lia|done..].
Qed.

Lemma insert_by_key_perm {A} (key : A → Z * Z * Z) x l :
  insert_by_key key x l ≡ₚ x :: l.
Proof.
  induction l as [|y l IH]; simpl; [done|].
  destruct (key_ltb _ _); [done|]. rewrite IH. apply Permutation_swap.
Qed.

Lemma insert_by_key_ascending {A} (key : A → Z * Z * Z) x l :
  ascending key l → ascending key (insert_by_key key x l).
Proof.
  induction l as [|y l IH]; simpl; intros Hl.
  - apply ascending_cons. split; [by intros ? ?%elem_of_nil|].
    by intros [] ? ? ?.
  - apply ascending_cons in Hl as [Hy Hl].
    destruct (key_ltb (key x) (key y)) eqn:E.
    + apply key_ltb_spec in E.
      apply ascending_cons. split; [|by apply ascending_cons].
      intros z [->|Hz]%elem_of_cons.
      * intros E'. by eapply key_lt_irrefl, key_lt_trans.
      * intros E'. apply (Hy z Hz). by eapply key_lt_trans.
    + apply key_ltb_false in E.
      apply ascending_cons. split; [|by apply IH].
      intros z Hz. rewrite insert_by_key_perm in Hz.
      apply elem_of_cons in Hz as [->|Hz]; [done|by apply Hy].
Qed.

Lemma sorted_spec {A} (key : A → Z * Z * Z) (l : list A) :
  sorted key l ≡ₚ l ∧ ascending key (sorted key l).
Proof.
  unfold sorted.
  assert (H : ∀ acc, ascending key acc →
            foldl (λ acc x, insert_by_key key x acc) acc l ≡ₚ acc ++ l
            ∧ ascending key (foldl (λ acc x, insert_by_key key x acc) acc l)).
  { induction l as [|x l IH]; intros acc Hacc; simpl.
    - by rewrite app_nil_r.
    - destruct (IH (insert_by_key key x acc)) as [Hp Hs].
      { by apply insert_by_key_ascending. }
      split; [|done]. rewrite Hp, insert_by_key_perm.
      by rewrite <- Permutation_middle. }
  destruct (H []) as [Hp Hs]; [by intros [] ? ? ?|]. done.
Qed.

(** When no two elements have the same key, the order is strict. *)
Lemma sorted_strict {A} (key : A → Z * Z * Z) (l : list A) :
  NoDup l → (∀ x y, x ∈ l → y ∈ l → key x = key y → x = y) →
  NoDup (sorted key l)
  ∧ ∀ (i j : nat) x y, (i < j)%nat →
      sorted key l !! i = Some x → sorted key l !! j = Some y →
      key_lt (key x) (key y).
Proof.
  intros Hnd Hinj. destruct (sorted_spec key l) as [Hp Hs].
  assert (Hnd' : NoDup (sorted key l)) by by rewrite Hp.
  split; [done|]. intros i j x y Hij Hi Hj.
  destruct (key_lt_total (key x) (key y)) as [?|[E|?]]; [done| |].
  - apply Hinj in E; [|rewrite <- Hp; by eapply list_elem_of_lookup_2..].
    subst y. pose proof (NoDup_lookup _ _ _ _ Hnd' Hi Hj). lia.
  - by destruct (Hs i j x y).
Qed.

(** *** The orders of exploration *)

Lemma order_shift_by_row_first_inj b op1 op2 :
  valid_op b op1 → valid_op b op2 →
  order_shift_by_row_first op1 = order_shift_by_row_first op2 → op1 = op2.
Proof.
  unfold valid_op. rewrite !elem_of_get_valid_insert_locations.
  destruct op1 as [[x1 y1] d1], op2 as [[x2 y2] d2].
  unfold order_shift_by_row_first. simpl.
  destruct d1, d2; simpl; intros (-> & _) (-> & _) [= ]; subst; done.
Qed.

(** X19. The order in which both strategies explore the shifts:
    [shift_exploration_order] lists each legal shift operation of the state
    once, and no other operation, in strictly ascending order of the key
    [order_shift_by_row_first]; so the shifts of rows come before the
    shifts of columns. The order does not depend on the order in which the
    set of legal operations is iterated, no two legal operations having
    the same key. *)
Theorem shift_exploration_order_sorted (s : GameState) :
  ∃ l, sorted_legal_shift_ops s = Ok l
    ∧ NoDup l
    ∧ (∀ op, op ∈ l ↔ op ∈ get_legal_shift_ops s)
    ∧ (∀ (i j : nat) op1 op2, (i < j)%nat →
         l !! i = Some op1 → l !! j = Some op2 →
         key_lt (order_shift_by_row_first op1) (order_shift_by_row_first op2)
         ∧ (is_horizontal (direction op2) = true →
            is_horizontal (direction op1) = true))
    ∧ (∀ l', l' ≡ₚ elements (get_legal_shift_ops s) →
         sorted order_shift_by_row_first l' = l).
Proof.
  eexists. split; [done|].
  set (ops := elements (get_legal_shift_ops s)).
  assert (Hinj : ∀ l', l' ≡ₚ ops → ∀ x y, x ∈ l' → y ∈ l' →
            order_shift_by_row_first x = order_shift_by_row_first y → x = y).
  { intros l' Hl' x y Hx Hy. rewrite Hl' in Hx, Hy. subst ops.
    apply elem_of_elements, elem_of_get_legal_shift_ops in Hx as (_ & Hx & _).
    apply elem_of_elements, elem_of_get_legal_shift_ops in Hy as (_ & Hy & _).
    by apply (order_shift_by_row_first_inj (board s)). }
  assert (Hstrict : ∀ l', l' ≡ₚ ops →
            NoDup (sorted order_shift_by_row_first l')
            ∧ ∀ (i j : nat) x y, (i < j)%nat →
                sorted order_shift_by_row_first l' !! i = Some x →
                sorted order_shift_by_row_first l' !! j = Some y →
                key_lt (order_shift_by_row_first x) (order_shift_by_row_first y)).
  { intros l' Hl'. apply sorted_strict; [|by apply Hinj].
    rewrite Hl'. apply NoDup_elements. }
  destruct (Hstrict ops) as [Hnd Hlt]; [done|].
  destruct (sorted_spec order_shift_by_row_first ops) as [Hp _].
  split; [done|]. split; [|split].
  - intros op. rewrite Hp. apply elem_of_elements.
  - intros i j op1 op2 Hij H1 H2. pose proof (Hlt i j op1 op2 Hij H1 H2) as Hk.
    split; [done|]. unfold key_lt, order_shift_by_row_first in Hk. simpl in Hk.
    destruct (is_horizontal (direction op1)),
      (is_horizontal (direction op2)); try done. lia.
  - (* two strictly ascending lists of the same elements are equal *)
    intros l' Hl'. destruct (Hstrict l' Hl') as [Hnd' Hlt'].
    destruct (sorted_spec order_shift_by_row_first l') as [Hp' _].
    assert (Hperm : sorted order_shift_by_row_first l'
                    ≡ₚ sorted order_shift_by_row_first ops).
    { by rewrite Hp', Hp. }
    revert Hperm Hlt Hlt'. generalize (sorted order_shift_by_row_first ops).
    generalize (sorted order_shift_by_row_first l'). clear.
    induction l as [|x l IH]; intros l2 Hperm Hlt2 Hlt1.
    { by apply Permutation_nil_l in Hperm as ->. }
    destruct l2 as [|y l2]; [by apply Permutation_nil_r in Hperm|].
    assert (x = y) as <-.
    { destruct (decide (x = y)) as [|Hne]; [done|].
      assert (Hx : x ∈ l2).
      { assert (x ∈ y :: l2) as [->|?]%elem_of_cons by (rewrite <- Hperm; left);
          done. }
      assert (Hy : y ∈ l).
      { assert (y ∈ x :: l) as [->|?]%elem_of_cons by (rewrite Hperm; left);
          done. }
      apply list_elem_of_lookup in Hx as [i Hi], Hy as [j Hj].
      pose proof (Hlt2 0%nat (S i) y x ltac:(lia) eq_refl Hi).
      pose proof (Hlt1 0%nat (S j) x y ltac:(lia) eq_refl Hj).
      by destruct (key_lt_irrefl (order_shift_by_row_first x));
        eapply key_lt_trans. }
    f_equal. apply IH.
    + by apply Permutation_cons_inv in Hperm.
    + intros i j a b Hij Hi Hj. apply (Hlt2 (S i) (S j)); [lia|done..].
    + intros i j a b Hij Hi Hj. apply (Hlt1 (S i) (S j)); [lia|done..].
Qed.

Lemma shift_exploration_order_sorted_witness :
  sorted_legal_shift_ops Examples.referee0
  = Ok [ mkShiftOp (mkCoord 2 0) LEFT; mkShiftOp (mkCoord 0 0) RIGHT;
         mkShiftOp (mkCoord 2 2) LEFT; mkShiftOp (mkCoord 0 2) RIGHT;
         mkShiftOp (mkCoord 0 2) UP; mkShiftOp (mkCoord 0 0) DOWN;
         mkShiftOp (mkCoord 2 2) UP; mkShiftOp (mkCoord 2 0) DOWN ].
Proof.
  destruct (shift_exploration_order_sorted Examples.referee0)
    as (l & Hl & _ & _ & _ & Hany).
  rewrite Hl. f_equal. symmetry.
  rewrite <- (Hany (elements (get_legal_shift_ops Examples.referee0))); [|done].
  vm_compute. reflexivity.
Defined.

Lemma strategy_goal_location_Ok s :
  GameState_ok s →
  ∃ c ps,
    current_player_color s = Ok c ∧ (c, ps) ∈ player_states s
    ∧ ((subclass s = RefereeGameState ∨ player_color s = Some c) →
       ∃ sec, player_secrets s !! c = Some sec
         ∧ strategy_goal_location s = Ok (active_goal (ps, sec))
         ∧ in_bounds (board s) (active_goal (ps, sec)))
    ∧ (subclass s = RestrictedGameState → player_color s ≠ Some c →
       strategy_goal_location s = Raise SecretAccessError).
Proof.
  intros [Hb _ _ _ _].
  destruct (current_player_Ok s Hb) as (c & ps & Hc & Hidx & Hget & Hps).
  assert (Hin : (c, ps) ∈ player_states s) by by apply od_getitem_elem.
  exists c, ps. split; [done|]. split; [done|].
  unfold strategy_goal_location, get_current_player_treasure_location,
    get_current_player_secret, get_player_secret, can_get_player_secret.
  rewrite Hc, Hps. simpl. split.
  - intros Hcase.
    assert (Hsec : ∃ sec, player_secrets s !! c = Some sec
                          ∧ (subclass s = RestrictedGameState →
                             player_color s = Some c)).
    { destruct (subclass s) eqn:Hsub.
      - destruct Hcase as [|Hown]; [done|].
        destruct (restricted_owner s Hb Hsub) as (o & sec & Hsecs & Ho & _).
        rewrite Ho in Hown. injection Hown as ->.
        exists sec. split; [|done]. rewrite Hsecs. apply lookup_singleton_eq.
      - destruct (referee_secret s c Hb Hsub) as [sec Hsec];
          [by eapply list_elem_of_lookup_2|].
        by exists sec. }
    destruct Hsec as (sec & Hsec & Hown). exists sec. split; [done|].
    assert (Hbounds : in_bounds (board s) (active_goal (ps, sec))).
    { unfold active_goal. simpl.
      pose proof Hb as (_ & Hp & _ & Hsub & _)%build_Ok.
      destruct (is_going_home sec).
      - apply validate_player_states_Ok in Hp as [_ Hall].
        by destruct (Hall _ _ Hin) as (_ & ? & _).
      - apply assert_in_bounds_Ok.
        destruct (subclass s).
        + apply subclass_init_restricted in Hsub as (o & v & Hsecs & Hv & _).
          rewrite Hsecs in Hsec.
          apply lookup_singleton_Some in Hsec as [_ <-]. done.
        + apply subclass_init_referee in Hsub as [_ Hv].
          rewrite validate_player_secrets_Ok in Hv. by eapply Hv. }
    split; [|done]. unfold getitem, active_goal. rewrite Hsec. simpl.
    destruct (subclass s); simpl.
    + rewrite bool_decide_eq_true_2 by by rewrite Hown. simpl.
      by destruct (is_going_home sec).
    + by destruct (is_going_home sec).
  - intros -> Hne. by rewrite bool_decide_eq_false_2 by congruence.
Qed.

Lemma elem_of_non_goal_coords s goal c :
  c ∈ non_goal_coords s goal ↔ in_bounds (board s) c ∧ c ≠ goal.
Proof.
  unfold non_goal_coords, in_bounds.
  rewrite list_elem_of_filter, list_elem_of_bind. split.
  - intros [Hne (y & (x & -> & Hx%elem_of_seqZ)%list_elem_of_fmap
                  & Hy%elem_of_seqZ)]. simpl. split; [lia|done].
  - intros [[Hc Hr] Hne]. split; [done|]. exists (row c). split.
    + apply list_elem_of_fmap. exists (col c). split; [by destruct c|].
      apply elem_of_seqZ. lia.
    + apply elem_of_seqZ. lia.
Qed.

Lemma NoDup_non_goal_coords s goal : NoDup (non_goal_coords s goal).
Proof.
  unfold non_goal_coords. apply NoDup_filter, NoDup_bind.
  - intros y1 y2 c _ _ (x1 & -> & _)%list_elem_of_fmap
      (x2 & [= ? ?] & _)%list_elem_of_fmap. done.
  - intros y _. apply NoDup_fmap_2; [by intros x1 x2 [=]|]. apply NoDup_seqZ.
  - apply NoDup_seqZ.
Qed.

(** The product of the rows and the columns is in row-major order. *)
Lemma ascending_row_major s goal :
  ∀ (i j : nat) c1 c2, (i < j)%nat →
    non_goal_coords s goal !! i = Some c1 →
    non_goal_coords s goal !! j = Some c2 →
    row c1 < row c2 ∨ (row c1 = row c2 ∧ col c1 < col c2).
Proof.
  unfold non_goal_coords.
  assert (Hsub : ∀ (l : list Coord) (P : Coord → Prop) `{∀ x, Decision (P x)}
                   (R : Coord → Coord → Prop),
            (∀ (i j : nat) a b, (i < j)%nat → l !! i = Some a → l !! j = Some b →
               R a b) →
            ∀ (i j : nat) a b, (i < j)%nat → filter P l !! i = Some a →
              filter P l !! j = Some b → R a b).
  { intros l P ? R. induction l as [|x l IH]; intros Hl i j a b Hij Hi Hj;
      [done|].
    rewrite filter_cons in Hi, Hj. destruct (decide (P x)).
    - destruct i as [|i], j as [|j]; try lia; simpl in *.
      + injection Hi as <-.
        apply list_elem_of_lookup_2, list_elem_of_filter in Hj as [_ Hb].
        apply list_elem_of_lookup in Hb as [k Hk].
        apply (Hl 0%nat (S k)); [lia|done..].
      + apply (IH (λ i j a b Hij Hi Hj, Hl (S i) (S j) a b ltac:(lia) Hi Hj)
                 i j); [lia|done..].
    - apply (IH (λ i j a b Hij Hi Hj, Hl (S i) (S j) a b ltac:(lia) Hi Hj)
               i j); done. }
  apply Hsub. clear Hsub.
  set (w := width (board s)). generalize (height (board s)). intros h i j a b Hij.
  (* position [i] of the product is the cell [(i mod w, i / w)] *)
  assert (Hlook : ∀ (rows : list Z) (i : nat) c,
            (rows ≫= λ row, (λ col, mkCoord col row) <$> seqZ 0 w) !! i = Some c →
            ∃ (r k : nat) y, rows !! r = Some y ∧ row c = y
              ∧ col c = Z.of_nat k ∧ Z.of_nat k < w
              ∧ i = (r * Z.to_nat w + k)%nat).
  { induction rows as [|y rows IH]; intros i' c Hc; [done|].
    rewrite bind_cons in Hc.
    destruct (decide (i' < length ((λ col, mkCoord col y) <$> seqZ 0 w))%nat)
      as [Hlt|Hge].
    - rewrite lookup_app_l in Hc by done.
      apply list_lookup_fmap_Some in Hc as (x & -> & Hx%lookup_seqZ).
      exists 0%nat, i', y. simpl. split_and!; try done; lia.
    - rewrite lookup_app_r in Hc by lia.
      apply IH in Hc as (r & k & y' & Hr & Hrow & Hcol & Hk & Hi).
      rewrite length_fmap, length_seqZ in Hi, Hge.
      exists (S r), k, y'. split_and!; try done. lia. }
  intros Hi Hj.
  apply Hlook in Hi as (r1 & k1 & y1 & Hr1 & Hrow1 & Hcol1 & Hk1 & ->).
  apply Hlook in Hj as (r2 & k2 & y2 & Hr2 & Hrow2 & Hcol2 & Hk2 & ->).
  apply lookup_seqZ in Hr1, Hr2.
  assert (r1 < r2 ∨ (r1 = r2 ∧ k1 < k2))%nat by nia. lia.
Qed.

(** X20. The order in which [RiemannStrategy] explores destinations, on a
    well-formed state whose owner may see the secret of the current player
    (the referee, or the current player itself): first the goal (the home
    of a player that is going home, else its treasure), which is on the
    board, then every other cell of the board in row-major order; each cell
    of the board is listed exactly once. In a player's state that is not
    the current player's the method raises [SecretAccessError]. *)
Theorem riemann_movement_exploration_order_spec (s : GameState) :
  GameState_ok s →
  ∃ c ps,
    current_player_color s = Ok c ∧ (c, ps) ∈ player_states s
    ∧ ((subclass s = RefereeGameState ∨ player_color s = Some c) →
       ∃ sec rest,
         player_secrets s !! c = Some sec
         ∧ riemann_movement_exploration_order s
           = Ok (active_goal (ps, sec) :: rest)
         ∧ NoDup (active_goal (ps, sec) :: rest)
         ∧ (∀ x, x ∈ active_goal (ps, sec) :: rest ↔ in_bounds (board s) x)
         ∧ ∀ (i j : nat) c1 c2, (i < j)%nat →
             rest !! i = Some c1 → rest !! j = Some c2 →
             row c1 < row c2 ∨ (row c1 = row c2 ∧ col c1 < col c2))
    ∧ (subclass s = RestrictedGameState → player_color s ≠ Some c →
       riemann_movement_exploration_order s = Raise SecretAccessError).
Proof.
  intros Hok.
  destruct (strategy_goal_location_Ok s Hok) as (c & ps & Hc & Hin & Hsee & Hnot).
  exists c, ps. split; [done|]. split; [done|].
  unfold riemann_movement_exploration_order. split.
  - intros Hcase. destruct (Hsee Hcase) as (sec & Hsec & -> & Hgoal).
    exists sec, (non_goal_coords s (active_goal (ps, sec))).
    split; [done|]. split; [done|]. split; [|split].
    + apply NoDup_cons. split; [|apply NoDup_non_goal_coords].
      rewrite elem_of_non_goal_coords. tauto.
    + intros x. rewrite elem_of_cons, elem_of_non_goal_coords.
      destruct (decide (x = active_goal (ps, sec))) as [->|]; tauto.
    + apply ascending_row_major.
  - intros Hsub Hne. by rewrite (Hnot Hsub Hne).
Qed.

Lemma riemann_movement_exploration_order_spec_witness :
  riemann_movement_exploration_order Examples.referee0
  = Ok [ mkCoord 0 1; mkCoord 0 0; mkCoord 1 0; mkCoord 2 0; mkCoord 1 1;
         mkCoord 2 1; mkCoord 0 2; mkCoord 1 2; mkCoord 2 2 ]
  ∧ riemann_movement_exploration_order
      (set_starting_player_index 1 Examples.restricted0)
    = Raise SecretAccessError.
Proof.
  split; [vm_compute; reflexivity|].
  destruct (riemann_movement_exploration_order_spec
              (set_starting_player_index 1 Examples.restricted0))
    as (c & ps & Hc & _ & _ & H).
  - state_ok_by_evaluation.
  - vm_compute in Hc. injection Hc as <-.
    apply H; [reflexivity|]. vm_compute. intros [=].
Defined.

(** X21. The order in which [EuclidStrategy] explores destinations, on a
    well-formed state whose owner may see the secret of the current
    player: first the goal, then every other cell of the board in strictly
    ascending order of the key (squared distance to the goal, row,
    column), so that no cell comes before a cell nearer to the goal; each
    cell of the board is listed exactly once. In a player's state that is
    not the current player's the method raises [SecretAccessError]. *)
Theorem euclid_movement_exploration_order_spec (s : GameState) :
  GameState_ok s →
  ∃ c ps,
    current_player_color s = Ok c ∧ (c, ps) ∈ player_states s
    ∧ ((subclass s = RefereeGameState ∨ player_color s = Some c) →
       ∃ sec rest,
         player_secrets s !! c = Some sec
         ∧ euclid_movement_exploration_order s
           = Ok (active_goal (ps, sec) :: rest)
         ∧ NoDup (active_goal (ps, sec) :: rest)
         ∧ (∀ x, x ∈ active_goal (ps, sec) :: rest ↔ in_bounds (board s) x)
         ∧ ∀ (i j : nat) c1 c2, (i < j)%nat →
             rest !! i = Some c1 → rest !! j = Some c2 →
             let d1 := squared_euclidean_distance (active_goal (ps, sec)) c1 in
             let d2 := squared_euclidean_distance (active_goal (ps, sec)) c2 in
             d1 < d2
             ∨ (d1 = d2
                ∧ (row c1 < row c2 ∨ (row c1 = row c2 ∧ col c1 < col c2))))
    ∧ (subclass s = RestrictedGameState → player_color s ≠ Some c →
       euclid_movement_exploration_order s = Raise SecretAccessError).
Proof.
  intros Hok.
  destruct (strategy_goal_location_Ok s Hok) as (c & ps & Hc & Hin & Hsee & Hnot).
  exists c, ps. split; [done|]. split; [done|].
  unfold euclid_movement_exploration_order. split.
  - intros Hcase. destruct (Hsee Hcase) as (sec & Hsec & -> & Hgoal).
    set (goal := active_goal (ps, sec)) in *.
    set (key := λ coord : Coord,
           (squared_euclidean_distance goal coord,
            (order_coords_by_row_column coord).1,
            (order_coords_by_row_column coord).2)).
    destruct (sorted_spec key (non_goal_coords s goal)) as [Hp _].
    destruct (sorted_strict key (non_goal_coords s goal)) as [Hnd Hlt].
    { apply NoDup_non_goal_coords. }
    { intros [x1 y1] [x2 y2] _ _ [= _ -> ->]. done. }
    exists sec, (sorted key (non_goal_coords s goal)).
    split; [done|]. split; [done|]. split; [|split].
    + apply NoDup_cons. split; [|done].
      rewrite Hp, elem_of_non_goal_coords. tauto.
    + intros x. rewrite elem_of_cons, Hp, elem_of_non_goal_coords.
      destruct (decide (x = goal)) as [->|]; tauto.
    + intros i j c1 c2 Hij H1 H2. apply (Hlt i j c1 c2 Hij H1 H2).
  - intros Hsub Hne. by rewrite (Hnot Hsub Hne).
Qed.

Lemma euclid_movement_exploration_order_spec_witness :
  euclid_movement_exploration_order Examples.referee0
  = Ok [ mkCoord 0 1; mkCoord 0 0; mkCoord 1 1; mkCoord 0 2; mkCoord 1 0;
         mkCoord 1 2; mkCoord 2 1; mkCoord 2 0; mkCoord 2 2 ]
  ∧ euclid_movement_exploration_order
      (set_starting_player_index 1 Examples.restricted0)
    = Raise SecretAccessError.
Proof.
  split; [vm_compute; reflexivity|].
  destruct (euclid_movement_exploration_order_spec
              (set_starting_player_index 1 Examples.restricted0))
    as (c & ps & Hc & _ & _ & H).
  - state_ok_by_evaluation.
  - vm_compute in Hc. injection Hc as <-.
    apply H; [reflexivity|]. vm_compute. intros [=].
Defined.

(** *** The search of [get_action] *)

Lemma find_app {A} (f : A → bool) (l1 l2 : list A) :
  List.find f (l1 ++ l2)
  = match List.find f l1 with Some x => Some x | None => List.find f l2 end.
Proof. induction l1 as [|x l1 IH]; simpl; [done|]. by destruct (f x). Qed.

Lemma result_bind_Ok {A B} (a : A) (f : A → result B) : Ok a ≫= f = f a.
Proof. done. Qed.

Section first_viable.
Context `{FirstViableMoveStrategy}.
Context (state : GameState) (rotations : list Z).
Context (rotations_ok : rotation_exploration_order state = Ok rotations).

Lemma get_action_rotations_spec dest shift rots cache :
  cache_ok state cache →
  (∀ degrees, degrees ∈ rots →
     ∃ r, destinations_after state shift degrees = Ok r) →
  ∃ cache',
    get_action_rotations state dest shift rots cache
    = Ok (match List.find (viable state) ((λ degrees, (dest, shift, degrees)) <$> rots) with
          | Some (dest, shift, degrees) => Some (TurnWithMove degrees shift dest)
          | None => None
          end, cache')
    ∧ cache_ok state cache'.
Proof.
  revert cache. induction rots as [|degrees rots IH]; intros cache Hcache Hall.
  { by exists cache. }
  destruct (Hall degrees) as [r Hr]; [left|].
  assert (Hrest : ∀ d, d ∈ rots → ∃ r, destinations_after state shift d = Ok r).
  { intros d Hd. apply Hall. by right. }
  cbn [get_action_rotations fmap list_fmap List.find].
  unfold viable at 1. cbn [fst snd]. rewrite Hr.
  destruct (cache !! (shift, degrees)) as [r'|] eqn:Hlook.
  - pose proof (Hcache _ _ _ Hlook) as Hr'. rewrite Hr in Hr'.
    injection Hr' as <-. simpl.
    destruct (decide (dest ∈ r)) as [Hd|Hd].
    + rewrite bool_decide_eq_true_2 by done. by exists cache.
    + rewrite bool_decide_eq_false_2 by done. by apply IH.
  - simpl.
    assert (Hcache' : cache_ok state (<[(shift, degrees) := r]> cache)).
    { intros sh dg r' [[[= <- <-] <-]|[_ Hl]]%lookup_insert_Some; [done|].
      by eapply Hcache. }
    destruct (decide (dest ∈ r)) as [Hd|Hd].
    + rewrite bool_decide_eq_true_2 by done. by eexists.
    + rewrite bool_decide_eq_false_2 by done. by apply IH.
Qed.

Lemma get_action_shifts_spec dest shifts cache :
  cache_ok state cache →
  (∀ shift degrees, shift ∈ shifts → degrees ∈ rotations →
     ∃ r, destinations_after state shift degrees = Ok r) →
  ∃ cache',
    get_action_shifts state dest shifts cache
    = Ok (match List.find (viable state)
                  (shift ← shifts; degrees ← rotations; [(dest, shift, degrees)]) with
          | Some (dest, shift, degrees) => Some (TurnWithMove degrees shift dest)
          | None => None
          end, cache')
    ∧ cache_ok state cache'.
Proof.
  revert cache. induction shifts as [|shift shifts IH]; intros cache Hcache Hall.
  { by exists cache. }
  cbn [get_action_shifts]. rewrite rotations_ok, result_bind_Ok.
  destruct (get_action_rotations_spec dest shift rotations cache Hcache)
    as (cache' & -> & Hcache').
  { intros d Hd. apply Hall; [left|done]. }
  rewrite result_bind_Ok. cbn beta iota. rewrite bind_cons, find_app.
  assert (E : (rotations ≫= λ degrees, [(dest, shift, degrees)])
              = (λ degrees, (dest, shift, degrees)) <$> rotations).
  { clear. induction rotations as [|d l IHl]; [done|].
    by rewrite bind_cons, fmap_cons, IHl. }
  rewrite E.
  destruct (List.find _ (_ <$> rotations)) as [[[d sh] dg]|].
  - by exists cache'.
  - apply IH; [done|]. intros sh dg Hsh Hdg. apply Hall; [by right|done].
Qed.

Lemma get_action_dests_spec shifts dests cache :
  shift_exploration_order state = Ok shifts →
  cache_ok state cache →
  (∀ shift degrees, shift ∈ shifts → degrees ∈ rotations →
     ∃ r, destinations_after state shift degrees = Ok r) →
  ∃ cache',
    get_action_dests state dests cache
    = Ok (match List.find (viable state) (candidates dests shifts rotations) with
          | Some (dest, shift, degrees) => Some (TurnWithMove degrees shift dest)
          | None => None
          end, cache')
    ∧ cache_ok state cache'.
Proof.
  intros Hshifts. revert cache.
  induction dests as [|dest dests IH]; intros cache Hcache Hall.
  { by exists cache. }
  cbn [get_action_dests]. rewrite Hshifts, result_bind_Ok.
  destruct (get_action_shifts_spec dest shifts cache Hcache Hall)
    as (cache' & -> & Hcache').
  rewrite result_bind_Ok. cbn beta iota. unfold candidates.
  rewrite bind_cons, find_app.
  destruct (List.find _ (shifts ≫= _)) as [[[d sh] dg]|].
  - by exists cache'.
  - by apply IH.
Qed.
End first_viable.

(** X22. The cache of [FirstViableMoveStrategy.get_action] does not
    change what it returns. For any strategy of the class, when the three
    orders of exploration are returned and the destinations after each
    explored rotation and shift can be computed, [get_action] returns the
    first candidate, in the order destination, then shift, then rotation,
    whose destination is among the legal destinations after its rotation
    and shift, and [TurnPass] when there is none. *)
Theorem get_action_first_viable `{FirstViableMoveStrategy} (state : GameState)
    (dests : list Coord) (shifts : list ShiftOp) (rotations : list Z) :
  movement_exploration_order state = Ok dests →
  shift_exploration_order state = Ok shifts →
  rotation_exploration_order state = Ok rotations →
  (∀ shift degrees, shift ∈ shifts → degrees ∈ rotations →
     ∃ r, destinations_after state shift degrees = Ok r) →
  get_action state = Ok (first_viable state dests shifts rotations).
Proof.
  intros Hdests Hshifts Hrots Hall. unfold get_action.
  rewrite Hdests, result_bind_Ok.
  destruct (get_action_dests_spec state rotations Hrots shifts dests ∅ Hshifts)
    as (cache' & -> & _); [done|done|].
  rewrite result_bind_Ok. cbn beta iota. unfold first_viable.
  by destruct (List.find _ _) as [[[d sh] dg]|].
Qed.

(** *** The turns the two strategies propose *)

Lemma legal_shift_Ok s op :
  GameState_ok s → op ∈ get_legal_shift_ops s → ∃ s', shift_tiles s op = Ok s'.
Proof.
  intros Hok (Hkind & Hvalid & Hne)%elem_of_get_legal_shift_ops.
  apply shift_tiles_Ok; try done.
  unfold undoes_prev_action. unfold get_last_shift_op in Hne.
  destruct (prev_action s) as [|shift|shift]; try done;
    apply bool_decide_eq_false_2; intros E;
    apply (Hne shift eq_refl); by rewrite <- E, reverse_reverse.
Qed.

Lemma legal_move_Ok s dests dest :
  GameState_ok s → get_legal_move_destinations s = Ok dests → dest ∈ dests →
  in_bounds (board s) dest ∧ ∃ s', move_current_player s dest = Ok s'.
Proof.
  intros Hok Hdests Hd. pose proof Hok as [Hb Hbo _ _ _].
  destruct (current_player_Ok s Hb) as (c & ps & Hc & _ & _ & Hps).
  pose proof (current_player_elem _ _ _ Hc Hps) as Hin.
  destruct (player_in_bounds _ _ _ Hb Hin) as [Hloc _].
  unfold get_legal_move_destinations in Hdests. rewrite Hps in Hdests.
  simpl in Hdests.
  destruct (prev_action s) as [|shift|shift] eqn:Hprev; simpl in Hdests;
    try (injection Hdests as <-; set_solver).
  destruct (reachable_destinations_returns _ _ Hloc) as (r & Hr & Hspec).
  rewrite Hr in Hdests. injection Hdests as <-.
  apply elem_of_difference in Hd as [Hd Hne]. rewrite elem_of_singleton in Hne.
  apply Hspec in Hd. split; [by eapply reachable_in_bounds|].
  eexists. by eapply move_current_player_Ok.
Qed.

Lemma get_legal_move_destinations_Ok s :
  GameState_ok s → ∃ dests, get_legal_move_destinations s = Ok dests.
Proof.
  intros [Hb Hbo _ _ _].
  destruct (current_player_Ok s Hb) as (c & ps & Hc & _ & _ & Hps).
  pose proof (current_player_elem _ _ _ Hc Hps) as Hin.
  destruct (player_in_bounds _ _ _ Hb Hin) as [Hloc _].
  unfold get_legal_move_destinations. rewrite Hps. simpl.
  destruct (negb _); [by eexists|].
  destruct (reachable_destinations_returns _ _ Hloc) as (r & -> & _).
  by eexists.
Qed.

Lemma destinations_after_Ok s shift degrees :
  GameState_ok s → shift ∈ get_legal_shift_ops s → degrees mod 90 = 0 →
  ∃ r s1 s2,
    destinations_after s shift degrees = Ok r
    ∧ rotate_spare_tile s degrees = Ok s1
    ∧ shift_tiles s1 shift = Ok s2
    ∧ ∀ dest, dest ∈ r →
        in_bounds (board s) dest ∧ ∃ s3, move_current_player s2 dest = Ok s3.
Proof.
  intros Hok Hlegal Hdeg.
  pose proof Hlegal as (Hkind & _)%elem_of_get_legal_shift_ops.
  pose proof (rotate_spare_tile_Ok s degrees Hok Hkind Hdeg) as Hrot.
  pose proof (rotate_spare_tile_ok _ _ _ Hok Hrot) as Hok1.
  set (s1 := set_spare_tile _ s) in *.
  destruct (legal_shift_Ok s1 shift Hok1 Hlegal) as [s2 Hs2].
  pose proof (shift_tiles_ok _ _ _ Hok1 Hs2) as Hok2.
  destruct (get_legal_move_destinations_Ok s2 Hok2) as [r Hr].
  exists r, s1, s2. split; [|split; [done|split; [done|]]].
  - unfold destinations_after. by rewrite Hrot, result_bind_Ok, Hs2.
  - intros dest Hd.
    destruct (legal_move_Ok s2 r dest Hok2 Hr Hd) as [Hb Hmove].
    split; [|done]. unfold in_bounds in *.
    apply shift_tiles_Ok_inv in Hs2 as (_ & _ & Hw & Hh & _).
    by rewrite Hw, Hh in Hb.
Qed.

Lemma elem_of_candidates dests shifts rotations dest shift degrees :
  (dest, shift, degrees) ∈ candidates dests shifts rotations
  ↔ dest ∈ dests ∧ shift ∈ shifts ∧ degrees ∈ rotations.
Proof.
  unfold candidates. rewrite list_elem_of_bind. split.
  - intros (d & (sh & (dg & [= -> -> ->]%list_elem_of_singleton & ?)%list_elem_of_bind
                & ?)%list_elem_of_bind & ?). done.
  - intros (? & ? & ?). exists dest. split; [|done].
    apply list_elem_of_bind. exists shift. split; [|done].
    apply list_elem_of_bind. exists degrees. split; [|done]. by left.
Qed.

Lemma get_action_first_viable_witness :
  ∃ dests shifts,
    riemann_movement_exploration_order Examples.referee0 = Ok dests
    ∧ sorted_legal_shift_ops Examples.referee0 = Ok shifts
    ∧ get_action (H := RiemannStrategy) Examples.referee0
      = Ok (first_viable Examples.referee0 dests shifts [0; 270; 180; 90]).
Proof.
  destruct (riemann_movement_exploration_order Examples.referee0)
    as [dests|e] eqn:Hd; [|vm_compute in Hd; discriminate Hd].
  exists dests, (sorted order_shift_by_row_first
                   (elements (get_legal_shift_ops Examples.referee0))).
  split; [reflexivity|]. split; [reflexivity|].
  apply (get_action_first_viable (H := RiemannStrategy) Examples.referee0);
    [exact Hd|reflexivity|reflexivity|].
  intros shift degrees Hs Hdeg.
  destruct (destinations_after_Ok Examples.referee0 shift degrees referee0_ok)
    as (r & _ & _ & Hr & _).
  - destruct (sorted_spec order_shift_by_row_first
                (elements (get_legal_shift_ops Examples.referee0))) as [Hp _].
    rewrite Hp in Hs. apply elem_of_elements in Hs. exact Hs.
  - apply elem_of_cons in Hdeg as [->|Hdeg]; [reflexivity|].
    apply elem_of_cons in Hdeg as [->|Hdeg]; [reflexivity|].
    apply elem_of_cons in Hdeg as [->|Hdeg]; [reflexivity|].
    apply elem_of_cons in Hdeg as [->|Hdeg]; [reflexivity|].
    apply elem_of_nil in Hdeg. destruct Hdeg.
  - exists r. exact Hr.
Defined.

Lemma rotation_order_mod degrees : degrees ∈ [0; 270; 180; 90] → degrees mod 90 = 0.
Proof.
  intros Hd. repeat (apply elem_of_cons in Hd as [->|Hd]; [done|]).
  by apply elem_of_nil in Hd.
Qed.

(** What [get_action] of the two strategies returns when the goal of the
    current player can be read. *)
Lemma strategy_get_action_Ok (strategy : FirstViableMoveStrategy) s c :
  strategy = RiemannStrategy ∨ strategy = EuclidStrategy →
  GameState_ok s → current_player_color s = Ok c →
  subclass s = RefereeGameState ∨ player_color s = Some c →
  ∃ dests shifts,
    (∀ op, op ∈ shifts ↔ op ∈ get_legal_shift_ops s)
    ∧ get_action (H := strategy) s
      = Ok (first_viable s dests shifts [0; 270; 180; 90]).
Proof.
  intros Hstrategy Hok Hc Hcase.
  destruct (strategy_goal_location_Ok s Hok) as (c' & ps & Hc' & Hin & Hsee & _).
  rewrite Hc in Hc'. injection Hc' as <-.
  destruct (Hsee Hcase) as (sec & Hsec & Hgoal & _).
  set (shifts := sorted order_shift_by_row_first
                   (elements (get_legal_shift_ops s))).
  assert (Hshifts : ∀ op, op ∈ shifts ↔ op ∈ get_legal_shift_ops s).
  { intros op. subst shifts.
    destruct (sorted_spec order_shift_by_row_first
                (elements (get_legal_shift_ops s))) as [Hp _].
    rewrite Hp. apply elem_of_elements. }
  assert (Hdests : ∃ dests,
            movement_exploration_order (FirstViableMoveStrategy := strategy) s
            = Ok dests).
  { destruct Hstrategy as [-> | ->]; simpl;
      unfold riemann_movement_exploration_order,
        euclid_movement_exploration_order; rewrite Hgoal; by eexists. }
  destruct Hdests as [dests Hdests].
  exists dests, shifts. split; [done|].
  apply (get_action_first_viable (H := strategy)); try done.
  - by destruct Hstrategy as [-> | ->].
  - by destruct Hstrategy as [-> | ->].
  - intros shift degrees Hshift%Hshifts Hdeg%rotation_order_mod.
    destruct (destinations_after_Ok s shift degrees Hok Hshift Hdeg)
      as (r & _ & _ & Hr & _). by exists r.
Qed.

(** The first viable candidate can be played. *)
Lemma first_viable_turn s dests shifts degrees shift dest :
  GameState_ok s → (∀ op, op ∈ shifts → op ∈ get_legal_shift_ops s) →
  first_viable s dests shifts [0; 270; 180; 90] = TurnWithMove degrees shift dest →
  degrees ∈ [0; 270; 180; 90]
  ∧ shift ∈ get_legal_shift_ops s
  ∧ in_bounds (board s) dest
  ∧ ∃ s1 s2 s3,
      rotate_spare_tile s degrees = Ok s1
      ∧ shift_tiles s1 shift = Ok s2
      ∧ move_current_player s2 dest = Ok s3.
Proof.
  intros Hok Hshifts. unfold first_viable.
  destruct (List.find _ _) as [[[d sh] dg]|] eqn:Hfind; [|done].
  intros [= -> -> ->].
  apply List.find_some in Hfind as [Hcand Hviable].
  apply list_elem_of_In, elem_of_candidates in Hcand as (_ & Hsh%Hshifts & Hdg).
  destruct (destinations_after_Ok s shift degrees Hok Hsh (rotation_order_mod _ Hdg))
    as (r & s1 & s2 & Hr & Hs1 & Hs2 & Hmove).
  unfold viable in Hviable. cbn [fst snd] in Hviable. rewrite Hr in Hviable.
  apply bool_decide_eq_true in Hviable.
  destruct (Hmove dest Hviable) as [Hb [s3 Hs3]].
  split; [done|]. split; [done|]. split; [done|]. by exists s1, s2, s3.
Qed.

(** X23. [RiemannStrategy] and [EuclidStrategy] propose only turns that
    can be played. On a well-formed state whose owner may see the secret
    of the current player, [get_action] of either strategy returns an
    action and does not raise; when the action is a move, its rotation is
    one of 0, 270, 180 and 90 degrees, its shift is a legal shift of the
    state, its destination is on the board, and turning the spare tile,
    shifting and moving as the action says all succeed, one after the
    other. Right after a shift the strategies pass. In a player's state
    that is not the current player's, [get_action] raises
    [SecretAccessError]. *)
Theorem strategies_propose_legal_turns (strategy : FirstViableMoveStrategy)
    (s : GameState) :
  strategy = RiemannStrategy ∨ strategy = EuclidStrategy →
  GameState_ok s →
  ∃ c,
    current_player_color s = Ok c
    ∧ ((subclass s = RefereeGameState ∨ player_color s = Some c) →
       ∃ action,
         get_action (H := strategy) s = Ok action
         ∧ (kind (prev_action s) = PARTIAL_TURN → action = TurnPass)
         ∧ ∀ degrees shift dest,
             action = TurnWithMove degrees shift dest →
             degrees ∈ [0; 270; 180; 90]
             ∧ shift ∈ get_legal_shift_ops s
             ∧ in_bounds (board s) dest
             ∧ ∃ s1 s2 s3,
                 rotate_spare_tile s degrees = Ok s1
                 ∧ shift_tiles s1 shift = Ok s2
                 ∧ move_current_player s2 dest = Ok s3)
    ∧ (subclass s = RestrictedGameState → player_color s ≠ Some c →
       get_action (H := strategy) s = Raise SecretAccessError).
Proof.
  intros Hstrategy Hok.
  destruct (strategy_goal_location_Ok s Hok) as (c & ps & Hc & Hin & Hsee & Hnot).
  exists c. split; [done|]. split.
  - intros Hcase.
    destruct (strategy_get_action_Ok strategy s c Hstrategy Hok Hc Hcase)
      as (dests & shifts & Hshifts & Haction).
    exists (first_viable s dests shifts [0; 270; 180; 90]).
    split; [done|]. split.
    + intros Hkind. unfold first_viable.
      assert (shifts = []) as ->.
      { destruct shifts as [|op ?] eqn:E; [done|].
        assert (Hop : op ∈ get_legal_shift_ops s) by (apply Hshifts; left).
        by apply elem_of_get_legal_shift_ops in Hop as (? & _). }
      assert (candidates dests [] [0; 270; 180; 90] = []) as ->; [|done].
      unfold candidates. clear. by induction dests.
    + intros degrees shift dest. apply first_viable_turn; [done|].
      intros op. apply Hshifts.
  - intros Hsub Hne. unfold get_action.
    assert (movement_exploration_order (FirstViableMoveStrategy := strategy) s
            = Raise SecretAccessError) as ->; [|done].
    destruct Hstrategy as [-> | ->]; simpl;
      unfold riemann_movement_exploration_order,
        euclid_movement_exploration_order; by rewrite (Hnot Hsub Hne).
Qed.

Lemma strategies_propose_legal_turns_witness :
  get_action (H := RiemannStrategy) Examples.referee0
  = Ok (TurnWithMove 0 (mkShiftOp (mkCoord 0 0) RIGHT) (mkCoord 0 1))
  ∧ ∃ s1 s2 s3,
      rotate_spare_tile Examples.referee0 0 = Ok s1
      ∧ shift_tiles s1 (mkShiftOp (mkCoord 0 0) RIGHT) = Ok s2
      ∧ move_current_player s2 (mkCoord 0 1) = Ok s3.
Proof.
  assert (E : get_action (H := RiemannStrategy) Examples.referee0
              = Ok (TurnWithMove 0 (mkShiftOp (mkCoord 0 0) RIGHT) (mkCoord 0 1)))
    by (vm_compute; reflexivity).
  split; [exact E|].
  destruct (strategies_propose_legal_turns RiemannStrategy Examples.referee0)
    as (c & Hc & H & _); [left; reflexivity|exact referee0_ok|].
  destruct H as (action & Ha & _ & H); [left; reflexivity|].
  rewrite E in Ha. injection Ha as <-.
  destruct (H _ _ _ eq_refl) as (_ & _ & _ & Hturn). exact Hturn.
Defined.

(** ** The state a player is shown *)

Lemma restrict_loop_none c b a l :
  Forall (λ item, color item.2 ≠ c) l →
  foldl (_restrict_game_state_step c) (b, a, None) l = (b ++ l, a, None).
Proof.
  revert b. induction l as [|item l IH]; intros b Hl; simpl.
  - by rewrite app_nil_r.
  - apply Forall_cons in Hl as [Hi Hl].
    rewrite decide_False by done. rewrite IH by done.
    by rewrite <- app_assoc.
Qed.

Lemma restrict_loop_some c b a x l :
  Forall (λ item, color item.2 ≠ c) l →
  foldl (_restrict_game_state_step c) (b, a, Some x) l = (b, a ++ l, Some x).
Proof.
  revert a. induction l as [|item l IH]; intros a Hl; simpl.
  - by rewrite app_nil_r.
  - apply Forall_cons in Hl as [Hi Hl].
    rewrite decide_False by done. rewrite IH by done.
    by rewrite <- app_assoc.
Qed.

Lemma restrict_loop_found c l1 x l2 :
  Forall (λ item, color item.2 ≠ c) l1 → color x.2 = c →
  Forall (λ item, color item.2 ≠ c) l2 →
  foldl (_restrict_game_state_step c) ([], [], None) (l1 ++ x :: l2)
  = (l1, l2, Some x).
Proof.
  intros H1 Hx H2. rewrite foldl_app, restrict_loop_none by done. simpl.
  rewrite decide_True by done. by rewrite restrict_loop_some.
Qed.

(** The view of the player at position [i], when no other player has its
    colour: the players from [i] on, then those before [i]. *)
Lemma restrict_game_state_Ok state i k ps :
  GameState_ok state → subclass state = RefereeGameState →
  player_states state !! i = Some (k, ps) →
  (∀ j item, player_states state !! j = Some item →
             color item.2 = color ps → j = i) →
  ∃ sec,
    player_secrets state !! k = Some sec
    ∧ _restrict_game_state state (color ps)
      = Some (Ok (mkGameState RestrictedGameState
                    (drop i (player_states state) ++ take i (player_states state))
                    {[ k := sec ]} (spare_tile state) (board state)
                    (prev_action state) 0)).
Proof.
  intros Hok Hcls Hi Huniq. pose proof Hok as [Hb _ _ _ _].
  pose proof Hb as (Hspare & Hpss & Hidx & Hsub & _)%build_Ok.
  rewrite Hcls in Hsub. apply subclass_init_referee in Hsub as [Hdom Hsecs].
  assert (Hk : k ∈ player_colors state).
  { unfold player_colors. apply list_elem_of_fmap. exists (k, ps).
    split; [done|]. by eapply list_elem_of_lookup_2. }
  destruct (referee_secret state k Hb Hcls Hk) as [sec Hsec].
  exists sec. split; [done|].
  unfold _restrict_game_state.
  rewrite <- (take_drop_middle _ _ _ Hi) at 1.
  rewrite restrict_loop_found; [| |done|].
  - unfold get_player_secret, getitem. rewrite Hcls, Hsec. simpl. f_equal.
    rewrite (drop_S _ _ _ Hi).
    apply GameState_init_Ok. split; [done|]. split; [|split; [|split; [|done]]].
    + apply validate_player_states_Ok. apply validate_player_states_Ok in Hpss as [Hlen Hall].
      split.
      * simpl. lia.
      * intros c' ps' Hin. apply (Hall c' ps').
        rewrite <- (take_drop_middle _ _ _ Hi). set_solver.
    + simpl. lia.
    + apply subclass_init_restricted. exists k, sec. split; [done|]. split.
      * by eapply validate_player_secrets_Ok.
      * set_solver.
  - apply Forall_forall. intros item Hin Hc.
    apply list_elem_of_lookup in Hin as [j Hj].
    pose proof (lookup_lt_Some _ _ _ Hj) as Hlt. rewrite length_take in Hlt.
    rewrite lookup_take_lt in Hj by lia.
    specialize (Huniq j item Hj Hc). lia.
  - apply Forall_forall. intros item Hin Hc.
    apply list_elem_of_lookup in Hin as [j Hj].
    rewrite lookup_drop in Hj.
    specialize (Huniq _ item Hj Hc). lia.
Qed.

(** A copy of a well-formed state for one player: the same players in
    any order, and one secret. *)
Lemma restricted_copy_ok s pss k q idx :
  GameState_ok s → pss ≡ₚ player_states s →
  0 ≤ idx < Z.of_nat (length pss) → k ∈ pss.*1 →
  in_bounds (board s) (treasure_location q) →
  GameState_ok (mkGameState RestrictedGameState pss {[ k := q ]}
                  (spare_tile s) (board s) (prev_action s) idx).
Proof.
  intros Hok Hperm Hidx Hk Hq. pose proof Hok as [Hb Hbo Hsp Hnd Ht].
  pose proof Hb as (Hspare & Hpss & _ & _ & _)%build_Ok.
  split; simpl; try done.
  - apply build_Ok. simpl. split; [done|]. split; [|split; [done|split; [|done]]].
    + apply validate_player_states_Ok.
      apply validate_player_states_Ok in Hpss as [Hlen Hall].
      split; [by rewrite Hperm|].
      intros c' ps' Hin. apply (Hall c' ps'). by rewrite <- Hperm.
    + apply subclass_init_restricted. exists k, q. split; [done|].
      split; [by apply assert_in_bounds_Ok|done].
  - unfold player_colors. simpl. by rewrite Hperm.
Qed.

Lemma rotation_perm {A} (l : list A) i : drop i l ++ take i l ≡ₚ l.
Proof. by rewrite Permutation_app_comm, take_drop. Qed.

Lemma od_getitem_head {V} k (v : V) d : od_getitem ((k, v) :: d) k = Ok v.
Proof. unfold od_getitem. simpl. by rewrite decide_True. Qed.

(** X24. [_restrict_game_state] of a referee's state, for a colour that
    no player has, reads an unbound local ([UnboundLocalError]). For the
    colour of exactly one player it returns a well-formed state of the
    class [RestrictedGameState] with the same board, spare tile and
    previous action, in which that player comes first and is the current
    player, followed by the players after it and then by those before it;
    the state holds the secret of that player only, and asking it for the
    secret of any other player raises [SecretAccessError].
    [PlayerSetupImpl.setup] takes the player's own state from it. *)
Theorem restricted_view_of_player (state : GameState) (c : Color) :
  GameState_ok state → subclass state = RefereeGameState →
  ((∀ item, item ∈ player_states state → color item.2 ≠ c) →
     _restrict_game_state state c = None)
  ∧ (∀ i k ps,
       player_states state !! i = Some (k, ps) → color ps = c →
       (∀ j item, player_states state !! j = Some item →
                  color item.2 = c → j = i) →
       ∃ sec view,
         _restrict_game_state state c = Some (Ok view)
         ∧ GameState_ok view
         ∧ subclass view = RestrictedGameState
         ∧ player_states view
           = drop i (player_states state) ++ take i (player_states state)
         ∧ current_player_index view = 0
         ∧ current_player_color view = Ok k
         ∧ current_player_state view = Ok ps
         ∧ get_player_secret state k = Ok sec
         ∧ player_secrets view = {[ k := sec ]}
         ∧ (∀ k', get_player_secret view k'
                  = if decide (k' = k) then Ok sec else Raise SecretAccessError)
         ∧ spare_tile view = spare_tile state
         ∧ board view = board state
         ∧ prev_action view = prev_action state
         ∧ ∀ goal, PlayerSetupImpl_setup view goal
                   = Ok (ps, mkPlayerSecret goal false 0)).
Proof.
  intros Hok Hcls. split.
  - intros Hnone. unfold _restrict_game_state.
    rewrite restrict_loop_none; [done|].
    apply Forall_forall. intros item Hin. by apply Hnone.
  - intros i k ps Hi <- Huniq.
    destruct (restrict_game_state_Ok state i k ps Hok Hcls Hi Huniq)
      as (sec & Hsec & Hview).
    eexists sec, _. split; [exact Hview|].
    pose proof Hok as [Hb _ _ _ _].
    pose proof Hb as (_ & _ & _ & Hsub & _)%build_Ok.
    rewrite Hcls in Hsub. apply subclass_init_referee in Hsub as [_ Hsecs].
    assert (Hdrop : drop i (player_states state) ++ take i (player_states state)
                    = (k, ps) :: drop (S i) (player_states state)
                        ++ take i (player_states state))
      by by rewrite (drop_S _ _ _ Hi).
    split.
    { apply restricted_copy_ok; try done.
      - apply rotation_perm.
      - rewrite Hdrop. simpl. lia.
      - rewrite Hdrop. set_solver.
      - eapply assert_in_bounds_Ok, validate_player_secrets_Ok; eauto. }
    cbn [subclass player_states current_player_index player_secrets spare_tile
         board prev_action].
    assert (Hcol : current_player_color
                     (mkGameState RestrictedGameState
                        (drop i (player_states state) ++ take i (player_states state))
                        {[ k := sec ]} (spare_tile state) (board state)
                        (prev_action state) 0) = Ok k).
    { unfold current_player_color, player_colors. simpl. by rewrite Hdrop. }
    repeat (split; [done|]).
    split.
    { unfold current_player_state. rewrite Hcol. simpl. rewrite Hdrop.
      apply od_getitem_head. }
    split.
    { unfold get_player_secret, getitem. by rewrite Hcls, Hsec. }
    split; [done|]. split.
    { intros k'. unfold get_player_secret, can_get_player_secret, player_color.
      simpl. rewrite map_to_list_singleton. simpl.
      destruct (decide (k' = k)) as [->|Hne].
      - rewrite bool_decide_eq_true_2 by done. simpl.
        unfold getitem. by rewrite lookup_singleton_eq.
      - rewrite bool_decide_eq_false_2; [done|]. congruence. }
    repeat (split; [done|]).
    intros goal. unfold PlayerSetupImpl_setup. simpl. by rewrite Hdrop.
Qed.

Lemma restricted_view_of_player_witness :
  _restrict_game_state Examples.referee0 (0, 0, 0) = None
  ∧ ∃ sec view,
      _restrict_game_state Examples.referee0 (0, 0, 255) = Some (Ok view)
      ∧ player_states view
        = drop 1 Examples.players2 ++ take 1 Examples.players2
      ∧ player_secrets view = {[ Examples.blue := sec ]}.
Proof.
  destruct (restricted_view_of_player Examples.referee0 (0, 0, 0) referee0_ok
              eq_refl) as [Hnone _].
  split.
  - apply Hnone. intros item Hin.
    apply elem_of_cons in Hin as [->|Hin]; [discriminate|].
    apply elem_of_cons in Hin as [->|Hin]; [discriminate|].
    apply elem_of_nil in Hin. destruct Hin.
  - destruct (restricted_view_of_player Examples.referee0 (0, 0, 255)
                referee0_ok eq_refl) as [_ Hview].
    destruct (Hview 1%nat Examples.blue
                (mkPlayerState (mkCoord 1 1) (mkCoord 2 0) (0, 0, 255) "bob")
                eq_refl eq_refl)
      as (sec & view & H1 & _ & _ & H2 & _ & _ & _ & _ & H3 & _).
    + intros [|[|j]] item Hj Hc; [|reflexivity|discriminate Hj].
      injection Hj as <-. discriminate Hc.
    + exists sec, view. split; [exact H1|]. split; [exact H2|exact H3].
Defined.

(** ** The turn of a player *)

Lemma od_getitem_fmap (g : PlayerState → PlayerState) d k v :
  od_getitem d k = Ok v →
  od_getitem ((λ cs : string * PlayerState, (cs.1, g cs.2)) <$> d) k = Ok (g v).
Proof.
  unfold od_getitem. rewrite list_find_fmap.
  replace (list_find ((λ kv : string * PlayerState, kv.1 = k)
                        ∘ (λ cs : string * PlayerState, (cs.1, g cs.2))) d)
    with (list_find (λ kv : string * PlayerState, kv.1 = k) d)
    by (by apply list_find_ext).
  destruct (list_find _ d) as [[j kv]|]; [|done]. simpl. by intros [= ->].
Qed.

Lemma current_player_state_fmap (g : PlayerState → PlayerState) s s' ps :
  current_player_state s = Ok ps →
  player_states s' = (λ cs, (cs.1, g cs.2)) <$> player_states s →
  current_player_index s' = current_player_index s →
  current_player_state s' = Ok (g ps).
Proof.
  unfold current_player_state, current_player_color, player_colors.
  intros H Hpss Hidx. rewrite Hpss, Hidx.
  rewrite <- list_fmap_compose.
  replace (fst ∘ (λ cs : string * PlayerState, (cs.1, g cs.2)))
    with (fst : string * PlayerState → string) by done.
  destruct (list_getitem _ _) as [c|e]; [|done]. simpl in *.
  by apply od_getitem_fmap.
Qed.

(** Two well-formed states with the same board, spare tile, previous
    action and current player accept the same turns. *)
Lemma turn_same_view a b degrees shift dest ps :
  GameState_ok a → GameState_ok b →
  board a = board b → spare_tile a = spare_tile b →
  prev_action a = prev_action b →
  current_player_state a = Ok ps → current_player_state b = Ok ps →
  degrees mod 90 = 0 → shift ∈ get_legal_shift_ops a →
  (∃ a1 a2 a3, rotate_spare_tile a degrees = Ok a1
               ∧ shift_tiles a1 shift = Ok a2
               ∧ move_current_player a2 dest = Ok a3) →
  ∃ b1 b2 b3, rotate_spare_tile b degrees = Ok b1
              ∧ shift_tiles b1 shift = Ok b2
              ∧ move_current_player b2 dest = Ok b3.
Proof.
  intros Hoka Hokb Hboard Hspare Hprev Hpsa Hpsb Hdeg Hlegal
    (a1 & a2 & a3 & Ha1 & Ha2 & Ha3).
  assert (Hlegalb : shift ∈ get_legal_shift_ops b).
  { apply elem_of_get_legal_shift_ops.
    apply elem_of_get_legal_shift_ops in Hlegal.
    unfold get_last_shift_op in *. by rewrite <- Hboard, <- Hprev. }
  pose proof Hlegal as (Hkind & _)%elem_of_get_legal_shift_ops.
  destruct (destinations_after_Ok b shift degrees Hokb Hlegalb Hdeg)
    as (r & b1 & b2 & Hr & Hb1 & Hb2 & Hmove).
  exists b1, b2. rewrite Hb1, Hb2.
  cut (dest ∈ r).
  { intros Hd. destruct (Hmove dest Hd) as [_ [b3 Hb3]]. by exists b3. }
  unfold destinations_after in Hr. rewrite Hb1, result_bind_Ok, Hb2 in Hr.
  rewrite result_bind_Ok in Hr.
  rewrite (rotate_spare_tile_Ok a degrees Hoka Hkind Hdeg) in Ha1.
  rewrite Hprev in Hkind.
  rewrite (rotate_spare_tile_Ok b degrees Hokb Hkind Hdeg) in Hb1.
  injection Ha1 as <-. injection Hb1 as <-.
  apply shift_tiles_inv in Ha2 as (_ & _ & ba & eja & edita & Hslidea & Ha2).
  pose proof Hb2 as (_ & Hprevb2 & _)%shift_tiles_Ok_inv.
  apply shift_tiles_inv in Hb2 as (_ & _ & bb & ejb & editb & Hslideb & Hb2).
  simpl in Hslidea, Hslideb, Ha2, Hb2.
  rewrite Hboard, Hspare, Hslideb in Hslidea. injection Hslidea as <- <- <-.
  assert (Hcura : current_player_state a2
                  = Ok (move_with_board ps editb (insert_location shift))).
  { eapply (current_player_state_fmap (λ p, move_with_board p editb _) a);
      [done|by rewrite Ha2|by rewrite Ha2]. }
  assert (Hcurb : current_player_state b2
                  = Ok (move_with_board ps editb (insert_location shift))).
  { eapply (current_player_state_fmap (λ p, move_with_board p editb _) b);
      [done|by rewrite Hb2|by rewrite Hb2]. }
  apply move_current_player_inv in Ha3
    as (sh & c & psa & ra & _ & _ & Hpsa2 & Hne & Hra & Hin).
  destruct Hin as [Hin _].
  rewrite Hcura in Hpsa2. injection Hpsa2 as <-.
  unfold get_legal_move_destinations in Hr. rewrite Hcurb in Hr.
  rewrite result_bind_Ok in Hr. rewrite Hprevb2 in Hr. simpl in Hr.
  assert (Hba : board a2 = board b2) by by rewrite Ha2, Hb2.
  rewrite <- Hba, Hra in Hr. simpl in Hr. injection Hr as <-.
  set_solver.
Qed.

Lemma current_player_lookup s :
  GameState_ok s →
  ∃ c ps, current_player_color s = Ok c ∧ current_player_state s = Ok ps
          ∧ player_states s !! Z.to_nat (current_player_index s) = Some (c, ps).
Proof.
  intros [Hb _ _ Hnd _].
  destruct (current_player_Ok s Hb) as (c & ps & Hc & Hlook & Hget & Hps).
  exists c, ps. split; [done|]. split; [done|].
  unfold player_colors in Hlook.
  apply list_lookup_fmap_Some in Hlook as ([c' ps'] & Hc' & Hlook).
  simpl in Hc'. subst c'. rewrite Hlook. do 2 f_equal.
  eapply od_unique; [exact Hnd| |by eapply od_getitem_elem].
  by eapply list_elem_of_lookup_2.
Qed.

(** X25. The turn of a player that follows [RiemannStrategy] or
    [EuclidStrategy] is accepted by the referee. Let the referee's state
    be well formed, with players of pairwise distinct colours. The state
    [_restrict_game_state] makes for the colour of the current player is
    returned; [PlayerGameplayImpl.take_turn] on it, for a player that
    holds any goal on the board, returns an action; and when the action is
    a move, [rotate_spare_tile], then [shift_tiles], then
    [move_current_player] with the values of the action all succeed on the
    referee's own state. *)
Theorem honest_turn_is_accepted (strategy : FirstViableMoveStrategy)
    (state : GameState) (secret : PlayerSecret) :
  strategy = RiemannStrategy ∨ strategy = EuclidStrategy →
  GameState_ok state → subclass state = RefereeGameState →
  NoDup (color <$> (player_states state).*2) →
  in_bounds (board state) (treasure_location secret) →
  ∃ ps view action,
    current_player_state state = Ok ps
    ∧ _restrict_game_state state (color ps) = Some (Ok view)
    ∧ take_turn (H := strategy) secret view = Ok action
    ∧ ∀ degrees shift dest,
        action = TurnWithMove degrees shift dest →
        ∃ s1 s2 s3,
          rotate_spare_tile state degrees = Ok s1
          ∧ shift_tiles s1 shift = Ok s2
          ∧ move_current_player s2 dest = Ok s3.
Proof.
  intros Hstrategy Hok Hcls Hcolors Hsecret.
  destruct (current_player_lookup state Hok) as (c & ps & Hc & Hps & Hi).
  set (i := Z.to_nat (current_player_index state)) in *.
  assert (Huniq : ∀ j item, player_states state !! j = Some item →
                            color item.2 = color ps → j = i).
  { intros j item Hj Hcol.
    eapply (NoDup_lookup _ j i (color ps) Hcolors).
    - rewrite !list_lookup_fmap, Hj. simpl. by rewrite Hcol.
    - by rewrite !list_lookup_fmap, Hi. }
  destruct (restrict_game_state_Ok state i c ps Hok Hcls Hi Huniq)
    as (sec & Hsec & Hview).
  assert (Hdrop : drop i (player_states state) ++ take i (player_states state)
                  = (c, ps) :: drop (S i) (player_states state)
                      ++ take i (player_states state))
    by by rewrite (drop_S _ _ _ Hi).
  set (pss := drop i (player_states state) ++ take i (player_states state)) in *.
  set (n := mkGameState RestrictedGameState pss {[ c := secret ]}
              (spare_tile state) (board state) (prev_action state) 0).
  assert (Hokn : GameState_ok n).
  { apply restricted_copy_ok; try done.
    - apply rotation_perm.
    - rewrite Hdrop. simpl. lia.
    - rewrite Hdrop. set_solver. }
  assert (Hcn : current_player_color n = Ok c).
  { unfold current_player_color, player_colors. simpl. by rewrite Hdrop. }
  assert (Hpsn : current_player_state n = Ok ps).
  { unfold current_player_state. rewrite Hcn. simpl. rewrite Hdrop.
    apply od_getitem_head. }
  assert (Hownn : player_color n = Some c).
  { unfold player_color. simpl. by rewrite map_to_list_singleton. }
  destruct (strategy_get_action_Ok strategy n c Hstrategy Hokn Hcn (or_intror Hownn))
    as (dests & shifts & Hshifts & Haction).
  eexists ps, _, (first_viable n dests shifts [0; 270; 180; 90]).
  split; [done|]. split; [exact Hview|]. split.
  - unfold take_turn.
    replace (current_player_color _) with (Ok c : result string).
    rewrite result_bind_Ok. cbn [player_states spare_tile board prev_action
                                   current_player_index].
    pose proof (state_built n Hokn) as Hbuilt. unfold build in Hbuilt.
    cbn [subclass player_states player_secrets spare_tile board prev_action
         current_player_index n] in Hbuilt.
    rewrite Hbuilt. by rewrite result_bind_Ok.
  - intros degrees shift dest Ha.
    destruct (first_viable_turn n dests shifts degrees shift dest Hokn)
      as (Hdeg & Hlegal & _ & Hturn); [by intros op ?%Hshifts|done|].
    eapply (turn_same_view n state); try done.
    by apply rotation_order_mod.
Qed.

Lemma honest_turn_is_accepted_witness :
  ∃ ps view action,
    current_player_state Examples.referee0_blue = Ok ps
    ∧ _restrict_game_state Examples.referee0_blue (color ps) = Some (Ok view)
    ∧ take_turn (H := EuclidStrategy) (mkPlayerSecret (mkCoord 1 1) false 0) view
      = Ok action
    ∧ ∀ degrees shift dest,
        action = TurnWithMove degrees shift dest →
        ∃ s1 s2 s3,
          rotate_spare_tile Examples.referee0_blue degrees = Ok s1
          ∧ shift_tiles s1 shift = Ok s2
          ∧ move_current_player s2 dest = Ok s3.
Proof.
  apply (honest_turn_is_accepted EuclidStrategy Examples.referee0_blue).
  - right. reflexivity.
  - exact referee0_blue_ok.
  - reflexivity.
  - apply (bool_decide_unpack _). vm_compute. exact I.
  - apply assert_in_bounds_Ok. vm_compute. reflexivity.
Defined.

(** ** JSON *)

Lemma get_direction_to_json d :
  JSON.get_direction (JSON.direction_to_json d) = Returns d.
Proof. by destruct d. Qed.

Lemma get_direction_Returns dir_json d :
  JSON.get_direction dir_json = Returns d → dir_json = JSON.direction_to_json d.
Proof.
  unfold JSON.get_direction. repeat case_decide; by intros [= <-].
Qed.

Lemma get_direction_AssertionError dir_json :
  JSON.get_direction dir_json = AssertionError
  ↔ dir_json ∉ ["LEFT"; "RIGHT"; "UP"; "DOWN"].
Proof.
  unfold JSON.get_direction. rewrite !not_elem_of_cons.
  repeat case_decide; split; try done; try tauto.
  intros _. repeat (split; [done|]). apply not_elem_of_nil.
Qed.

Lemma calculate_insert_location_far_edge b op :
  JSON.calculate_insert_location
    (if is_vertical (direction op) then col (insert_location op)
     else row (insert_location op))
    (direction op) (width b) (height b)
  = far_edge b (insert_location op) (flip (direction op)).
Proof. by destruct op as [c []]. Qed.

Lemma valid_op_far_edge b op :
  valid_op b op →
  far_edge b (insert_location op) (flip (direction op)) = insert_location op.
Proof.
  unfold valid_op. rewrite elem_of_get_valid_insert_locations.
  destruct op as [[x y] []]; simpl; intros (E & _); unfold far_edge; simpl;
    by rewrite <- E.
Qed.

Lemma get_action_shift_op_to_json b op :
  JSON.get_action (Some (JSON.shift_op_to_json op)) b
  = Returns (Some (mkShiftOp (far_edge b (insert_location op) (flip (direction op)))
                     (direction op))).
Proof.
  unfold JSON.get_action, JSON.shift_op_to_json.
  by rewrite get_direction_to_json, calculate_insert_location_far_edge.
Qed.

(** X26. A shift operation written by [shift_op_to_json] and read back by
    [get_action] on a board is the operation with the same direction that
    inserts on the same row or column at the edge where tiles enter: it is
    the operation itself exactly when the operation inserts at that edge,
    which every operation at a valid insert location does. In the other
    direction, reading a JSON action with one of the four direction names
    and writing it again gives the same JSON, and any other name fails an
    assertion. For a state whose last shift, if there is one, was made at a
    valid insert location, the "last" entry of the state, read back by
    [_convert_state_last_to_prev_action], gives the same last shift as a
    complete turn, also when the state is in the middle of a turn. *)
Theorem shift_op_json_round_trip (b : Board) :
  (∀ op,
     JSON.get_action (Some (JSON.shift_op_to_json op)) b
     = Returns (Some (mkShiftOp
                        (far_edge b (insert_location op) (flip (direction op)))
                        (direction op)))
     ∧ (JSON.get_action (Some (JSON.shift_op_to_json op)) b = Returns (Some op)
        ↔ insert_location op
          = far_edge b (insert_location op) (flip (direction op)))
     ∧ (valid_op b op →
        JSON.get_action (Some (JSON.shift_op_to_json op)) b = Returns (Some op)))
  ∧ (∀ index dir_json,
       dir_json ∈ ["LEFT"; "RIGHT"; "UP"; "DOWN"] →
       ∃ op, JSON.get_action (Some (index, dir_json)) b = Returns (Some op)
             ∧ JSON.shift_op_to_json op = (index, dir_json))
  ∧ (∀ index dir_json,
       dir_json ∉ ["LEFT"; "RIGHT"; "UP"; "DOWN"] →
       JSON.get_action (Some (index, dir_json)) b = AssertionError)
  ∧ JSON.get_action None b = Returns None
  ∧ ∀ s,
      board s = b →
      (∀ shift, get_last_shift_op s = Some shift → valid_op b shift) →
      JSON._convert_state_last_to_prev_action (JSON.last_shift_json s) b
      = Returns (match prev_action s with
                 | EmptyPrevAction => EmptyPrevAction
                 | PartialTurnPrevAction shift | CompleteTurnPrevAction shift =>
                     CompleteTurnPrevAction shift
                 end).
Proof.
  split; [|split; [|split; [|split; [done|]]]].
  - intros op. rewrite get_action_shift_op_to_json. split; [done|]. split.
    + split.
      * intros [= E]. destruct op as [c d]. simpl in *. by injection E.
      * intros <-. by destruct op.
    + intros ->%valid_op_far_edge. by destruct op.
  - intros index dir_json Hd.
    destruct (JSON.get_direction dir_json) as [d|] eqn:E.
    + pose proof (get_direction_Returns _ _ E) as ->.
      unfold JSON.get_action. rewrite E. eexists. split; [done|].
      by destruct d.
    + by apply get_direction_AssertionError in E.
  - intros index dir_json Hd%get_direction_AssertionError.
    unfold JSON.get_action. by rewrite Hd.
  - intros s <- Hvalid.
    unfold JSON._convert_state_last_to_prev_action, JSON.last_shift_json.
    unfold get_last_shift_op in *.
    destruct (prev_action s) as [|shift|shift]; [done| |];
      rewrite get_action_shift_op_to_json, (valid_op_far_edge _ _ (Hvalid _ eq_refl));
      by destruct shift.
Qed.

Lemma shift_op_json_round_trip_witness :
  JSON.get_action (Some (JSON.shift_op_to_json Examples.shift0))
    (board Examples.referee1)
  = Returns (Some Examples.shift0)
  ∧ JSON._convert_state_last_to_prev_action
      (JSON.last_shift_json Examples.referee1) (board Examples.referee1)
    = Returns (CompleteTurnPrevAction Examples.shift0).
Proof.
  assert (Hvalid : valid_op (board Examples.referee1) Examples.shift0).
  { unfold valid_op. apply (bool_decide_unpack _). vm_compute. exact I. }
  destruct (shift_op_json_round_trip (board Examples.referee1))
    as (H1 & _ & _ & _ & H2).
  split.
  - apply H1. exact Hvalid.
  - rewrite (H2 Examples.referee1 eq_refl).
    + vm_compute. reflexivity.
    + intros shift E. vm_compute in E. injection E as <-. exact Hvalid.
Defined.









(** X28. The connector of a tile names its shape and its look. For a
    tile the constructor accepts, [_get_tile_connector] returns a
    connector; [get_connector] reads it as the shape of the tile and one of
    the [unique_rotations] of that shape; the tile built from them with the
    same gems is equal to the tile in the sense of [Tile.__eq__], is the
    tile itself when the rotation of the tile is already one of the unique
    rotations, and has the same connector. Every pair [get_connector]
    returns is a shape with one of its unique rotations, and the connector
    of a tile of this shape and rotation is the connector that was read. *)
Theorem connector_round_trip (t : Tile) :
  Tile_ok t →
  (∃ connector r t',
     JSON._get_tile_connector t = Ok connector
     ∧ JSON.get_connector connector = Ok (shape t, r)
     ∧ r ∈ unique_rotations (shape t)
     ∧ Tile_init (shape t) r (gems t) = Ok t'
     ∧ Tile_eqb t t' = true
     ∧ (rotation t ∈ unique_rotations (shape t) → t' = t)
     ∧ JSON._get_tile_connector t' = Ok connector)
  ∧ ∀ connector s r,
      JSON.get_connector connector = Ok (s, r) →
      r ∈ unique_rotations s
      ∧ JSON._get_tile_connector (mkTile s r (gems t)) = Ok connector.
Proof.
  intros Hok. split.
  - pose proof Hok as [Hr Hg]%Tile_ok_inv.
    destruct t as [s r g]. simpl in *.
    assert (Hcases : r = 0 ∨ r = 1 ∨ r = 2 ∨ r = 3) by lia.
    assert (Hinit : ∀ r', 0 ≤ r' ≤ 3 → Tile_init s r' g = Ok (mkTile s r' g)).
    { intros r' Hr'. unfold Tile_init.
      rewrite bool_decide_eq_false_2 by lia. simpl. by rewrite Hg. }
    destruct s; destruct Hcases as [->|[->|[->| ->]]];
      (eexists _, _, _;
       split; [reflexivity|];
       split; [vm_compute; reflexivity|];
       split; [vm_compute; set_solver|];
       split; [apply Hinit; lia|];
       split; [rewrite Tile_eqb_rotation; apply bool_decide_eq_true_2;
               apply (bool_decide_unpack _); vm_compute; exact I|];
       split; [|reflexivity];
       intros Hin;
       first [reflexivity | exfalso; simpl in Hin; set_unfold; lia]).
  - intros connector s r. unfold JSON.get_connector, od_getitem. simpl.
    repeat case_decide; try done; intros [= <- <-]; subst connector;
      (split; [vm_compute; set_solver|reflexivity]).
Qed.

Lemma connector_round_trip_witness :
  ∃ t',
    JSON._get_tile_connector (mkTile LINE 3 ("beryl", "ruby")) = Ok "─"
    ∧ JSON.get_connector "─" = Ok (LINE, 1)
    ∧ Tile_init LINE 1 ("beryl", "ruby") = Ok t'
    ∧ Tile_eqb (mkTile LINE 3 ("beryl", "ruby")) t' = true.
Proof.
  destruct (connector_round_trip (mkTile LINE 3 ("beryl", "ruby")))
    as [(connector & r & t' & H1 & H2 & _ & H3 & H4 & _) _].
  - vm_compute. reflexivity.
  - assert (E : connector = "─") by (vm_compute in H1; injection H1 as <-; reflexivity).
    subst connector.
    assert (Er : r = 1) by (vm_compute in H2; injection H2 as <-; reflexivity).
    subst r. exists t'. split; [reflexivity|]. split; [reflexivity|].
    split; [exact H3|exact H4].
Defined.

(** ** The board a player proposes *)

Lemma omap_lookup_seq {A} (l : list A) (a : nat) :
  omap (λ i, l !! i) (seq a (length l - a)) = drop a l.
Proof.
  remember (length l - a)%nat as n eqn:Hn. revert a Hn.
  induction n as [|n IH]; intros a Hn; simpl.
  - symmetry. apply drop_ge. lia.
  - destruct (l !! a) as [x|] eqn:E.
    + rewrite (drop_S _ _ _ E). f_equal. apply IH. lia.
    + apply lookup_ge_None in E. lia.
Qed.

Lemma unordered_pairs_eq (all_gems : list Gem) :
  unordered_pairs all_gems
  = '(idx1, gem1) ← zip (seq 0 (length all_gems)) all_gems;
    (λ gem2, (gem1, gem2)) <$> drop (idx1 + 1) all_gems.
Proof.
  unfold unordered_pairs. apply list_bind_ext; [|done].
  intros [idx1 gem1]. by rewrite <- omap_lookup_seq, list_fmap_omap.
Qed.

Lemma elem_of_unordered_pairs (all_gems : list Gem) p :
  p ∈ unordered_pairs all_gems ↔
    ∃ i j : nat, (i < j)%nat ∧ all_gems !! i = Some p.1 ∧ all_gems !! j = Some p.2.
Proof.
  rewrite unordered_pairs_eq, list_elem_of_bind. split.
  - intros ([i g] & Hp & Hz).
    apply list_elem_of_fmap in Hp as (g2 & -> & Hg2).
    apply list_elem_of_lookup in Hz as [k Hz].
    apply lookup_zip_Some in Hz as [Hk Hg].
    apply lookup_seq in Hk as [-> _]. simpl in *.
    apply list_elem_of_lookup in Hg2 as [m Hm]. rewrite lookup_drop in Hm.
    exists k, (k + 1 + m)%nat. split; [lia|done].
  - intros (i & j & Hij & Hi & Hj). exists (i, p.1). split.
    + apply list_elem_of_fmap. exists p.2. split; [by destruct p|].
      apply list_elem_of_lookup. exists (j - (i + 1))%nat.
      rewrite lookup_drop. by replace (i + 1 + (j - (i + 1)))%nat with j by lia.
    + apply list_elem_of_lookup. exists i. apply lookup_zip_Some.
      split; [|done]. apply lookup_seq. split; [done|].
      by eapply lookup_lt_Some.
Qed.

Lemma ascending_gems_NoDup all_gems : ascending_gems all_gems → NoDup all_gems.
Proof.
  intros Hasc. apply NoDup_alt. intros i j g Hi Hj.
  destruct (Nat.lt_trichotomy i j) as [Hlt|[->|Hlt]]; [|done|].
  - pose proof (Hasc i j g g Hlt Hi Hj) as H. by rewrite gem_ltb_irrefl in H.
  - pose proof (Hasc j i g g Hlt Hj Hi) as H. by rewrite gem_ltb_irrefl in H.
Qed.

Lemma NoDup_unordered_pairs all_gems :
  NoDup all_gems → NoDup (unordered_pairs all_gems).
Proof.
  intros Hnd. rewrite unordered_pairs_eq. apply NoDup_bind.
  - intros [i1 g1] [i2 g2] p H1 H2 Hp1 Hp2.
    apply list_elem_of_fmap in Hp1 as (? & -> & _).
    apply list_elem_of_fmap in Hp2 as (? & [= <- _] & _).
    apply list_elem_of_lookup in H1 as [k1 H1], H2 as [k2 H2].
    apply lookup_zip_Some in H1 as [Hk1 Hg1], H2 as [Hk2 Hg2].
    apply lookup_seq in Hk1 as [-> _], Hk2 as [-> _]. simpl.
    f_equal. by eapply NoDup_lookup.
  - intros [i g] _. apply (NoDup_fmap_2 _).
    apply (sublist_NoDup _ all_gems); [exact Hnd|apply sublist_drop].
  - apply NoDup_zip_l, NoDup_seq.
Qed.

(** The pairs of a sample are distinct and have the smaller gem first. *)
Lemma sample_unordered_pairs all_gems drawn k :
  ascending_gems all_gems → is_sample (unordered_pairs all_gems) drawn k →
  Z.of_nat (length drawn) = k
  ∧ k ≤ Z.of_nat (length (unordered_pairs all_gems))
  ∧ NoDup drawn
  ∧ ∀ p, p ∈ drawn → (gem_min p.1 p.2, gem_max p.1 p.2) = p.
Proof.
  intros Hasc (Hlen & positions & Hnd & Hall).
  pose proof (NoDup_unordered_pairs _ (ascending_gems_NoDup _ Hasc)) as Hpop.
  split; [done|]. split; [|split].
  - rewrite <- Hlen, <- (Forall2_length _ _ _ Hall).
    assert (positions ⊆+ seq 0 (length (unordered_pairs all_gems))) as Hsub.
    { apply NoDup_submseteq; [done|]. intros i Hi.
      apply list_elem_of_lookup in Hi as [a Ha].
      destruct (Forall2_lookup_l _ _ _ _ _ Hall Ha) as (x & _ & Hx).
      apply elem_of_seq. apply lookup_lt_Some in Hx. lia. }
    apply submseteq_length in Hsub. rewrite length_seq in Hsub. lia.
  - apply NoDup_alt. intros a b x Ha Hb.
    destruct (Forall2_lookup_r _ _ _ _ _ Hall Ha) as (pa & Hpa & Hxa).
    destruct (Forall2_lookup_r _ _ _ _ _ Hall Hb) as (pb & Hpb & Hxb).
    assert (pa = pb) as -> by by apply (NoDup_lookup _ pa pb x Hpop).
    by apply (NoDup_lookup _ a b pb Hnd).
  - intros p Hp. apply list_elem_of_lookup in Hp as [a Ha].
    destruct (Forall2_lookup_r _ _ _ _ _ Hall Ha) as (pa & _ & Hx).
    apply list_elem_of_lookup_2, elem_of_unordered_pairs in Hx
      as (i & j & Hij & Hi & Hj).
    pose proof (Hasc i j _ _ Hij Hi Hj) as Hlt.
    destruct (gem_min_max_cases p.1 p.2) as [[E _]|[_ E]].
    + rewrite E. by destruct p.
    + by rewrite (gem_ltb_antisym _ _ Hlt) in E.
Qed.

Lemma tile_choices_rotation s r : (s, r) ∈ tile_choices → 0 ≤ r ≤ 3.
Proof.
  unfold tile_choices. simpl. rewrite !elem_of_cons, elem_of_nil.
  intros H. repeat (destruct H as [[= -> ->]|H]; [lia|]). done.
Qed.

Section propose_board0_facts.
Context (all_gems : list Gem) (drawn : list Treasure)
  (choice : nat → TileShape * Z).
Context (Hchoice : ∀ n, choice n ∈ tile_choices).

Lemma propose_board0_tile_Ok columns calls cell (p : Treasure) :
  0 ≤ col cell * columns + row cell →
  drawn !! Z.to_nat (col cell * columns + row cell) = Some p →
  propose_board0_tile drawn choice columns calls cell
  = Ok (mkTile (choice calls).1 (choice calls).2
          (gem_min p.1 p.2, gem_max p.1 p.2)).
Proof.
  intros Hidx Hp. unfold propose_board0_tile.
  pose proof (Hchoice calls) as Hc. destruct (choice calls) as [s r].
  apply tile_choices_rotation in Hc.
  unfold list_getitem.
  destruct (decide (col cell * columns + row cell < 0)) as [|_]; [lia|].
  destruct (decide (0 ≤ col cell * columns + row cell)) as [_|]; [|lia].
  rewrite Hp. simpl.
  unfold Tile_init. by rewrite bool_decide_eq_false_2 by lia.
Qed.

Lemma propose_board0_tile_Raise columns calls cell :
  Z.of_nat (length drawn) ≤ col cell * columns + row cell →
  propose_board0_tile drawn choice columns calls cell = Raise IndexError.
Proof.
  intros Hidx. unfold propose_board0_tile. destruct (choice calls) as [s r].
  unfold list_getitem.
  destruct (decide (col cell * columns + row cell < 0)) as [|_]; [lia|].
  destruct (decide (0 ≤ col cell * columns + row cell)) as [_|]; [|lia].
  rewrite (proj2 (lookup_ge_None _ _)) by lia. done.
Qed.

Lemma propose_board0_loop_Raise columns e cells calls tiles :
  (∀ (i : nat) c, cells !! i = Some c →
     (∃ t, propose_board0_tile drawn choice columns (calls + i) c = Ok t)
     ∨ propose_board0_tile drawn choice columns (calls + i) c = Raise e) →
  (∃ (i : nat) c, cells !! i = Some c
     ∧ propose_board0_tile drawn choice columns (calls + i) c = Raise e) →
  propose_board0_loop drawn choice columns calls tiles cells = Raise e.
Proof.
  revert calls tiles. induction cells as [|cell cells IH]; intros calls tiles Hall Hex.
  { by destruct Hex as (i & c & ? & _). }
  simpl. destruct (Hall 0%nat cell eq_refl) as [[t Ht]|Ht];
    rewrite Nat.add_0_r in Ht; rewrite Ht; [|done].
  simpl. apply IH.
  - intros i c Hi. replace (S calls + i)%nat with (calls + S i)%nat by lia.
    by apply Hall.
  - destruct Hex as ([|i] & c & Hi & Hc).
    + simpl in Hi. injection Hi as <-. rewrite Nat.add_0_r in Hc. congruence.
    + exists i, c. split; [done|].
      by replace (S calls + i)%nat with (calls + S i)%nat by lia.
Qed.

Lemma propose_board0_loop_Ok columns cells calls tiles :
  NoDup cells →
  (∀ (i : nat) c, cells !! i = Some c →
     ∃ t, propose_board0_tile drawn choice columns (calls + i) c = Ok t) →
  ∃ tiles',
    propose_board0_loop drawn choice columns calls tiles cells = Ok tiles'
    ∧ ∀ c t, tiles' !! c = Some t ↔
        (∃ i : nat, cells !! i = Some c
           ∧ propose_board0_tile drawn choice columns (calls + i) c = Ok t)
        ∨ ((c ∉ cells) ∧ tiles !! c = Some t).
Proof.
  revert calls tiles. induction cells as [|cell cells IH];
    intros calls tiles Hnd Hall.
  { exists tiles. split; [done|]. intros c t. split.
    - intros H. right. split; [apply not_elem_of_nil|done].
    - intros [(i & ? & _)|[_ H]]; done. }
  apply NoDup_cons in Hnd as [Hcell Hnd].
  destruct (Hall 0%nat cell eq_refl) as [t0 Ht0].
  pose proof Ht0 as Ht0'. rewrite Nat.add_0_r in Ht0'.
  simpl. rewrite Ht0'. simpl.
  destruct (IH (S calls) (<[cell := t0]> tiles) Hnd) as (tiles' & Hloop & Hspec).
  { intros i c Hi. replace (S calls + i)%nat with (calls + S i)%nat by lia.
    by apply Hall. }
  exists tiles'. split; [done|]. intros c t. rewrite Hspec. split.
  - intros [(i & Hi & Ht)|[Hc Ht]].
    + left. exists (S i). split; [done|].
      by replace (calls + S i)%nat with (S calls + i)%nat by lia.
    + destruct (decide (c = cell)) as [->|Hne].
      * rewrite lookup_insert_eq in Ht. injection Ht as <-.
        left. by exists 0%nat.
      * rewrite lookup_insert_ne in Ht by done. right. split; [|done].
        rewrite not_elem_of_cons. done.
  - intros [([|i] & Hi & Ht)|[Hc Ht]].
    + simpl in Hi. injection Hi as <-. right. split; [done|].
      rewrite lookup_insert_eq. congruence.
    + left. exists i. split; [done|].
      by replace (S calls + i)%nat with (calls + S i)%nat by lia.
    + apply not_elem_of_cons in Hc as [Hne Hc]. right. split; [done|].
      by rewrite lookup_insert_ne.
Qed.

End propose_board0_facts.

Lemma board0_index_range columns rows c :
  0 ≤ col c < columns → 0 ≤ row c < rows →
  columns ≤ rows ∨ columns = 1 →
  0 ≤ col c * columns + row c < rows * columns.
Proof. intros Hc Hr Hcase. nia. Qed.

Lemma board0_index_inj columns rows c1 c2 :
  0 ≤ col c1 < columns → 0 ≤ row c1 < rows →
  0 ≤ col c2 < columns → 0 ≤ row c2 < rows →
  rows ≤ columns →
  col c1 * columns + row c1 = col c2 * columns + row c2 → c1 = c2.
Proof.
  intros H1 H1' H2 H2' Hcase E. destruct c1 as [x1 y1], c2 as [x2 y2].
  simpl in *.
  assert (x1 = x2) as -> by nia. f_equal. lia.
Qed.

Section propose_board0_cases.
Context (all_gems : list Gem) (drawn : list Treasure)
  (choice : nat → TileShape * Z) (rows columns : Z).
Context (Hrows : 1 ≤ rows) (Hcolumns : 1 ≤ columns).
Context (Hchoice : ∀ n, choice n ∈ tile_choices).
Context (Hlen : Z.of_nat (length drawn) = rows * columns).
Context (Hpairs : ∀ p : Treasure, p ∈ drawn → (gem_min p.1 p.2, gem_max p.1 p.2) = p).

(** The tile of a cell whose index is in the list. *)
Lemma board0_tile_in_range calls c :
  0 ≤ col c * columns + row c < rows * columns →
  ∃ p : Treasure,
    drawn !! Z.to_nat (col c * columns + row c) = Some p
    ∧ propose_board0_tile drawn choice columns calls c
      = Ok (mkTile (choice calls).1 (choice calls).2 p).
Proof.
  intros Hidx.
  destruct (lookup_lt_is_Some_2 drawn (Z.to_nat (col c * columns + row c)))
    as [p Hp]; [lia|].
  exists p. split; [done|].
  rewrite (propose_board0_tile_Ok drawn choice Hchoice columns calls c p) by (lia || done).
  rewrite Hpairs; [done|]. by eapply list_elem_of_lookup_2.
Qed.

Lemma board0_loop_in_range :
  columns ≤ rows ∨ columns = 1 →
  ∃ tiles,
    propose_board0_loop drawn choice columns 0 ∅ (rectangle columns rows)
    = Ok tiles
    ∧ ∀ c t, tiles !! c = Some t ↔
        0 ≤ col c < columns ∧ 0 ≤ row c < rows
        ∧ ∃ (i : nat) (p : Treasure),
            rectangle columns rows !! i = Some c
            ∧ drawn !! Z.to_nat (col c * columns + row c) = Some p
            ∧ t = mkTile (choice i).1 (choice i).2 p.
Proof.
  intros Hcase.
  destruct (propose_board0_loop_Ok drawn choice columns
              (rectangle columns rows) 0 ∅ (NoDup_rectangle _ _))
    as (tiles & Hloop & Hspec).
  { intros i c Hi.
    apply list_elem_of_lookup_2, elem_of_rectangle in Hi as [Hc Hr].
    destruct (board0_tile_in_range (0 + i) c) as (p & _ & Hp);
      [by apply board0_index_range|by eexists]. }
  exists tiles. split; [done|]. intros c t. rewrite Hspec. split.
  - intros [(i & Hi & Ht)|[_ Hemp]]; [|by rewrite lookup_empty in Hemp].
    pose proof Hi as [Hc Hr]%list_elem_of_lookup_2%elem_of_rectangle.
    split; [done|]. split; [done|].
    destruct (board0_tile_in_range (0 + i) c) as (p & Hp & Ht');
      [by apply board0_index_range|].
    rewrite Ht' in Ht. injection Ht as <-. by exists i, p.
  - intros (Hc & Hr & i & p & Hi & Hp & ->). left. exists i. split; [done|].
    destruct (board0_tile_in_range (0 + i) c) as (p' & Hp' & Ht');
      [by apply board0_index_range|].
    rewrite Hp in Hp'. injection Hp' as <-. done.
Qed.

End propose_board0_cases.

(** X29. [PlayerSetupImpl.propose_board0] returns a board only for a
    single column or a square. It raises [ValueError] when [rows] or
    [columns] is less than 1, and when there are fewer pairs of gems than
    cells. Otherwise, for every list [random.sample] can return and all
    results of [random.choice]: with fewer rows than columns the index
    [col * columns + row] into the sample runs past its end and
    [IndexError] is raised; with at least two columns and more rows than
    columns two cells get the same pair of gems and the constructor of the
    board raises [ValueError]; and with one column, or as many rows as
    columns, the result is a board the constructor accepts, [columns] wide
    and [rows] high, each tile of which has a shape and rotation of
    [tile_choices] and a pair of gems of the sample. *)
Theorem propose_board0_shapes (all_gems : list Gem) (drawn : list Treasure)
    (choice : nat → TileShape * Z) (rows columns : Z) :
  (rows < 1 ∨ columns < 1 →
     propose_board0 all_gems drawn choice rows columns = Raise ValueError)
  ∧ (1 ≤ rows → 1 ≤ columns →
     rows * columns > Z.of_nat (length (unordered_pairs all_gems)) →
     propose_board0 all_gems drawn choice rows columns = Raise ValueError)
  ∧ (1 ≤ rows → 1 ≤ columns →
     ascending_gems all_gems →
     (∀ n, choice n ∈ tile_choices) →
     is_sample (unordered_pairs all_gems) drawn (rows * columns) →
     (rows < columns →
        propose_board0 all_gems drawn choice rows columns = Raise IndexError)
     ∧ (2 ≤ columns < rows →
        propose_board0 all_gems drawn choice rows columns = Raise ValueError)
     ∧ (columns = 1 ∨ rows = columns →
        ∃ b, propose_board0 all_gems drawn choice rows columns = Ok b
             ∧ Board_ok b ∧ width b = columns ∧ height b = rows
             ∧ ∀ c t, tiles b !! c = Some t →
                 Tile_ok t ∧ (shape t, rotation t) ∈ tile_choices
                 ∧ gems t ∈ drawn)).
Proof.
  split; [|split].
  - intros H. unfold propose_board0.
    assert (bool_decide (rows < 1) || bool_decide (columns < 1) = true) as ->;
      [|done].
    destruct H; [rewrite (bool_decide_eq_true_2 (rows < 1)) by done; done|].
    rewrite (bool_decide_eq_true_2 (columns < 1)) by done. apply orb_true_r.
  - intros Hrows Hcolumns Hbig. unfold propose_board0.
    rewrite (bool_decide_eq_false_2 (rows < 1)) by lia.
    rewrite (bool_decide_eq_false_2 (columns < 1)) by lia. simpl.
    by rewrite bool_decide_eq_false_2 by lia.
  - intros Hrows Hcolumns Hasc Hchoice Hsample.
    destruct (sample_unordered_pairs _ _ _ Hasc Hsample)
      as (Hlen & Hle & Hnd & Hpairs).
    assert (Hstart : propose_board0 all_gems drawn choice rows columns
                     = tiles ← propose_board0_loop drawn choice columns 0 ∅
                                 (rectangle columns rows);
                       Board_init tiles columns rows).
    { unfold propose_board0.
      rewrite (bool_decide_eq_false_2 (rows < 1)) by lia.
      rewrite (bool_decide_eq_false_2 (columns < 1)) by lia. simpl.
      by rewrite bool_decide_eq_true_2 by nia. }
    rewrite Hstart. clear Hstart.
    split; [|split].
    + intros Hlt.
      rewrite (propose_board0_loop_Raise drawn choice columns IndexError); [done| |].
      * intros i c Hi.
        apply list_elem_of_lookup_2, elem_of_rectangle in Hi as [Hc Hr].
        destruct (decide (col c * columns + row c < rows * columns)) as [Hin|Hout].
        -- left.
           destruct (board0_tile_in_range drawn choice rows columns Hrows Hcolumns
                       Hchoice Hlen Hpairs (0 + i) c) as (p & _ & Hp); [nia|by eexists].
        -- right. apply propose_board0_tile_Raise. lia.
      * assert (Hcell : mkCoord (columns - 1) (rows - 1) ∈ rectangle columns rows)
          by (apply elem_of_rectangle; simpl; lia).
        apply list_elem_of_lookup in Hcell as [i Hi].
        exists i, (mkCoord (columns - 1) (rows - 1)). split; [done|].
        apply propose_board0_tile_Raise. simpl. nia.
    + intros Hlt.
      destruct (board0_loop_in_range drawn choice rows columns Hrows Hcolumns
                    Hchoice Hlen Hpairs)
        as (tiles & -> & Hspec); [lia|].
      simpl. destruct (Board_init tiles columns rows) as [b|e] eqn:Hb.
      * exfalso. apply Board_init_Ok in Hb as (_ & _ & _ & _ & Hdistinct).
        assert (Htile : ∀ c, c ∈ rectangle columns rows →
                  ∃ t p, tiles !! c = Some t
                    ∧ drawn !! Z.to_nat (col c * columns + row c) = Some p
                    ∧ gems t = p).
        { intros c Hc. pose proof Hc as [Hx Hy]%elem_of_rectangle.
          apply list_elem_of_lookup in Hc as [i Hi].
          destruct (lookup_lt_is_Some_2 drawn
                      (Z.to_nat (col c * columns + row c))) as [p Hp]; [nia|].
          exists (mkTile (choice i).1 (choice i).2 p), p.
          split; [|done]. apply Hspec. split; [done|]. split; [done|].
          by exists i, p. }
        destruct (Htile (mkCoord 0 columns)) as (t1 & p1 & Ht1 & Hp1 & Hg1);
          [apply elem_of_rectangle; simpl; lia|].
        destruct (Htile (mkCoord 1 0)) as (t2 & p2 & Ht2 & Hp2 & Hg2);
          [apply elem_of_rectangle; simpl; lia|].
        simpl in Hp1, Hp2.
        replace (1 * columns + 0) with (0 * columns + columns) in Hp2 by lia.
        rewrite Hp1 in Hp2. injection Hp2 as <-.
        assert (mkCoord 0 columns = mkCoord 1 0) as [=].
        { apply (Hdistinct _ _ t1 t2); congruence. }
      * by rewrite (Board_init_Raise _ _ _ _ Hb).
    + intros Hcase.
      destruct (board0_loop_in_range drawn choice rows columns Hrows Hcolumns
                    Hchoice Hlen Hpairs)
        as (tiles & -> & Hspec); [lia|].
      simpl. exists (mkBoard tiles columns rows).
      assert (Hb : Board_init tiles columns rows = Ok (mkBoard tiles columns rows)).
      { apply Board_init_Ok. split; [done|]. split; [lia|]. split; [lia|]. split.
        - intros c. split.
          + intros [t Ht]. apply Hspec in Ht as (? & ? & _). done.
          + intros [Hx Hy].
            assert (Hc : c ∈ rectangle columns rows) by by apply elem_of_rectangle.
            apply list_elem_of_lookup in Hc as [i Hi].
            destruct (lookup_lt_is_Some_2 drawn
                        (Z.to_nat (col c * columns + row c))) as [p Hp];
              [pose proof (board0_index_range columns rows c Hx Hy); lia|].
            exists (mkTile (choice i).1 (choice i).2 p).
            apply Hspec. split; [done|]. split; [done|]. by exists i, p.
        - intros c1 c2 t1 t2 Ht1 Ht2 Hg.
          apply Hspec in Ht1 as (Hx1 & Hy1 & i1 & p1 & _ & Hp1 & ->).
          apply Hspec in Ht2 as (Hx2 & Hy2 & i2 & p2 & _ & Hp2 & ->).
          simpl in Hg. subst p2.
          pose proof (NoDup_lookup _ _ _ _ Hnd Hp1 Hp2) as E.
          pose proof (board0_index_range columns rows c1 Hx1 Hy1).
          pose proof (board0_index_range columns rows c2 Hx2 Hy2).
          destruct Hcase as [->| ->].
          + destruct c1 as [x1 y1], c2 as [x2 y2]. simpl in *.
            assert (x1 = 0) as -> by lia. assert (x2 = 0) as -> by lia.
            f_equal. lia.
          + apply (board0_index_inj columns columns); try done; lia. }
      split; [done|]. split; [done|]. split; [done|]. split; [done|].
      intros c t Ht. simpl in Ht.
      apply Hspec in Ht as (_ & _ & i & p & _ & Hp & ->). simpl.
      pose proof (Hchoice i) as Hc. destruct (choice i) as [s r] eqn:E. simpl.
      split; [|split; [done|by eapply list_elem_of_lookup_2]].
      apply Tile_ok_inv. simpl. split.
      * by apply tile_choices_rotation in Hc.
      * apply Hpairs. by eapply list_elem_of_lookup_2.
Qed.

Lemma propose_board0_shapes_witness :
  (∃ b, propose_board0 ["a"; "b"; "c"; "d"]
          [("a", "b"); ("c", "d"); ("a", "d"); ("b", "c")]
          (λ n, if Nat.even n then (LINE, 0) else (CORNER, 2)) 2 2 = Ok b
        ∧ width b = 2 ∧ height b = 2)
  ∧ propose_board0 ["a"; "b"; "c"; "d"] [("a", "b"); ("c", "d")]
      (λ n, if Nat.even n then (LINE, 0) else (CORNER, 2)) 1 2
    = Raise IndexError
  ∧ propose_board0 ["a"; "b"; "c"; "d"]
      [("a", "b"); ("a", "c"); ("a", "d"); ("b", "c"); ("b", "d"); ("c", "d")]
      (λ n, if Nat.even n then (LINE, 0) else (CORNER, 2)) 3 2
    = Raise ValueError.
Proof.
  assert (Hasc : ascending_gems ["a"; "b"; "c"; "d"]).
  { intros i j g1 g2 Hij Hi Hj.
    destruct i as [|[|[|[|i]]]]; try discriminate Hi; injection Hi as <-;
      destruct j as [|[|[|[|j]]]]; try discriminate Hj; try lia;
      injection Hj as <-; reflexivity. }
  assert (Hchoice : ∀ n : nat,
            (if Nat.even n then (LINE, 0) else (CORNER, 2)) ∈ tile_choices).
  { intros n. destruct (Nat.even n); apply (bool_decide_unpack _);
      vm_compute; exact I. }
  split; [|split].
  - destruct (propose_board0_shapes ["a"; "b"; "c"; "d"]
                [("a", "b"); ("c", "d"); ("a", "d"); ("b", "c")]
                (λ n, if Nat.even n then (LINE, 0) else (CORNER, 2)) 2 2)
      as (_ & _ & H).
    destruct H as (_ & _ & H); [lia|lia|exact Hasc|exact Hchoice| |].
    + split; [reflexivity|]. exists [0; 5; 2; 3]%nat. split.
      * apply (bool_decide_unpack _). vm_compute. exact I.
      * repeat constructor.
    + destruct H as (b & Hb & _ & Hw & Hh & _); [right; reflexivity|].
      exists b. split; [exact Hb|]. split; [exact Hw|exact Hh].
  - destruct (propose_board0_shapes ["a"; "b"; "c"; "d"]
                [("a", "b"); ("c", "d")]
                (λ n, if Nat.even n then (LINE, 0) else (CORNER, 2)) 1 2)
      as (_ & _ & H).
    destruct H as (H & _ & _); [lia|lia|exact Hasc|exact Hchoice| |].
    + split; [reflexivity|]. exists [0; 5]%nat. split.
      * apply (bool_decide_unpack _). vm_compute. exact I.
      * repeat constructor.
    + apply H. lia.
  - destruct (propose_board0_shapes ["a"; "b"; "c"; "d"]
                [("a", "b"); ("a", "c"); ("a", "d"); ("b", "c"); ("b", "d");
                 ("c", "d")]
                (λ n, if Nat.even n then (LINE, 0) else (CORNER, 2)) 3 2)
      as (_ & _ & H).
    destruct H as (_ & H & _); [lia|lia|exact Hasc|exact Hchoice| |].
    + split; [reflexivity|]. exists [0; 1; 2; 3; 4; 5]%nat. split.
      * apply (bool_decide_unpack _). vm_compute. exact I.
      * repeat constructor.
    + apply H. lia.
Defined.
